(** * Splitr: balance computation of [getGroupExpenses] (convex/groups.js)

    A shallow embedding of the query handler [getGroupExpenses] and of the
    seven steps of its body: member lookup, ledger initialisation, expense
    folding, settlement folding, pairwise netting, per-member shaping and the
    final response.

    Modelling conventions.
    - JavaScript objects used as dictionaries ([totals], [ledger], each row
      [ledger[a]]) are association lists in insertion order, which is the
      order [Object.entries] enumerates string keys that are not array
      indices (Convex document ids never are).
    - Amounts are JavaScript numbers.  Module [Double] embeds their
      arithmetic: IEEE 754 doubles with round to nearest, ties to even,
      overflow to an infinity, and [NaN].  The top-level steps make the same
      assignments on unbounded integers, that is, with the results the
      doubles give as long as no operation rounds;
      [computeBalances_side_by_side] proves that the two computations agree
      on amounts that keep the arithmetic exact ([exactAmounts]).  What
      rounding can break is stated on [Double] under that condition, next
      to an input on which it breaks.
    - Reading an absent property yields [undefined] ([None]); arithmetic on
      [undefined] yields [NaN]; every comparison with [NaN] is false.
    - [Promise.all] over [map(async ...)] issues the store accesses of all
      its calls before any outcome is awaited ([promiseAll]).
    - Reading a property of [undefined] throws [TypeError]; a [throw]
      statement raises [Error msg].  Both are the [Throw] case of [result].
    - Document ids are ASCII strings; [a >= b] on ids is the lexicographic
      comparison [String.ltb]. *)

From Stdlib Require Import ZArith List Bool Lia.
From Stdlib Require Import Ascii String.
From Stdlib Require Import Permutation.
Import ListNotations.
Local Open Scope string_scope.
Local Open Scope list_scope.
Local Open Scope Z_scope.

(* ================================================================== *)
(** ** JavaScript values *)

Inductive number : Type :=
| Num (z : Z)
| NaN.

(** [ToNumber] on a property read: [undefined] becomes [NaN]. *)
Definition toNumber (v : option number) : number :=
  match v with
  | Some n => n
  | None => NaN
  end.

Definition add (x y : number) : number :=
  match x, y with
  | Num a, Num b => Num (a + b)
  | _, _ => NaN
  end.

Definition sub (x y : number) : number :=
  match x, y with
  | Num a, Num b => Num (a - b)
  | _, _ => NaN
  end.

Definition neg (x : number) : number :=
  match x with
  | Num a => Num (- a)
  | NaN => NaN
  end.

(** [v > 0] *)
Definition gt0 (x : number) : bool :=
  match x with
  | Num a => 0 <? a
  | NaN => false
  end.

(** [v < 0] *)
Definition lt0 (x : number) : bool :=
  match x with
  | Num a => a <? 0
  | NaN => false
  end.

(* ================================================================== *)
(** ** Objects as insertion-ordered dictionaries *)

Definition obj (V : Type) : Type := list (string * V).

(** [o[k]] *)
Fixpoint get {V : Type} (o : obj V) (k : string) : option V :=
  match o with
  | [] => None
  | (k', v) :: o' => if String.eqb k k' then Some v else get o' k
  end.

(** [o[k] = v]: an existing key keeps its position, a new key is appended. *)
Fixpoint set {V : Type} (o : obj V) (k : string) (v : V) : obj V :=
  match o with
  | [] => [(k, v)]
  | (k', v') :: o' =>
      if String.eqb k k' then (k', v) :: o' else (k', v') :: set o' k v
  end.

(** [Object.fromEntries] *)
Definition fromEntries {V : Type} (l : list (string * V)) : obj V :=
  fold_left (fun o kv => set o (fst kv) (snd kv)) l [].

(** [Object.entries] *)
Definition entries {V : Type} (o : obj V) : list (string * V) := o.

(* ================================================================== *)
(** ** Exceptions *)

Inductive exn : Type :=
| TypeError
| Error (msg : string).

Inductive result (A : Type) : Type :=
| Ok (a : A)
| Throw (e : exn).

Arguments Ok {A} a.
Arguments Throw {A} e.

Definition bind {A B : Type} (r : result A) (k : A -> result B) : result B :=
  match r with
  | Ok a => k a
  | Throw e => Throw e
  end.

Notation "x <- c ;; k" := (bind c (fun x => k))
  (at level 61, c at next level, right associativity).

(** [l.forEach(f)] / [for (const x of l)] over a threaded state. *)
Fixpoint forEach {A S : Type} (l : list A) (f : A -> S -> result S) (s : S)
  : result S :=
  match l with
  | [] => Ok s
  | x :: l' => s' <- f x s ;; forEach l' f s'
  end.

(** [l.map(f)] where [f] may throw. *)
Fixpoint mapM {A B : Type} (f : A -> result B) (l : list A) : result (list B) :=
  match l with
  | [] => Ok []
  | x :: l' => y <- f x ;; ys <- mapM f l' ;; Ok (y :: ys)
  end.

(** [l.filter(p)] where [p] may throw. *)
Fixpoint filterM {A : Type} (p : A -> result bool) (l : list A)
  : result (list A) :=
  match l with
  | [] => Ok []
  | x :: l' =>
      keep <- p x ;; xs <- filterM p l' ;;
      Ok (if keep then x :: xs else xs)
  end.

(* ================================================================== *)
(** ** Documents *)

Record Split : Type := mkSplit {
  userId : string;
  amount : Z;
  paid : bool
}.

Record Expense : Type := mkExpense {
  exp_groupId : string;
  paidByUserId : string;
  splits : list Split
}.

Record Settlement : Type := mkSettlement {
  stl_groupId : string;
  stl_paidByUserId : string;
  stl_receivedByUserId : string;
  stl_amount : Z
}.

(** An element of [memberDetails]. *)
Record MemberDetail : Type := mkMemberDetail {
  id : string;
  name : string;
  imageUrl : string;
  role : string
}.

(* ================================================================== *)
(** ** The two ledgers of the handler *)

Definition Totals : Type := obj number.
Definition Ledger : Type := obj (obj number).

Record State : Type := mkState {
  totals : Totals;
  ledger : Ledger
}.

(** Read [ledger[a][b]] as a number; [ledger[a]] must be an object. *)
Definition getCell (L : Ledger) (a b : string) : result number :=
  match get L a with
  | None => Throw TypeError
  | Some row => Ok (toNumber (get row b))
  end.

(** [ledger[a][b] = v] *)
Definition setCell (L : Ledger) (a b : string) (v : number) : result Ledger :=
  match get L a with
  | None => Throw TypeError
  | Some row => Ok (set L a (set row b v))
  end.

(** [totals[k] += d] *)
Definition addTotal (T : Totals) (k : string) (d : Z) : Totals :=
  set T k (add (toNumber (get T k)) (Num d)).

(** [totals[k] -= d] *)
Definition subTotal (T : Totals) (k : string) (d : Z) : Totals :=
  set T k (sub (toNumber (get T k)) (Num d)).

(** *** Step 2: initialise ledgers *)

Definition initTotals (ids : list string) : Totals :=
  fromEntries (map (fun i => (i, Num 0)) ids).

Definition initLedger (ids : list string) : result Ledger :=
  forEach ids (fun a L =>
    let L := set L a [] in
    forEach ids (fun b L =>
      if negb (String.eqb a b) then setCell L a b (Num 0) else Ok L) L) [].

Definition initState (ids : list string) : result State :=
  L <- initLedger ids ;; Ok (mkState (initTotals ids) L).

(** *** Step 3: apply expenses *)

Definition applySplit (payer : string) (split : Split) (st : State)
  : result State :=
  if String.eqb (userId split) payer || paid split then Ok st
  else
    let debtor := userId split in
    let amt := amount split in
    let T := addTotal (totals st) payer amt in
    let T := subTotal T debtor amt in
    cur <- getCell (ledger st) debtor payer ;;
    L <- setCell (ledger st) debtor payer (add cur (Num amt)) ;;
    Ok (mkState T L).

Definition applyExpense (exp : Expense) (st : State) : result State :=
  let payer := paidByUserId exp in
  forEach (splits exp) (applySplit payer) st.

Definition applyExpenses (expenses : list Expense) (st : State)
  : result State :=
  forEach expenses applyExpense st.

(** *** Step 4: apply settlements *)

Definition applySettlement (s : Settlement) (st : State) : result State :=
  let T := addTotal (totals st) (stl_paidByUserId s) (stl_amount s) in
  let T := subTotal T (stl_receivedByUserId s) (stl_amount s) in
  cur <- getCell (ledger st) (stl_paidByUserId s) (stl_receivedByUserId s) ;;
  L <- setCell (ledger st) (stl_paidByUserId s) (stl_receivedByUserId s)
         (sub cur (Num (stl_amount s))) ;;
  Ok (mkState T L).

Definition applySettlements (settlements : list Settlement) (st : State)
  : result State :=
  forEach settlements applySettlement st.

(** *** Step 5: net off ledger balances *)

(** [a >= b] on ids *)
Definition geb (a b : string) : bool := negb (String.ltb a b).

Definition netPair (a b : string) (st : State) : result State :=
  if geb a b then Ok st
  else
    x <- getCell (ledger st) a b ;;
    y <- getCell (ledger st) b a ;;
    let diff := sub x y in
    if gt0 diff then
      L <- setCell (ledger st) a b diff ;;
      L <- setCell L b a (Num 0) ;;
      Ok (mkState (totals st) L)
    else if lt0 diff then
      L <- setCell (ledger st) b a (neg diff) ;;
      L <- setCell L a b (Num 0) ;;
      Ok (mkState (totals st) L)
    else
      L <- setCell (ledger st) b a (Num 0) ;;
      L <- setCell L a b (Num 0) ;;
      Ok (mkState (totals st) L).

Definition netLedger (ids : list string) (st : State) : result State :=
  forEach ids (fun a st => forEach ids (fun b st => netPair a b st) st) st.

(** *** Step 6: shape balances per member *)

Record Balance : Type := mkBalance {
  member : MemberDetail;
  totalBalance : option number;
  owes : list (string * number);      (* [{to, amount}] *)
  owedBy : list (string * number)     (* [{from, amount}] *)
}.

Definition shapeBalance (ids : list string) (st : State) (m : MemberDetail)
  : result Balance :=
  let totalBalance := get (totals st) (id m) in
  match get (ledger st) (id m) with
  | None => Throw TypeError
  | Some row =>
      let owes := filter (fun e => gt0 (snd e)) (entries row) in
      debtors <- filterM (fun other =>
                   v <- getCell (ledger st) other (id m) ;; Ok (gt0 v)) ids ;;
      owedBy <- mapM (fun other =>
                   v <- getCell (ledger st) other (id m) ;; Ok (other, v))
                  debtors ;;
      Ok (mkBalance m totalBalance owes owedBy)
  end.

Definition shapeBalances (memberDetails : list MemberDetail) (st : State)
  : result (list Balance) :=
  let ids := map id memberDetails in
  mapM (shapeBalance ids st) memberDetails.

(** *** Steps 2 to 6 on gathered records *)

Definition preNetting (ids : list string) (expenses : list Expense)
  (settlements : list Settlement) : result State :=
  st <- initState ids ;;
  st <- applyExpenses expenses st ;;
  applySettlements settlements st.

Definition computeBalances (memberDetails : list MemberDetail)
  (expenses : list Expense) (settlements : list Settlement)
  : result (list Balance) :=
  let ids := map id memberDetails in
  st <- preNetting ids expenses settlements ;;
  st <- netLedger ids st ;;
  shapeBalances memberDetails st.

(* ================================================================== *)
(** ** The query handler and its gather phase *)

Record Member : Type := mkMember {
  mem_userId : string;
  mem_role : string
}.

Record Group : Type := mkGroup {
  grp_id : string;
  grp_name : string;
  grp_description : string;
  grp_members : list Member
}.

Record User : Type := mkUser {
  usr_id : string;
  usr_name : string;
  usr_imageUrl : string
}.

(** The query context: the stored tables and the outcome of
    [internal.users.getCurrentUser], whose code lives in another module. *)
Record Ctx : Type := mkCtx {
  getCurrentUser : result User;
  db_groups : list Group;
  db_users : list User;
  db_expenses : list Expense;
  db_settlements : list Settlement
}.

(** Store accesses, in the order the handler issues them. *)
Inductive event : Type :=
| RunCurrentUser
| GetGroup (groupId : string)
| QueryExpenses (groupId : string)
| QuerySettlements (groupId : string)
| GetUser (userId : string).

(** A handler computation: the accesses it made and how it ended. *)
Definition io (A : Type) : Type := (list event * result A)%type.

Definition io_ret {A : Type} (a : A) : io A := ([], Ok a).

Definition io_throw {A : Type} (e : exn) : io A := ([], Throw e).

Definition io_lift {A : Type} (r : result A) : io A := ([], r).

Definition io_bind {A B : Type} (c : io A) (k : A -> io B) : io B :=
  match c with
  | (log, Ok a) => let (log', r) := k a in (log ++ log', r)
  | (log, Throw e) => (log, Throw e)
  end.

Notation "x <~ c ;; k" := (io_bind c (fun x => k))
  (at level 61, c at next level, right associativity).

(** [await Promise.all(l.map(async (x) => f x))].  Every call starts, and
    issues its store accesses, before any outcome is awaited: the accesses
    of all the calls are made, in list order, also when one of them fails.
    The outcome is the list of results, or the failure of the first call
    in list order that fails. *)
Fixpoint promiseAll {A B : Type} (f : A -> io B) (l : list A)
  : io (list B) :=
  match l with
  | [] => ([], Ok [])
  | x :: l' =>
      let (log, r) := f x in
      let (logs, rs) := promiseAll f l' in
      (log ++ logs, y <- r ;; ys <- rs ;; Ok (y :: ys))
  end.

Definition runCurrentUser (ctx : Ctx) : io User :=
  ([RunCurrentUser], getCurrentUser ctx).

Definition getGroup (ctx : Ctx) (groupId : string) : io (option Group) :=
  ([GetGroup groupId],
   Ok (find (fun g => String.eqb (grp_id g) groupId) (db_groups ctx))).

Definition getUser (ctx : Ctx) (userId : string) : io (option User) :=
  ([GetUser userId],
   Ok (find (fun u => String.eqb (usr_id u) userId) (db_users ctx))).

Definition queryExpenses (ctx : Ctx) (groupId : string) : io (list Expense) :=
  ([QueryExpenses groupId],
   Ok (filter (fun e => String.eqb (exp_groupId e) groupId) (db_expenses ctx))).

Definition querySettlements (ctx : Ctx) (groupId : string)
  : io (list Settlement) :=
  ([QuerySettlements groupId],
   Ok (filter (fun s => String.eqb (stl_groupId s) groupId)
         (db_settlements ctx))).

Record GroupInfo : Type := mkGroupInfo {
  gi_id : string;
  gi_name : string;
  gi_description : string
}.

Record Response : Type := mkResponse {
  rsp_group : GroupInfo;
  rsp_members : list MemberDetail;
  rsp_expenses : list Expense;
  rsp_settlements : list Settlement;
  rsp_balances : list Balance;
  rsp_userLookupMap : obj MemberDetail
}.

(** Step 1: one member of [group.members] to its detail record; a missing
    user document makes [u._id] throw. *)
Definition memberDetail (ctx : Ctx) (m : Member) : io MemberDetail :=
  u <~ getUser ctx (mem_userId m) ;;
  match u with
  | None => io_throw TypeError
  | Some u =>
      io_ret (mkMemberDetail (usr_id u) (usr_name u) (usr_imageUrl u)
                (mem_role m))
  end.

(** Step 7 *)
Definition userLookupMap (memberDetails : list MemberDetail)
  : obj MemberDetail :=
  fold_left (fun o m => set o (id m) m) memberDetails [].

Definition getGroupExpenses (ctx : Ctx) (groupId : string) : io Response :=
  currentUser <~ runCurrentUser ctx ;;
  group <~ getGroup ctx groupId ;;
  match group with
  | None => io_throw (Error "Group not found")
  | Some group =>
      if negb (existsb (fun m => String.eqb (mem_userId m) (usr_id currentUser))
                 (grp_members group))
      then io_throw (Error "You are not a member of this group")
      else
        expenses <~ queryExpenses ctx groupId ;;
        settlements <~ querySettlements ctx groupId ;;
        memberDetails <~ promiseAll (memberDetail ctx) (grp_members group) ;;
        balances <~ io_lift (computeBalances memberDetails expenses
                               settlements) ;;
        io_ret (mkResponse
                  (mkGroupInfo (grp_id group) (grp_name group)
                     (grp_description group))
                  memberDetails expenses settlements balances
                  (userLookupMap memberDetails))
  end.

(* ================================================================== *)
(** ** Predicates and functions used in the statements *)

(** The raw content of [ledger[a][b]], [None] when the row or the entry is
    absent.  Used in statements only; the handler reads through [getCell]. *)
Definition cell (L : Ledger) (a b : string) : option number :=
  match get L a with
  | Some row => get row b
  | None => None
  end.

(** Every roster member has a row object. *)
Definition hasRows (ids : list string) (L : Ledger) : Prop :=
  forall a, In a ids -> get L a <> None.

(** Every entry between two distinct roster members holds an amount. *)
Definition numericLedger (ids : list string) (L : Ledger) : Prop :=
  forall a b, In a ids -> In b ids -> a <> b ->
    exists z, cell L a b = Some (Num z).

(** At most one direction of the pair is nonzero, and it is positive. *)
Definition canonicalPair (L : Ledger) (a b : string) : Prop :=
  exists x y, cell L a b = Some (Num x) /\ cell L b a = Some (Num y) /\
    0 <= x /\ 0 <= y /\ (x = 0 \/ y = 0).

Definition canonicalLedger (ids : list string) (L : Ledger) : Prop :=
  forall a b, In a ids -> In b ids -> a <> b -> canonicalPair L a b.

(** What step 5 writes into [ledger[a][b]] and [ledger[b][a]] from their
    previous contents. *)
Definition netted (x y : number) : number * number :=
  let diff := sub x y in
  if gt0 diff then (diff, Num 0)
  else if lt0 diff then (Num 0, neg diff)
  else (Num 0, Num 0).

Definition sameRows (L L' : Ledger) : Prop :=
  forall c, get L' c = None <-> get L c = None.

(** The signed net debt of [a] towards [b], as step 5 computes [diff]. *)
Definition net (L : Ledger) (a b : string) : number :=
  sub (toNumber (cell L a b)) (toNumber (cell L b a)).

(** Diagonal entries [ledger[a][a]], when present, are [NaN]. *)
Definition diagNaN (L : Ledger) : Prop :=
  forall a row v, get L a = Some row -> In (a, v) row -> v = NaN.

Definition validExpense (ids : list string) (e : Expense) : Prop :=
  In (paidByUserId e) ids /\
  forall sp, In sp (splits e) -> In (userId sp) ids.

Definition validSettlement (ids : list string) (s : Settlement) : Prop :=
  In (stl_paidByUserId s) ids /\ In (stl_receivedByUserId s) ids.

(** Every payer, split member and receiver belongs to the roster. *)
Definition validInput (ids : list string) (expenses : list Expense)
  (settlements : list Settlement) : Prop :=
  (forall e, In e expenses -> validExpense ids e) /\
  (forall s, In s settlements -> validSettlement ids s).

Definition numericTotals (ids : list string) (T : Totals) : Prop :=
  forall a, In a ids -> exists z, get T a = Some (Num z).

(** The amount held by [totals[a]]. *)
Definition tval (T : Totals) (a : string) : Z :=
  match get T a with
  | Some (Num z) => z
  | _ => 0
  end.

Definition tsum (ids : list string) (T : Totals) : Z :=
  fold_right (fun a acc => tval T a + acc) 0 ids.

(** [values.reduce((s, v) => s + v, 0)] *)
Definition sumNumbers (values : list (option number)) : number :=
  fold_left (fun acc v => add acc (toNumber v)) values (Num 0).

Definition wfState (ids : list string) (st : State) : Prop :=
  hasRows ids (ledger st) /\
  numericLedger ids (ledger st) /\
  numericTotals ids (totals st).

(** The [owedBy] list of member [m], as step 6 builds it. *)
Definition owedByOf (ids : list string) (L : Ledger) (m : string)
  : list (string * number) :=
  map (fun other => (other, toNumber (cell L other m)))
    (filter (fun other => gt0 (toNumber (cell L other m))) ids).

(** The guard of step 3: [split.userId === payer || split.paid]. *)
Definition skipped (payer : string) (sp : Split) : bool :=
  String.eqb (userId sp) payer || paid sp.

(** Rows exist for roster members only. *)
Definition rowsWithin (ids : list string) (L : Ledger) : Prop :=
  forall a, get L a <> None -> In a ids.

(** A row without its own member's key. *)
Definition offdiag (a : string) (row : obj number) : obj number :=
  filter (fun e => negb (String.eqb (fst e) a)) row.

(** A ledger without its diagonal entries. *)
Definition strip (L : Ledger) : Ledger :=
  map (fun ar => (fst ar, offdiag (fst ar) (snd ar))) L.

(** Same net totals, same ledger off the diagonal. *)
Definition sim (st st' : State) : Prop :=
  totals st = totals st' /\ strip (ledger st) = strip (ledger st').

(** Two outcomes that agree up to a relation on their values. *)
Definition rel_result {A : Type} (R : A -> A -> Prop) (r1 r2 : result A)
  : Prop :=
  match r1, r2 with
  | Ok a1, Ok a2 => R a1 a2
  | Throw e1, Throw e2 => e1 = e2
  | _, _ => False
  end.

(* ================================================================== *)
(** ** Sample records *)

Definition md (i : string) : MemberDetail := mkMemberDetail i i "" "member".

Definition scenarioA_expenses : list Expense :=
  [mkExpense "g" "A" [mkSplit "A" 10 false; mkSplit "B" 10 false;
                      mkSplit "C" 10 false]].

Definition canonical_example : State :=
  mkState [("A", Num 5); ("B", Num (-5)); ("C", Num 0)]
          [("A", [("B", Num 0); ("C", Num 0)]);
           ("B", [("A", Num 5); ("C", Num 0)]);
           ("C", [("A", Num 0); ("B", Num 0)])].

Definition overpaid_example : State :=
  mkState [("A", Num 5); ("B", Num 5); ("C", Num (-10))]
          [("A", [("B", Num 0); ("C", Num 0)]);
           ("B", [("A", Num (-5)); ("C", Num 0)]);
           ("C", [("A", Num 10); ("B", Num 0)])].

(** The state of Scenario A after step 3, before any settlement. *)
Definition afterExpensesA : State :=
  mkState [("A", Num 20); ("B", Num (-10)); ("C", Num (-10))]
          [("A", [("B", Num 0); ("C", Num 0)]);
           ("B", [("A", Num 10); ("C", Num 0)]);
           ("C", [("A", Num 10); ("B", Num 0)])].

Definition ctx_example : Ctx :=
  mkCtx (Ok (mkUser "Z" "Zoe" ""))
    [mkGroup "g" "Trip" "" [mkMember "A" "admin"; mkMember "B" "member"]]
    [mkUser "A" "Ann" ""; mkUser "B" "Bob" ""; mkUser "Z" "Zoe" ""]
    [mkExpense "g" "A" [mkSplit "B" 10 false]]
    [].

(* ================================================================== *)
(** ** Tactics *)

Ltac eqb_cases a b :=
  let E := fresh "E" in
  destruct (String.eqb a b) eqn:E;
  [apply String.eqb_eq in E; try subst | apply String.eqb_neq in E].

Ltac roster_cases :=
  simpl; intros;
  repeat match goal with
         | H : _ \/ _ |- _ => destruct H
         | H : False |- _ => destruct H
         end;
  subst; try congruence.

(* ================================================================== *)
(** ** Further predicates *)

(** Every stored entry of the ledger is the amount zero. *)
Definition allZero (L : Ledger) : Prop :=
  forall a row k v, get L a = Some row -> In (k, v) row -> v = Num 0.

(* ================================================================== *)
(** ** The query [getGroupOrMembers] *)

(** A user document with the fields this query reads. *)
Record UserDoc : Type := mkUserDoc {
  ud_id : string;
  ud_name : string;
  ud_email : string;
  ud_imageUrl : string
}.

(** A group document with the fields this query reads. *)
Record GroupDoc : Type := mkGroupDoc {
  gd_id : string;
  gd_name : string;
  gd_description : string;
  gd_createdBy : string;
  gd_members : list Member
}.

(** What the query can see: the outcome of
    [internal.users.getCurrentUser] and the two tables it reads. *)
Record Store : Type := mkStore {
  sto_currentUser : result UserDoc;
  sto_groups : list GroupDoc;
  sto_users : list UserDoc
}.

(** Store accesses of this query. *)
Inductive access : Type :=
| AskCurrentUser
| CollectGroups
| FetchUser (userId : string).

Definition tr (A : Type) : Type := (list access * result A)%type.

Definition tr_ret {A : Type} (a : A) : tr A := ([], Ok a).

Definition tr_throw {A : Type} (e : exn) : tr A := ([], Throw e).

Definition tr_bind {A B : Type} (c : tr A) (k : A -> tr B) : tr B :=
  match c with
  | (log, Ok a) => let (log', r) := k a in (log ++ log', r)
  | (log, Throw e) => (log, Throw e)
  end.

Notation "x <~~ c ;; k" := (tr_bind c (fun x => k))
  (at level 61, c at next level, right associativity).

Fixpoint tr_mapM {A B : Type} (f : A -> tr B) (l : list A) : tr (list B) :=
  match l with
  | [] => tr_ret []
  | x :: l' => y <~~ f x ;; ys <~~ tr_mapM f l' ;; tr_ret (y :: ys)
  end.

Definition askCurrentUser (s : Store) : tr UserDoc :=
  ([AskCurrentUser], sto_currentUser s).

Definition collectGroups (s : Store) : tr (list GroupDoc) :=
  ([CollectGroups], Ok (sto_groups s)).

Definition fetchUser (s : Store) (userId : string) : tr (option UserDoc) :=
  ([FetchUser userId],
   Ok (find (fun u => String.eqb (ud_id u) userId) (sto_users s))).

Record MemberInfo : Type := mkMemberInfo {
  mi_id : string;
  mi_name : string;
  mi_email : string;
  mi_imageUrl : string;
  mi_role : string
}.

Record SelectedGroup : Type := mkSelectedGroup {
  sg_id : string;
  sg_name : string;
  sg_description : string;
  sg_createdBy : string;
  sg_members : list MemberInfo
}.

Record GroupSummary : Type := mkGroupSummary {
  gs_id : string;
  gs_name : string;
  gs_description : string;
  gs_memberCount : nat
}.

Record Selection : Type := mkSelection {
  sel_selectedGroup : option SelectedGroup;
  sel_groups : list GroupSummary
}.

(** [if (args.groupId)]: an absent or empty id is falsy. *)
Definition truthy (groupId : option string) : bool :=
  match groupId with
  | Some g => negb (String.eqb g "")
  | None => false
  end.

(** [group._id === args.groupId] *)
Definition isGroup (groupId : option string) (group : GroupDoc) : bool :=
  match groupId with
  | Some g => String.eqb (gd_id group) g
  | None => false
  end.

(** [group.members.some((member) => member.userId === currentUser._id)] *)
Definition hasMember (currentUser : UserDoc) (group : GroupDoc) : bool :=
  existsb (fun member => String.eqb (mem_userId member) (ud_id currentUser))
    (gd_members group).

Definition groupSummary (group : GroupDoc) : GroupSummary :=
  mkGroupSummary (gd_id group) (gd_name group) (gd_description group)
    (List.length (gd_members group)).

(** One member of the selected group: [null] when the user document is
    gone. *)
Definition memberInfo (s : Store) (member : Member) : tr (option MemberInfo) :=
  user <~~ fetchUser s (mem_userId member) ;;
  match user with
  | None => tr_ret None
  | Some user =>
      tr_ret (Some (mkMemberInfo (ud_id user) (ud_name user) (ud_email user)
                      (ud_imageUrl user) (mem_role member)))
  end.

(** [memberDetails.filter((member) => member !== null)] *)
Fixpoint dropNull {A : Type} (l : list (option A)) : list A :=
  match l with
  | [] => []
  | Some a :: l' => a :: dropNull l'
  | None :: l' => dropNull l'
  end.

Definition getGroupOrMembers (s : Store) (groupId : option string)
  : tr Selection :=
  currentUser <~~ askCurrentUser s ;;
  allGroups <~~ collectGroups s ;;
  let userGroups := filter (hasMember currentUser) allGroups in
  if truthy groupId then
    match find (isGroup groupId) userGroups with
    | None => tr_throw (Error "Group not found or you're not a member")
    | Some selectedGroup =>
        memberDetails <~~ tr_mapM (memberInfo s) (gd_members selectedGroup) ;;
        let validMembers := dropNull memberDetails in
        tr_ret (mkSelection
                  (Some (mkSelectedGroup (gd_id selectedGroup)
                           (gd_name selectedGroup)
                           (gd_description selectedGroup)
                           (gd_createdBy selectedGroup) validMembers))
                  (map groupSummary userGroups))
    end
  else
    tr_ret (mkSelection None (map groupSummary userGroups)).

(** The part of a store that [getGroupExpenses] reads, with the expense
    and settlement tables beside it. *)
Definition userOfDoc (u : UserDoc) : User :=
  mkUser (ud_id u) (ud_name u) (ud_imageUrl u).

Definition groupOfDoc (g : GroupDoc) : Group :=
  mkGroup (gd_id g) (gd_name g) (gd_description g) (gd_members g).

Definition ctxOfStore (s : Store) (expenses : list Expense)
  (settlements : list Settlement) : Ctx :=
  mkCtx (bind (sto_currentUser s) (fun u => Ok (userOfDoc u)))
        (map groupOfDoc (sto_groups s)) (map userOfDoc (sto_users s))
        expenses settlements.

(** A member record without the e-mail address. *)
Definition detailOfInfo (m : MemberInfo) : MemberDetail :=
  mkMemberDetail (mi_id m) (mi_name m) (mi_imageUrl m) (mi_role m).

Definition store_example : Store :=
  mkStore (Ok (mkUserDoc "A" "Ann" "ann@x.org" ""))
    [mkGroupDoc "g" "Trip" "" "A"
       [mkMember "A" "admin"; mkMember "B" "member"; mkMember "D" "member"];
     mkGroupDoc "h" "Flat" "" "B" [mkMember "B" "admin"];
     mkGroupDoc "k" "Club" "" "A" [mkMember "A" "admin"]]
    [mkUserDoc "A" "Ann" "ann@x.org" ""; mkUserDoc "B" "Bob" "bob@x.org" ""].

(** The detail record [getGroupOrMembers] builds for a member, [None] when
    the user document is gone. *)
Definition lookupInfo (s : Store) (member : Member) : option MemberInfo :=
  match find (fun u => String.eqb (ud_id u) (mem_userId member)) (sto_users s)
  with
  | None => None
  | Some user =>
      Some (mkMemberInfo (ud_id user) (ud_name user) (ud_email user)
              (ud_imageUrl user) (mem_role member))
  end.

(** The member's user document is stored. *)
Definition hasDoc (s : Store) (userId : string) : bool :=
  existsb (fun u => String.eqb (ud_id u) userId) (sto_users s).

(** The user is listed in the group's [members]. *)
Definition listsUser (u : UserDoc) (g : GroupDoc) : Prop :=
  exists m, In m (gd_members g) /\ mem_userId m = ud_id u.

(** The detail record step 1 of [getGroupExpenses] builds for a member,
    [None] when the user document is gone. *)
Definition lookupDetail (ctx : Ctx) (m : Member) : option MemberDetail :=
  match find (fun u => String.eqb (usr_id u) (mem_userId m)) (db_users ctx)
  with
  | None => None
  | Some u =>
      Some (mkMemberDetail (usr_id u) (usr_name u) (usr_imageUrl u)
              (mem_role m))
  end.

Definition store_single : Store :=
  mkStore (Ok (mkUserDoc "B" "Bob" "bob@x.org" ""))
    [mkGroupDoc "h" "Flat" "" "B" [mkMember "B" "admin"]]
    [mkUserDoc "B" "Bob" "bob@x.org" ""].

(** No row holds two entries under one key. *)
Definition rowsNoDup (L : Ledger) : Prop :=
  forall a row, get L a = Some row -> NoDup (map fst row).

(* ================================================================== *)
(** ** Sums over the records *)

Definition sumOver {A : Type} (c : A -> Z) (l : list A) : Z :=
  fold_right (fun x acc => c x + acc) 0 l.

(** The amount held by [ledger[a][b]]. *)
Definition cval (L : Ledger) (a b : string) : Z :=
  match cell L a b with
  | Some (Num z) => z
  | _ => 0
  end.

(** What one split of an expense paid by [payer] makes [a] owe [b]. *)
Definition splitDebt (payer : string) (sp : Split) (a b : string) : Z :=
  if skipped payer sp then 0
  else if String.eqb (userId sp) a && String.eqb payer b then amount sp
  else 0.

(** What the expenses make [a] owe [b]: the unpaid splits of [a] in the
    expenses paid by [b]. *)
Definition debt (expenses : list Expense) (a b : string) : Z :=
  sumOver (fun e =>
    sumOver (fun sp => splitDebt (paidByUserId e) sp a b) (splits e))
    expenses.

(** What the settlements record as paid by [a] to [b]. *)
Definition repaid (settlements : list Settlement) (a b : string) : Z :=
  sumOver (fun s =>
    if String.eqb (stl_paidByUserId s) a && String.eqb (stl_receivedByUserId s) b
    then stl_amount s else 0) settlements.

(** What one split adds to the net total of [a]. *)
Definition splitNet (payer : string) (sp : Split) (a : string) : Z :=
  if skipped payer sp then 0
  else (if String.eqb payer a then amount sp else 0)
       - (if String.eqb (userId sp) a then amount sp else 0).

Definition netOfExpenses (expenses : list Expense) (a : string) : Z :=
  sumOver (fun e =>
    sumOver (fun sp => splitNet (paidByUserId e) sp a) (splits e)) expenses.

(** What one settlement adds to the net total of [a]. *)
Definition settlementNet (s : Settlement) (a : string) : Z :=
  (if String.eqb (stl_paidByUserId s) a then stl_amount s else 0)
  - (if String.eqb (stl_receivedByUserId s) a then stl_amount s else 0).

Definition netOfSettlements (settlements : list Settlement) (a : string) : Z :=
  sumOver (fun s => settlementNet s a) settlements.

(** An ordered pair of distinct roster members. *)
Definition pairOf (ids : list string) (k : string * string) : Prop :=
  In (fst k) ids /\ In (snd k) ids /\ fst k <> snd k.

(* ================================================================== *)
(** ** The shape of the dictionaries *)

(** Every key of every row is a roster member. *)
Definition colsWithin (ids : list string) (L : Ledger) : Prop :=
  forall a row b, get L a = Some row -> In b (map fst row) -> In b ids.

(** The keys of a ledger, row by row, in enumeration order. *)
Definition skeleton (L : Ledger) : list (string * list string) :=
  map (fun ar => (fst ar, map fst (snd ar))) L.

(** Same keys of [totals], same keys of the ledger off the diagonal. *)
Definition sameFrame (st0 st : State) : Prop :=
  map fst (totals st) = map fst (totals st0) /\
  skeleton (strip (ledger st)) = skeleton (strip (ledger st0)).

(** [list.reduce((s, e) => s + e.amount, 0)] *)
Definition sumAmounts (l : list (string * number)) : number :=
  fold_left (fun acc e => add acc (snd e)) l (Num 0).

(** The amount of an entry when it is listed by step 6, else zero. *)
Definition listed (v : option number) : Z :=
  match v with
  | Some (Num z) => if 0 <? z then z else 0
  | _ => 0
  end.

(* ================================================================== *)
(** ** Columns of non-members, and balances under another roster record *)

(** Every entry of the ledger filed under an id outside the roster holds
    [NaN]. *)
Definition strangersNaN (ids : list string) (L : Ledger) : Prop :=
  forall a row k v, get L a = Some row -> In (k, v) row -> ~ In k ids ->
    v = NaN.

(** The balance [b] with the spread record [...m] replaced by [m]. *)
Definition withMember (m : MemberDetail) (b : Balance) : Balance :=
  mkBalance m (totalBalance b) (owes b) (owedBy b).

Definition relabel (memberDetails : list MemberDetail) (bs : list Balance)
  : list Balance :=
  map (fun p => withMember (fst p) (snd p)) (combine memberDetails bs).

(* ================================================================== *)
(** ** The same steps on IEEE 754 doubles *)

(** The amounts of the source are JavaScript numbers, and [+=] and [-=]
    round.  Module [Double] repeats steps 2 to 6 with that arithmetic; the
    definitions above perform the same steps without rounding. *)

Module Double.

(** A JavaScript number.  Every finite double is a whole number of units
    of [2^-1074], the smallest positive double: [Fin z] is the double of
    value [z * 2^-1074], so that [1] is [Fin (2^1074)].  The doubles are
    the [Fin z] that [round] leaves unchanged.  The two zeros are one
    value here: a sum or difference of doubles is [-0] only when both
    operands are zero, every accumulator of the handler starts at [+0],
    and [x + (-0)] and [x - (-0)] are [x] for every other [x], so that an
    amount [-0] acts as [0] and no stored value is ever [-0]. *)
Inductive number : Type :=
| Fin (z : Z)
| Inf (negative : bool)
| NaN.

(** Round to nearest, ties to even, of a magnitude [a >= 0] to 53
    significant bits.  Below [2^53] units (subnormals and the first normal
    binade) every whole number of units is a double. *)
Definition roundAbs (a : Z) : Z :=
  let s := Z.log2 a - 52 in
  if s <=? 0 then a
  else
    let q := a / 2 ^ s in
    let r := a mod 2 ^ s in
    let h := 2 ^ (s - 1) in
    let q' := if (h <? r) || ((r =? h) && Z.odd q) then q + 1 else q in
    q' * 2 ^ s.

(** The double nearest to [z] units; [2^1024] is [2^2098] units, and a
    magnitude that rounds to it overflows. *)
Definition round (z : Z) : number :=
  let m := roundAbs (Z.abs z) in
  if 2 ^ 2098 <=? m then Inf (z <? 0) else Fin (Z.sgn z * m).

(** [ToNumber] on a property read: [undefined] becomes [NaN]. *)
Definition toNumber (v : option number) : number :=
  match v with
  | Some n => n
  | None => NaN
  end.

(** [x + y] *)
Definition add (x y : number) : number :=
  match x, y with
  | Fin a, Fin b => round (a + b)
  | Fin _, Inf s => Inf s
  | Inf s, Fin _ => Inf s
  | Inf s, Inf t => if Bool.eqb s t then Inf s else NaN
  | _, _ => NaN
  end.

(** [x - y] *)
Definition sub (x y : number) : number :=
  match x, y with
  | Fin a, Fin b => round (a - b)
  | Fin _, Inf s => Inf (negb s)
  | Inf s, Fin _ => Inf s
  | Inf s, Inf t => if Bool.eqb s t then NaN else Inf s
  | _, _ => NaN
  end.

(** [-x] *)
Definition neg (x : number) : number :=
  match x with
  | Fin a => Fin (- a)
  | Inf s => Inf (negb s)
  | NaN => NaN
  end.

(** [v > 0] *)
Definition gt0 (x : number) : bool :=
  match x with
  | Fin a => 0 <? a
  | Inf s => negb s
  | NaN => false
  end.

(** [v < 0] *)
Definition lt0 (x : number) : bool :=
  match x with
  | Fin a => a <? 0
  | Inf s => s
  | NaN => false
  end.

(** *** Documents *)

Record Split : Type := mkSplit {
  userId : string;
  amount : number;
  paid : bool
}.

Record Expense : Type := mkExpense {
  exp_groupId : string;
  paidByUserId : string;
  splits : list Split
}.

Record Settlement : Type := mkSettlement {
  stl_groupId : string;
  stl_paidByUserId : string;
  stl_receivedByUserId : string;
  stl_amount : number
}.

(** *** The two ledgers of the handler *)

Definition Totals : Type := obj number.
Definition Ledger : Type := obj (obj number).

Record State : Type := mkState {
  totals : Totals;
  ledger : Ledger
}.

(** Read [ledger[a][b]] as a number; [ledger[a]] must be an object. *)
Definition getCell (L : Ledger) (a b : string) : result number :=
  match get L a with
  | None => Throw TypeError
  | Some row => Ok (toNumber (get row b))
  end.

(** [ledger[a][b] = v] *)
Definition setCell (L : Ledger) (a b : string) (v : number) : result Ledger :=
  match get L a with
  | None => Throw TypeError
  | Some row => Ok (set L a (set row b v))
  end.

(** [totals[k] += d] *)
Definition addTotal (T : Totals) (k : string) (d : number) : Totals :=
  set T k (add (toNumber (get T k)) d).

(** [totals[k] -= d] *)
Definition subTotal (T : Totals) (k : string) (d : number) : Totals :=
  set T k (sub (toNumber (get T k)) d).

(** *** Step 2: initialise ledgers *)

Definition initTotals (ids : list string) : Totals :=
  fromEntries (map (fun i => (i, Fin 0)) ids).

Definition initLedger (ids : list string) : result Ledger :=
  forEach ids (fun a L =>
    let L := set L a [] in
    forEach ids (fun b L =>
      if negb (String.eqb a b) then setCell L a b (Fin 0) else Ok L) L) [].

Definition initState (ids : list string) : result State :=
  L <- initLedger ids ;; Ok (mkState (initTotals ids) L).

(** *** Step 3: apply expenses *)

Definition applySplit (payer : string) (split : Split) (st : State)
  : result State :=
  if String.eqb (userId split) payer || paid split then Ok st
  else
    let debtor := userId split in
    let amt := amount split in
    let T := addTotal (totals st) payer amt in
    let T := subTotal T debtor amt in
    cur <- getCell (ledger st) debtor payer ;;
    L <- setCell (ledger st) debtor payer (add cur amt) ;;
    Ok (mkState T L).

Definition applyExpense (exp : Expense) (st : State) : result State :=
  let payer := paidByUserId exp in
  forEach (splits exp) (applySplit payer) st.

Definition applyExpenses (expenses : list Expense) (st : State)
  : result State :=
  forEach expenses applyExpense st.

(** *** Step 4: apply settlements *)

Definition applySettlement (s : Settlement) (st : State) : result State :=
  let T := addTotal (totals st) (stl_paidByUserId s) (stl_amount s) in
  let T := subTotal T (stl_receivedByUserId s) (stl_amount s) in
  cur <- getCell (ledger st) (stl_paidByUserId s) (stl_receivedByUserId s) ;;
  L <- setCell (ledger st) (stl_paidByUserId s) (stl_receivedByUserId s)
         (sub cur (stl_amount s)) ;;
  Ok (mkState T L).

Definition applySettlements (settlements : list Settlement) (st : State)
  : result State :=
  forEach settlements applySettlement st.

(** *** Step 5: net off ledger balances *)

Definition netPair (a b : string) (st : State) : result State :=
  if geb a b then Ok st
  else
    x <- getCell (ledger st) a b ;;
    y <- getCell (ledger st) b a ;;
    let diff := sub x y in
    if gt0 diff then
      L <- setCell (ledger st) a b diff ;;
      L <- setCell L b a (Fin 0) ;;
      Ok (mkState (totals st) L)
    else if lt0 diff then
      L <- setCell (ledger st) b a (neg diff) ;;
      L <- setCell L a b (Fin 0) ;;
      Ok (mkState (totals st) L)
    else
      L <- setCell (ledger st) b a (Fin 0) ;;
      L <- setCell L a b (Fin 0) ;;
      Ok (mkState (totals st) L).

Definition netLedger (ids : list string) (st : State) : result State :=
  forEach ids (fun a st => forEach ids (fun b st => netPair a b st) st) st.

(** *** Step 6: shape balances per member *)

Record Balance : Type := mkBalance {
  member : MemberDetail;
  totalBalance : option number;
  owes : list (string * number);      (* [{to, amount}] *)
  owedBy : list (string * number)     (* [{from, amount}] *)
}.

Definition shapeBalance (ids : list string) (st : State) (m : MemberDetail)
  : result Balance :=
  let totalBalance := get (totals st) (id m) in
  match get (ledger st) (id m) with
  | None => Throw TypeError
  | Some row =>
      let owes := filter (fun e => gt0 (snd e)) (entries row) in
      debtors <- filterM (fun other =>
                   v <- getCell (ledger st) other (id m) ;; Ok (gt0 v)) ids ;;
      owedBy <- mapM (fun other =>
                   v <- getCell (ledger st) other (id m) ;; Ok (other, v))
                  debtors ;;
      Ok (mkBalance m totalBalance owes owedBy)
  end.

Definition shapeBalances (memberDetails : list MemberDetail) (st : State)
  : result (list Balance) :=
  let ids := map id memberDetails in
  mapM (shapeBalance ids st) memberDetails.

(** *** Steps 2 to 6 on gathered records *)

Definition preNetting (ids : list string) (expenses : list Expense)
  (settlements : list Settlement) : result State :=
  st <- initState ids ;;
  st <- applyExpenses expenses st ;;
  applySettlements settlements st.

Definition computeBalances (memberDetails : list MemberDetail)
  (expenses : list Expense) (settlements : list Settlement)
  : result (list Balance) :=
  let ids := map id memberDetails in
  st <- preNetting ids expenses settlements ;;
  st <- netLedger ids st ;;
  shapeBalances memberDetails st.

(** *** Values used in the statements *)

(** The raw content of [ledger[a][b]], [None] when the row or the entry is
    absent. *)
Definition cell (L : Ledger) (a b : string) : option number :=
  match get L a with
  | Some row => get row b
  | None => None
  end.

(** The values of a list of entries [{to, amount}] or [{from, amount}]. *)
Definition amounts (l : list (string * number)) : list (option number) :=
  map (fun e => Some (snd e)) l.

(** The sum of the values of a list of numbers, in units, when all of them
    are finite. *)
Fixpoint sumValues (values : list (option number)) : option Z :=
  match values with
  | [] => Some 0
  | Some (Fin z) :: rest => option_map (Z.add z) (sumValues rest)
  | _ :: _ => None
  end.

(** [values.reduce((s, v) => s + v, 0)] *)
Definition sumNumbers (values : list (option number)) : number :=
  fold_left (fun acc v => add acc (toNumber v)) values (Fin 0).

(** Every roster member has a row object. *)
Definition hasRows (ids : list string) (L : Ledger) : Prop :=
  forall a, In a ids -> get L a <> None.

(** Diagonal entries [ledger[a][a]], when present, are [NaN]. *)
Definition diagNaN (L : Ledger) : Prop :=
  forall a row v, get L a = Some row -> In (a, v) row -> v = NaN.

(** A row without its own member's key, and a ledger without its diagonal
    entries. *)
Definition offdiag (a : string) (row : obj number) : obj number :=
  filter (fun e => negb (String.eqb (fst e) a)) row.

Definition strip (L : Ledger) : Ledger :=
  map (fun ar => (fst ar, offdiag (fst ar) (snd ar))) L.

Definition validExpense (ids : list string) (e : Expense) : Prop :=
  In (paidByUserId e) ids /\
  forall sp, In sp (splits e) -> In (userId sp) ids.

Definition validSettlement (ids : list string) (s : Settlement) : Prop :=
  In (stl_paidByUserId s) ids /\ In (stl_receivedByUserId s) ids.

(** Every payer, split member and receiver belongs to the roster. *)
Definition validInput (ids : list string) (expenses : list Expense)
  (settlements : list Settlement) : Prop :=
  (forall e, In e expenses -> validExpense ids e) /\
  (forall s, In s settlements -> validSettlement ids s).

(** Two states with the same net totals but for [p], the same ledger off
    the diagonal and no amount on it. *)
Definition simExcept (p : string) (st st' : State) : Prop :=
  (forall k, k <> p -> get (totals st) k = get (totals st') k) /\
  strip (ledger st) = strip (ledger st') /\
  diagNaN (ledger st) /\ diagNaN (ledger st').

(** Two balances of one member with the same [owes] and [owedBy], and the
    same [totalBalance] unless the member is [p]. *)
Definition sameButTotalOf (p : string) (b b' : Balance) : Prop :=
  member b = member b' /\ owes b = owes b' /\ owedBy b = owedBy b' /\
  (id (member b) <> p -> totalBalance b = totalBalance b').

(** The whole number [n] and the dyadic fraction [m * 2^e], in units. *)
Definition whole (n : Z) : Z := n * 2 ^ 1074.

Definition dyadic (m e : Z) : Z := m * 2 ^ (e + 1074).

End Double.

(* ================================================================== *)
(** ** Exact values read as doubles *)

(** The integer [z] of the exact steps read as [z] units. *)
Definition dNum (x : number) : Double.number :=
  match x with
  | Num z => Double.Fin z
  | NaN => Double.NaN
  end.

Definition dSplit (sp : Split) : Double.Split :=
  Double.mkSplit (userId sp) (Double.Fin (amount sp)) (paid sp).

Definition dExpense (e : Expense) : Double.Expense :=
  Double.mkExpense (exp_groupId e) (paidByUserId e) (map dSplit (splits e)).

Definition dSettlement (s : Settlement) : Double.Settlement :=
  Double.mkSettlement (stl_groupId s) (stl_paidByUserId s)
    (stl_receivedByUserId s) (Double.Fin (stl_amount s)).

(** The dictionary [o] with [f] applied to each value. *)
Definition mapValues {V W : Type} (f : V -> W) (o : obj V) : obj W :=
  map (fun kv => (fst kv, f (snd kv))) o.

Definition dObj (o : obj number) : obj Double.number := mapValues dNum o.

Definition dLedger (L : Ledger) : Double.Ledger := mapValues dObj L.

Definition dState (st : State) : Double.State :=
  Double.mkState (dObj (totals st)) (dLedger (ledger st)).

Definition dBalance (b : Balance) : Double.Balance :=
  Double.mkBalance (member b) (option_map dNum (totalBalance b))
    (dObj (owes b)) (dObj (owedBy b)).

Definition dResult {A B : Type} (f : A -> B) (r : result A) : result B :=
  match r with
  | Ok a => Ok (f a)
  | Throw e => Throw e
  end.

(** The amounts of the records, skipped splits included. *)
Definition expenseAmounts (expenses : list Expense) : list Z :=
  flat_map (fun e => map amount (splits e)) expenses.

Definition settlementAmounts (settlements : list Settlement) : list Z :=
  map stl_amount settlements.

Definition amountsOf (expenses : list Expense) (settlements : list Settlement)
  : list Z :=
  expenseAmounts expenses ++ settlementAmounts settlements.

(** Amounts on which no step rounds: all of them whole multiples of one
    power of two [2^j] units, their magnitudes summing to at most [2^52]
    such multiples.  For whole amounts [j] is [1074]. *)
Definition exactAmounts (j : Z) (expenses : list Expense)
  (settlements : list Settlement) : Prop :=
  0 <= j <= 2044 /\
  (forall z, In z (amountsOf expenses settlements) -> (2 ^ j | z)) /\
  sumOver Z.abs (amountsOf expenses settlements) <= 2 ^ (52 + j).

(** A value that is [NaN] or at most [c] units of magnitude and a multiple
    of [2^j]. *)
Definition small (j c : Z) (x : number) : Prop :=
  match x with
  | Num z => (2 ^ j | z) /\ Z.abs z <= c
  | NaN => True
  end.

Definition smallObj (j c : Z) (o : obj number) : Prop :=
  forall k v, In (k, v) o -> small j c v.

Definition smallRows (j c : Z) (L : Ledger) : Prop :=
  forall a row, In (a, row) L -> smallObj j c row.

Definition smallState (j c : Z) (st : State) : Prop :=
  smallObj j c (totals st) /\ smallRows j c (ledger st).

(** Every entry is a multiple of [2^j], and the two directions of a pair
    together hold at most [c]. *)
Definition smallPairs (j c : Z) (L : Ledger) : Prop :=
  (forall a row k v, In (a, row) L -> In (k, v) row -> small j c v) /\
  forall a b x y, cell L a b = Some (Num x) -> cell L b a = Some (Num y) ->
    Z.abs x + Z.abs y <= c.

(* ================================================================== *)
(** ** Records on which the doubles round, and records on which they do not *)

Definition rounding_roster : list MemberDetail := [md "A"; md "B"; md "C"].

(** A pays [2^53] for B and [1] for C. *)
Definition rounding_expenses : list Expense :=
  [mkExpense "g" "A" [mkSplit "B" (Double.whole (2 ^ 53)) false;
                      mkSplit "C" (Double.whole 1) false]].

(** A pays [1] for B. *)
Definition unit_expenses : list Expense :=
  [mkExpense "g" "A" [mkSplit "B" (Double.whole 1) false]].

(** A settles [2^53] with themselves. *)
Definition large_self_settlement : Settlement :=
  mkSettlement "g" "A" "A" (Double.whole (2 ^ 53)).

(** The doubles written [0.1], [0.2] and [0.3]. *)
Definition tenth : Z := Double.dyadic 7205759403792794 (-56).

Definition fifth : Z := Double.dyadic 7205759403792794 (-55).

Definition three_tenths : Z := Double.dyadic 5404319552844595 (-54).

(** Scenario A in whole amounts, and a repayment of [15]. *)
Definition whole_expenses : list Expense :=
  [mkExpense "g" "A" [mkSplit "A" (Double.whole 10) false;
                      mkSplit "B" (Double.whole 10) false;
                      mkSplit "C" (Double.whole 10) false]].

Definition whole_settlements : list Settlement :=
  [mkSettlement "g" "B" "A" (Double.whole 15)].

(* ================================================================== *)
(** ** Scenarios of the specification, run on the model *)

Example scenarioA :
  computeBalances [md "A"; md "B"; md "C"] scenarioA_expenses [] =
  Ok [mkBalance (md "A") (Some (Num 20)) [] [("B", Num 10); ("C", Num 10)];
      mkBalance (md "B") (Some (Num (-10))) [("A", Num 10)] [];
      mkBalance (md "C") (Some (Num (-10))) [("A", Num 10)] []].
Proof. vm_compute. reflexivity. Qed.

Example scenarioB :
  computeBalances [md "A"; md "B"; md "C"] scenarioA_expenses
    [mkSettlement "g" "B" "A" 10] =
  Ok [mkBalance (md "A") (Some (Num 10)) [] [("C", Num 10)];
      mkBalance (md "B") (Some (Num 0)) [] [];
      mkBalance (md "C") (Some (Num (-10))) [("A", Num 10)] []].
Proof. vm_compute. reflexivity. Qed.

Example scenarioC :
  computeBalances [md "A"; md "B"; md "C"] scenarioA_expenses
    [mkSettlement "g" "B" "A" 15] =
  Ok [mkBalance (md "A") (Some (Num 5)) [("B", Num 5)] [("C", Num 10)];
      mkBalance (md "B") (Some (Num 5)) [] [("A", Num 5)];
      mkBalance (md "C") (Some (Num (-10))) [("A", Num 10)] []].
Proof. vm_compute. reflexivity. Qed.

Example scenarioD :
  computeBalances [md "A"; md "B"] [mkExpense "g" "A" [mkSplit "B" 10 true]] []
  = Ok [mkBalance (md "A") (Some (Num 0)) [] [];
        mkBalance (md "B") (Some (Num 0)) [] []].
Proof. vm_compute. reflexivity. Qed.

(* ================================================================== *)
(** ** Facts about ids, dictionaries and loops *)

Section IdOrder.

Lemma compare_refl (a : string) : String.compare a a = Eq.
Proof.
  pose proof (String.compare_antisym a a) as H.
  destruct (String.compare a a); simpl in H; congruence.
Qed.

Lemma geb_refl (a : string) : geb a a = true.
Proof. unfold geb, String.ltb. now rewrite compare_refl. Qed.

Lemma ltb_neq (a b : string) : String.ltb a b = true -> a <> b.
Proof.
  intros H ->. unfold String.ltb in H. rewrite compare_refl in H.
  discriminate.
Qed.

Lemma ltb_asym (a b : string) :
  String.ltb a b = true -> String.ltb b a = false.
Proof.
  unfold String.ltb. rewrite (String.compare_antisym a b).
  destruct (String.compare b a); simpl; congruence.
Qed.

Lemma ltb_total (a b : string) :
  a <> b -> String.ltb a b = true \/ String.ltb b a = true.
Proof.
  intros Hne. unfold String.ltb.
  rewrite (String.compare_antisym a b).
  destruct (String.compare b a) eqn:E; simpl; auto.
  apply String.compare_eq_iff in E. congruence.
Qed.

Lemma geb_false_ltb (a b : string) :
  geb a b = false <-> String.ltb a b = true.
Proof. unfold geb. destruct (String.ltb a b); simpl; split; congruence. Qed.

End IdOrder.

Section Dict.

Context {V : Type}.
Implicit Types (o : obj V) (k : string) (v : V).

Lemma get_set_same o k v : get (set o k v) k = Some v.
Proof.
  induction o as [|[k' v'] o IH]; simpl.
  - now rewrite String.eqb_refl.
  - destruct (String.eqb k k') eqn:E; simpl; rewrite E; auto.
Qed.

Lemma get_set_other o k k' v : k' <> k -> get (set o k v) k' = get o k'.
Proof.
  intros Hne. induction o as [|[k0 v0] o IH]; simpl.
  - apply String.eqb_neq in Hne. now rewrite Hne.
  - destruct (String.eqb k k0) eqn:E; simpl.
    + apply String.eqb_eq in E. subst k0.
      apply String.eqb_neq in Hne. now rewrite Hne.
    + destruct (String.eqb k' k0); auto.
Qed.

Lemma get_set o k k' v :
  get (set o k v) k' = if String.eqb k' k then Some v else get o k'.
Proof.
  eqb_cases k' k.
  - apply get_set_same.
  - now apply get_set_other.
Qed.

(** Writing back the value a key already holds changes nothing. *)
Lemma set_get_id o k v : get o k = Some v -> set o k v = o.
Proof.
  induction o as [|[k' v'] o IH]; simpl; [discriminate|].
  destruct (String.eqb k k') eqn:E; intros H.
  - now inversion H.
  - now rewrite IH.
Qed.

Lemma set_set o k v v' : set (set o k v) k v' = set o k v'.
Proof.
  induction o as [|[k0 v0] o IH]; simpl.
  - now rewrite String.eqb_refl.
  - destruct (String.eqb k k0) eqn:E; simpl; rewrite E; auto.
    now rewrite IH.
Qed.

Lemma in_set o k v k' v' :
  In (k', v') (set o k v) -> (k' = k /\ v' = v) \/ In (k', v') o.
Proof.
  induction o as [|[k0 v0] o IH]; simpl.
  - intros [H|[]]. inversion H. auto.
  - destruct (String.eqb k k0) eqn:E; simpl.
    + apply String.eqb_eq in E. subst k0.
      intros [H|H]; [inversion H; auto | auto].
    + intros [H|H]; [auto|]. destruct (IH H); auto.
Qed.

Lemma keys_set_in o k v :
  get o k <> None -> map fst (set o k v) = map fst o.
Proof.
  induction o as [|[k0 v0] o IH]; simpl; [congruence|].
  destruct (String.eqb k k0) eqn:E; simpl; auto.
  intros H. now rewrite IH.
Qed.

Lemma get_none_keys o k : get o k = None <-> ~ In k (map fst o).
Proof.
  induction o as [|[k0 v0] o IH]; simpl.
  - tauto.
  - eqb_cases k k0.
    + split; [discriminate | intros H; exfalso; auto].
    + rewrite IH. split; intros H; [intros [?|?]; [congruence|auto] | auto].
Qed.

End Dict.

Section Loops.

Context {A S : Type}.

Lemma forEach_app (l1 l2 : list A) (f : A -> S -> result S) (s : S) :
  forEach (l1 ++ l2) f s = (s' <- forEach l1 f s ;; forEach l2 f s').
Proof.
  revert s. induction l1 as [|x l1 IH]; intros s; simpl; auto.
  destruct (f x s); simpl; auto.
Qed.

(** A loop whose every step leaves the state alone leaves it alone. *)
Lemma forEach_id (l : list A) (f : A -> S -> result S) (s : S) :
  (forall x, In x l -> f x s = Ok s) -> forEach l f s = Ok s.
Proof.
  induction l as [|x l IH]; intros H; simpl; auto.
  rewrite (H x (or_introl eq_refl)). simpl. apply IH.
  intros y Hy. apply H. now right.
Qed.

(** An invariant kept by every step is kept by the loop, which then
    does not throw. *)
Lemma forEach_inv (Q : S -> Prop) (l : list A) (f : A -> S -> result S) :
  (forall x s, In x l -> Q s -> exists s', f x s = Ok s' /\ Q s') ->
  forall s, Q s -> exists s', forEach l f s = Ok s' /\ Q s'.
Proof.
  induction l as [|x l IH]; intros Hstep s HQ; simpl.
  - eauto.
  - destruct (Hstep x s (or_introl eq_refl) HQ) as (s1 & E1 & HQ1).
    rewrite E1. simpl. apply IH; auto.
    intros y s0 Hy. apply Hstep. now right.
Qed.

(** Each step establishes its own postcondition [R x], and no step
    destroys a postcondition already established: after the loop all of
    them hold. *)
Lemma forEach_establish (Q : S -> Prop) (R : A -> S -> Prop)
  (l : list A) (f : A -> S -> result S) :
  (forall x s, In x l -> Q s -> exists s', f x s = Ok s' /\ Q s' /\ R x s') ->
  (forall x y s s', In y l -> Q s -> R x s -> f y s = Ok s' -> R x s') ->
  forall s, Q s ->
    exists s', forEach l f s = Ok s' /\ Q s' /\ forall x, In x l -> R x s'.
Proof.
  intros Hest Hkeep.
  assert (Hgen : forall l' s, incl l' l -> Q s ->
    exists s', forEach l' f s = Ok s' /\ Q s' /\
      (forall x, R x s -> R x s') /\ forall x, In x l' -> R x s').
  { induction l' as [|y l' IH]; intros s Hincl HQ; simpl.
    - exists s. repeat split; auto. intros x [].
    - assert (Hy : In y l) by (apply Hincl; now left).
      destruct (Hest y s Hy HQ) as (s1 & E1 & HQ1 & HR1).
      rewrite E1. simpl.
      destruct (IH s1) as (s2 & E2 & HQ2 & Hmono & Hall); auto.
      { intros z Hz. apply Hincl. now right. }
      exists s2. repeat split; auto.
      + intros x Hx. apply Hmono. exact (Hkeep x y s s1 Hy HQ Hx E1).
      + intros x [<-|Hx]; [apply Hmono, HR1 | apply Hall, Hx]. }
  intros s HQ. destruct (Hgen l s (incl_refl l) HQ) as (s' & E & HQ' & _ & H).
  eauto.
Qed.

End Loops.

(* ================================================================== *)
(** ** Reading the ledger *)

Section Cells.

Lemma getCell_cell L a b :
  get L a <> None -> getCell L a b = Ok (toNumber (cell L a b)).
Proof.
  unfold getCell, cell. destruct (get L a); [reflexivity | congruence].
Qed.

Lemma getCell_throw L a b : get L a = None -> getCell L a b = Throw TypeError.
Proof. unfold getCell. now intros ->. Qed.

Lemma setCell_throw L a b v :
  get L a = None -> setCell L a b v = Throw TypeError.
Proof. unfold setCell. now intros ->. Qed.

Lemma setCell_inv L a b v L' :
  setCell L a b v = Ok L' ->
  sameRows L L' /\
  forall c d, cell L' c d =
    if String.eqb c a && String.eqb d b then Some v else cell L c d.
Proof.
  unfold setCell. destruct (get L a) as [row|] eqn:E; [|discriminate].
  intros H. inversion H. subst L'. clear H. split.
  - intros c. rewrite get_set. eqb_cases c a; [|tauto].
    rewrite E. split; discriminate.
  - intros c d. unfold cell. rewrite get_set.
    eqb_cases c a; simpl; [|reflexivity].
    rewrite E. apply get_set.
Qed.

Lemma setCell_ok L a b v :
  get L a <> None -> exists L', setCell L a b v = Ok L'.
Proof.
  unfold setCell. destruct (get L a); [eauto | congruence].
Qed.

(** The two assignments every branch of step 5 performs. *)
Lemma setCell_twice L p q v w :
  get L p <> None -> get L q <> None -> p <> q ->
  exists L2,
    (L1 <- setCell L p q v ;; setCell L1 q p w) = Ok L2 /\
    sameRows L L2 /\
    cell L2 p q = Some v /\ cell L2 q p = Some w /\
    forall c d, ~ (c = p /\ d = q) -> ~ (c = q /\ d = p) ->
      cell L2 c d = cell L c d.
Proof.
  intros Hp Hq Hne.
  destruct (setCell_ok L p q v Hp) as (L1 & E1).
  destruct (setCell_inv _ _ _ _ _ E1) as (R1 & C1).
  assert (Hq1 : get L1 q <> None) by (rewrite (R1 q); exact Hq).
  destruct (setCell_ok L1 q p w Hq1) as (L2 & E2).
  destruct (setCell_inv _ _ _ _ _ E2) as (R2 & C2).
  exists L2. rewrite E1. simpl. split; [exact E2|]. split.
  { intros c. rewrite (R2 c). apply R1. }
  assert (Hpq : String.eqb p q = false) by now apply String.eqb_neq.
  assert (Hqp : String.eqb q p = false)
    by (apply String.eqb_neq; congruence).
  repeat split.
  - rewrite C2, C1. rewrite Hpq. simpl. now rewrite !String.eqb_refl.
  - rewrite C2. now rewrite !String.eqb_refl.
  - intros c d H1 H2. rewrite C2, C1.
    destruct (String.eqb c q && String.eqb d p) eqn:X.
    { apply andb_true_iff in X. destruct X as [X1 X2].
      apply String.eqb_eq in X1, X2. tauto. }
    destruct (String.eqb c p && String.eqb d q) eqn:Y; [|reflexivity].
    apply andb_true_iff in Y. destruct Y as [Y1 Y2].
    apply String.eqb_eq in Y1, Y2. tauto.
Qed.

End Cells.

Section NetPair.

(** One visit of step 5 to the pair [(a, b)]. *)
Lemma netPair_spec a b st :
  get (ledger st) a <> None -> get (ledger st) b <> None ->
  exists st',
    netPair a b st = Ok st' /\
    totals st' = totals st /\
    sameRows (ledger st) (ledger st') /\
    (forall c d, ~ (c = a /\ d = b) -> ~ (c = b /\ d = a) ->
       cell (ledger st') c d = cell (ledger st) c d) /\
    (String.ltb a b = true ->
       let n := netted (toNumber (cell (ledger st) a b))
                       (toNumber (cell (ledger st) b a)) in
       cell (ledger st') a b = Some (fst n) /\
       cell (ledger st') b a = Some (snd n)).
Proof.
  intros Ha Hb. unfold netPair.
  destruct (geb a b) eqn:G.
  { exists st. repeat split; auto.
    - apply geb_false_ltb in H. congruence.
    - apply geb_false_ltb in H. congruence. }
  apply geb_false_ltb in G. pose proof (ltb_neq _ _ G) as Hne.
  rewrite (getCell_cell _ a b Ha), (getCell_cell _ b a Hb). simpl.
  unfold netted.
  set (diff := sub (toNumber (cell (ledger st) a b))
                   (toNumber (cell (ledger st) b a))).
  destruct (gt0 diff) eqn:Gt; [|destruct (lt0 diff) eqn:Lt].
  - destruct (setCell_twice (ledger st) a b diff (Num 0) Ha Hb Hne)
      as (L2 & E & R & Cab & Cba & Co).
    exists (mkState (totals st) L2).
    destruct (setCell (ledger st) a b diff) as [L1|]; [|discriminate].
    simpl in E |- *. rewrite E. simpl. repeat split; auto; try apply R.
  - destruct (setCell_twice (ledger st) b a (neg diff) (Num 0) Hb Ha
                (not_eq_sym Hne)) as (L2 & E & R & Cba & Cab & Co).
    exists (mkState (totals st) L2).
    destruct (setCell (ledger st) b a (neg diff)) as [L1|]; [|discriminate].
    simpl in E |- *. rewrite E. simpl.
    repeat split; auto; try apply R;
      try (intros c d H1 H2; apply Co; tauto).
  - destruct (setCell_twice (ledger st) b a (Num 0) (Num 0) Hb Ha
                (not_eq_sym Hne)) as (L2 & E & R & Cba & Cab & Co).
    exists (mkState (totals st) L2).
    destruct (setCell (ledger st) b a (Num 0)) as [L1|]; [|discriminate].
    simpl in E |- *. rewrite E. simpl.
    repeat split; auto; try apply R;
      try (intros c d H1 H2; apply Co; tauto).
Qed.

Lemma netted_num x y :
  netted (Num x) (Num y) = (Num (Z.max (x - y) 0), Num (Z.max (y - x) 0)).
Proof.
  unfold netted. simpl.
  destruct (0 <? x - y) eqn:G; [|destruct (x - y <? 0) eqn:Lt]; simpl.
  - apply Z.ltb_lt in G. f_equal; f_equal; lia.
  - apply Z.ltb_lt in Lt. f_equal; f_equal; lia.
  - apply Z.ltb_ge in G. apply Z.ltb_ge in Lt. f_equal; f_equal; lia.
Qed.

End NetPair.

Section Netting.

Variable ids : list string.

Lemma forEach_det {A S : Type} (l : list A) (f : A -> S -> result S)
  (s s1 s2 : S) :
  forEach l f s = Ok s1 -> forEach l f s = Ok s2 -> s1 = s2.
Proof. congruence. Qed.

(** Proof rule for the double loop of step 5. *)
Lemma netLedger_rule (Q : State -> Prop) (R : string -> string -> State -> Prop) :
  (forall a b s, In a ids -> In b ids -> Q s ->
     exists s', netPair a b s = Ok s' /\ Q s' /\ R a b s') ->
  (forall a b c d s s', In c ids -> In d ids -> Q s -> R a b s ->
     netPair c d s = Ok s' -> R a b s') ->
  forall s, Q s ->
    exists s', netLedger ids s = Ok s' /\ Q s' /\
      forall a b, In a ids -> In b ids -> R a b s'.
Proof.
  intros Hest Hkeep s HQ. unfold netLedger.
  enough (exists s', forEach ids (fun a st =>
            forEach ids (fun b st0 => netPair a b st0) st) s = Ok s' /\
          Q s' /\ forall a, In a ids -> forall b, In b ids -> R a b s')
    as (s' & E & HQ' & HR') by (exists s'; auto).
  apply (forEach_establish Q (fun a s => forall b, In b ids -> R a b s));
    auto.
  - intros a s0 Ha HQ0.
    apply (forEach_establish Q (fun b s => R a b s)); auto.
    intros x y s1 s2 Hy HQ1 HR E.
    exact (Hkeep a x a y s1 s2 Ha Hy HQ1 HR E).
  - intros x y s0 s1 Hy HQ0 HR E b Hb.
    destruct (forEach_inv (fun s => Q s /\ R x b s) ids
                (fun b0 st => netPair y b0 st)) with (s := s0)
      as (s2 & E2 & _ & HR2); auto.
    + intros d s3 Hd [HQ3 HR3].
      destruct (Hest y d s3 Hy Hd HQ3) as (s4 & E4 & HQ4 & _).
      exists s4. repeat split; auto.
      exact (Hkeep x b y d s3 s4 Hy Hd HQ3 HR3 E4).
    + rewrite E in E2. inversion E2. now subst.
Qed.

(** One visit on a ledger whose entries between members are amounts. *)
Lemma netPair_numeric a b st :
  In a ids -> In b ids -> numericLedger ids (ledger st) ->
  exists st',
    netPair a b st = Ok st' /\
    totals st' = totals st /\
    sameRows (ledger st) (ledger st') /\
    numericLedger ids (ledger st') /\
    (forall c d, net (ledger st') c d = net (ledger st) c d) /\
    (String.ltb a b = true -> canonicalPair (ledger st') a b) /\
    (forall c d, canonicalPair (ledger st) c d ->
                 canonicalPair (ledger st') c d).
Proof.
  intros Ha Hb Hnum.
  destruct (String.ltb a b) eqn:Lt.
  2:{ exists st. unfold netPair, geb. rewrite Lt. simpl.
      repeat split; auto; try tauto; discriminate. }
  pose proof (ltb_neq _ _ Lt) as Hne.
  destruct (Hnum a b Ha Hb Hne) as (x & Hx).
  destruct (Hnum b a Hb Ha (not_eq_sym Hne)) as (y & Hy).
  assert (Hra : get (ledger st) a <> None).
  { unfold cell in Hx. destruct (get (ledger st) a); congruence. }
  assert (Hrb : get (ledger st) b <> None).
  { unfold cell in Hy. destruct (get (ledger st) b); congruence. }
  destruct (netPair_spec a b st Hra Hrb) as (st' & E & HT & HR & Ho & Hn).
  specialize (Hn Lt). rewrite Hx, Hy in Hn. simpl in Hn.
  rewrite netted_num in Hn. simpl in Hn. destruct Hn as [Hab Hba].
  assert (Hcan : canonicalPair (ledger st') a b).
  { exists (Z.max (x - y) 0), (Z.max (y - x) 0). repeat split; auto; lia. }
  exists st'. repeat split; auto; try apply HR.
  - intros c d Hc Hd Hcd.
    destruct (String.eqb c a && String.eqb d b) eqn:X.
    { apply andb_true_iff in X. destruct X as [X1 X2].
      apply String.eqb_eq in X1, X2. subst. eauto. }
    destruct (String.eqb c b && String.eqb d a) eqn:Y.
    { apply andb_true_iff in Y. destruct Y as [Y1 Y2].
      apply String.eqb_eq in Y1, Y2. subst. eauto. }
    rewrite Ho; auto.
    + intros [-> ->]. now rewrite !String.eqb_refl in X.
    + intros [-> ->]. now rewrite !String.eqb_refl in Y.
  - intros c d. unfold net.
    destruct (String.eqb c a && String.eqb d b) eqn:X.
    { apply andb_true_iff in X. destruct X as [X1 X2].
      apply String.eqb_eq in X1, X2. subst.
      rewrite Hab, Hba, Hx, Hy. simpl. f_equal. lia. }
    destruct (String.eqb c b && String.eqb d a) eqn:Y.
    { apply andb_true_iff in Y. destruct Y as [Y1 Y2].
      apply String.eqb_eq in Y1, Y2. subst.
      rewrite Hab, Hba, Hx, Hy. simpl. f_equal. lia. }
    assert (N1 : ~ (c = a /\ d = b))
      by (intros [-> ->]; now rewrite !String.eqb_refl in X).
    assert (N2 : ~ (c = b /\ d = a))
      by (intros [-> ->]; now rewrite !String.eqb_refl in Y).
    rewrite (Ho c d N1 N2), (Ho d c); tauto.
  - intros c d (u & v & Hu & Hv & Hu0 & Hv0 & Huv).
    destruct (String.eqb c a && String.eqb d b) eqn:X.
    { apply andb_true_iff in X. destruct X as [X1 X2].
      apply String.eqb_eq in X1, X2. subst. exact Hcan. }
    destruct (String.eqb c b && String.eqb d a) eqn:Y.
    { apply andb_true_iff in Y. destruct Y as [Y1 Y2].
      apply String.eqb_eq in Y1, Y2. subst.
      destruct Hcan as (p & q & ? & ? & ? & ? & ?).
      exists q, p. repeat split; auto. tauto. }
    assert (N1 : ~ (c = a /\ d = b))
      by (intros [-> ->]; now rewrite !String.eqb_refl in X).
    assert (N2 : ~ (c = b /\ d = a))
      by (intros [-> ->]; now rewrite !String.eqb_refl in Y).
    exists u, v. rewrite (Ho c d N1 N2), (Ho d c); try tauto.
Qed.

(** Step 5 on a numeric ledger: it returns, keeps the net totals and the
    signed net of every pair, and leaves every pair canonical. *)
Lemma netLedger_numeric st :
  numericLedger ids (ledger st) ->
  exists st',
    netLedger ids st = Ok st' /\
    totals st' = totals st /\
    sameRows (ledger st) (ledger st') /\
    numericLedger ids (ledger st') /\
    (forall c d, net (ledger st') c d = net (ledger st) c d) /\
    canonicalLedger ids (ledger st').
Proof.
  intros Hnum.
  destruct (netLedger_rule
    (fun s => totals s = totals st /\ sameRows (ledger st) (ledger s) /\
              numericLedger ids (ledger s) /\
              forall c d, net (ledger s) c d = net (ledger st) c d)
    (fun a b s => String.ltb a b = true -> canonicalPair (ledger s) a b))
    with (s := st) as (st' & E & (HT & HR & HN & HD) & HC).
  - intros a b s Ha Hb (HT & HR & HN & HD).
    destruct (netPair_numeric a b s Ha Hb HN)
      as (s' & E & HT' & HR' & HN' & HD' & HC' & _).
    exists s'. split; [exact E|]. split; [|exact HC'].
    split; [congruence|]. split; [|split; [exact HN'|]].
    + intros x. rewrite (HR' x). apply HR.
    + intros x y. now rewrite HD'.
  - intros a b c d s s' Hc Hd (HT & HR & HN & HD) Hab E Lt.
    destruct (netPair_numeric c d s Hc Hd HN)
      as (s1 & E1 & _ & _ & _ & _ & _ & Hkeep).
    rewrite E in E1. inversion E1. subst s1. auto.
  - split; [reflexivity|]. split; [intros x; tauto|]. split; auto.
  - exists st'. do 5 (split; [assumption|]).
    intros a b Ha Hb Hne.
    destruct (ltb_total a b Hne) as [Lt|Lt].
    + now apply HC.
    + destruct (HC b a Hb Ha Lt) as (p & q & ? & ? & ? & ? & ?).
      exists q, p. repeat split; auto. tauto.
Qed.

End Netting.

Section LoopsPartial.

Context {A S : Type}.

(** A property kept by every step that returns is kept by a loop that
    returns. *)
Lemma forEach_preserve (P : S -> Prop) (l : list A)
  (f : A -> S -> result S) :
  (forall x s s', In x l -> P s -> f x s = Ok s' -> P s') ->
  forall s s', P s -> forEach l f s = Ok s' -> P s'.
Proof.
  induction l as [|x l IH]; intros Hstep s s' HP; simpl.
  - intros E. inversion E. now subst.
  - destruct (f x s) as [s1|] eqn:E1; simpl; [|discriminate].
    apply IH.
    + intros y s0 s2 Hy. apply Hstep. now right.
    + eapply Hstep; eauto. now left.
Qed.

End LoopsPartial.

Section CellsMore.

Lemma get_in {V : Type} (o : obj V) k v : get o k = Some v -> In (k, v) o.
Proof.
  induction o as [|[k0 v0] o IH]; simpl; [discriminate|].
  eqb_cases k k0.
  - intros H. inversion H. now left.
  - intros H. right. auto.
Qed.

Lemma setCell_get_other L a b v L' c :
  setCell L a b v = Ok L' -> c <> a -> get L' c = get L c.
Proof.
  unfold setCell. destruct (get L a); [|discriminate].
  intros H Hne. inversion H. now apply get_set_other.
Qed.

Lemma setCell_diagNaN L a b v L' :
  setCell L a b v = Ok L' -> (a = b -> v = NaN) -> diagNaN L -> diagNaN L'.
Proof.
  unfold setCell. destruct (get L a) as [row|] eqn:E; [|discriminate].
  intros H Hv HD. inversion H. subst L'. clear H.
  intros c row' w Hrow Hin. rewrite get_set in Hrow.
  destruct (String.eqb c a) eqn:Eca.
  - apply String.eqb_eq in Eca. subst c. inversion Hrow. subst row'.
    apply in_set in Hin. destruct Hin as [[-> ->]|Hin]; auto.
    eapply HD; eauto.
  - eapply HD; eauto.
Qed.

(** The diagonal read by a self-directed update is never an amount. *)
Lemma diag_read_NaN L a :
  diagNaN L -> get L a <> None -> getCell L a a = Ok NaN.
Proof.
  intros HD Hrow. unfold getCell.
  destruct (get L a) as [row|] eqn:E; [|congruence].
  destruct (get row a) as [v|] eqn:Ev; simpl; auto.
  f_equal. eapply HD; eauto. now apply get_in.
Qed.

End CellsMore.

Section Init.

Variable ids : list string.

(** The inner loop of step 2 for one member [a]. *)
Lemma initRow a (L0 : Ledger) :
  exists L',
    forEach ids (fun b L =>
      if negb (String.eqb a b) then setCell L a b (Num 0) else Ok L)
      (set L0 a []) = Ok L' /\
    get L' a <> None /\
    (forall c, c <> a -> get L' c = get L0 c) /\
    (forall b, In b ids -> a <> b -> cell L' a b = Some (Num 0)) /\
    cell L' a a = None.
Proof.
  destruct (forEach_establish
    (fun L => get L a <> None /\ (forall c, c <> a -> get L c = get L0 c) /\
              cell L a a = None)
    (fun b L => a <> b -> cell L a b = Some (Num 0)) ids
    (fun b L =>
      if negb (String.eqb a b) then setCell L a b (Num 0) else Ok L))
    with (s := set L0 a []) as (L' & E & (H1 & H2 & H3) & H4).
  - intros b L _ (Hrow & Hfr & Hdiag).
    destruct (String.eqb a b) eqn:Eab; simpl.
    + apply String.eqb_eq in Eab. exists L. repeat split; auto. congruence.
    + apply String.eqb_neq in Eab.
      destruct (setCell_ok L a b (Num 0) Hrow) as (L1 & E1).
      destruct (setCell_inv _ _ _ _ _ E1) as (R1 & C1).
      exists L1. split; [exact E1|]. split; [split; [|split]|].
      * rewrite (R1 a). exact Hrow.
      * intros c Hc. rewrite (setCell_get_other _ _ _ _ _ c E1 Hc). auto.
      * rewrite C1. rewrite String.eqb_refl. simpl.
        apply String.eqb_neq in Eab. now rewrite Eab.
      * intros _. rewrite C1. now rewrite !String.eqb_refl.
  - intros x y L L1 _ _ HR E Hax.
    destruct (String.eqb a y) eqn:Eay; simpl in E.
    + inversion E. subst. auto.
    + destruct (setCell_inv _ _ _ _ _ E) as (_ & C1). rewrite C1.
      destruct (String.eqb a a && String.eqb x y); auto.
  - split; [|split].
    + rewrite get_set_same. discriminate.
    + intros c Hc. now apply get_set_other.
    + unfold cell. now rewrite get_set_same.
  - exists L'. repeat split; auto.
Qed.

Lemma initLedger_ok :
  exists L,
    initLedger ids = Ok L /\
    hasRows ids L /\
    (forall a b, In a ids -> In b ids -> a <> b ->
       cell L a b = Some (Num 0)) /\
    (forall a, cell L a a = None) /\
    (forall a, get L a <> None -> In a ids).
Proof.
  unfold initLedger.
  destruct (forEach_establish
    (fun L => (forall a, cell L a a = None) /\
              (forall a, get L a <> None -> In a ids))
    (fun a L => get L a <> None /\
       forall b, In b ids -> a <> b -> cell L a b = Some (Num 0)) ids
    (fun a L =>
      let L := set L a [] in
      forEach ids (fun b L =>
        if negb (String.eqb a b) then setCell L a b (Num 0) else Ok L) L))
    with (s := @nil (string * obj number)) as (L & E & (H1 & H2) & H3).
  - intros a L Ha (Hdiag & Hkeys).
    destruct (initRow a L) as (L' & E & Hrow & Hfr & Hcells & Hd).
    exists L'. split; [exact E|]. split; [split|]; auto.
    + intros c. eqb_cases c a; auto.
      unfold cell. rewrite (Hfr c E0). apply Hdiag.
    + intros c Hc. eqb_cases c a; auto.
      apply Hkeys. now rewrite <- (Hfr c E0).
  - intros x y L L' Hy _ (Hrow & Hcells) E.
    destruct (initRow y L) as (L1 & E1 & Hrow1 & Hfr1 & Hcells1 & _).
    cbv zeta in E. rewrite E in E1. inversion E1. subst L1.
    eqb_cases x y; [auto|].
    split.
    + now rewrite (Hfr1 x E0).
    + intros b Hb Hxb. unfold cell. rewrite (Hfr1 x E0). now apply Hcells.
  - split; [reflexivity|]. simpl. congruence.
  - exists L. repeat split; auto.
    + intros a Ha. now apply H3.
    + intros a b Ha Hb. now apply H3.
Qed.

Lemma initTotals_get a :
  In a ids -> get (initTotals ids) a = Some (Num 0).
Proof.
  unfold initTotals, fromEntries.
  assert (G : forall l (o : obj number),
    (In a l \/ get o a = Some (Num 0)) ->
    get (fold_left (fun o kv => set o (fst kv) (snd kv))
           (map (fun i => (i, Num 0)) l) o) a = Some (Num 0)).
  { induction l as [|x l IH]; intros o H; simpl.
    - destruct H as [[]|H]; exact H.
    - apply IH. destruct H as [[->|H]|H]; auto.
      + right. apply get_set_same.
      + right. rewrite get_set. now destruct (String.eqb a x). }
  intros H. apply G. now left.
Qed.

End Init.

(* ================================================================== *)
(** ** Valid inputs and the invariants of steps 3 and 4 *)

Section Totals.

Variable ids : list string.

Lemma tval_set T p v a :
  tval (set T p (Num v)) a = if String.eqb a p then v else tval T a.
Proof. unfold tval. rewrite get_set. now destruct (String.eqb a p). Qed.

Lemma tsum_set_notin l T p v :
  ~ In p l -> tsum l (set T p (Num v)) = tsum l T.
Proof.
  induction l as [|a l IH]; simpl; auto.
  intros H. rewrite tval_set, IH by tauto.
  eqb_cases a p; [tauto | reflexivity].
Qed.

Lemma tsum_set l T p v :
  NoDup l -> In p l ->
  tsum l (set T p (Num v)) = tsum l T - tval T p + v.
Proof.
  induction l as [|a l IH]; simpl; [tauto|].
  intros Hnd Hin. inversion Hnd as [|? ? Hnotin Hnd']. subst.
  rewrite tval_set. eqb_cases a p.
  - rewrite tsum_set_notin by assumption. lia.
  - destruct Hin as [?|Hin]; [congruence|].
    rewrite IH by assumption. lia.
Qed.

(** [totals[p] += amt; totals[r] -= amt] moves [amt] between two roster
    members and leaves the sum alone. *)
Lemma totals_transfer T p r amt :
  numericTotals ids T -> In p ids -> In r ids ->
  numericTotals ids (subTotal (addTotal T p amt) r amt) /\
  (NoDup ids ->
   tsum ids (subTotal (addTotal T p amt) r amt) = tsum ids T).
Proof.
  intros HN Hp Hr. unfold subTotal, addTotal.
  destruct (HN p Hp) as (zp & Ep). rewrite Ep. simpl.
  assert (Er : exists zr, get (set T p (Num (zp + amt))) r = Some (Num zr)).
  { rewrite get_set. destruct (String.eqb r p); eauto. }
  destruct Er as (zr & Er). rewrite Er. simpl. split.
  - intros a Ha. rewrite !get_set.
    destruct (String.eqb a r); eauto.
    destruct (String.eqb a p); eauto.
  - intros Hnd. rewrite !tsum_set by assumption.
    assert (tval T p = zp) by (unfold tval; now rewrite Ep).
    assert (tval (set T p (Num (zp + amt))) r = zr)
      by (unfold tval; now rewrite Er).
    lia.
Qed.

Lemma sumNumbers_tsum T l :
  (forall a, In a l -> exists z, get T a = Some (Num z)) ->
  sumNumbers (map (get T) l) = Num (tsum l T).
Proof.
  unfold sumNumbers. intros H.
  assert (G : forall acc,
    fold_left (fun acc v => add acc (toNumber v)) (map (get T) l) (Num acc)
    = Num (acc + tsum l T)).
  { induction l as [|a l IH]; intros acc; simpl.
    - f_equal. lia.
    - destruct (H a (or_introl eq_refl)) as (z & Ez).
      unfold tval at 1. rewrite Ez. simpl. rewrite IH.
      + f_equal. lia.
      + intros b Hb. apply H. now right. }
  apply (G 0).
Qed.

End Totals.

Section Steps.

Variable ids : list string.

(** An assignment to [ledger[p][q]] that stores an amount whenever
    [p] and [q] differ keeps the ledger well formed. *)
Lemma setCell_wf L p q v :
  hasRows ids L -> numericLedger ids L -> In p ids ->
  (p <> q -> exists z, v = Num z) ->
  exists L', setCell L p q v = Ok L' /\
    hasRows ids L' /\ numericLedger ids L'.
Proof.
  intros HR HN Hp Hv.
  destruct (setCell_ok L p q v (HR p Hp)) as (L' & E).
  destruct (setCell_inv _ _ _ _ _ E) as (R & C).
  exists L'. split; [exact E|]. split.
  - intros a Ha. rewrite (R a). now apply HR.
  - intros a b Ha Hb Hab. rewrite C.
    destruct (String.eqb a p && String.eqb b q) eqn:X; [|now apply HN].
    apply andb_true_iff in X. destruct X as [X1 X2].
    apply String.eqb_eq in X1, X2. subst.
    destruct (Hv Hab) as (z & ->). eauto.
Qed.

Lemma getCell_wf L p q :
  hasRows ids L -> numericLedger ids L -> In p ids -> In q ids ->
  exists cur, getCell L p q = Ok cur /\ (p <> q -> exists z, cur = Num z).
Proof.
  intros HR HN Hp Hq. rewrite (getCell_cell L p q (HR p Hp)).
  eexists. split; [reflexivity|]. intros Hne.
  destruct (HN p q Hp Hq Hne) as (z & ->). simpl. eauto.
Qed.

Lemma applySplit_wf payer sp st :
  In payer ids -> In (userId sp) ids -> wfState ids st ->
  exists st', applySplit payer sp st = Ok st' /\ wfState ids st' /\
    (NoDup ids -> tsum ids (totals st') = tsum ids (totals st)).
Proof.
  intros Hp Hd (HR & HN & HT). unfold applySplit.
  destruct (String.eqb (userId sp) payer || paid sp) eqn:Skip.
  { exists st. repeat split; auto. }
  apply orb_false_iff in Skip. destruct Skip as [Hne _].
  apply String.eqb_neq in Hne.
  destruct (getCell_wf _ (userId sp) payer HR HN Hd Hp) as (cur & E & Hc).
  rewrite E. simpl. destruct (Hc Hne) as (z & ->). simpl.
  destruct (setCell_wf (ledger st) (userId sp) payer (Num (z + amount sp))
              HR HN Hd) as (L' & E' & HR' & HN'); [eauto|].
  rewrite E'. simpl.
  destruct (totals_transfer ids (totals st) payer (userId sp) (amount sp)
              HT Hp Hd) as (HT' & HS).
  eexists. split; [reflexivity|]. repeat split; auto.
Qed.

Lemma applyExpense_wf e st :
  validExpense ids e -> wfState ids st ->
  exists st', applyExpense e st = Ok st' /\ wfState ids st' /\
    (NoDup ids -> tsum ids (totals st') = tsum ids (totals st)).
Proof.
  intros (Hp & Hs) Hwf. unfold applyExpense.
  destruct (forEach_inv
    (fun s => wfState ids s /\
              (NoDup ids -> tsum ids (totals s) = tsum ids (totals st)))
    (splits e) (applySplit (paidByUserId e))) with (s := st)
    as (st' & E & Hwf' & HS); auto.
  - intros sp s Hin (Hwf0 & HS0).
    destruct (applySplit_wf (paidByUserId e) sp s Hp (Hs sp Hin) Hwf0)
      as (s' & E & Hwf' & HS').
    exists s'. repeat split; auto; try apply Hwf'.
    intros Hnd. rewrite HS', HS0; auto.
  - eauto.
Qed.

Lemma applyExpenses_wf es st :
  (forall e, In e es -> validExpense ids e) -> wfState ids st ->
  exists st', applyExpenses es st = Ok st' /\ wfState ids st' /\
    (NoDup ids -> tsum ids (totals st') = tsum ids (totals st)).
Proof.
  intros Hv Hwf. unfold applyExpenses.
  destruct (forEach_inv
    (fun s => wfState ids s /\
              (NoDup ids -> tsum ids (totals s) = tsum ids (totals st)))
    es applyExpense) with (s := st) as (st' & E & Hwf' & HS); auto.
  - intros e s Hin (Hwf0 & HS0).
    destruct (applyExpense_wf e s (Hv e Hin) Hwf0) as (s' & E & Hwf' & HS').
    exists s'. repeat split; auto; try apply Hwf'.
    intros Hnd. rewrite HS', HS0; auto.
  - eauto.
Qed.

Lemma applySettlement_wf s st :
  validSettlement ids s -> wfState ids st ->
  exists st', applySettlement s st = Ok st' /\ wfState ids st' /\
    (NoDup ids -> tsum ids (totals st') = tsum ids (totals st)).
Proof.
  intros (Hp & Hr) (HR & HN & HT). unfold applySettlement.
  destruct (getCell_wf _ (stl_paidByUserId s) (stl_receivedByUserId s)
              HR HN Hp Hr) as (cur & E & Hc).
  rewrite E. simpl.
  destruct (setCell_wf (ledger st) (stl_paidByUserId s)
              (stl_receivedByUserId s) (sub cur (Num (stl_amount s)))
              HR HN Hp) as (L' & E' & HR' & HN').
  { intros Hne. destruct (Hc Hne) as (z & ->). simpl. eauto. }
  rewrite E'. simpl.
  destruct (totals_transfer ids (totals st) (stl_paidByUserId s)
              (stl_receivedByUserId s) (stl_amount s) HT Hp Hr)
    as (HT' & HS).
  eexists. split; [reflexivity|]. repeat split; auto.
Qed.

Lemma applySettlements_wf ss st :
  (forall s, In s ss -> validSettlement ids s) -> wfState ids st ->
  exists st', applySettlements ss st = Ok st' /\ wfState ids st' /\
    (NoDup ids -> tsum ids (totals st') = tsum ids (totals st)).
Proof.
  intros Hv Hwf. unfold applySettlements.
  destruct (forEach_inv
    (fun s => wfState ids s /\
              (NoDup ids -> tsum ids (totals s) = tsum ids (totals st)))
    ss applySettlement) with (s := st) as (st' & E & Hwf' & HS); auto.
  - intros e s Hin (Hwf0 & HS0).
    destruct (applySettlement_wf e s (Hv e Hin) Hwf0)
      as (s' & E & Hwf' & HS').
    exists s'. repeat split; auto; try apply Hwf'.
    intros Hnd. rewrite HS', HS0; auto.
  - eauto.
Qed.

Lemma tsum_initTotals : tsum ids (initTotals ids) = 0.
Proof.
  assert (G : forall l, incl l ids -> tsum l (initTotals ids) = 0).
  { induction l as [|a l IH]; intros Hincl; simpl; auto.
    unfold tval. rewrite initTotals_get by (apply Hincl; now left).
    rewrite IH; auto. intros x Hx. apply Hincl. now right. }
  apply G, incl_refl.
Qed.

Lemma initState_wf :
  exists st, initState ids = Ok st /\ wfState ids st /\
    tsum ids (totals st) = 0.
Proof.
  unfold initState.
  destruct (initLedger_ok ids) as (L & E & HR & HC & _).
  rewrite E. simpl. eexists. split; [reflexivity|].
  split; [split; [|split]|]; simpl; auto.
  - intros a b Ha Hb Hab. eauto.
  - intros a Ha. rewrite initTotals_get; eauto.
  - apply tsum_initTotals.
Qed.

(** Steps 2 to 4 on a valid input return a well-formed state whose net
    totals sum to zero when the roster lists each member once. *)
Lemma preNetting_wf es ss :
  validInput ids es ss ->
  exists st, preNetting ids es ss = Ok st /\ wfState ids st /\
    (NoDup ids -> tsum ids (totals st) = 0).
Proof.
  intros (Hes & Hss). unfold preNetting.
  destruct initState_wf as (st0 & E0 & W0 & S0). rewrite E0. simpl.
  destruct (applyExpenses_wf es st0 Hes W0) as (st1 & E1 & W1 & S1).
  rewrite E1. simpl.
  destruct (applySettlements_wf ss st1 Hss W1) as (st2 & E2 & W2 & S2).
  exists st2. repeat split; auto; try apply W2.
  intros Hnd. rewrite S2, S1; auto.
Qed.

End Steps.

Section DistinctMembers.

Variables ids l : list string.
Hypothesis same_members : forall a, In a l <-> In a ids.

Lemma wfState_members st : wfState ids st -> wfState l st.
Proof.
  intros (HR & HN & HT). split; [|split].
  - intros a Ha. apply HR. now apply same_members.
  - intros a b Ha Hb. apply HN; now apply same_members.
  - intros a Ha. apply HT. now apply same_members.
Qed.

Lemma validInput_members es ss : validInput ids es ss -> validInput l es ss.
Proof.
  intros (He & Hs). split.
  - intros e Hin. destruct (He e Hin) as (Hp & Hsp). split.
    + now apply same_members.
    + intros sp Hin'. apply same_members. auto.
  - intros s Hin. destruct (Hs s Hin) as (Hp & Hr).
    split; now apply same_members.
Qed.

Lemma tsum_initTotals_members : tsum l (initTotals ids) = 0.
Proof.
  assert (G : forall l', incl l' ids -> tsum l' (initTotals ids) = 0).
  { induction l' as [|a l' IH]; intros Hincl; simpl; auto.
    unfold tval. rewrite initTotals_get by (apply Hincl; now left).
    rewrite IH; auto. intros x Hx. apply Hincl. now right. }
  apply G. intros a Ha. now apply same_members.
Qed.

(** After steps 2 to 4 on a valid input the net totals of the distinct
    members sum to zero. *)
Lemma preNetting_tsum es ss st :
  NoDup l -> validInput ids es ss -> preNetting ids es ss = Ok st ->
  tsum l (totals st) = 0.
Proof.
  intros Hnd Hv. pose proof (validInput_members es ss Hv) as (Hes & Hss).
  unfold preNetting.
  destruct (initState_wf ids) as (st0 & E0 & W0 & _). rewrite E0. simpl.
  assert (S0 : tsum l (totals st0) = 0).
  { unfold initState in E0. destruct (initLedger ids); simpl in E0;
      [|discriminate].
    inversion E0. simpl. apply tsum_initTotals_members. }
  destruct (applyExpenses_wf l es st0 Hes (wfState_members st0 W0))
    as (st1 & E1 & W1 & S1).
  rewrite E1. simpl.
  destruct (applySettlements_wf l ss st1 Hss W1) as (st2 & E2 & W2 & S2).
  rewrite E2. intros H. inversion H. subst st2.
  rewrite S2, S1; auto.
Qed.

End DistinctMembers.

(* ================================================================== *)
(** ** Step 6 on a ledger with a row per member *)

Section Shape.

Lemma mapM_pure {A B : Type} (f : A -> result B) (g : A -> B) l :
  (forall x, In x l -> f x = Ok (g x)) -> mapM f l = Ok (map g l).
Proof.
  induction l as [|x l IH]; intros H; simpl; auto.
  rewrite (H x (or_introl eq_refl)). simpl.
  rewrite IH; auto. intros y Hy. apply H. now right.
Qed.

Lemma filterM_pure {A : Type} (p : A -> result bool) (q : A -> bool) l :
  (forall x, In x l -> p x = Ok (q x)) -> filterM p l = Ok (filter q l).
Proof.
  induction l as [|x l IH]; intros H; simpl; auto.
  rewrite (H x (or_introl eq_refl)). simpl.
  rewrite IH; auto. intros y Hy. apply H. now right.
Qed.

Lemma shapeBalance_ok ids st m :
  hasRows ids (ledger st) -> In (id m) ids ->
  exists row, get (ledger st) (id m) = Some row /\
    shapeBalance ids st m =
    Ok (mkBalance m (get (totals st) (id m))
          (filter (fun e => gt0 (snd e)) row)
          (owedByOf ids (ledger st) (id m))).
Proof.
  intros HR Hm. unfold shapeBalance.
  destruct (get (ledger st) (id m)) as [row|] eqn:E.
  2:{ exfalso. now apply (HR (id m) Hm). }
  exists row. split; [reflexivity|].
  rewrite (filterM_pure _
    (fun other => gt0 (toNumber (cell (ledger st) other (id m))))).
  2:{ intros x Hx. now rewrite (getCell_cell _ x (id m) (HR x Hx)). }
  simpl.
  rewrite (mapM_pure _
    (fun other => (other, toNumber (cell (ledger st) other (id m))))).
  2:{ intros x Hx. apply filter_In in Hx. destruct Hx as [Hx _].
      now rewrite (getCell_cell _ x (id m) (HR x Hx)). }
  reflexivity.
Qed.

Lemma shapeBalances_ok memberDetails st :
  hasRows (map id memberDetails) (ledger st) ->
  exists bs, shapeBalances memberDetails st = Ok bs /\
    map member bs = memberDetails /\
    map totalBalance bs =
    map (get (totals st)) (map id memberDetails).
Proof.
  intros HR. unfold shapeBalances.
  set (ids := map id memberDetails) in *.
  assert (G : forall l, incl (map id l) ids ->
    exists bs, mapM (shapeBalance ids st) l = Ok bs /\
      map member bs = l /\
      map totalBalance bs = map (get (totals st)) (map id l)).
  { induction l as [|m l IH]; intros Hincl; simpl.
    - exists []. auto.
    - destruct (shapeBalance_ok ids st m HR) as (row & _ & E).
      { apply Hincl. now left. }
      rewrite E. simpl.
      destruct IH as (bs & Ebs & Hm & Ht).
      { intros x Hx. apply Hincl. now right. }
      rewrite Ebs. simpl. eexists. split; [reflexivity|].
      simpl. rewrite Hm, Ht. auto. }
  apply G, incl_refl.
Qed.

End Shape.

(* ================================================================== *)
(** ** Properties of the balance computation *)

(** Conservation under exact arithmetic.  For expenses and settlements that
    mention roster members only, steps 2 to 4 return a state whose net
    totals, summed over the distinct members, give zero; the whole
    computation returns one balance per roster entry whose [totalBalance] is
    that member's net total, so that over a roster listing each member once
    the [totalBalance] fields of the output sum to zero. *)
Lemma exact_conservation (memberDetails : list MemberDetail)
  (expenses : list Expense) (settlements : list Settlement) :
  validInput (map id memberDetails) expenses settlements ->
  exists st balances,
    preNetting (map id memberDetails) expenses settlements = Ok st /\
    sumNumbers (map (get (totals st))
                  (nodup string_dec (map id memberDetails))) = Num 0 /\
    computeBalances memberDetails expenses settlements = Ok balances /\
    map totalBalance balances =
      map (get (totals st)) (map id memberDetails) /\
    (NoDup (map id memberDetails) ->
     sumNumbers (map totalBalance balances) = Num 0).
Proof.
  intros Hv. unfold computeBalances.
  set (ids := map id memberDetails) in *.
  destruct (preNetting_wf ids expenses settlements Hv)
    as (st & E & (HR & HN & HT) & _).
  destruct (netLedger_numeric ids st HN) as (st' & E' & HT' & HR' & _).
  assert (HRows : hasRows ids (ledger st')).
  { intros a Ha. rewrite (HR' a). now apply HR. }
  destruct (shapeBalances_ok memberDetails st' HRows) as (bs & Eb & _ & Hb).
  fold ids in Hb. rewrite HT' in Hb.
  assert (Hsum : forall l, NoDup l -> (forall a, In a l <-> In a ids) ->
            sumNumbers (map (get (totals st)) l) = Num 0).
  { intros l Hnd Hl. rewrite (sumNumbers_tsum (totals st) l).
    - now rewrite (preNetting_tsum ids l Hl expenses settlements st Hnd Hv E).
    - intros a Ha. apply HT. now apply Hl. }
  exists st, bs. rewrite E. simpl. rewrite E'. simpl.
  split; [reflexivity|]. split; [|split; [exact Eb|split; [exact Hb|]]].
  - apply Hsum; [apply NoDup_nodup|]. intros a. apply nodup_In.
  - intros Hnd. rewrite Hb. apply Hsum; [exact Hnd | tauto].
Qed.

(** A roster naming a member twice: the net totals of the two distinct
    members still cancel, while the output repeats the record of [A]. *)
Example conservation_repeated_member :
  (st <- preNetting ["A"; "A"; "B"]%string
           [mkExpense "g" "A" [mkSplit "B" 10 false]] [] ;;
   Ok (sumNumbers (map (get (totals st))
                     (nodup string_dec ["A"; "A"; "B"]%string)))) = Ok (Num 0)
  /\
  (bs <- computeBalances [md "A"; md "A"; md "B"]
           [mkExpense "g" "A" [mkSplit "B" 10 false]] [] ;;
   Ok (map totalBalance bs))
  = Ok [Some (Num 10); Some (Num 10); Some (Num (-10))].
Proof. split; vm_compute; reflexivity. Qed.

(** C2 (canonical single direction).  On a valid input the netting pass
    returns, and afterwards, for any two distinct members, both directed
    entries are amounts, neither is negative and at least one is zero. *)
Theorem canonical_single_direction (ids : list string)
  (expenses : list Expense) (settlements : list Settlement) :
  validInput ids expenses settlements ->
  exists st st',
    preNetting ids expenses settlements = Ok st /\
    netLedger ids st = Ok st' /\
    forall a b, In a ids -> In b ids -> a <> b ->
      exists x y,
        cell (ledger st') a b = Some (Num x) /\
        cell (ledger st') b a = Some (Num y) /\
        0 <= x /\ 0 <= y /\ (x = 0 \/ y = 0).
Proof.
  intros Hv.
  destruct (preNetting_wf ids expenses settlements Hv)
    as (st & E & (HR & HN & HT) & _).
  destruct (netLedger_numeric ids st HN) as (st' & E' & _ & _ & _ & _ & HC).
  exists st, st'. repeat split; auto.
Qed.

Lemma canonical_single_direction_witness :
  exists st st',
    preNetting ["A"; "B"; "C"]%string scenarioA_expenses
      [mkSettlement "g" "B" "A" 15] = Ok st /\
    netLedger ["A"; "B"; "C"]%string st = Ok st' /\
    forall a b, In a ["A"; "B"; "C"]%string -> In b ["A"; "B"; "C"]%string ->
      a <> b ->
      exists x y,
        cell (ledger st') a b = Some (Num x) /\
        cell (ledger st') b a = Some (Num y) /\
        0 <= x /\ 0 <= y /\ (x = 0 \/ y = 0).
Proof.
  apply (canonical_single_direction ["A"; "B"; "C"]%string scenarioA_expenses
           [mkSettlement "g" "B" "A" 15]).
  split.
  - intros e [<-|[]]. split; simpl; [tauto|].
    intros sp [<-|[<-|[<-|[]]]]; simpl; tauto.
  - intros s [<-|[]]. split; simpl; tauto.
Defined.

Section Idempotence.

Lemma setCell_same L a b v : cell L a b = Some v -> setCell L a b v = Ok L.
Proof.
  unfold cell, setCell. destruct (get L a) as [row|] eqn:E; [|discriminate].
  intros H. rewrite (set_get_id row b v H). now rewrite (set_get_id L a row E).
Qed.

Lemma netPair_canonical a b st :
  (String.ltb a b = true -> canonicalPair (ledger st) a b) ->
  netPair a b st = Ok st.
Proof.
  intros H. unfold netPair. destruct (geb a b) eqn:G; [reflexivity|].
  apply geb_false_ltb in G.
  destruct (H G) as (x & y & Hx & Hy & Hx0 & Hy0 & Hxy).
  assert (Ha : get (ledger st) a <> None).
  { unfold cell in Hx. destruct (get (ledger st) a); congruence. }
  assert (Hb : get (ledger st) b <> None).
  { unfold cell in Hy. destruct (get (ledger st) b); congruence. }
  rewrite (getCell_cell _ a b Ha), (getCell_cell _ b a Hb).
  rewrite Hx, Hy. simpl. destruct st as [T L]. simpl in *.
  destruct (0 <? x - y) eqn:Gt; [|destruct (x - y <? 0) eqn:Lt].
  - apply Z.ltb_lt in Gt.
    assert (y = 0) by lia. subst y. rewrite Z.sub_0_r.
    rewrite (setCell_same L a b _ Hx). simpl.
    now rewrite (setCell_same L b a _ Hy).
  - apply Z.ltb_lt in Lt.
    assert (x = 0) by lia. subst x.
    replace (- (0 - y)) with y by lia.
    rewrite (setCell_same L b a _ Hy). simpl.
    now rewrite (setCell_same L a b _ Hx).
  - apply Z.ltb_ge in Gt. apply Z.ltb_ge in Lt.
    assert (x = 0 /\ y = 0) as [-> ->] by lia.
    rewrite (setCell_same L b a _ Hy). simpl.
    now rewrite (setCell_same L a b _ Hx).
Qed.

End Idempotence.

(** C3 (netting idempotence).  On a ledger in which, for any two distinct
    members, both directed entries are non-negative amounts and at least one
    is zero, the netting pass returns the very same state. *)
Theorem netting_idempotent (ids : list string) (st : State) :
  (forall a b, In a ids -> In b ids -> a <> b ->
     exists x y,
       cell (ledger st) a b = Some (Num x) /\
       cell (ledger st) b a = Some (Num y) /\
       0 <= x /\ 0 <= y /\ (x = 0 \/ y = 0)) ->
  netLedger ids st = Ok st.
Proof.
  intros Hcan. unfold netLedger.
  apply forEach_id. intros a Ha.
  apply forEach_id. intros b Hb.
  apply netPair_canonical. intros Lt.
  apply Hcan; auto. now apply ltb_neq.
Qed.

Lemma netting_idempotent_witness :
  netLedger ["A"; "B"; "C"]%string canonical_example = Ok canonical_example.
Proof.
  apply (netting_idempotent ["A"; "B"; "C"]%string canonical_example).
  roster_cases;
    (do 2 eexists; split; [reflexivity|]; split; [reflexivity|]; lia).
Defined.

(** C9 (netting frames the net totals).  On a ledger with a row for every
    member the netting pass returns and the net totals it hands to step 6
    are the ones it received; only the ledger may differ. *)
Theorem netting_keeps_totals (ids : list string) (st : State) :
  hasRows ids (ledger st) ->
  exists st', netLedger ids st = Ok st' /\ totals st' = totals st.
Proof.
  intros HR.
  destruct (netLedger_rule ids
    (fun s => totals s = totals st /\ hasRows ids (ledger s))
    (fun _ _ _ => True)) with (s := st) as (st' & E & (HT & _) & _).
  - intros a b s Ha Hb (HT & HR0).
    destruct (netPair_spec a b s (HR0 a Ha) (HR0 b Hb))
      as (s' & E & HT' & HR' & _).
    exists s'. split; [exact E|]. split; [|exact I]. split; [congruence|].
    intros c Hc. rewrite (HR' c). now apply HR0.
  - auto.
  - auto.
  - eauto.
Qed.

Lemma netting_keeps_totals_witness :
  exists st', netLedger ["A"; "B"; "C"]%string overpaid_example = Ok st' /\
              totals st' = totals overpaid_example.
Proof.
  apply (netting_keeps_totals ["A"; "B"; "C"]%string overpaid_example).
  unfold hasRows. roster_cases; simpl; discriminate.
Defined.



(* ================================================================== *)
(** ** Overpayment *)

Example afterExpensesA_computed :
  (st <- initState ["A"; "B"; "C"]%string ;;
   applyExpenses scenarioA_expenses st) = Ok afterExpensesA.
Proof. vm_compute. reflexivity. Qed.

Example overpaid_example_computed :
  preNetting ["A"; "B"; "C"]%string scenarioA_expenses
    [mkSettlement "g" "B" "A" 15] = Ok overpaid_example.
Proof. vm_compute. reflexivity. Qed.

(** C6 (overpayment reverses direction).  Let the ledger record that [b]
    owes [a] the amount [d] and that [a] owes [b] the amount [e], zero in
    Scenario C.  A single settlement from [b] to [a] of more than [d] leaves
    the negative entry [d - amt] in [ledger[b][a]]; the netting pass then
    records that [a] owes [b] the positive amount [e + amt - d] and that [b]
    owes [a] nothing. *)
Theorem overpayment_reverses_direction (ids : list string) (st : State)
  (g a b : string) (d e amt : Z) :
  (forall x y, In x ids -> In y ids -> x <> y ->
     exists z, cell (ledger st) x y = Some (Num z)) ->
  In a ids -> In b ids -> a <> b ->
  cell (ledger st) b a = Some (Num d) ->
  cell (ledger st) a b = Some (Num e) ->
  0 <= e -> d < amt ->
  exists st1 st2,
    applySettlements [mkSettlement g b a amt] st = Ok st1 /\
    cell (ledger st1) b a = Some (Num (d - amt)) /\ d - amt < 0 /\
    cell (ledger st1) a b = Some (Num e) /\
    netLedger ids st1 = Ok st2 /\
    cell (ledger st2) a b = Some (Num (e + amt - d)) /\ 0 < e + amt - d /\
    cell (ledger st2) b a = Some (Num 0).
Proof.
  intros HN Ha Hb Hab Hba Hab0 He Hlt.
  assert (Hrow : get (ledger st) b <> None).
  { unfold cell in Hba. destruct (get (ledger st) b); congruence. }
  unfold applySettlements, applySettlement. simpl.
  rewrite (getCell_cell _ b a Hrow), Hba. simpl.
  destruct (setCell_ok (ledger st) b a (Num (d - amt)) Hrow) as (L1 & E1).
  destruct (setCell_inv _ _ _ _ _ E1) as (R1 & C1).
  rewrite E1. simpl.
  set (st1 := mkState _ L1).
  assert (HN1 : numericLedger ids (ledger st1)).
  { intros x y Hx Hy Hxy. simpl. rewrite C1.
    destruct (String.eqb x b && String.eqb y a); eauto. }
  assert (Hba1 : cell L1 b a = Some (Num (d - amt))).
  { rewrite C1. now rewrite !String.eqb_refl. }
  assert (Hab1 : cell L1 a b = Some (Num e)).
  { rewrite C1. apply String.eqb_neq in Hab. now rewrite Hab. }
  destruct (netLedger_numeric ids st1 HN1)
    as (st2 & E2 & _ & _ & _ & HD & HC).
  destruct (HC a b Ha Hb Hab) as (x & y & Hx & Hy & Hx0 & Hy0 & Hxy).
  pose proof (HD a b) as Hnet. unfold net in Hnet.
  rewrite Hx, Hy in Hnet. simpl in Hnet. rewrite Hab1, Hba1 in Hnet.
  simpl in Hnet. inversion Hnet as [Hz].
  assert (x = e + amt - d /\ y = 0) as [-> ->] by lia.
  exists st1, st2. repeat split; auto; lia.
Qed.

Lemma overpayment_reverses_direction_witness :
  exists st1 st2,
    applySettlements [mkSettlement "g" "B" "A" 15] afterExpensesA = Ok st1 /\
    cell (ledger st1) "B" "A" = Some (Num (10 - 15)) /\ 10 - 15 < 0 /\
    cell (ledger st1) "A" "B" = Some (Num 0) /\
    netLedger ["A"; "B"; "C"]%string st1 = Ok st2 /\
    cell (ledger st2) "A" "B" = Some (Num (0 + 15 - 10)) /\
    0 < 0 + 15 - 10 /\
    cell (ledger st2) "B" "A" = Some (Num 0).
Proof.
  apply (overpayment_reverses_direction ["A"; "B"; "C"]%string afterExpensesA
           "g" "A" "B" 10 0 15).
  - roster_cases; eexists; reflexivity.
  - simpl. tauto.
  - simpl. tauto.
  - discriminate.
  - reflexivity.
  - reflexivity.
  - lia.
  - lia.
Defined.

(** Scenario C end to end: [ledger[A][B] = 5] and [ledger[B][A] = 0]. *)
Example scenarioC_ledger :
  (st1 <- applySettlements [mkSettlement "g" "B" "A" 15] afterExpensesA ;;
   st2 <- netLedger ["A"; "B"; "C"]%string st1 ;;
   Ok (cell (ledger st1) "B" "A", cell (ledger st2) "A" "B",
       cell (ledger st2) "B" "A"))
  = Ok (Some (Num (-5)), Some (Num 5), Some (Num 0)).
Proof. vm_compute. reflexivity. Qed.

(* ================================================================== *)
(** ** Authorization *)

(** C7 (abort before compute).  With a signed-in user, when no stored group
    has the requested id, or the group found does not list the user, the
    handler throws after exactly two store accesses, the current-user query
    and the group lookup: no expense, settlement or member document is read
    and no response is built. *)
Theorem unauthorized_aborts_before_compute (ctx : Ctx) (groupId : string)
  (u : User) :
  getCurrentUser ctx = Ok u ->
  (find (fun g => String.eqb (grp_id g) groupId) (db_groups ctx) = None \/
   exists group,
     find (fun g => String.eqb (grp_id g) groupId) (db_groups ctx)
       = Some group /\
     forall m, In m (grp_members group) -> mem_userId m <> usr_id u) ->
  exists msg,
    getGroupExpenses ctx groupId =
    ([RunCurrentUser; GetGroup groupId], Throw (Error msg)) /\
    (find (fun g => String.eqb (grp_id g) groupId) (db_groups ctx) = None ->
     msg = "Group not found"%string) /\
    (find (fun g => String.eqb (grp_id g) groupId) (db_groups ctx) <> None ->
     msg = "You are not a member of this group"%string).
Proof.
  intros Hu H. unfold getGroupExpenses, runCurrentUser, getGroup.
  rewrite Hu. simpl.
  destruct H as [Hnone | (group & Hsome & Hnot)].
  - rewrite Hnone. simpl. eexists. split; [reflexivity|].
    split; [reflexivity | congruence].
  - rewrite Hsome.
    assert (Hex : existsb (fun m => String.eqb (mem_userId m) (usr_id u))
                    (grp_members group) = false).
    { destruct (existsb _ _) eqn:X; auto.
      apply existsb_exists in X. destruct X as (m & Hm & Em).
      apply String.eqb_eq in Em. exfalso. now apply (Hnot m). }
    rewrite Hex. simpl. eexists. split; [reflexivity|].
    split; [discriminate | reflexivity].
Qed.

Lemma unauthorized_aborts_before_compute_witness :
  exists msg,
    getGroupExpenses ctx_example "g" =
    ([RunCurrentUser; GetGroup "g"], Throw (Error msg)) /\
    (find (fun g => String.eqb (grp_id g) "g") (db_groups ctx_example) = None ->
     msg = "Group not found"%string) /\
    (find (fun g => String.eqb (grp_id g) "g") (db_groups ctx_example) <> None ->
     msg = "You are not a member of this group"%string).
Proof.
  apply (unauthorized_aborts_before_compute ctx_example "g"
           (mkUser "Z" "Zoe" "")).
  - reflexivity.
  - right. eexists. split; [reflexivity|].
    intros m [<-|[<-|[]]]; simpl; discriminate.
Defined.

Example member_gets_response :
  exists rsp,
    getGroupExpenses
      (mkCtx (Ok (mkUser "B" "Bob" "")) (db_groups ctx_example)
         (db_users ctx_example) (db_expenses ctx_example)
         (db_settlements ctx_example)) "g" =
    ([RunCurrentUser; GetGroup "g"; QueryExpenses "g"; QuerySettlements "g";
      GetUser "A"; GetUser "B"], Ok rsp) /\
    map totalBalance (rsp_balances rsp) = [Some (Num 10); Some (Num (-10))].
Proof. eexists. vm_compute. split; reflexivity. Qed.

(* ================================================================== *)
(** ** Splits that are skipped, and splits of non-members *)

Section Splits.

Lemma applySplit_skipped payer sp st :
  skipped payer sp = true -> applySplit payer sp st = Ok st.
Proof. unfold skipped, applySplit. now intros ->. Qed.

Lemma applyExpense_drop g payer sps1 sp sps2 st :
  skipped payer sp = true ->
  applyExpense (mkExpense g payer (sps1 ++ sp :: sps2)) st =
  applyExpense (mkExpense g payer (sps1 ++ sps2)) st.
Proof.
  intros Hs. unfold applyExpense. simpl. rewrite !forEach_app.
  destruct (forEach sps1 (applySplit payer) st) as [s|]; simpl; auto.
  now rewrite (applySplit_skipped payer sp s Hs).
Qed.

Lemma applyExpenses_drop es1 es2 g payer sps1 sp sps2 st :
  skipped payer sp = true ->
  applyExpenses (es1 ++ mkExpense g payer (sps1 ++ sp :: sps2) :: es2) st =
  applyExpenses (es1 ++ mkExpense g payer (sps1 ++ sps2) :: es2) st.
Proof.
  intros Hs. unfold applyExpenses. rewrite !forEach_app.
  destruct (forEach es1 applyExpense st) as [s|]; simpl; auto.
  now rewrite (applyExpense_drop g payer sps1 sp sps2 s Hs).
Qed.

(** Step 3 never writes a diagonal entry. *)
Lemma applySplit_diag_absent payer sp st st' :
  applySplit payer sp st = Ok st' ->
  (forall a, cell (ledger st) a a = None) ->
  forall a, cell (ledger st') a a = None.
Proof.
  unfold applySplit. destruct (String.eqb (userId sp) payer) eqn:Eq; simpl.
  { intros H. inversion H. now subst. }
  destruct (paid sp); simpl.
  { intros H. inversion H. now subst. }
  destruct (getCell (ledger st) (userId sp) payer) as [cur|]; simpl;
    [|discriminate].
  destruct (setCell (ledger st) (userId sp) payer (add cur (Num (amount sp))))
    as [L'|] eqn:E; simpl; [|discriminate].
  intros H Hd a. inversion H. subst st'. simpl.
  destruct (setCell_inv _ _ _ _ _ E) as (_ & C). rewrite C.
  destruct (String.eqb a (userId sp) && String.eqb a payer) eqn:X; auto.
  apply andb_true_iff in X. destruct X as [X1 X2].
  apply String.eqb_eq in X1, X2. apply String.eqb_neq in Eq. congruence.
Qed.

Lemma applyExpenses_diag_absent es st st' :
  applyExpenses es st = Ok st' ->
  (forall a, cell (ledger st) a a = None) ->
  forall a, cell (ledger st') a a = None.
Proof.
  intros E H. revert E.
  apply (forEach_preserve (fun s => forall a, cell (ledger s) a a = None));
    auto.
  intros e s s' _ Hs Ee. revert Ee.
  apply (forEach_preserve (fun s => forall a, cell (ledger s) a a = None));
    auto.
  intros sp s0 s1 _ H0 E0. eapply applySplit_diag_absent; eauto.
Qed.

Lemma applySplit_rowsWithin ids payer sp st st' :
  applySplit payer sp st = Ok st' ->
  rowsWithin ids (ledger st) -> rowsWithin ids (ledger st').
Proof.
  unfold applySplit. destruct (String.eqb (userId sp) payer || paid sp).
  { intros H. inversion H. now subst. }
  destruct (getCell (ledger st) (userId sp) payer) as [cur|]; simpl;
    [|discriminate].
  destruct (setCell (ledger st) (userId sp) payer (add cur (Num (amount sp))))
    as [L'|] eqn:E; simpl; [|discriminate].
  intros H HR a Ha. inversion H. subst st'. simpl in Ha.
  destruct (setCell_inv _ _ _ _ _ E) as (R & _).
  apply HR. now rewrite <- (R a).
Qed.

Lemma applySplit_foreign ids payer sp st :
  skipped payer sp = false -> ~ In (userId sp) ids ->
  rowsWithin ids (ledger st) ->
  applySplit payer sp st = Throw TypeError.
Proof.
  unfold skipped, applySplit. intros -> Hnot HR.
  rewrite getCell_throw; auto.
  destruct (get (ledger st) (userId sp)) eqn:E; auto.
  exfalso. apply Hnot, HR. congruence.
Qed.

Lemma forEach_throws_at {A S : Type} (P : S -> Prop) (l1 : list A) (x : A)
  (l2 : list A) (f : A -> S -> result S) (s : S) :
  (forall y s0 s1, In y l1 -> P s0 -> f y s0 = Ok s1 -> P s1) ->
  (forall s0, P s0 -> exists e, f x s0 = Throw e) ->
  P s -> exists e, forEach (l1 ++ x :: l2) f s = Throw e.
Proof.
  intros Hkeep Hthrow HP. rewrite forEach_app.
  destruct (forEach l1 f s) as [s1|e] eqn:E; simpl; [|eauto].
  assert (HP1 : P s1) by (eapply forEach_preserve; eauto).
  destruct (Hthrow s1 HP1) as (e & ->). simpl. eauto.
Qed.

End Splits.

Lemma forEach_throw_only {A S : Type} (P : exn -> Prop) (l : list A)
  (f : A -> S -> result S) :
  (forall x s e, In x l -> f x s = Throw e -> P e) ->
  forall s e, forEach l f s = Throw e -> P e.
Proof.
  induction l as [|x l IH]; intros Hf s e; simpl; [discriminate|].
  destruct (f x s) as [s1|e1] eqn:E; simpl.
  - apply IH. intros y s0 e0 Hy. apply Hf. now right.
  - intros H. inversion H. subst e1. apply (Hf x s e); auto. now left.
Qed.

Lemma applySplit_throw_TypeError payer sp st e :
  applySplit payer sp st = Throw e -> e = TypeError.
Proof.
  unfold applySplit, getCell, setCell.
  destruct (String.eqb (userId sp) payer || paid sp); [discriminate|].
  destruct (get (ledger st) (userId sp)); simpl; congruence.
Qed.

Lemma applyExpenses_throw_TypeError es st e :
  applyExpenses es st = Throw e -> e = TypeError.
Proof.
  apply (forEach_throw_only (fun e => e = TypeError)).
  intros x s e0 _. apply (forEach_throw_only (fun e => e = TypeError)).
  intros sp s0 e1 _. apply applySplit_throw_TypeError.
Qed.

(** C4 (deleted-user tolerance) does not hold of the handler: an unsettled
    split of a non-payer who is not in the roster makes step 3 read
    [ledger[debtor]], which is [undefined], and the computation throws
    [TypeError] whatever the other records are. *)
Theorem foreign_split_throws (memberDetails : list MemberDetail)
  (es1 es2 : list Expense) (e : Expense) (sps1 sps2 : list Split)
  (sp : Split) (settlements : list Settlement) :
  splits e = sps1 ++ sp :: sps2 ->
  paid sp = false ->
  userId sp <> paidByUserId e ->
  ~ In (userId sp) (map id memberDetails) ->
  computeBalances memberDetails (es1 ++ e :: es2) settlements
  = Throw TypeError.
Proof.
  intros Hsp Hpaid Hne Hnot. unfold computeBalances, preNetting, initState.
  set (ids := map id memberDetails) in *.
  destruct (initLedger_ok ids) as (L0 & E0 & _ & _ & _ & HW).
  rewrite E0. simpl.
  destruct (forEach_throws_at (fun s => rowsWithin ids (ledger s)) es1 e es2
              applyExpense (mkState (initTotals ids) L0)) as (err & E).
  - intros y s0 s1 _ H0 Ey. revert Ey.
    apply (forEach_preserve (fun s => rowsWithin ids (ledger s))); auto.
    intros sp0 s2 s3 _ H2 E2. eapply applySplit_rowsWithin; eauto.
  - intros s0 H0. unfold applyExpense. rewrite Hsp.
    apply (forEach_throws_at (fun s => rowsWithin ids (ledger s))); auto.
    + intros sp0 s2 s3 _ H2 E2. eapply applySplit_rowsWithin; eauto.
    + intros s1 H1. exists TypeError. apply (applySplit_foreign ids); auto.
      unfold skipped. rewrite Hpaid.
      apply String.eqb_neq in Hne. now rewrite Hne.
  - exact HW.
  - pose proof (applyExpenses_throw_TypeError _ _ _ E) as ->.
    unfold applyExpenses. now rewrite E.
Qed.

Lemma foreign_split_throws_witness :
  computeBalances [md "A"]
    ([] ++ mkExpense "g" "A" [mkSplit "X" 10 false] :: []) []
  = Throw TypeError.
Proof.
  apply (foreign_split_throws [md "A"] [] []
           (mkExpense "g" "A" [mkSplit "X" 10 false]) [] [] (mkSplit "X" 10 false)
           []).
  - reflexivity.
  - reflexivity.
  - simpl. discriminate.
  - simpl. intros [H|[]]. discriminate.
Defined.

Example foreign_split_TypeError :
  computeBalances [md "A"; md "B"]
    [mkExpense "g" "A" [mkSplit "B" 10 false; mkSplit "X" 10 false]] []
  = Throw TypeError.
Proof. vm_compute. reflexivity. Qed.

Example foreign_split_removed :
  computeBalances [md "A"; md "B"]
    [mkExpense "g" "A" [mkSplit "B" 10 false]] []
  = Ok [mkBalance (md "A") (Some (Num 10)) [] [("B", Num 10)];
        mkBalance (md "B") (Some (Num (-10))) [("A", Num 10)] []].
Proof. vm_compute. reflexivity. Qed.

Example deleted_member_document_TypeError :
  getGroupExpenses
    (mkCtx (Ok (mkUser "A" "Ann" "")) (db_groups ctx_example)
       [mkUser "A" "Ann" ""] [] []) "g" =
  ([RunCurrentUser; GetGroup "g"; QueryExpenses "g"; QuerySettlements "g";
    GetUser "A"; GetUser "B"], Throw TypeError).
Proof. vm_compute. reflexivity. Qed.

(* ================================================================== *)
(** ** The diagonal of the ledger *)

Section Diagonal.

Lemma diag_absent_diagNaN L :
  (forall a, cell L a a = None) -> diagNaN L.
Proof.
  intros H a row v Hrow Hin. specialize (H a). unfold cell in H.
  rewrite Hrow in H. apply get_none_keys in H.
  exfalso. apply H. change a with (fst (a, v)). now apply in_map.
Qed.

Lemma applySplit_diagNaN payer sp st st' :
  applySplit payer sp st = Ok st' ->
  diagNaN (ledger st) -> diagNaN (ledger st').
Proof.
  unfold applySplit. destruct (String.eqb (userId sp) payer) eqn:Eq; simpl.
  { intros H. inversion H. now subst. }
  destruct (paid sp); simpl.
  { intros H. inversion H. now subst. }
  destruct (getCell (ledger st) (userId sp) payer) as [cur|]; simpl;
    [|discriminate].
  destruct (setCell (ledger st) (userId sp) payer (add cur (Num (amount sp))))
    as [L'|] eqn:E; simpl; [|discriminate].
  intros H HD. inversion H. subst st'. simpl.
  apply (setCell_diagNaN _ _ _ _ _ E); auto.
  apply String.eqb_neq in Eq. congruence.
Qed.

Lemma applyExpenses_diagNaN es st st' :
  applyExpenses es st = Ok st' ->
  diagNaN (ledger st) -> diagNaN (ledger st').
Proof.
  intros E H. revert E.
  apply (forEach_preserve (fun s => diagNaN (ledger s))); auto.
  intros e s s' _ Hs Ee. revert Ee.
  apply (forEach_preserve (fun s => diagNaN (ledger s))); auto.
  intros sp s0 s1 _ H0 E0. eapply applySplit_diagNaN; eauto.
Qed.

Lemma applySettlement_diagNaN s st st' :
  applySettlement s st = Ok st' ->
  diagNaN (ledger st) -> diagNaN (ledger st').
Proof.
  unfold applySettlement. intros H HD.
  destruct (getCell (ledger st) (stl_paidByUserId s) (stl_receivedByUserId s))
    as [cur|] eqn:Ec; simpl in H; [|discriminate].
  destruct (setCell (ledger st) (stl_paidByUserId s) (stl_receivedByUserId s)
              (sub cur (Num (stl_amount s)))) as [L'|] eqn:E;
    simpl in H; [|discriminate].
  inversion H. subst st'. simpl.
  apply (setCell_diagNaN _ _ _ _ _ E); auto.
  intros Heq. rewrite <- Heq in Ec.
  assert (Hrow : get (ledger st) (stl_paidByUserId s) <> None).
  { unfold getCell in Ec.
    destruct (get (ledger st) (stl_paidByUserId s)); congruence. }
  rewrite (diag_read_NaN _ _ HD Hrow) in Ec. inversion Ec. reflexivity.
Qed.

Lemma applySettlements_diagNaN ss st st' :
  applySettlements ss st = Ok st' ->
  diagNaN (ledger st) -> diagNaN (ledger st').
Proof.
  intros E H. revert E.
  apply (forEach_preserve (fun s => diagNaN (ledger s))); auto.
  intros e s s' _ Hs Ee. eapply applySettlement_diagNaN; eauto.
Qed.

Lemma netPair_diagNaN a b st st' :
  netPair a b st = Ok st' ->
  diagNaN (ledger st) -> diagNaN (ledger st').
Proof.
  unfold netPair. destruct (geb a b) eqn:G.
  { intros H. inversion H. now subst. }
  apply geb_false_ltb in G. pose proof (ltb_neq _ _ G) as Hne.
  destruct (getCell (ledger st) a b) as [x|]; simpl; [|discriminate].
  destruct (getCell (ledger st) b a) as [y|]; simpl; [|discriminate].
  destruct (gt0 (sub x y)); [|destruct (lt0 (sub x y))]; intros H HD;
    match type of H with
    | bind (setCell ?L0 ?p ?q ?v) _ = _ =>
        destruct (setCell L0 p q v) as [L1|] eqn:E1; simpl in H;
        [|discriminate]
    end;
    match type of H with
    | bind (setCell ?L0 ?p ?q ?v) _ = _ =>
        destruct (setCell L0 p q v) as [L2|] eqn:E2; simpl in H;
        [|discriminate]
    end;
    inversion H; subst st'; simpl;
    (apply (setCell_diagNaN _ _ _ _ _ E2); [congruence|]);
    (apply (setCell_diagNaN _ _ _ _ _ E1); [congruence|exact HD]).
Qed.

Lemma netLedger_diagNaN ids st st' :
  netLedger ids st = Ok st' ->
  diagNaN (ledger st) -> diagNaN (ledger st').
Proof.
  intros E H. revert E.
  apply (forEach_preserve (fun s => diagNaN (ledger s))); auto.
  intros a s s' _ Hs Ea. revert Ea.
  apply (forEach_preserve (fun s => diagNaN (ledger s))); auto.
  intros b s0 s1 _ H0 E0. eapply netPair_diagNaN; eauto.
Qed.

(** Whatever the input, a state that reaches step 6 has no amount on the
    diagonal of its ledger. *)
Lemma pipeline_diagNaN ids es ss st st' :
  preNetting ids es ss = Ok st -> netLedger ids st = Ok st' ->
  diagNaN (ledger st').
Proof.
  unfold preNetting, initState. intros E E'.
  destruct (initLedger_ok ids) as (L0 & E0 & _ & _ & Hd & _).
  rewrite E0 in E. simpl in E.
  destruct (applyExpenses es (mkState (initTotals ids) L0)) as [s1|] eqn:E1;
    simpl in E; [|discriminate].
  apply (netLedger_diagNaN _ _ _ E').
  apply (applySettlements_diagNaN _ _ _ E).
  apply (applyExpenses_diagNaN _ _ _ E1).
  simpl. now apply diag_absent_diagNaN.
Qed.

End Diagonal.

Section NoSelfEntries.

Lemma mapM_in {A B : Type} (f : A -> result B) l ys :
  mapM f l = Ok ys -> forall y, In y ys -> exists x, In x l /\ f x = Ok y.
Proof.
  revert ys. induction l as [|x l IH]; intros ys; simpl.
  - intros H. inversion H. intros y [].
  - destruct (f x) as [y0|] eqn:E; simpl; [|discriminate].
    destruct (mapM f l) as [ys0|]; simpl; [|discriminate].
    intros H. inversion H. subst ys. intros y [<-|Hy].
    + exists x. auto.
    + destruct (IH ys0 eq_refl y Hy) as (x' & Hx' & Ex'). eauto.
Qed.

Lemma filterM_in {A : Type} (p : A -> result bool) l xs :
  filterM p l = Ok xs -> forall x, In x xs -> In x l /\ p x = Ok true.
Proof.
  revert xs. induction l as [|x l IH]; intros xs; simpl.
  - intros H. inversion H. intros y [].
  - destruct (p x) as [keep|] eqn:E; simpl; [|discriminate].
    destruct (filterM p l) as [xs0|]; simpl; [|discriminate].
    intros H. inversion H. subst xs. intros y Hy.
    destruct keep.
    + destruct Hy as [<-|Hy]; [auto|].
      destruct (IH xs0 eq_refl y Hy). auto.
    + destruct (IH xs0 eq_refl y Hy). auto.
Qed.

Lemma shapeBalance_member ids st m b :
  shapeBalance ids st m = Ok b -> member b = m.
Proof.
  unfold shapeBalance. destruct (get (ledger st) (id m)); [|discriminate].
  destruct (filterM _ ids) as [ds|]; simpl; [|discriminate].
  destruct (mapM _ ds); simpl; [|discriminate].
  intros H. inversion H. reflexivity.
Qed.

Lemma shapeBalance_no_self ids st m b :
  diagNaN (ledger st) -> shapeBalance ids st m = Ok b ->
  forall amt, ~ In (id m, amt) (owes b) /\ ~ In (id m, amt) (owedBy b).
Proof.
  intros HD. unfold shapeBalance.
  destruct (get (ledger st) (id m)) as [row|] eqn:Erow; [|discriminate].
  destruct (filterM _ ids) as [ds|] eqn:Ef; simpl; [|discriminate].
  destruct (mapM _ ds) as [ob|] eqn:Em; simpl; [|discriminate].
  intros H amt. inversion H. subst b. simpl. clear H.
  assert (Hdiag : getCell (ledger st) (id m) (id m) = Ok NaN).
  { apply diag_read_NaN; auto. congruence. }
  split.
  - intros Hin. apply filter_In in Hin. destruct Hin as [Hin Hgt].
    simpl in Hgt. rewrite (HD _ _ _ Erow Hin) in Hgt. discriminate.
  - intros Hin.
    destruct (mapM_in _ _ _ Em _ Hin) as (other & Hother & Eo).
    destruct (getCell (ledger st) other (id m)) as [v|] eqn:Ev;
      simpl in Eo; [|discriminate].
    inversion Eo. subst other v.
    destruct (filterM_in _ _ _ Ef _ Hother) as (_ & Ekeep).
    rewrite Hdiag in Ekeep. simpl in Ekeep. discriminate.
Qed.

(** No balance record lists its own member among [owes] or [owedBy]. *)
Lemma computeBalances_no_self memberDetails es ss bs :
  computeBalances memberDetails es ss = Ok bs ->
  forall b, In b bs -> forall amt,
    ~ In (id (member b), amt) (owes b) /\
    ~ In (id (member b), amt) (owedBy b).
Proof.
  unfold computeBalances. intros H b Hb amt.
  destruct (preNetting _ es ss) as [st|] eqn:E; simpl in H; [|discriminate].
  destruct (netLedger _ st) as [st'|] eqn:E'; simpl in H; [|discriminate].
  pose proof (pipeline_diagNaN _ _ _ _ _ E E') as HD.
  destruct (mapM_in _ _ _ H b Hb) as (m & _ & Em).
  rewrite (shapeBalance_member _ _ _ _ Em).
  now apply (shapeBalance_no_self _ _ _ _ HD Em).
Qed.

(** Steps 2 and 3 leave every [ledger[a][a]] absent. *)
Lemma expenses_leave_diagonal_absent ids es st :
  (st0 <- initState ids ;; applyExpenses es st0) = Ok st ->
  forall a, cell (ledger st) a a = None.
Proof.
  unfold initState.
  destruct (initLedger_ok ids) as (L0 & E0 & _ & _ & Hd & _).
  rewrite E0. simpl. intros E.
  now apply (applyExpenses_diag_absent _ _ _ E).
Qed.

End NoSelfEntries.

(** C5 (self-exclusion and settled-split exclusion).  A split of the payer
    or a split flagged as paid contributes nothing: with or without it,
    steps 2 to 4 end in the same state (same ledger, same net totals) and the
    computation gives the same outcome.  Expenses never create an entry
    [ledger[a][a]], and no balance record lists its own member in [owes] or
    [owedBy]. *)
Theorem skipped_split_contributes_nothing (memberDetails : list MemberDetail)
  (es1 es2 : list Expense) (g payer : string) (sps1 sps2 : list Split)
  (sp : Split) (settlements : list Settlement) :
  userId sp = payer \/ paid sp = true ->
  let ids := map id memberDetails in
  let expenses := es1 ++ mkExpense g payer (sps1 ++ sp :: sps2) :: es2 in
  let expenses' := es1 ++ mkExpense g payer (sps1 ++ sps2) :: es2 in
  preNetting ids expenses settlements = preNetting ids expenses' settlements /\
  computeBalances memberDetails expenses settlements =
  computeBalances memberDetails expenses' settlements /\
  (forall st, (st0 <- initState ids ;; applyExpenses expenses st0) = Ok st ->
     forall a, cell (ledger st) a a = None) /\
  (forall balances,
     computeBalances memberDetails expenses settlements = Ok balances ->
     forall b, In b balances -> forall amt,
       ~ In (id (member b), amt) (owes b) /\
       ~ In (id (member b), amt) (owedBy b)).
Proof.
  intros Hskip ids expenses expenses'.
  assert (Hs : skipped payer sp = true).
  { unfold skipped. destruct Hskip as [->| ->].
    - now rewrite String.eqb_refl.
    - apply orb_true_r. }
  assert (Hpre : preNetting ids expenses settlements =
                 preNetting ids expenses' settlements).
  { unfold preNetting, expenses, expenses'.
    destruct (initState ids) as [st0|]; simpl; auto.
    now rewrite (applyExpenses_drop es1 es2 g payer sps1 sp sps2 st0 Hs). }
  split; [exact Hpre|]. split; [|split].
  - unfold computeBalances. fold ids. now rewrite Hpre.
  - intros st. apply expenses_leave_diagonal_absent.
  - intros balances. apply computeBalances_no_self.
Qed.

Lemma skipped_split_contributes_nothing_witness :
  let expenses :=
    [] ++ mkExpense "g" "A" ([mkSplit "A" 10 false] ++
                             mkSplit "B" 10 true :: [mkSplit "B" 7 false])
       :: [] in
  let expenses' :=
    [] ++ mkExpense "g" "A" ([mkSplit "A" 10 false] ++ [mkSplit "B" 7 false])
       :: [] in
  preNetting ["A"; "B"]%string expenses [] =
  preNetting ["A"; "B"]%string expenses' [] /\
  computeBalances [md "A"; md "B"] expenses [] =
  computeBalances [md "A"; md "B"] expenses' [].
Proof.
  destruct (skipped_split_contributes_nothing [md "A"; md "B"] [] [] "g" "A"
              [mkSplit "A" 10 false] [mkSplit "B" 7 false]
              (mkSplit "B" 10 true) []) as (H1 & H2 & _).
  - right. reflexivity.
  - split; [exact H1 | exact H2].
Defined.

(* ================================================================== *)
(** ** Ledgers that agree off the diagonal *)

Section Strip.

Lemma get_strip L a : get (strip L) a = option_map (offdiag a) (get L a).
Proof.
  induction L as [|[k r] L IH]; simpl; auto.
  eqb_cases a k; simpl; auto.
Qed.

Lemma get_offdiag a row b :
  get (offdiag a row) b = if String.eqb b a then None else get row b.
Proof.
  induction row as [|[k v] row IH]; simpl.
  - now destruct (String.eqb b a).
  - destruct (String.eqb k a) eqn:Eka; simpl.
    + apply String.eqb_eq in Eka. subst k. rewrite IH.
      now destruct (String.eqb b a).
    + rewrite IH. apply String.eqb_neq in Eka.
      eqb_cases b k; auto.
      apply String.eqb_neq in Eka. now rewrite Eka.
Qed.

Lemma strip_set L a row :
  strip (set L a row) = set (strip L) a (offdiag a row).
Proof.
  induction L as [|[k r] L IH]; simpl; auto.
  eqb_cases a k; simpl; auto. now rewrite IH.
Qed.

Lemma offdiag_set_diag a row v : offdiag a (set row a v) = offdiag a row.
Proof.
  induction row as [|[k w] row IH]; simpl.
  - now rewrite String.eqb_refl.
  - destruct (String.eqb a k) eqn:Eak; simpl.
    + rewrite String.eqb_sym in Eak. now rewrite Eak.
    + now rewrite IH.
Qed.

Lemma offdiag_set_other a row b v :
  b <> a -> offdiag a (set row b v) = set (offdiag a row) b v.
Proof.
  intros Hne. apply String.eqb_neq in Hne.
  induction row as [|[k w] row IH]; simpl.
  - now rewrite Hne.
  - destruct (String.eqb b k) eqn:Ebk; simpl.
    + apply String.eqb_eq in Ebk. subst k. rewrite Hne. simpl.
      now rewrite String.eqb_refl.
    + destruct (String.eqb k a); simpl; auto.
      rewrite Ebk. now rewrite IH.
Qed.

Lemma strip_rows L L' a :
  strip L = strip L' ->
  match get L a, get L' a with
  | Some row, Some row' => offdiag a row = offdiag a row'
  | None, None => True
  | _, _ => False
  end.
Proof.
  intros H. pose proof (get_strip L a) as H1.
  pose proof (get_strip L' a) as H2. rewrite H in H1. rewrite H1 in H2.
  destruct (get L a), (get L' a); simpl in H2;
    first [exact I | congruence].
Qed.

(** Entries between distinct members read the same. *)
Lemma getCell_strip L L' a b :
  strip L = strip L' -> a <> b -> getCell L a b = getCell L' a b.
Proof.
  intros H Hne. pose proof (strip_rows L L' a H) as Hr. unfold getCell.
  destruct (get L a) as [row|], (get L' a) as [row'|]; try tauto.
  pose proof (get_offdiag a row b) as G1.
  pose proof (get_offdiag a row' b) as G2.
  assert (Eb : String.eqb b a = false)
    by (apply String.eqb_neq; congruence).
  rewrite Eb in G1, G2. rewrite Hr in G1. congruence.
Qed.

(** Writing the same value off the diagonal, or anything on it, keeps
    two ledgers in agreement. *)
Lemma setCell_strip L L' a b v v' :
  strip L = strip L' -> (a <> b -> v = v') ->
  rel_result (fun L1 L1' => strip L1 = strip L1')
    (setCell L a b v) (setCell L' a b v').
Proof.
  intros H Hv. pose proof (strip_rows L L' a H) as Hr. unfold setCell.
  destruct (get L a) as [row|], (get L' a) as [row'|]; simpl; try tauto.
  rewrite !strip_set, H. f_equal.
  destruct (String.eqb b a) eqn:Eba.
  - apply String.eqb_eq in Eba. subst b.
    now rewrite !offdiag_set_diag.
  - apply String.eqb_neq in Eba.
    rewrite !offdiag_set_other by assumption.
    rewrite Hr, Hv; congruence.
Qed.

Lemma filter_offdiag a row :
  (forall v, In (a, v) row -> v = NaN) ->
  filter (fun e => gt0 (snd e)) row =
  filter (fun e => gt0 (snd e)) (offdiag a row).
Proof.
  induction row as [|[k v] row IH]; intros H; simpl; auto.
  destruct (String.eqb k a) eqn:Eka; simpl.
  - apply String.eqb_eq in Eka. subst k.
    rewrite (H v (or_introl eq_refl)). simpl.
    apply IH. intros w Hw. apply H. now right.
  - rewrite IH; auto. intros w Hw. apply H. now right.
Qed.

End Strip.

Section Relational.

Lemma rel_bind {A B : Type} (RA : A -> A -> Prop) (RB : B -> B -> Prop)
  (r1 r2 : result A) (k1 k2 : A -> result B) :
  rel_result RA r1 r2 ->
  (forall a a', RA a a' -> rel_result RB (k1 a) (k2 a')) ->
  rel_result RB (bind r1 k1) (bind r2 k2).
Proof.
  destruct r1, r2; simpl; intros H Hk; auto; tauto.
Qed.

Lemma forEach_rel {A S : Type} (R : S -> S -> Prop) (l : list A)
  (f : A -> S -> result S) :
  (forall x s s', In x l -> R s s' -> rel_result R (f x s) (f x s')) ->
  forall s s', R s s' -> rel_result R (forEach l f s) (forEach l f s').
Proof.
  induction l as [|x l IH]; intros Hf s s' HR; simpl; auto.
  apply (rel_bind R R).
  - apply Hf; auto. now left.
  - intros a a' Ha. apply IH; auto.
    intros y s0 s0' Hy. apply Hf. now right.
Qed.

Lemma mapM_ext {A B : Type} (f g : A -> result B) l :
  (forall x, In x l -> f x = g x) -> mapM f l = mapM g l.
Proof.
  induction l as [|x l IH]; intros H; simpl; auto.
  rewrite (H x (or_introl eq_refl)), IH; auto.
  intros y Hy. apply H. now right.
Qed.

Lemma filterM_ext {A : Type} (p q : A -> result bool) l :
  (forall x, In x l -> p x = q x) -> filterM p l = filterM q l.
Proof.
  induction l as [|x l IH]; intros H; simpl; auto.
  rewrite (H x (or_introl eq_refl)), IH; auto.
  intros y Hy. apply H. now right.
Qed.

End Relational.

Section Simulation.

Lemma getCell_rel L L' a b :
  strip L = strip L' ->
  rel_result (fun v v' => a <> b -> v = v') (getCell L a b) (getCell L' a b).
Proof.
  intros H. destruct (String.eqb a b) eqn:Eab.
  - apply String.eqb_eq in Eab. subst b.
    pose proof (strip_rows L L' a H) as Hr. unfold getCell.
    destruct (get L a), (get L' a); simpl; tauto.
  - apply String.eqb_neq in Eab. rewrite (getCell_strip L L' a b H Eab).
    destruct (getCell L' a b); simpl; auto.
Qed.

Lemma applySettlement_sim s st st' :
  sim st st' ->
  rel_result sim (applySettlement s st) (applySettlement s st').
Proof.
  intros (HT & HL). unfold applySettlement. rewrite HT.
  eapply rel_bind; [apply getCell_rel, HL|].
  intros cur cur' Hcur.
  eapply rel_bind.
  - apply setCell_strip; [exact HL|].
    intros Hne. now rewrite (Hcur Hne).
  - intros L1 L1' H1. simpl. split; auto.
Qed.

Lemma applySettlements_sim ss st st' :
  sim st st' ->
  rel_result sim (applySettlements ss st) (applySettlements ss st').
Proof.
  apply forEach_rel. intros s s0 s0' _. apply applySettlement_sim.
Qed.

Lemma netPair_sim a b st st' :
  sim st st' -> rel_result sim (netPair a b st) (netPair a b st').
Proof.
  intros (HT & HL). unfold netPair.
  destruct (geb a b) eqn:G; [simpl; split; auto|].
  apply geb_false_ltb in G. pose proof (ltb_neq _ _ G) as Hne.
  rewrite (getCell_strip _ _ a b HL Hne).
  rewrite (getCell_strip _ _ b a HL (not_eq_sym Hne)).
  destruct (getCell (ledger st') a b) as [x|]; simpl; [|reflexivity].
  destruct (getCell (ledger st') b a) as [y|]; simpl; [|reflexivity].
  rewrite HT.
  destruct (gt0 (sub x y)); [|destruct (lt0 (sub x y))];
    (eapply rel_bind; [apply setCell_strip; [exact HL|reflexivity]|];
     intros L1 L1' H1;
     eapply rel_bind; [apply setCell_strip; [exact H1|reflexivity]|];
     intros L2 L2' H2; simpl; split; auto).
Qed.

Lemma netLedger_sim ids st st' :
  sim st st' -> rel_result sim (netLedger ids st) (netLedger ids st').
Proof.
  apply forEach_rel. intros a s s' _.
  apply forEach_rel. intros b s0 s0' _. apply netPair_sim.
Qed.

(** Step 6 cannot tell apart two states that agree off the diagonal and
    hold no amount on it. *)
Lemma shapeBalance_sim ids st st' m :
  sim st st' -> diagNaN (ledger st) -> diagNaN (ledger st') ->
  shapeBalance ids st m = shapeBalance ids st' m.
Proof.
  intros (HT & HL) HD HD'. unfold shapeBalance, entries. rewrite HT.
  pose proof (strip_rows _ _ (id m) HL) as Hr.
  destruct (get (ledger st) (id m)) as [row|] eqn:E,
           (get (ledger st') (id m)) as [row'|] eqn:E'; try tauto.
  assert (Hcell : forall other,
    getCell (ledger st) other (id m) = getCell (ledger st') other (id m)).
  { intros other. destruct (String.eqb other (id m)) eqn:Eo.
    - apply String.eqb_eq in Eo. subst other.
      rewrite !diag_read_NaN; auto; congruence.
    - apply String.eqb_neq in Eo. now apply getCell_strip. }
  rewrite (filter_offdiag (id m) row) by (intros v Hv; eapply HD; eauto).
  rewrite (filter_offdiag (id m) row') by (intros v Hv; eapply HD'; eauto).
  rewrite Hr.
  rewrite (filterM_ext _
    (fun other => v <- getCell (ledger st') other (id m) ;; Ok (gt0 v)))
    by (intros x _; now rewrite Hcell).
  destruct (filterM _ ids) as [ds|]; simpl; auto.
  rewrite (mapM_ext _
    (fun other => v <- getCell (ledger st') other (id m) ;; Ok (other, v)))
    by (intros x _; now rewrite Hcell).
  reflexivity.
Qed.

Lemma shapeBalances_sim memberDetails st st' :
  sim st st' -> diagNaN (ledger st) -> diagNaN (ledger st') ->
  shapeBalances memberDetails st = shapeBalances memberDetails st'.
Proof.
  intros Hs HD HD'. unfold shapeBalances.
  apply mapM_ext. intros m _. now apply shapeBalance_sim.
Qed.

(** A settlement of a roster member to themselves changes no net total
    and nothing off the diagonal. *)
Lemma self_settlement_sim ids g p amt st :
  wfState ids st -> In p ids ->
  exists st', applySettlement (mkSettlement g p p amt) st = Ok st' /\
              sim st st'.
Proof.
  intros (HR & HN & HT) Hp. unfold applySettlement. simpl.
  destruct (HT p Hp) as (z & Ez).
  assert (ET : subTotal (addTotal (totals st) p amt) p amt = totals st).
  { unfold subTotal, addTotal. rewrite Ez. simpl.
    rewrite get_set_same. simpl. rewrite set_set.
    replace (z + amt - amt) with z by lia. now apply set_get_id. }
  rewrite ET.
  rewrite (getCell_cell _ p p (HR p Hp)). simpl.
  pose proof (setCell_strip (ledger st) (ledger st) p p
    (sub (toNumber (cell (ledger st) p p)) (Num amt)) NaN eq_refl) as Hs.
  destruct (setCell_ok (ledger st) p p
    (sub (toNumber (cell (ledger st) p p)) (Num amt)) (HR p Hp))
    as (L1 & E1).
  rewrite E1 in *. simpl.
  eexists. split; [reflexivity|]. split; simpl; auto.
  destruct (setCell (ledger st) p p NaN) as [L2|] eqn:E2;
    simpl in Hs; [|tauto].
  specialize (Hs (fun H => False_ind _ (H eq_refl))).
  rewrite Hs. symmetry.
  unfold setCell in E2.
  destruct (get (ledger st) p) as [row|] eqn:Erow; [|discriminate].
  inversion E2. rewrite strip_set, offdiag_set_diag.
  apply set_get_id. rewrite get_strip, Erow. reflexivity.
Qed.

(** The whole computation returns on every valid input. *)
Lemma computeBalances_ok memberDetails es ss :
  validInput (map id memberDetails) es ss ->
  exists st st' bs,
    preNetting (map id memberDetails) es ss = Ok st /\
    wfState (map id memberDetails) st /\
    netLedger (map id memberDetails) st = Ok st' /\
    computeBalances memberDetails es ss = Ok bs.
Proof.
  intros Hv. unfold computeBalances.
  destruct (preNetting_wf _ es ss Hv) as (st & E & (HR & HN & HT) & _).
  destruct (netLedger_numeric _ st HN) as (st' & E' & _ & HR' & _).
  assert (HRows : hasRows (map id memberDetails) (ledger st')).
  { intros a Ha. rewrite (HR' a). now apply HR. }
  destruct (shapeBalances_ok memberDetails st' HRows) as (bs & Eb & _).
  exists st, st', bs. rewrite E. simpl. rewrite E'. simpl.
  repeat split; auto.
Qed.

End Simulation.

(** A self-settlement under exact arithmetic.  On a valid input, inserting
    anywhere among the settlements one whose payer and receiver are the same
    roster member leaves the computed balances identical: every
    [totalBalance], every [owes] list and every [owedBy] list. *)
Lemma exact_self_settlement_invisible (memberDetails : list MemberDetail)
  (expenses : list Expense) (ss1 ss2 : list Settlement)
  (g p : string) (amt : Z) :
  validInput (map id memberDetails) expenses (ss1 ++ ss2) ->
  In p (map id memberDetails) ->
  exists balances,
    computeBalances memberDetails expenses (ss1 ++ ss2) = Ok balances /\
    computeBalances memberDetails expenses
      (ss1 ++ mkSettlement g p p amt :: ss2) = Ok balances.
Proof.
  intros Hv Hp. set (ids := map id memberDetails) in *.
  assert (Hv' : validInput ids expenses (ss1 ++ mkSettlement g p p amt :: ss2)).
  { destruct Hv as (He & Hs). split; auto.
    intros s Hin. apply in_app_or in Hin. destruct Hin as [Hin|[<-|Hin]].
    - apply Hs, in_or_app. now left.
    - split; exact Hp.
    - apply Hs, in_or_app. now right. }
  destruct (computeBalances_ok memberDetails expenses _ Hv)
    as (stA & stA' & bsA & EA & _ & EA' & EbA).
  destruct (computeBalances_ok memberDetails expenses _ Hv')
    as (stB & stB' & bsB & EB & _ & EB' & EbB).
  fold ids in EA, EA', EB, EB'.
  assert (Hsim : sim stA stB).
  { unfold preNetting in EA, EB.
    destruct (initState_wf ids) as (s0 & E0 & W0 & _).
    rewrite E0 in EA, EB. simpl in EA, EB.
    destruct (applyExpenses_wf ids expenses s0 (proj1 Hv) W0)
      as (s1 & E1 & W1 & _).
    rewrite E1 in EA, EB. simpl in EA, EB.
    unfold applySettlements in EA, EB. rewrite forEach_app in EA, EB.
    destruct (applySettlements_wf ids ss1 s1) as (s2 & E2 & W2 & _); auto.
    { intros s Hs. apply (proj2 Hv), in_or_app. now left. }
    unfold applySettlements in E2. rewrite E2 in EA, EB.
    simpl in EA, EB.
    destruct (self_settlement_sim ids g p amt s2 W2 Hp) as (s2' & Es & Hs2).
    rewrite Es in EB. simpl in EB.
    pose proof (applySettlements_sim ss2 s2 s2' Hs2) as Hrel.
    unfold applySettlements in Hrel. rewrite EA, EB in Hrel. exact Hrel. }
  pose proof (netLedger_sim ids stA stB Hsim) as Hnet.
  rewrite EA', EB' in Hnet. simpl in Hnet.
  pose proof (pipeline_diagNaN _ _ _ _ _ EA EA') as HDA.
  pose proof (pipeline_diagNaN _ _ _ _ _ EB EB') as HDB.
  exists bsA. split; [exact EbA|].
  unfold computeBalances in EbA |- *. fold ids in EbA |- *.
  rewrite EA in EbA. rewrite EB. simpl in EbA |- *.
  rewrite EA' in EbA. rewrite EB'. simpl in EbA |- *.
  rewrite <- (shapeBalances_sim memberDetails stA' stB' Hnet HDA HDB).
  exact EbA.
Qed.

Example self_settlement_cell :
  (st <- preNetting ["A"; "B"]%string [] [mkSettlement "g" "B" "B" 7] ;;
   Ok (cell (ledger st) "B" "B", get (totals st) "B"))
  = Ok (Some NaN, Some (Num 0)).
Proof. vm_compute. reflexivity. Qed.

(* ================================================================== *)
(** ** Further properties of the netting pass *)



(** The netting pass writes only entries between two distinct members:
    the diagonal and every entry of or towards a non-member keep their
    content, and no row is added or removed. *)
Theorem netting_touches_member_pairs_only (ids : list string) (st : State) :
  (forall a, In a ids -> get (ledger st) a <> None) ->
  exists st',
    netLedger ids st = Ok st' /\
    (forall c, get (ledger st') c = None <-> get (ledger st) c = None) /\
    forall c d, ~ (In c ids /\ In d ids /\ c <> d) ->
      cell (ledger st') c d = cell (ledger st) c d.
Proof.
  intros HR.
  destruct (netLedger_rule ids
    (fun s => hasRows ids (ledger s) /\ sameRows (ledger st) (ledger s) /\
              forall c d, ~ (In c ids /\ In d ids /\ c <> d) ->
                cell (ledger s) c d = cell (ledger st) c d)
    (fun _ _ _ => True)) with (s := st) as (st' & E & (_ & HS & HF) & _).
  - intros a b s Ha Hb (HR0 & HS0 & HF0).
    destruct (String.ltb a b) eqn:Lt.
    2:{ exists s. unfold netPair, geb. rewrite Lt. simpl. auto. }
    pose proof (ltb_neq _ _ Lt) as Hne.
    destruct (netPair_spec a b s (HR0 a Ha) (HR0 b Hb))
      as (s' & E & _ & HR' & Ho & _).
    exists s'. split; [exact E|]. split; [|exact I]. split; [|split].
    + intros c Hc. rewrite (HR' c). now apply HR0.
    + intros c. rewrite (HR' c). apply HS0.
    + intros c d Hcd. rewrite Ho.
      * now apply HF0.
      * intros [-> ->]. apply Hcd. auto.
      * intros [-> ->]. apply Hcd. auto.
  - auto.
  - split; [exact HR|]. split; [intros c; tauto | auto].
  - exists st'. split; [exact E|]. split; [exact HS | exact HF].
Qed.

Lemma netting_touches_member_pairs_only_witness :
  exists st',
    netLedger ["A"; "B"]%string overpaid_example = Ok st' /\
    (forall c, get (ledger st') c = None <->
               get (ledger overpaid_example) c = None) /\
    forall c d, ~ (In c ["A"; "B"]%string /\ In d ["A"; "B"]%string /\ c <> d) ->
      cell (ledger st') c d = cell (ledger overpaid_example) c d.
Proof.
  apply (netting_touches_member_pairs_only ["A"; "B"]%string overpaid_example).
  roster_cases; simpl; discriminate.
Defined.

(* ================================================================== *)
(** ** Empty input and settlements of non-members *)

Section EmptyInput.

Lemma filter_none {A : Type} (f : A -> bool) (l : list A) :
  (forall x, In x l -> f x = false) -> filter f l = [].
Proof.
  induction l as [|x l IH]; intros H; simpl; auto.
  rewrite (H x (or_introl eq_refl)). apply IH.
  intros y Hy. apply H. now right.
Qed.

Lemma setCell_allZero L a b L' :
  setCell L a b (Num 0) = Ok L' -> allZero L -> allZero L'.
Proof.
  unfold setCell. destruct (get L a) as [row|] eqn:E; [|discriminate].
  intros H HZ. inversion H. subst L'. clear H.
  intros c row' k v Hrow Hin. rewrite get_set in Hrow.
  destruct (String.eqb c a) eqn:Eca.
  - inversion Hrow. subst row'. apply in_set in Hin.
    destruct Hin as [[_ ->]|Hin]; auto. eapply HZ; eauto.
  - eapply HZ; eauto.
Qed.

Lemma initLedger_allZero ids L : initLedger ids = Ok L -> allZero L.
Proof.
  unfold initLedger.
  apply (forEach_preserve allZero); [|intros a row k v H; discriminate].
  intros a L0 L1 _ HZ. cbv zeta.
  apply (forEach_preserve allZero).
  - intros b L2 L3 _ HZ2.
    destruct (negb (String.eqb a b)).
    + intros E. eapply setCell_allZero; eauto.
    + intros E. inversion E. now subst.
  - intros c row k v Hrow Hin. rewrite get_set in Hrow.
    destruct (String.eqb c a).
    + inversion Hrow. subst row. destruct Hin.
    + eapply HZ; eauto.
Qed.

End EmptyInput.

(** With no expense and no settlement the computation returns, for any
    roster, one balance per roster entry with [totalBalance] zero and empty
    [owes] and [owedBy] lists. *)
Theorem empty_input_all_zero (memberDetails : list MemberDetail) :
  computeBalances memberDetails [] [] =
  Ok (map (fun m => mkBalance m (Some (Num 0)) [] []) memberDetails).
Proof.
  unfold computeBalances, preNetting, initState.
  set (ids := map id memberDetails).
  destruct (initLedger_ok ids) as (L0 & E0 & HR & HC & Hd & _).
  pose proof (initLedger_allZero ids L0 E0) as HZ.
  rewrite E0. simpl.
  set (st0 := mkState (initTotals ids) L0).
  assert (En : netLedger ids st0 = Ok st0).
  { unfold netLedger. apply forEach_id. intros a Ha.
    apply forEach_id. intros b Hb. apply netPair_canonical. intros Lt.
    pose proof (ltb_neq _ _ Lt) as Hne.
    exists 0, 0. simpl. rewrite (HC a b), (HC b a); auto.
    repeat split; auto; lia. }
  rewrite En. simpl. unfold shapeBalances. fold ids.
  apply mapM_pure. intros m Hm.
  assert (Hin : In (id m) ids) by (unfold ids; now apply in_map).
  destruct (shapeBalance_ok ids st0 m HR Hin) as (row & Erow & ->).
  simpl. f_equal.
  rewrite (initTotals_get ids (id m) Hin).
  rewrite (filter_none _ row).
  2:{ intros [k v] Hkv. simpl. now rewrite (HZ _ _ _ _ Erow Hkv). }
  unfold owedByOf. rewrite (filter_none _ ids); auto.
  intros other Ho. destruct (String.eqb other (id m)) eqn:Eo.
  - apply String.eqb_eq in Eo. subst other. now rewrite Hd.
  - apply String.eqb_neq in Eo. now rewrite (HC other (id m)).
Qed.

Section ForeignSettlement.

Lemma applySettlement_rowsWithin ids s st st' :
  applySettlement s st = Ok st' ->
  rowsWithin ids (ledger st) -> rowsWithin ids (ledger st').
Proof.
  unfold applySettlement.
  destruct (getCell (ledger st) (stl_paidByUserId s) (stl_receivedByUserId s))
    as [cur|]; simpl; [|discriminate].
  destruct (setCell (ledger st) (stl_paidByUserId s) (stl_receivedByUserId s)
              (sub cur (Num (stl_amount s)))) as [L'|] eqn:E; simpl;
    [|discriminate].
  intros H HR a Ha. inversion H. subst st'. simpl in Ha.
  destruct (setCell_inv _ _ _ _ _ E) as (R & _).
  apply HR. now rewrite <- (R a).
Qed.

Lemma applySettlement_throw_TypeError s st e :
  applySettlement s st = Throw e -> e = TypeError.
Proof.
  unfold applySettlement, getCell, setCell.
  destruct (get (ledger st) (stl_paidByUserId s)); simpl; congruence.
Qed.

Lemma applyExpenses_rowsWithin ids es st st' :
  applyExpenses es st = Ok st' ->
  rowsWithin ids (ledger st) -> rowsWithin ids (ledger st').
Proof.
  intros E H. revert E.
  apply (forEach_preserve (fun s => rowsWithin ids (ledger s))); auto.
  intros e s s' _ Hs Ee. revert Ee.
  apply (forEach_preserve (fun s => rowsWithin ids (ledger s))); auto.
  intros sp s0 s1 _ H0 E0. eapply applySplit_rowsWithin; eauto.
Qed.

End ForeignSettlement.

(** A settlement whose payer is not in the roster makes the computation
    throw [TypeError], whatever the other records are: step 4 reads
    [ledger[payer]], which does not exist. *)
Theorem foreign_settlement_payer_throws (memberDetails : list MemberDetail)
  (expenses : list Expense) (ss1 ss2 : list Settlement) (s : Settlement) :
  ~ In (stl_paidByUserId s) (map id memberDetails) ->
  computeBalances memberDetails expenses (ss1 ++ s :: ss2) = Throw TypeError.
Proof.
  intros Hnot. unfold computeBalances, preNetting, initState.
  set (ids := map id memberDetails) in *.
  destruct (initLedger_ok ids) as (L0 & E0 & _ & _ & _ & HW).
  rewrite E0. simpl.
  destruct (applyExpenses expenses (mkState (initTotals ids) L0))
    as [st1|e1] eqn:E1; simpl.
  2:{ now rewrite (applyExpenses_throw_TypeError _ _ _ E1). }
  assert (HW1 : rowsWithin ids (ledger st1))
    by (apply (applyExpenses_rowsWithin ids _ _ _ E1); exact HW).
  destruct (forEach_throws_at (fun st => rowsWithin ids (ledger st)) ss1 s ss2
              applySettlement st1) as (err & E).
  - intros y s0 s1 _ H0 Ey. eapply applySettlement_rowsWithin; eauto.
  - intros s0 H0. exists TypeError. unfold applySettlement.
    rewrite getCell_throw; auto.
    destruct (get (ledger s0) (stl_paidByUserId s)) eqn:Eg; auto.
    exfalso. apply Hnot, H0. congruence.
  - exact HW1.
  - unfold applySettlements. rewrite E. simpl.
    f_equal. revert E.
    apply (forEach_throw_only (fun e => e = TypeError)).
    intros x s0 e0 _. apply applySettlement_throw_TypeError.
Qed.

Lemma foreign_settlement_payer_throws_witness :
  computeBalances [md "A"; md "B"] [mkExpense "g" "A" [mkSplit "B" 10 false]]
    ([] ++ mkSettlement "g" "X" "A" 10 :: []) = Throw TypeError.
Proof.
  apply (foreign_settlement_payer_throws [md "A"; md "B"]
           [mkExpense "g" "A" [mkSplit "B" 10 false]] [] []
           (mkSettlement "g" "X" "A" 10)).
  simpl. intros [H|[H|[]]]; discriminate.
Defined.

(* ================================================================== *)
(** ** Properties of [getGroupOrMembers] *)

Section GroupOrMembers.

Lemma hasMember_listsUser u g : hasMember u g = true <-> listsUser u g.
Proof.
  unfold hasMember, listsUser. rewrite existsb_exists.
  split; intros (m & Hm & E); exists m; split; auto;
    now apply String.eqb_eq.
Qed.

Lemma tr_mapM_memberInfo s l :
  tr_mapM (memberInfo s) l =
  (map (fun m => FetchUser (mem_userId m)) l, Ok (map (lookupInfo s) l)).
Proof.
  induction l as [|m l IH]; [reflexivity|].
  cbn [tr_mapM map]. rewrite IH. unfold memberInfo, fetchUser.
  unfold lookupInfo at 2.
  destruct (find _ (sto_users s)); simpl; now rewrite app_nil_r.
Qed.

Lemma find_filter_first {A : Type} (p q : A -> bool) l x :
  find p l = Some x -> q x = true -> find p (filter q l) = Some x.
Proof.
  induction l as [|y l IH]; simpl; [discriminate|].
  destruct (p y) eqn:Py.
  - intros H Hq. inversion H. subst y. rewrite Hq. simpl. now rewrite Py.
  - intros H Hq. destruct (q y); simpl; [rewrite Py|]; auto.
Qed.

Lemma find_none_filter {A : Type} (p q : A -> bool) l :
  (forall x, In x l -> p x = true -> q x = false) ->
  find p (filter q l) = None.
Proof.
  intros H. destruct (find p (filter q l)) as [x|] eqn:E; auto.
  apply find_some in E. destruct E as (Hin & Hp).
  apply filter_In in Hin. destruct Hin as (Hin & Hq).
  rewrite (H x Hin Hp) in Hq. discriminate.
Qed.

Lemma dropNull_length {A : Type} (l : list (option A)) :
  (List.length (dropNull l) <= List.length l)%nat.
Proof.
  induction l as [|[a|] l IH]; simpl; auto with arith.
Qed.

Lemma dropNull_lookupInfo_ids s l :
  map mi_id (dropNull (map (lookupInfo s) l)) =
  filter (hasDoc s) (map mem_userId l).
Proof.
  induction l as [|m l IH]; simpl; auto.
  unfold lookupInfo at 1, hasDoc at 1.
  destruct (find _ (sto_users s)) as [u|] eqn:E.
  - pose proof (find_some _ _ E) as (Hin & Hid).
    assert (X : existsb (fun u => String.eqb (ud_id u) (mem_userId m))
                  (sto_users s) = true).
    { apply existsb_exists. eauto. }
    rewrite X. simpl. apply String.eqb_eq in Hid. now rewrite Hid, IH.
  - assert (X : existsb (fun u => String.eqb (ud_id u) (mem_userId m))
                  (sto_users s) = false).
    { destruct (existsb _ _) eqn:Y; auto.
      apply existsb_exists in Y. destruct Y as (u & Hin & Hu).
      pose proof (find_none _ _ E u Hin) as N. simpl in N. congruence. }
    now rewrite X.
Qed.

End GroupOrMembers.

(** The query discloses the signed-in user's groups and no other: whenever
    it returns, with or without a group id, every listed summary is that of
    a stored group listing the user, every stored group listing the user is
    summarised with the number of its membership entries, and a selected
    group is a stored group with the requested id that lists the user. *)
Theorem groups_listed_are_the_users (s : Store) (groupId : option string)
  (u : UserDoc) (log : list access) (r : Selection) :
  sto_currentUser s = Ok u ->
  getGroupOrMembers s groupId = (log, Ok r) ->
  (forall sm, In sm (sel_groups r) ->
     exists g, In g (sto_groups s) /\ listsUser u g /\ sm = groupSummary g) /\
  (forall g, In g (sto_groups s) -> listsUser u g ->
     In (mkGroupSummary (gd_id g) (gd_name g) (gd_description g)
           (List.length (gd_members g))) (sel_groups r)) /\
  (forall sg, sel_selectedGroup r = Some sg ->
     exists g, In g (sto_groups s) /\ listsUser u g /\
       groupId = Some (gd_id g) /\ sg_id sg = gd_id g /\
       sg_name sg = gd_name g /\ sg_description sg = gd_description g /\
       sg_createdBy sg = gd_createdBy g).
Proof.
  intros Hu. unfold getGroupOrMembers, askCurrentUser, collectGroups.
  rewrite Hu. simpl.
  set (userGroups := filter (hasMember u) (sto_groups s)).
  assert (Hsound : forall sm, In sm (map groupSummary userGroups) ->
    exists g, In g (sto_groups s) /\ listsUser u g /\ sm = groupSummary g).
  { intros sm Hin. apply in_map_iff in Hin. destruct Hin as (g & <- & Hg).
    apply filter_In in Hg. destruct Hg as (Hg & Hm).
    exists g. repeat split; auto. now apply hasMember_listsUser. }
  assert (Hcomplete : forall g, In g (sto_groups s) -> listsUser u g ->
    In (groupSummary g) (map groupSummary userGroups)).
  { intros g Hg Hm. apply in_map. apply filter_In. split; auto.
    now apply hasMember_listsUser. }
  destruct (truthy groupId) eqn:Tr.
  - destruct (find (isGroup groupId) userGroups) as [g|] eqn:Ef; simpl.
    + rewrite tr_mapM_memberInfo. simpl. intros H. inversion H. subst r.
      simpl. repeat split; auto.
      intros sg Hsg. inversion Hsg. subst sg. simpl.
      apply find_some in Ef. destruct Ef as (Hin & Hid).
      apply filter_In in Hin. destruct Hin as (Hin & Hm).
      exists g. repeat split; auto.
      * now apply hasMember_listsUser.
      * unfold isGroup in Hid. destruct groupId as [g0|]; [|discriminate].
        apply String.eqb_eq in Hid. now rewrite Hid.
    + discriminate.
  - simpl. intros H. inversion H. subst r. simpl. repeat split; auto.
    discriminate.
Qed.

Lemma groups_listed_are_the_users_witness :
  exists log r,
    getGroupOrMembers store_example (Some "g"%string) = (log, Ok r) /\
    map gs_id (sel_groups r) = ["g"; "k"]%string /\
    (forall sm, In sm (sel_groups r) ->
       exists g, In g (sto_groups store_example) /\
         listsUser (mkUserDoc "A" "Ann" "ann@x.org" "") g /\
         sm = groupSummary g).
Proof.
  eexists. eexists. split; [vm_compute; reflexivity|].
  split; [reflexivity|].
  eapply (groups_listed_are_the_users store_example (Some "g"%string)
            (mkUserDoc "A" "Ann" "ann@x.org" "")).
  - reflexivity.
  - vm_compute. reflexivity.
Defined.

(** A request for a group that is not stored and a request for a stored
    group that does not list the user are answered alike: the same error,
    after the same two store accesses, and no user document is read. *)
Theorem unknown_or_foreign_group_rejected (s : Store) (g0 : string)
  (u : UserDoc) :
  sto_currentUser s = Ok u ->
  g0 <> ""%string ->
  (forall g, In g (sto_groups s) -> gd_id g = g0 -> ~ listsUser u g) ->
  getGroupOrMembers s (Some g0) =
  ([AskCurrentUser; CollectGroups],
   Throw (Error "Group not found or you're not a member")).
Proof.
  intros Hu Hne Hno. unfold getGroupOrMembers, askCurrentUser, collectGroups.
  rewrite Hu. simpl. apply String.eqb_neq in Hne. rewrite Hne. simpl.
  rewrite find_none_filter; [reflexivity|].
  intros g Hg Hid. simpl in Hid. apply String.eqb_eq in Hid.
  destruct (hasMember u g) eqn:Hm; auto.
  exfalso. apply (Hno g Hg Hid). now apply hasMember_listsUser.
Qed.

Lemma unknown_or_foreign_group_rejected_witness :
  getGroupOrMembers store_example (Some "h"%string) =
    ([AskCurrentUser; CollectGroups],
     Throw (Error "Group not found or you're not a member")) /\
  getGroupOrMembers store_example (Some "zz"%string) =
    ([AskCurrentUser; CollectGroups],
     Throw (Error "Group not found or you're not a member")).
Proof.
  split;
    apply (unknown_or_foreign_group_rejected store_example _
             (mkUserDoc "A" "Ann" "ann@x.org" ""));
    try reflexivity; try discriminate;
    intros g [<-|[<-|[<-|[]]]] Hid; try discriminate;
    intros (m & [<-|[]] & Hm); discriminate.
Defined.

(** A signed-in member selecting a stored group gets it even when user
    documents of members are gone: the query reads one document per
    membership entry, keeps the members whose document exists, in
    membership order, and never throws; the selected group can therefore
    show fewer members than its summary counts. *)
Theorem selection_drops_deleted_users (s : Store) (g0 : string) (u : UserDoc)
  (g : GroupDoc) :
  sto_currentUser s = Ok u ->
  g0 <> ""%string ->
  find (fun x => String.eqb (gd_id x) g0) (sto_groups s) = Some g ->
  listsUser u g ->
  exists r sg,
    getGroupOrMembers s (Some g0) =
      ([AskCurrentUser; CollectGroups] ++
       map (fun m => FetchUser (mem_userId m)) (gd_members g), Ok r) /\
    sel_selectedGroup r = Some sg /\
    sg_id sg = g0 /\
    map mi_id (sg_members sg) =
      filter (hasDoc s) (map mem_userId (gd_members g)) /\
    (List.length (sg_members sg) <= List.length (gd_members g))%nat /\
    In (mkGroupSummary g0 (gd_name g) (gd_description g)
          (List.length (gd_members g))) (sel_groups r).
Proof.
  intros Hu Hne Hfind Hm. unfold getGroupOrMembers, askCurrentUser,
    collectGroups.
  rewrite Hu. simpl. apply String.eqb_neq in Hne. rewrite Hne. simpl.
  assert (Ef : find (isGroup (Some g0)) (filter (hasMember u) (sto_groups s))
               = Some g).
  { apply find_filter_first; [exact Hfind|]. now apply hasMember_listsUser. }
  rewrite Ef. rewrite tr_mapM_memberInfo. simpl. rewrite app_nil_r.
  pose proof (find_some _ _ Hfind) as (Hin & Hid).
  apply String.eqb_eq in Hid.
  eexists. eexists. split; [reflexivity|]. simpl.
  split; [reflexivity|]. split; [exact Hid|]. split; [|split].
  - apply dropNull_lookupInfo_ids.
  - rewrite <- (length_map (lookupInfo s) (gd_members g)).
    apply dropNull_length.
  - rewrite <- Hid. apply (in_map groupSummary). apply filter_In. split; auto.
    now apply hasMember_listsUser.
Qed.

Lemma selection_drops_deleted_users_witness :
  exists r sg,
    getGroupOrMembers store_example (Some "g"%string) =
      ([AskCurrentUser; CollectGroups] ++
       map (fun m => FetchUser (mem_userId m))
         [mkMember "A" "admin"; mkMember "B" "member"; mkMember "D" "member"],
       Ok r) /\
    sel_selectedGroup r = Some sg /\
    sg_id sg = "g"%string /\
    map mi_id (sg_members sg) =
      filter (hasDoc store_example)
        (map mem_userId
           [mkMember "A" "admin"; mkMember "B" "member";
            mkMember "D" "member"]) /\
    (List.length (sg_members sg) <= 3)%nat /\
    In (mkGroupSummary "g" "Trip" "" 3) (sel_groups r).
Proof.
  apply (selection_drops_deleted_users store_example "g"
           (mkUserDoc "A" "Ann" "ann@x.org" "")
           (mkGroupDoc "g" "Trip" "" "A"
              [mkMember "A" "admin"; mkMember "B" "member";
               mkMember "D" "member"])).
  - reflexivity.
  - discriminate.
  - reflexivity.
  - exists (mkMember "A" "admin"). split; [now left | reflexivity].
Defined.

Example selection_with_deleted_member :
  exists log r sg,
    getGroupOrMembers store_example (Some "g"%string) = (log, Ok r) /\
    sel_selectedGroup r = Some sg /\
    map mi_id (sg_members sg) = ["A"; "B"]%string /\
    map gs_memberCount (sel_groups r) = [3; 1]%nat.
Proof. do 3 eexists. vm_compute. repeat split; reflexivity. Qed.

(* ================================================================== *)
(** ** The handler [getGroupExpenses] beyond authorization *)

Section Handler.

Lemma memberDetail_run ctx m :
  memberDetail ctx m =
  ([GetUser (mem_userId m)],
   match lookupDetail ctx m with
   | Some d => Ok d
   | None => Throw TypeError
   end).
Proof.
  unfold memberDetail, getUser, lookupDetail.
  destruct (find _ (db_users ctx)); reflexivity.
Qed.

Lemma promiseAll_memberDetail ctx l :
  promiseAll (memberDetail ctx) l =
  (map (fun m => GetUser (mem_userId m)) l,
   mapM (fun m => match lookupDetail ctx m with
                  | Some d => Ok d
                  | None => Throw TypeError
                  end) l).
Proof.
  induction l as [|m l IH]; [reflexivity|].
  cbn [promiseAll map mapM]. rewrite memberDetail_run, IH. reflexivity.
Qed.

Lemma promiseAll_memberDetail_all ctx l :
  (forall m, In m l -> lookupDetail ctx m <> None) ->
  exists mds,
    promiseAll (memberDetail ctx) l =
      (map (fun m => GetUser (mem_userId m)) l, Ok mds) /\
    map Some mds = map (lookupDetail ctx) l /\
    map id mds = map mem_userId l /\
    map role mds = map mem_role l.
Proof.
  rewrite promiseAll_memberDetail.
  induction l as [|m l IH]; intros H.
  - exists []. repeat split; reflexivity.
  - destruct IH as (mds & E & HS & Hid & Hrole).
    { intros x Hx. apply H. now right. }
    pose proof (H m (or_introl eq_refl)) as Hm.
    apply (f_equal snd) in E. cbn [snd] in E. cbn [mapM map]. rewrite E.
    unfold lookupDetail in Hm |- *.
    destruct (find _ (db_users ctx)) as [u|] eqn:Ef; [|congruence].
    apply find_some in Ef. destruct Ef as (_ & Eid).
    apply String.eqb_eq in Eid.
    eexists. simpl. split; [reflexivity|]. simpl.
    rewrite HS, Hid, Hrole, Eid. auto.
Qed.

Lemma promiseAll_memberDetail_inv ctx l log mds :
  promiseAll (memberDetail ctx) l = (log, Ok mds) ->
  forall m, In m l -> lookupDetail ctx m <> None.
Proof.
  rewrite promiseAll_memberDetail. intros Hm.
  apply (f_equal snd) in Hm. cbn [snd] in Hm. revert mds Hm.
  induction l as [|m l IH]; intros mds H x Hx; [destruct Hx|].
  cbn [mapM] in H.
  destruct (lookupDetail ctx m) as [d|] eqn:Ed; simpl in H; [|discriminate].
  destruct (mapM _ l) as [mds1|] eqn:E; simpl in H; [|discriminate].
  destruct Hx as [<-|Hx]; [congruence|]. now apply (IH mds1).
Qed.

Lemma promiseAll_memberDetail_missing ctx l :
  (exists m, In m l /\ lookupDetail ctx m = None) ->
  snd (promiseAll (memberDetail ctx) l) = Throw TypeError.
Proof.
  rewrite promiseAll_memberDetail. cbn [snd].
  induction l as [|m l IH]; intros (x & Hx & Hnone); [destruct Hx|].
  cbn [mapM].
  destruct (lookupDetail ctx m) as [d|] eqn:Ed; simpl; [|reflexivity].
  destruct Hx as [<-|Hx]; [congruence|].
  rewrite (IH (ex_intro _ x (conj Hx Hnone))). reflexivity.
Qed.

Lemma lookupDetail_some ctx m :
  (exists doc, In doc (db_users ctx) /\ usr_id doc = mem_userId m) ->
  lookupDetail ctx m <> None.
Proof.
  intros (doc & Hin & Hid). unfold lookupDetail.
  destruct (find _ (db_users ctx)) eqn:E; [discriminate|].
  pose proof (find_none _ _ E doc Hin) as N. simpl in N.
  rewrite Hid, String.eqb_refl in N. discriminate.
Qed.

Lemma lookupDetail_none ctx m :
  (forall doc, In doc (db_users ctx) -> usr_id doc <> mem_userId m) ->
  lookupDetail ctx m = None.
Proof.
  intros H. unfold lookupDetail.
  destruct (find _ (db_users ctx)) as [u|] eqn:E; auto.
  apply find_some in E. destruct E as (Hin & Hid).
  apply String.eqb_eq in Hid. exfalso. now apply (H u).
Qed.

Lemma existsb_member u (l : list Member) :
  (exists m, In m l /\ mem_userId m = usr_id u) ->
  existsb (fun m => String.eqb (mem_userId m) (usr_id u)) l = true.
Proof.
  intros (m & Hm & E). apply existsb_exists. exists m. split; auto.
  now apply String.eqb_eq.
Qed.

Lemma computeBalances_members mds es ss bs :
  computeBalances mds es ss = Ok bs -> map member bs = mds.
Proof.
  unfold computeBalances.
  destruct (preNetting _ es ss) as [st|]; simpl; [|discriminate].
  destruct (netLedger _ st) as [st'|]; simpl; [|discriminate].
  unfold shapeBalances. generalize (map id mds). intros ids. revert bs.
  induction mds as [|m mds IH]; intros bs; simpl.
  - intros H. now inversion H.
  - destruct (shapeBalance ids st' m) as [b|] eqn:Eb; simpl; [|discriminate].
    destruct (mapM (shapeBalance ids st') mds) as [bs'|]; simpl;
      [|discriminate].
    intros H. inversion H. simpl.
    rewrite (shapeBalance_member _ _ _ _ Eb). now rewrite (IH bs' eq_refl).
Qed.

End Handler.

(** An authorized request on consistent data is answered: when the user is
    signed in and listed in the stored group, every member has a user
    document and the group's expenses and settlements mention members only,
    the handler returns a response after reading the group, its expenses,
    its settlements and one user document per member, in that order.  The
    response lists the members in membership order with their roles, one
    balance per member in the same order, and the group's own records. *)
Theorem authorized_request_succeeds (ctx : Ctx) (groupId : string) (u : User)
  (group : Group) :
  getCurrentUser ctx = Ok u ->
  find (fun g => String.eqb (grp_id g) groupId) (db_groups ctx) = Some group ->
  (exists m, In m (grp_members group) /\ mem_userId m = usr_id u) ->
  (forall m, In m (grp_members group) ->
     exists doc, In doc (db_users ctx) /\ usr_id doc = mem_userId m) ->
  validInput (map mem_userId (grp_members group))
    (filter (fun e => String.eqb (exp_groupId e) groupId) (db_expenses ctx))
    (filter (fun s => String.eqb (stl_groupId s) groupId)
       (db_settlements ctx)) ->
  exists rsp,
    getGroupExpenses ctx groupId =
      ([RunCurrentUser; GetGroup groupId; QueryExpenses groupId;
        QuerySettlements groupId] ++
       map (fun m => GetUser (mem_userId m)) (grp_members group), Ok rsp) /\
    map id (rsp_members rsp) = map mem_userId (grp_members group) /\
    map role (rsp_members rsp) = map mem_role (grp_members group) /\
    map member (rsp_balances rsp) = rsp_members rsp /\
    rsp_expenses rsp =
      filter (fun e => String.eqb (exp_groupId e) groupId) (db_expenses ctx) /\
    rsp_settlements rsp =
      filter (fun s => String.eqb (stl_groupId s) groupId)
        (db_settlements ctx).
Proof.
  intros Hu Hg Hmem Hdocs Hv.
  unfold getGroupExpenses, runCurrentUser, getGroup, queryExpenses,
    querySettlements.
  rewrite Hu. simpl. rewrite Hg. rewrite (existsb_member u _ Hmem). simpl.
  destruct (promiseAll_memberDetail_all ctx (grp_members group))
    as (mds & E & _ & Hid & Hrole).
  { intros m Hm. apply lookupDetail_some. auto. }
  rewrite E. rewrite <- Hid in Hv.
  destruct (computeBalances_ok mds _ _ Hv) as (st & st' & bs & _ & _ & _ & Eb).
  cbv beta iota delta [io_bind io_lift io_ret]. rewrite Eb.
  rewrite !app_nil_r.
  eexists. split; [reflexivity|]. simpl.
  repeat split; auto. eapply computeBalances_members; eauto.
Qed.

Lemma authorized_request_succeeds_witness :
  exists rsp,
    getGroupExpenses
      (mkCtx (Ok (mkUser "B" "Bob" "")) (db_groups ctx_example)
         (db_users ctx_example) (db_expenses ctx_example)
         (db_settlements ctx_example)) "g" =
      ([RunCurrentUser; GetGroup "g"; QueryExpenses "g";
        QuerySettlements "g"] ++
       map (fun m => GetUser (mem_userId m))
         [mkMember "A" "admin"; mkMember "B" "member"], Ok rsp) /\
    map id (rsp_members rsp) = ["A"; "B"]%string /\
    map role (rsp_members rsp) = ["admin"; "member"]%string /\
    map member (rsp_balances rsp) = rsp_members rsp /\
    rsp_expenses rsp = [mkExpense "g" "A" [mkSplit "B" 10 false]] /\
    rsp_settlements rsp = [].
Proof.
  apply (authorized_request_succeeds
           (mkCtx (Ok (mkUser "B" "Bob" "")) (db_groups ctx_example)
              (db_users ctx_example) (db_expenses ctx_example)
              (db_settlements ctx_example)) "g" (mkUser "B" "Bob" "")
           (mkGroup "g" "Trip" ""
              [mkMember "A" "admin"; mkMember "B" "member"])).
  - reflexivity.
  - reflexivity.
  - exists (mkMember "B" "member"). simpl. auto.
  - intros m [<-|[<-|[]]]; simpl.
    + exists (mkUser "A" "Ann" ""). auto.
    + exists (mkUser "B" "Bob" ""). auto.
  - split.
    + intros e [<-|[]]. split; simpl; [tauto|].
      intros sp [<-|[]]; simpl; tauto.
    + intros s [].
Defined.

(** A member whose user document is gone blocks the whole group: for a
    signed-in member of the group the handler throws [TypeError] in step 1
    and returns no response, whatever the expenses and settlements are. *)
Theorem deleted_member_blocks_group (ctx : Ctx) (groupId : string) (u : User)
  (group : Group) (m : Member) :
  getCurrentUser ctx = Ok u ->
  find (fun g => String.eqb (grp_id g) groupId) (db_groups ctx) = Some group ->
  (exists m', In m' (grp_members group) /\ mem_userId m' = usr_id u) ->
  In m (grp_members group) ->
  (forall doc, In doc (db_users ctx) -> usr_id doc <> mem_userId m) ->
  snd (getGroupExpenses ctx groupId) = Throw TypeError.
Proof.
  intros Hu Hg Hmem Hm Hnone.
  unfold getGroupExpenses, runCurrentUser, getGroup, queryExpenses,
    querySettlements.
  rewrite Hu. simpl. rewrite Hg. rewrite (existsb_member u _ Hmem). simpl.
  pose proof (promiseAll_memberDetail_missing ctx (grp_members group))
    as Hthrow.
  destruct (promiseAll (memberDetail ctx) (grp_members group)) as [log [mds|e]];
    simpl in Hthrow |- *.
  - assert (X : @Ok (list MemberDetail) mds = Throw TypeError).
    { apply Hthrow. exists m. split; auto. now apply lookupDetail_none. }
    discriminate.
  - assert (X : @Throw (list MemberDetail) e = Throw TypeError).
    { apply Hthrow. exists m. split; auto. now apply lookupDetail_none. }
    inversion X. reflexivity.
Qed.

Lemma deleted_member_blocks_group_witness :
  snd (getGroupExpenses
         (mkCtx (Ok (mkUser "A" "Ann" "")) (db_groups ctx_example)
            [mkUser "A" "Ann" ""] [] []) "g") = Throw TypeError.
Proof.
  apply (deleted_member_blocks_group
           (mkCtx (Ok (mkUser "A" "Ann" "")) (db_groups ctx_example)
              [mkUser "A" "Ann" ""] [] []) "g" (mkUser "A" "Ann" "")
           (mkGroup "g" "Trip" ""
              [mkMember "A" "admin"; mkMember "B" "member"])
           (mkMember "B" "member")).
  - reflexivity.
  - reflexivity.
  - exists (mkMember "A" "admin"). simpl. auto.
  - simpl. auto.
  - intros doc [<-|[]]. simpl. discriminate.
Defined.

Section Response.

Lemma filter_skip {A : Type} (p : A -> bool) l1 x l2 :
  p x = false -> filter p (l1 ++ x :: l2) = filter p (l1 ++ l2).
Proof.
  intros H. rewrite !filter_app. simpl. now rewrite H.
Qed.

(** What a returned response is made of. *)
Lemma getGroupExpenses_ok_inv ctx groupId log rsp :
  getGroupExpenses ctx groupId = (log, Ok rsp) ->
  exists u group logm,
    getCurrentUser ctx = Ok u /\
    find (fun g => String.eqb (grp_id g) groupId) (db_groups ctx)
      = Some group /\
    existsb (fun m => String.eqb (mem_userId m) (usr_id u))
      (grp_members group) = true /\
    promiseAll (memberDetail ctx) (grp_members group)
      = (logm, Ok (rsp_members rsp)) /\
    rsp_group rsp =
      mkGroupInfo (grp_id group) (grp_name group) (grp_description group) /\
    rsp_expenses rsp =
      filter (fun e => String.eqb (exp_groupId e) groupId) (db_expenses ctx) /\
    rsp_settlements rsp =
      filter (fun s => String.eqb (stl_groupId s) groupId)
        (db_settlements ctx) /\
    computeBalances (rsp_members rsp) (rsp_expenses rsp) (rsp_settlements rsp)
      = Ok (rsp_balances rsp) /\
    rsp_userLookupMap rsp = userLookupMap (rsp_members rsp).
Proof.
  unfold getGroupExpenses, runCurrentUser, getGroup, queryExpenses,
    querySettlements.
  destruct (getCurrentUser ctx) as [u|]; simpl; [|discriminate].
  destruct (find _ (db_groups ctx)) as [group|]; simpl; [|discriminate].
  destruct (existsb _ (grp_members group)) eqn:Ex; simpl; [|discriminate].
  destruct (promiseAll (memberDetail ctx) (grp_members group))
    as [logm [mds|]] eqn:Em; simpl; [|discriminate].
  destruct (computeBalances mds _ _) as [bs|] eqn:Eb; simpl; [|discriminate].
  intros H. inversion H. subst rsp. simpl.
  exists u, group, logm. repeat split; auto.
Qed.

End Response.

(** Every response is self-consistent: its balances are the ones computed
    from the members, expenses and settlements it returns, it holds one
    balance per returned member in the same order, its lookup map is built
    from the returned members, and every returned expense and settlement
    belongs to the requested group. *)
Theorem response_is_self_consistent (ctx : Ctx) (groupId : string)
  (log : list event) (rsp : Response) :
  getGroupExpenses ctx groupId = (log, Ok rsp) ->
  computeBalances (rsp_members rsp) (rsp_expenses rsp) (rsp_settlements rsp)
    = Ok (rsp_balances rsp) /\
  map member (rsp_balances rsp) = rsp_members rsp /\
  rsp_userLookupMap rsp = userLookupMap (rsp_members rsp) /\
  gi_id (rsp_group rsp) = groupId /\
  (forall e, In e (rsp_expenses rsp) -> exp_groupId e = groupId) /\
  (forall s, In s (rsp_settlements rsp) -> stl_groupId s = groupId).
Proof.
  intros H.
  destruct (getGroupExpenses_ok_inv _ _ _ _ H)
    as (u & group & logm & _ & Hg & _ & _ & Hgi & He & Hs & Hb & Hl).
  split; [exact Hb|]. split; [eapply computeBalances_members; eauto|].
  split; [exact Hl|]. split; [|split].
  - rewrite Hgi. simpl. apply find_some in Hg. destruct Hg as (_ & Hid).
    now apply String.eqb_eq.
  - intros e Hin. rewrite He in Hin. apply filter_In in Hin.
    destruct Hin as (_ & Hid). now apply String.eqb_eq.
  - intros s Hin. rewrite Hs in Hin. apply filter_In in Hin.
    destruct Hin as (_ & Hid). now apply String.eqb_eq.
Qed.

Lemma response_is_self_consistent_witness :
  exists log rsp,
    getGroupExpenses
      (mkCtx (Ok (mkUser "B" "Bob" "")) (db_groups ctx_example)
         (db_users ctx_example) (db_expenses ctx_example)
         (db_settlements ctx_example)) "g" = (log, Ok rsp) /\
    (computeBalances (rsp_members rsp) (rsp_expenses rsp)
       (rsp_settlements rsp) = Ok (rsp_balances rsp) /\
     map member (rsp_balances rsp) = rsp_members rsp /\
     rsp_userLookupMap rsp = userLookupMap (rsp_members rsp) /\
     gi_id (rsp_group rsp) = "g"%string /\
     (forall e, In e (rsp_expenses rsp) -> exp_groupId e = "g"%string) /\
     (forall s, In s (rsp_settlements rsp) -> stl_groupId s = "g"%string)).
Proof.
  eexists. eexists. split; [vm_compute; reflexivity|].
  eapply (response_is_self_consistent
            (mkCtx (Ok (mkUser "B" "Bob" "")) (db_groups ctx_example)
               (db_users ctx_example) (db_expenses ctx_example)
               (db_settlements ctx_example)) "g").
  vm_compute. reflexivity.
Defined.

(** Records of other groups are invisible: storing one more expense and one
    more settlement that belong to another group, at any position, changes
    neither the accesses nor the outcome of a request. *)
Theorem other_groups_records_ignored (cu : result User) (groups : list Group)
  (users : list User) (es1 es2 : list Expense) (ss1 ss2 : list Settlement)
  (e : Expense) (s : Settlement) (groupId : string) :
  exp_groupId e <> groupId ->
  stl_groupId s <> groupId ->
  getGroupExpenses (mkCtx cu groups users (es1 ++ e :: es2) (ss1 ++ s :: ss2))
    groupId =
  getGroupExpenses (mkCtx cu groups users (es1 ++ es2) (ss1 ++ ss2)) groupId.
Proof.
  intros He Hs. apply String.eqb_neq in He, Hs.
  unfold getGroupExpenses, queryExpenses, querySettlements. simpl.
  rewrite (filter_skip _ es1 e es2 He), (filter_skip _ ss1 s ss2 Hs).
  reflexivity.
Qed.

Lemma other_groups_records_ignored_witness :
  getGroupExpenses
    (mkCtx (Ok (mkUser "B" "Bob" "")) (db_groups ctx_example)
       (db_users ctx_example)
       ([mkExpense "g" "A" [mkSplit "B" 10 false]] ++
        mkExpense "h" "B" [mkSplit "A" 99 false] :: [])
       ([] ++ mkSettlement "h" "A" "B" 5 :: [])) "g" =
  getGroupExpenses
    (mkCtx (Ok (mkUser "B" "Bob" "")) (db_groups ctx_example)
       (db_users ctx_example)
       ([mkExpense "g" "A" [mkSplit "B" 10 false]] ++ []) ([] ++ [])) "g".
Proof.
  apply (other_groups_records_ignored (Ok (mkUser "B" "Bob" ""))
           (db_groups ctx_example) (db_users ctx_example)
           [mkExpense "g" "A" [mkSplit "B" 10 false]] [] [] []
           (mkExpense "h" "B" [mkSplit "A" 99 false])
           (mkSettlement "h" "A" "B" 5) "g");
    simpl; discriminate.
Defined.

Section LookupMap.

Lemma find_app_first {A : Type} (p : A -> bool) l1 l2 :
  find p (l1 ++ l2) =
  match find p l1 with
  | Some x => Some x
  | None => find p l2
  end.
Proof.
  induction l1 as [|x l1 IH]; simpl; auto. now destruct (p x).
Qed.

Lemma userLookupMap_get_acc (l : list MemberDetail) (o : obj MemberDetail) k :
  get (fold_left (fun o m => set o (id m) m) l o) k =
  match find (fun m => String.eqb (id m) k) (rev l) with
  | Some m => Some m
  | None => get o k
  end.
Proof.
  revert o. induction l as [|m l IH]; intros o; simpl; auto.
  rewrite IH. rewrite find_app_first.
  destruct (find _ (rev l)); auto. simpl.
  rewrite get_set. rewrite (String.eqb_sym k (id m)).
  destruct (String.eqb (id m) k); reflexivity.
Qed.

(** A lookup returns the last roster entry carrying the id. *)
Lemma userLookupMap_get l k :
  get (userLookupMap l) k = find (fun m => String.eqb (id m) k) (rev l).
Proof.
  unfold userLookupMap. rewrite userLookupMap_get_acc.
  now destruct (find _ (rev l)).
Qed.

Lemma userLookupMap_keys_acc (l : list MemberDetail) (o : obj MemberDetail) :
  NoDup (map fst o ++ map id l) ->
  map fst (fold_left (fun o m => set o (id m) m) l o) = map fst o ++ map id l.
Proof.
  revert o. induction l as [|m l IH]; intros o Hnd; simpl.
  - now rewrite app_nil_r.
  - assert (Hnew : get o (id m) = None).
    { apply get_none_keys. intros Hin.
      apply NoDup_remove_2 in Hnd. apply Hnd. apply in_or_app. now left. }
    assert (Hk : map fst (set o (id m) m) = map fst o ++ [id m]).
    { clear -Hnew. induction o as [|[k v] o IH]; simpl in *; auto.
      destruct (String.eqb (id m) k); [discriminate|].
      simpl. now rewrite IH. }
    rewrite IH; rewrite Hk, <- app_assoc; auto.
Qed.

End LookupMap.

(** For a roster listing each member once, the lookup map of step 7 holds
    exactly the roster: its keys are the member ids in roster order, looking
    up a member's id returns that member's record, and any other id is
    absent. *)
Theorem userLookupMap_round_trip (memberDetails : list MemberDetail) :
  NoDup (map id memberDetails) ->
  map fst (userLookupMap memberDetails) = map id memberDetails /\
  (forall m, In m memberDetails ->
     get (userLookupMap memberDetails) (id m) = Some m) /\
  (forall k, ~ In k (map id memberDetails) ->
     get (userLookupMap memberDetails) k = None).
Proof.
  intros Hnd. split; [|split].
  - unfold userLookupMap. now rewrite userLookupMap_keys_acc.
  - intros m Hm. rewrite userLookupMap_get.
    destruct (find (fun m0 => String.eqb (id m0) (id m)) (rev memberDetails))
      as [m'|] eqn:E.
    + apply find_some in E. destruct E as (Hin & Hid).
      apply String.eqb_eq in Hid. apply in_rev in Hin. f_equal.
      clear -Hnd Hm Hin Hid.
      induction memberDetails as [|x l IH]; [destruct Hm|].
      simpl in Hnd. inversion Hnd as [|? ? Hnot Hnd']. subst.
      destruct Hm as [->|Hm], Hin as [->|Hin]; auto.
      * exfalso. apply Hnot. rewrite <- Hid. now apply in_map.
      * exfalso. apply Hnot. rewrite Hid. now apply in_map.
    + apply in_rev in Hm. pose proof (find_none _ _ E m Hm) as N.
      simpl in N. rewrite String.eqb_refl in N. discriminate.
  - intros k Hk. rewrite userLookupMap_get.
    destruct (find _ (rev memberDetails)) as [m|] eqn:E; auto.
    apply find_some in E. destruct E as (Hin & Hid).
    apply String.eqb_eq in Hid. exfalso. apply Hk. rewrite <- Hid.
    apply in_map. now apply in_rev.
Qed.

Lemma userLookupMap_round_trip_witness :
  map fst (userLookupMap [md "A"; md "B"; md "C"]) =
    map id [md "A"; md "B"; md "C"] /\
  (forall m, In m [md "A"; md "B"; md "C"] ->
     get (userLookupMap [md "A"; md "B"; md "C"]) (id m) = Some m) /\
  (forall k, ~ In k (map id [md "A"; md "B"; md "C"]) ->
     get (userLookupMap [md "A"; md "B"; md "C"]) k = None).
Proof.
  apply (userLookupMap_round_trip [md "A"; md "B"; md "C"]).
  simpl. repeat constructor; simpl; intuition discriminate.
Defined.

Example userLookupMap_last_wins :
  get (userLookupMap [mkMemberDetail "A" "Ann" "" "admin";
                      mkMemberDetail "A" "Ann" "" "member"]) "A"
  = Some (mkMemberDetail "A" "Ann" "" "member").
Proof. reflexivity. Qed.

(* ================================================================== *)
(** ** The two queries on one store *)

Section TwoQueries.

Lemma selection_members_of s g0 u g :
  sto_currentUser s = Ok u ->
  g0 <> ""%string ->
  find (fun x => String.eqb (gd_id x) g0) (sto_groups s) = Some g ->
  listsUser u g ->
  exists log r,
    getGroupOrMembers s (Some g0) = (log, Ok r) /\
    sel_selectedGroup r =
      Some (mkSelectedGroup (gd_id g) (gd_name g) (gd_description g)
              (gd_createdBy g) (dropNull (map (lookupInfo s) (gd_members g)))).
Proof.
  intros Hu Hne Hfind Hm. unfold getGroupOrMembers, askCurrentUser,
    collectGroups.
  rewrite Hu. simpl. apply String.eqb_neq in Hne. rewrite Hne. simpl.
  assert (Ef : find (isGroup (Some g0)) (filter (hasMember u) (sto_groups s))
               = Some g).
  { apply find_filter_first; [exact Hfind|]. now apply hasMember_listsUser. }
  rewrite Ef. rewrite tr_mapM_memberInfo. simpl.
  eexists. eexists. split; reflexivity.
Qed.

Lemma find_map_inv {A B : Type} (f : A -> B) (p : B -> bool) l :
  find p (map f l) = option_map f (find (fun x => p (f x)) l).
Proof.
  induction l as [|x l IH]; simpl; auto. now destruct (p (f x)).
Qed.

Lemma lookupDetail_ctxOfStore s es ss m :
  lookupDetail (ctxOfStore s es ss) m =
  option_map detailOfInfo (lookupInfo s m).
Proof.
  unfold lookupDetail, lookupInfo, ctxOfStore. simpl.
  rewrite find_map_inv. simpl.
  destruct (find _ (sto_users s)); reflexivity.
Qed.

Lemma dropNull_all_some s l mds :
  map Some mds = map (fun m => option_map detailOfInfo (lookupInfo s m)) l ->
  map detailOfInfo (dropNull (map (lookupInfo s) l)) = mds.
Proof.
  revert mds. induction l as [|m l IH]; intros [|d mds]; simpl;
    try discriminate; auto.
  intros H. inversion H as [[Hd Ht]].
  destruct (lookupInfo s m); simpl in *; [|discriminate].
  inversion Hd. f_equal. now apply IH.
Qed.

End TwoQueries.

(** The two queries agree on a group's members: whenever [getGroupExpenses]
    answers a request for a non-empty group id, [getGroupOrMembers] on the
    same store selects the same group, with the same name and description,
    and lists the same members with the same name, image and role. *)
Theorem queries_agree_on_members (s : Store) (expenses : list Expense)
  (settlements : list Settlement) (g0 : string) (log : list event)
  (rsp : Response) :
  g0 <> ""%string ->
  getGroupExpenses (ctxOfStore s expenses settlements) g0 = (log, Ok rsp) ->
  exists log' r sg,
    getGroupOrMembers s (Some g0) = (log', Ok r) /\
    sel_selectedGroup r = Some sg /\
    sg_id sg = gi_id (rsp_group rsp) /\
    sg_name sg = gi_name (rsp_group rsp) /\
    sg_description sg = gi_description (rsp_group rsp) /\
    map detailOfInfo (sg_members sg) = rsp_members rsp.
Proof.
  intros Hne H.
  destruct (getGroupExpenses_ok_inv _ _ _ _ H)
    as (u & group & logm & Hu & Hg & Hex & Hm & Hgi & _).
  unfold ctxOfStore in Hu, Hg. simpl in Hu, Hg.
  destruct (sto_currentUser s) as [ud|] eqn:Eu; simpl in Hu; [|discriminate].
  inversion Hu. subst u. clear Hu.
  rewrite find_map_inv in Hg. simpl in Hg.
  destruct (find (fun x => String.eqb (gd_id x) g0) (sto_groups s))
    as [gd|] eqn:Eg; simpl in Hg; [|discriminate].
  inversion Hg. subst group. clear Hg. simpl in Hex, Hm, Hgi.
  assert (Hl : listsUser ud gd).
  { apply hasMember_listsUser. exact Hex. }
  destruct (selection_members_of s g0 ud gd Eu Hne Eg Hl)
    as (log' & r & E & Hsel).
  destruct (promiseAll_memberDetail_all (ctxOfStore s expenses settlements)
              (gd_members gd)) as (mds & E' & HS & _).
  { eapply promiseAll_memberDetail_inv; eauto. }
  rewrite Hm in E'. inversion E'. subst mds.
  exists log', r. eexists. split; [exact E|]. split; [exact Hsel|].
  rewrite Hgi. simpl. repeat split; auto.
  apply dropNull_all_some. rewrite HS. apply map_ext.
  intros m. apply lookupDetail_ctxOfStore.
Qed.

Lemma queries_agree_on_members_witness :
  exists log' r sg,
    getGroupOrMembers store_single (Some "h"%string) = (log', Ok r) /\
    sel_selectedGroup r = Some sg /\
    sg_id sg = "h"%string /\
    sg_name sg = "Flat"%string /\
    sg_description sg = ""%string /\
    map detailOfInfo (sg_members sg) = [mkMemberDetail "B" "Bob" "" "admin"].
Proof.
  exact (queries_agree_on_members store_single [] [] "h" _ _
           ltac:(discriminate) eq_refl).
Defined.

(* ================================================================== *)
(** ** Ledger properties kept by every assignment *)

Section LedgerInvariant.

Variable P : Ledger -> Prop.
Hypothesis P_empty : P [].
Hypothesis P_row : forall L a, P L -> P (set L a []).
Hypothesis P_cell : forall L a b v L', P L -> setCell L a b v = Ok L' -> P L'.

Lemma inv_initLedger ids L : initLedger ids = Ok L -> P L.
Proof.
  unfold initLedger. apply (forEach_preserve P); [|exact P_empty].
  intros a L0 L1 _ H0. cbv zeta. apply (forEach_preserve P); [|auto].
  intros b L2 L3 _ H2. destruct (negb (String.eqb a b)).
  - intros E. eapply P_cell; eauto.
  - intros E. inversion E. now subst.
Qed.

Lemma inv_applySplit payer sp st st' :
  applySplit payer sp st = Ok st' -> P (ledger st) -> P (ledger st').
Proof.
  unfold applySplit. destruct (String.eqb (userId sp) payer || paid sp).
  { intros H. inversion H. now subst. }
  destruct (getCell (ledger st) (userId sp) payer) as [cur|]; simpl;
    [|discriminate].
  destruct (setCell (ledger st) (userId sp) payer (add cur (Num (amount sp))))
    as [L'|] eqn:E; simpl; [|discriminate].
  intros H HP. inversion H. subst st'. simpl. eapply P_cell; eauto.
Qed.

Lemma inv_applyExpenses es st st' :
  applyExpenses es st = Ok st' -> P (ledger st) -> P (ledger st').
Proof.
  intros E H. revert E.
  apply (forEach_preserve (fun s => P (ledger s))); auto.
  intros e s s' _ Hs Ee. revert Ee.
  apply (forEach_preserve (fun s => P (ledger s))); auto.
  intros sp s0 s1 _ H0 E0. eapply inv_applySplit; eauto.
Qed.

Lemma inv_applySettlements ss st st' :
  applySettlements ss st = Ok st' -> P (ledger st) -> P (ledger st').
Proof.
  intros E H. revert E.
  apply (forEach_preserve (fun s => P (ledger s))); auto.
  intros s s0 s1 _ H0. unfold applySettlement.
  destruct (getCell (ledger s0) (stl_paidByUserId s) (stl_receivedByUserId s))
    as [cur|]; simpl; [|discriminate].
  destruct (setCell (ledger s0) (stl_paidByUserId s) (stl_receivedByUserId s)
              (sub cur (Num (stl_amount s)))) as [L'|] eqn:E; simpl;
    [|discriminate].
  intros H1. inversion H1. simpl. eapply P_cell; eauto.
Qed.

Lemma inv_netPair a b st st' :
  netPair a b st = Ok st' -> P (ledger st) -> P (ledger st').
Proof.
  unfold netPair. destruct (geb a b).
  { intros H. inversion H. now subst. }
  destruct (getCell (ledger st) a b) as [x|]; simpl; [|discriminate].
  destruct (getCell (ledger st) b a) as [y|]; simpl; [|discriminate].
  destruct (gt0 (sub x y)); [|destruct (lt0 (sub x y))]; intros H HP;
    match type of H with
    | bind (setCell ?L0 ?p ?q ?v) _ = _ =>
        destruct (setCell L0 p q v) as [L1|] eqn:E1; simpl in H;
        [|discriminate]
    end;
    match type of H with
    | bind (setCell ?L0 ?p ?q ?v) _ = _ =>
        destruct (setCell L0 p q v) as [L2|] eqn:E2; simpl in H;
        [|discriminate]
    end;
    inversion H; subst st'; simpl;
    (eapply P_cell; [|exact E2]); (eapply P_cell; [|exact E1]); exact HP.
Qed.

Lemma inv_netLedger ids st st' :
  netLedger ids st = Ok st' -> P (ledger st) -> P (ledger st').
Proof.
  intros E H. revert E.
  apply (forEach_preserve (fun s => P (ledger s))); auto.
  intros a s s' _ Hs Ea. revert Ea.
  apply (forEach_preserve (fun s => P (ledger s))); auto.
  intros b s0 s1 _ H0 E0. eapply inv_netPair; eauto.
Qed.

Lemma inv_preNetting ids es ss st :
  preNetting ids es ss = Ok st -> P (ledger st).
Proof.
  unfold preNetting, initState.
  destruct (initLedger ids) as [L0|] eqn:E0; simpl; [|discriminate].
  destruct (applyExpenses es (mkState (initTotals ids) L0)) as [s1|] eqn:E1;
    simpl; [|discriminate].
  intros E. apply (inv_applySettlements _ _ _ E).
  apply (inv_applyExpenses _ _ _ E1). simpl.
  now apply (inv_initLedger ids).
Qed.

End LedgerInvariant.

Section RowKeys.

Lemma keys_set_new {V : Type} (o : obj V) k v :
  get o k = None -> map fst (set o k v) = map fst o ++ [k].
Proof.
  induction o as [|[k0 v0] o IH]; simpl; auto.
  destruct (String.eqb k k0); [discriminate|].
  intros H. simpl. now rewrite IH.
Qed.

Lemma NoDup_keys_set {V : Type} (o : obj V) k v :
  NoDup (map fst o) -> NoDup (map fst (set o k v)).
Proof.
  intros H. destruct (get o k) eqn:E.
  - rewrite keys_set_in; [exact H | congruence].
  - rewrite keys_set_new by exact E.
    apply NoDup_app; auto.
    + repeat constructor. intros [].
    + intros x Hx [<-|[]]. apply get_none_keys in E. contradiction.
Qed.

Lemma in_get_NoDup {V : Type} (o : obj V) k v :
  NoDup (map fst o) -> In (k, v) o -> get o k = Some v.
Proof.
  induction o as [|[k0 v0] o IH]; simpl; [tauto|].
  intros Hnd [H|H].
  - inversion H. subst. now rewrite String.eqb_refl.
  - inversion Hnd as [|? ? Hnot Hnd']. subst.
    destruct (String.eqb k k0) eqn:E.
    + apply String.eqb_eq in E. subst k0. exfalso. apply Hnot.
      change k with (fst (k, v)). now apply in_map.
    + auto.
Qed.

Lemma setCell_rowsNoDup L a b v L' :
  rowsNoDup L -> setCell L a b v = Ok L' -> rowsNoDup L'.
Proof.
  unfold setCell. destruct (get L a) as [row|] eqn:E; [|discriminate].
  intros HN H. inversion H. subst L'. clear H.
  intros c row' Hrow. rewrite get_set in Hrow.
  destruct (String.eqb c a).
  - inversion Hrow. apply NoDup_keys_set. eapply HN; eauto.
  - eapply HN; eauto.
Qed.

(** Whatever the input, no row of a state that reaches step 6 holds two
    entries under one key. *)
Lemma pipeline_rowsNoDup ids es ss st st' :
  preNetting ids es ss = Ok st -> netLedger ids st = Ok st' ->
  rowsNoDup (ledger st').
Proof.
  intros E E'.
  assert (R0 : rowsNoDup []) by (intros a row H; discriminate).
  assert (R1 : forall L a, rowsNoDup L -> rowsNoDup (set L a [])).
  { intros L a HN c row Hrow. rewrite get_set in Hrow.
    destruct (String.eqb c a).
    - inversion Hrow. constructor.
    - eapply HN; eauto. }
  apply (inv_netLedger rowsNoDup setCell_rowsNoDup _ _ _ E').
  apply (inv_preNetting rowsNoDup R0 R1 setCell_rowsNoDup _ _ _ _ E).
Qed.

End RowKeys.

Section Duality.

Lemma mapM_all_ok {A B : Type} (f : A -> result B) l ys :
  mapM f l = Ok ys -> forall x, In x l -> exists y, f x = Ok y.
Proof.
  revert ys. induction l as [|x l IH]; intros ys H z Hz; [destruct Hz|].
  simpl in H. destruct (f x) as [y|] eqn:E; simpl in H; [|discriminate].
  destruct (mapM f l) as [ys0|]; simpl in H; [|discriminate].
  destruct Hz as [<-|Hz]; eauto.
Qed.

Lemma shapeBalances_hasRows mds st bs :
  shapeBalances mds st = Ok bs -> hasRows (map id mds) (ledger st).
Proof.
  unfold shapeBalances. intros H a Ha.
  apply in_map_iff in Ha. destruct Ha as (m & <- & Hm).
  destruct (mapM_all_ok _ _ _ H m Hm) as (b & Eb).
  unfold shapeBalance in Eb.
  destruct (get (ledger st) (id m)); [discriminate | discriminate].
Qed.

(** The two lists of a returned balance, read off the final ledger. *)
Lemma shapeBalances_lists mds st bs b :
  shapeBalances mds st = Ok bs -> In b bs ->
  In (id (member b)) (map id mds) /\
  totalBalance b = get (totals st) (id (member b)) /\
  exists row, get (ledger st) (id (member b)) = Some row /\
    owes b = filter (fun e => gt0 (snd e)) row /\
    owedBy b = owedByOf (map id mds) (ledger st) (id (member b)).
Proof.
  intros H Hb. pose proof (shapeBalances_hasRows _ _ _ H) as HR.
  unfold shapeBalances in H.
  destruct (mapM_in _ _ _ H b Hb) as (m & Hm & Eb).
  assert (Hin : In (id m) (map id mds)) by now apply in_map.
  destruct (shapeBalance_ok _ st m HR Hin) as (row & Erow & E).
  rewrite E in Eb. inversion Eb. subst b. simpl.
  split; [exact Hin|]. split; [reflexivity|].
  exists row. auto.
Qed.

Lemma in_owedByOf ids L m a v :
  In (a, v) (owedByOf ids L m) <->
  In a ids /\ v = toNumber (cell L a m) /\ gt0 v = true.
Proof.
  unfold owedByOf. rewrite in_map_iff. split.
  - intros (other & E & Hin). inversion E. subst.
    apply filter_In in Hin. destruct Hin as (Hin & Hgt). auto.
  - intros (Hin & -> & Hgt). exists a. split; auto.
    apply filter_In. auto.
Qed.

End Duality.

(** The two views of a debt agree: in every returned list of balances,
    member [a] lists [b] in [owes] with some amount exactly when [b] lists
    [a] in [owedBy] with the same amount, and every listed amount is a
    strictly positive number. *)
Theorem owes_and_owedBy_agree (memberDetails : list MemberDetail)
  (expenses : list Expense) (settlements : list Settlement)
  (balances : list Balance) :
  computeBalances memberDetails expenses settlements = Ok balances ->
  forall ba bb, In ba balances -> In bb balances ->
    forall v,
      (In (id (member bb), v) (owes ba) <->
       In (id (member ba), v) (owedBy bb)) /\
      (In (id (member bb), v) (owes ba) -> exists z, v = Num z /\ 0 < z).
Proof.
  unfold computeBalances. intros H ba bb Ha Hb v.
  destruct (preNetting _ expenses settlements) as [st|] eqn:E;
    simpl in H; [|discriminate].
  destruct (netLedger _ st) as [st'|] eqn:E'; simpl in H; [|discriminate].
  pose proof (pipeline_rowsNoDup _ _ _ _ _ E E') as HN.
  destruct (shapeBalances_lists _ _ _ _ H Ha)
    as (Hina & _ & rowa & Erowa & Eowes & _).
  destruct (shapeBalances_lists _ _ _ _ H Hb)
    as (Hinb & _ & rowb & _ & _ & Eowed).
  rewrite Eowes, Eowed. rewrite in_owedByOf, filter_In. simpl.
  assert (Hcell : cell (ledger st') (id (member ba)) (id (member bb))
                  = get rowa (id (member bb))).
  { unfold cell. now rewrite Erowa. }
  split.
  - split.
    + intros (Hin & Hgt). rewrite Hcell.
      rewrite (in_get_NoDup _ _ _ (HN _ _ Erowa) Hin). auto.
    + intros (_ & Hv & Hgt). rewrite Hcell in Hv. split; auto.
      destruct (get rowa (id (member bb))) as [w|] eqn:Eg.
      * simpl in Hv. subst w. now apply get_in.
      * simpl in Hv. subst v. discriminate.
  - intros (_ & Hgt). destruct v as [z|]; [|discriminate].
    exists z. split; auto. now apply Z.ltb_lt.
Qed.

Lemma owes_and_owedBy_agree_witness :
  computeBalances [md "A"; md "B"; md "C"] scenarioA_expenses
    [mkSettlement "g" "B" "A" 15] =
  Ok [mkBalance (md "A") (Some (Num 5)) [("B", Num 5)] [("C", Num 10)];
      mkBalance (md "B") (Some (Num 5)) [] [("A", Num 5)];
      mkBalance (md "C") (Some (Num (-10))) [("A", Num 10)] []] /\
  forall ba bb,
    In ba [mkBalance (md "A") (Some (Num 5)) [("B", Num 5)] [("C", Num 10)];
           mkBalance (md "B") (Some (Num 5)) [] [("A", Num 5)];
           mkBalance (md "C") (Some (Num (-10))) [("A", Num 10)] []] ->
    In bb [mkBalance (md "A") (Some (Num 5)) [("B", Num 5)] [("C", Num 10)];
           mkBalance (md "B") (Some (Num 5)) [] [("A", Num 5)];
           mkBalance (md "C") (Some (Num (-10))) [("A", Num 10)] []] ->
    forall v,
      (In (id (member bb), v) (owes ba) <->
       In (id (member ba), v) (owedBy bb)) /\
      (In (id (member bb), v) (owes ba) -> exists z, v = Num z /\ 0 < z).
Proof.
  split; [vm_compute; reflexivity|].
  apply (owes_and_owedBy_agree [md "A"; md "B"; md "C"] scenarioA_expenses
           [mkSettlement "g" "B" "A" 15]).
  vm_compute. reflexivity.
Defined.

(* ================================================================== *)
(** ** Closed form of steps 3 and 4 *)

Section Accumulate.

Context {A S K1 K2 : Type}.
Variable Q : S -> Prop.
Variables (d1 : K1 -> Prop) (m1 : K1 -> S -> Z) (c1 : A -> K1 -> Z).
Variables (d2 : K2 -> Prop) (m2 : K2 -> S -> Z) (c2 : A -> K2 -> Z).

(** A loop whose steps each add their own contribution to two families of
    counters adds the sums of the contributions. *)
Lemma forEach_accumulate (l : list A) (f : A -> S -> result S) :
  (forall x s, In x l -> Q s ->
     exists s', f x s = Ok s' /\ Q s' /\
       (forall k, d1 k -> m1 k s' = m1 k s + c1 x k) /\
       (forall k, d2 k -> m2 k s' = m2 k s + c2 x k)) ->
  forall s, Q s ->
    exists s', forEach l f s = Ok s' /\ Q s' /\
      (forall k, d1 k -> m1 k s' = m1 k s + sumOver (fun x => c1 x k) l) /\
      (forall k, d2 k -> m2 k s' = m2 k s + sumOver (fun x => c2 x k) l).
Proof.
  induction l as [|x l IH]; intros Hstep s HQ; simpl.
  - exists s. repeat split; auto; intros; lia.
  - destruct (Hstep x s (or_introl eq_refl) HQ) as (s1 & E1 & HQ1 & H1 & H2).
    rewrite E1. simpl.
    destruct (IH (fun y s0 Hy => Hstep y s0 (or_intror Hy)) s1 HQ1)
      as (s2 & E2 & HQ2 & G1 & G2).
    exists s2. repeat split; auto.
    + intros k Hk. rewrite (G1 k Hk), (H1 k Hk). lia.
    + intros k Hk. rewrite (G2 k Hk), (H2 k Hk). lia.
Qed.

End Accumulate.

Section ClosedForm.

Variable ids : list string.

Lemma cval_setCell L p q z L' a b :
  setCell L p q (Num z) = Ok L' ->
  cval L' a b = if String.eqb a p && String.eqb b q then z else cval L a b.
Proof.
  intros E. destruct (setCell_inv _ _ _ _ _ E) as (_ & C).
  unfold cval. rewrite C.
  now destruct (String.eqb a p && String.eqb b q).
Qed.

Lemma cval_numeric L a b z : cell L a b = Some (Num z) -> cval L a b = z.
Proof. unfold cval. now intros ->. Qed.

Lemma tval_numeric T a z : get T a = Some (Num z) -> tval T a = z.
Proof. unfold tval. now intros ->. Qed.

Lemma applySplit_value payer sp st :
  In payer ids -> In (userId sp) ids -> wfState ids st ->
  exists st', applySplit payer sp st = Ok st' /\ wfState ids st' /\
    (forall k, pairOf ids k ->
       cval (ledger st') (fst k) (snd k) =
       cval (ledger st) (fst k) (snd k) + splitDebt payer sp (fst k) (snd k)) /\
    (forall a, In a ids ->
       tval (totals st') a = tval (totals st) a + splitNet payer sp a).
Proof.
  intros Hp Hd (HR & HN & HT). unfold applySplit, splitDebt, splitNet, skipped.
  destruct (String.eqb (userId sp) payer || paid sp) eqn:Skip.
  { exists st. repeat split; auto; intros; lia. }
  apply orb_false_iff in Skip. destruct Skip as [Hne _].
  apply String.eqb_neq in Hne.
  destruct (getCell_wf _ _ (userId sp) payer HR HN Hd Hp) as (cur & E & Hc).
  rewrite E. simpl. destruct (Hc Hne) as (z & ->). simpl.
  destruct (setCell_wf ids (ledger st) (userId sp) payer (Num (z + amount sp))
              HR HN Hd) as (L' & E' & HR' & HN'); [eauto|].
  rewrite E'. simpl.
  destruct (totals_transfer ids (totals st) payer (userId sp) (amount sp)
              HT Hp Hd) as (HT' & _).
  assert (Hz : cval (ledger st) (userId sp) payer = z).
  { rewrite (getCell_cell _ _ _ (HR _ Hd)) in E. inversion E as [Ez].
    destruct (HN _ _ Hd Hp Hne) as (z' & Ez'). rewrite Ez' in Ez.
    simpl in Ez. inversion Ez. subst z'. now apply cval_numeric. }
  eexists. split; [reflexivity|]. split; [repeat split; auto|]. split.
  - intros [a b] _. simpl. rewrite (cval_setCell _ _ _ _ _ a b E').
    rewrite (String.eqb_sym (userId sp) a), (String.eqb_sym payer b).
    destruct (String.eqb a (userId sp) && String.eqb b payer) eqn:X; [|lia].
    apply andb_true_iff in X. destruct X as [X1 X2].
    apply String.eqb_eq in X1, X2. subst a b. lia.
  - intros a Ha. simpl. unfold subTotal, addTotal.
    destruct (HT payer Hp) as (zp & Ep). rewrite Ep. simpl.
    rewrite get_set_other by exact Hne.
    destruct (HT (userId sp) Hd) as (zd & Ed). rewrite Ed. simpl.
    rewrite !tval_set.
    rewrite (String.eqb_sym payer a), (String.eqb_sym (userId sp) a).
    destruct (String.eqb a (userId sp)) eqn:X1.
    + apply String.eqb_eq in X1. subst a.
      apply String.eqb_neq in Hne. rewrite Hne.
      rewrite (tval_numeric _ _ _ Ed). lia.
    + destruct (String.eqb a payer) eqn:X2; [|lia].
      apply String.eqb_eq in X2. subst a.
      rewrite (tval_numeric _ _ _ Ep). lia.
Qed.

Lemma applyExpense_value e st :
  validExpense ids e -> wfState ids st ->
  exists st', applyExpense e st = Ok st' /\ wfState ids st' /\
    (forall k, pairOf ids k ->
       cval (ledger st') (fst k) (snd k) =
       cval (ledger st) (fst k) (snd k) +
       sumOver (fun sp => splitDebt (paidByUserId e) sp (fst k) (snd k))
         (splits e)) /\
    (forall a, In a ids ->
       tval (totals st') a = tval (totals st) a +
       sumOver (fun sp => splitNet (paidByUserId e) sp a) (splits e)).
Proof.
  intros (Hp & Hs) Hwf. unfold applyExpense.
  apply (forEach_accumulate (wfState ids) (pairOf ids)
           (fun k s => cval (ledger s) (fst k) (snd k))
           (fun sp k => splitDebt (paidByUserId e) sp (fst k) (snd k))
           (fun a => In a ids) (fun a s => tval (totals s) a)
           (fun sp a => splitNet (paidByUserId e) sp a)); auto.
  intros sp s Hin Hs0. apply applySplit_value; auto.
Qed.

Lemma applyExpenses_value es st :
  (forall e, In e es -> validExpense ids e) -> wfState ids st ->
  exists st', applyExpenses es st = Ok st' /\ wfState ids st' /\
    (forall k, pairOf ids k ->
       cval (ledger st') (fst k) (snd k) =
       cval (ledger st) (fst k) (snd k) + debt es (fst k) (snd k)) /\
    (forall a, In a ids ->
       tval (totals st') a = tval (totals st) a + netOfExpenses es a).
Proof.
  intros Hv Hwf. unfold applyExpenses, debt, netOfExpenses.
  apply (forEach_accumulate (wfState ids) (pairOf ids)
           (fun k s => cval (ledger s) (fst k) (snd k))
           (fun e k => sumOver (fun sp =>
              splitDebt (paidByUserId e) sp (fst k) (snd k)) (splits e))
           (fun a => In a ids) (fun a s => tval (totals s) a)
           (fun e a => sumOver (fun sp => splitNet (paidByUserId e) sp a)
                         (splits e))); auto.
  intros e s Hin Hs0. apply applyExpense_value; auto.
Qed.

Lemma applySettlement_value s st :
  validSettlement ids s -> wfState ids st ->
  exists st', applySettlement s st = Ok st' /\ wfState ids st' /\
    (forall k, pairOf ids k ->
       cval (ledger st') (fst k) (snd k) =
       cval (ledger st) (fst k) (snd k) +
       - (if String.eqb (stl_paidByUserId s) (fst k) &&
             String.eqb (stl_receivedByUserId s) (snd k)
          then stl_amount s else 0)) /\
    (forall a, In a ids ->
       tval (totals st') a = tval (totals st) a + settlementNet s a).
Proof.
  intros (Hp & Hr) (HR & HN & HT). unfold applySettlement, settlementNet.
  set (p := stl_paidByUserId s) in *. set (r := stl_receivedByUserId s) in *.
  destruct (getCell_wf _ _ p r HR HN Hp Hr) as (cur & E & Hc).
  rewrite E. simpl.
  destruct (setCell_wf ids (ledger st) p r (sub cur (Num (stl_amount s)))
              HR HN Hp) as (L' & E' & HR' & HN').
  { intros Hne. destruct (Hc Hne) as (z & ->). simpl. eauto. }
  rewrite E'. simpl.
  destruct (totals_transfer ids (totals st) p r (stl_amount s) HT Hp Hr)
    as (HT' & _).
  eexists. split; [reflexivity|]. split; [repeat split; auto|]. split.
  - intros [a b] (Ha & Hb & Hab). simpl in *.
    destruct (setCell_inv _ _ _ _ _ E') as (_ & C). unfold cval at 1.
    rewrite C. rewrite (String.eqb_sym p a), (String.eqb_sym r b).
    destruct (String.eqb a p && String.eqb b r) eqn:X.
    + apply andb_true_iff in X. destruct X as [X1 X2].
      apply String.eqb_eq in X1, X2. subst a b.
      destruct (Hc Hab) as (z & ->). simpl.
      rewrite (getCell_cell _ _ _ (HR _ Hp)) in E. inversion E as [Ez].
      destruct (HN _ _ Hp Hr Hab) as (z' & Ez'). rewrite Ez' in Ez.
      simpl in Ez. inversion Ez. subst z'.
      rewrite (cval_numeric _ _ _ _ Ez'). lia.
    + fold (cval (ledger st) a b). lia.
  - intros a Ha. simpl. unfold subTotal, addTotal.
    destruct (HT p Hp) as (zp & Ep). rewrite Ep. simpl.
    rewrite get_set. rewrite (String.eqb_sym p a), (String.eqb_sym r a).
    destruct (String.eqb r p) eqn:Erp.
    + apply String.eqb_eq in Erp. rewrite Erp. simpl. rewrite !tval_set.
      destruct (String.eqb a p) eqn:X; [|lia].
      apply String.eqb_eq in X. subst a.
      rewrite (tval_numeric _ _ _ Ep). lia.
    + destruct (HT r Hr) as (zr & Er). rewrite Er. simpl. rewrite !tval_set.
      destruct (String.eqb a r) eqn:X1.
      * apply String.eqb_eq in X1. subst a. rewrite Erp.
        rewrite (tval_numeric _ _ _ Er). lia.
      * destruct (String.eqb a p) eqn:X2; [|lia].
        apply String.eqb_eq in X2. subst a.
        rewrite (tval_numeric _ _ _ Ep). lia.
Qed.

Lemma sumOver_opp {A : Type} (c : A -> Z) l :
  sumOver (fun x => - c x) l = - sumOver c l.
Proof. induction l as [|x l IH]; simpl; auto. rewrite IH. lia. Qed.

Lemma applySettlements_value ss st :
  (forall s, In s ss -> validSettlement ids s) -> wfState ids st ->
  exists st', applySettlements ss st = Ok st' /\ wfState ids st' /\
    (forall k, pairOf ids k ->
       cval (ledger st') (fst k) (snd k) =
       cval (ledger st) (fst k) (snd k) - repaid ss (fst k) (snd k)) /\
    (forall a, In a ids ->
       tval (totals st') a = tval (totals st) a + netOfSettlements ss a).
Proof.
  intros Hv Hwf. unfold applySettlements, repaid, netOfSettlements.
  destruct (forEach_accumulate (wfState ids) (pairOf ids)
           (fun k s => cval (ledger s) (fst k) (snd k))
           (fun s k => - (if String.eqb (stl_paidByUserId s) (fst k) &&
                             String.eqb (stl_receivedByUserId s) (snd k)
                          then stl_amount s else 0))
           (fun a => In a ids) (fun a s => tval (totals s) a)
           (fun s a => settlementNet s a) ss applySettlement)
    with (s := st) as (st' & E & W & H1 & H2); auto.
  { intros s s0 Hin Hs0. apply applySettlement_value; auto. }
  exists st'. repeat split; auto; try apply W.
  intros k Hk. rewrite (H1 k Hk), sumOver_opp. lia.
Qed.

(** Steps 2 to 4 in closed form. *)
Lemma preNetting_value es ss :
  validInput ids es ss ->
  exists st, preNetting ids es ss = Ok st /\ wfState ids st /\
    (forall a b, In a ids -> In b ids -> a <> b ->
       cell (ledger st) a b = Some (Num (debt es a b - repaid ss a b))) /\
    (forall a, In a ids ->
       get (totals st) a =
       Some (Num (netOfExpenses es a + netOfSettlements ss a))).
Proof.
  intros (Hes & Hss). unfold preNetting, initState.
  destruct (initLedger_ok ids) as (L0 & E0 & HR0 & HC0 & _).
  rewrite E0. simpl.
  set (st0 := mkState (initTotals ids) L0).
  assert (W0 : wfState ids st0).
  { split; [exact HR0|]. split.
    - intros a b Ha Hb Hab. exists 0. now apply HC0.
    - intros a Ha. exists 0. now apply initTotals_get. }
  destruct (applyExpenses_value es st0 Hes W0) as (st1 & E1 & W1 & C1 & T1).
  rewrite E1. simpl.
  destruct (applySettlements_value ss st1 Hss W1)
    as (st2 & E2 & W2 & C2 & T2).
  exists st2. split; [exact E2|]. split; [exact W2|]. split.
  - intros a b Ha Hb Hab.
    destruct W2 as (_ & HN2 & _). destruct (HN2 a b Ha Hb Hab) as (z & Ez).
    rewrite Ez. f_equal. f_equal.
    pose proof (C2 (a, b) (conj Ha (conj Hb Hab))) as X2.
    pose proof (C1 (a, b) (conj Ha (conj Hb Hab))) as X1.
    simpl in X1, X2. rewrite (cval_numeric _ _ _ _ Ez) in X2.
    rewrite X2, X1. unfold cval. simpl. rewrite (HC0 a b Ha Hb Hab). lia.
  - intros a Ha.
    destruct W2 as (_ & _ & HT2). destruct (HT2 a Ha) as (z & Ez).
    rewrite Ez. f_equal. f_equal.
    pose proof (T2 a Ha) as X2. pose proof (T1 a Ha) as X1.
    rewrite (tval_numeric _ _ _ Ez) in X2. rewrite X2, X1.
    unfold tval. simpl. rewrite (initTotals_get ids a Ha). lia.
Qed.

End ClosedForm.

(** Under exact arithmetic.  Steps 3 and 4 in closed form.  On a valid input
    they return a state in which, for two distinct members, [ledger[a][b]]
    is the sum of the unpaid splits of [a] in the expenses paid by [b], less
    the settlements paid by [a] to [b]; and [totals[a]] is what [a] paid for
    others, less what others paid for [a], plus the settlements [a] paid,
    less the settlements [a] received. *)
Lemma exact_steps_3_4_closed_form (ids : list string) (expenses : list Expense)
  (settlements : list Settlement) :
  validInput ids expenses settlements ->
  exists st,
    preNetting ids expenses settlements = Ok st /\
    (forall a b, In a ids -> In b ids -> a <> b ->
       cell (ledger st) a b =
       Some (Num (debt expenses a b - repaid settlements a b))) /\
    (forall a, In a ids ->
       get (totals st) a =
       Some (Num (netOfExpenses expenses a + netOfSettlements settlements a))).
Proof.
  intros Hv.
  destruct (preNetting_value ids expenses settlements Hv)
    as (st & E & _ & HC & HT).
  exists st. split; [exact E|]. split; [exact HC | exact HT].
Qed.

Example closed_form_values :
  debt scenarioA_expenses "B" "A" = 10 /\
  repaid [mkSettlement "g" "B" "A" 15] "B" "A" = 15 /\
  netOfExpenses scenarioA_expenses "A" = 20 /\
  netOfSettlements [mkSettlement "g" "B" "A" 15] "A" = -15.
Proof. repeat split; reflexivity. Qed.

Section OutputForm.

Lemma netLedger_numeric_max ids st :
  numericLedger ids (ledger st) ->
  exists st',
    netLedger ids st = Ok st' /\ totals st' = totals st /\
    sameRows (ledger st) (ledger st') /\
    forall a b x y, In a ids -> In b ids -> a <> b ->
      cell (ledger st) a b = Some (Num x) ->
      cell (ledger st) b a = Some (Num y) ->
      cell (ledger st') a b = Some (Num (Z.max (x - y) 0)).
Proof.
  intros HN.
  destruct (netLedger_numeric ids st HN) as (st' & E & HT & HR & _ & HD & HC).
  exists st'. split; [exact E|]. split; [exact HT|]. split; [exact HR|].
  intros a b x y Ha Hb Hab Hx Hy.
  destruct (HC a b Ha Hb Hab) as (x' & y' & Hx' & Hy' & Hx0 & Hy0 & Hxy).
  pose proof (HD a b) as Hnet. unfold net in Hnet.
  rewrite Hx', Hy', Hx, Hy in Hnet. simpl in Hnet. inversion Hnet.
  rewrite Hx'. f_equal. f_equal. lia.
Qed.

End OutputForm.

(** Under exact arithmetic.  The output in closed form.  Write [D a b] for
    the debt of [a] towards [b] recorded by the input: unpaid splits of [a]
    in expenses paid by [b], less settlements paid by [a] to [b].  On a
    valid input the computation returns, and in the balance of member [a]:
    [totalBalance] is the closed-form net total;  [b] appears in [owes]
    exactly with the amount [D a b - D b a] when that is positive; and [b]
    appears in [owedBy] exactly with the amount [D b a - D a b] when that is
    positive. *)
Lemma exact_balances_closed_form (memberDetails : list MemberDetail)
  (expenses : list Expense) (settlements : list Settlement) :
  validInput (map id memberDetails) expenses settlements ->
  exists balances,
    computeBalances memberDetails expenses settlements = Ok balances /\
    forall ba, In ba balances ->
      let a := id (member ba) in
      let D x y := debt expenses x y - repaid settlements x y in
      totalBalance ba =
        Some (Num (netOfExpenses expenses a + netOfSettlements settlements a))
      /\
      forall b v, In b (map id memberDetails) ->
        (In (b, v) (owes ba) <->
         v = Num (D a b - D b a) /\ 0 < D a b - D b a) /\
        (In (b, v) (owedBy ba) <->
         v = Num (D b a - D a b) /\ 0 < D b a - D a b).
Proof.
  intros Hv. set (ids := map id memberDetails) in *.
  destruct (preNetting_value ids expenses settlements Hv)
    as (st & E & (HR & HN & HT) & HC & HTv).
  destruct (netLedger_numeric_max ids st HN) as (st' & E' & HT' & HR' & Hmax).
  assert (HRows : hasRows ids (ledger st')).
  { intros a Ha. rewrite (HR' a). now apply HR. }
  destruct (shapeBalances_ok memberDetails st' HRows) as (bs & Eb & _).
  pose proof (pipeline_rowsNoDup _ _ _ _ _ E E') as HND.
  pose proof (pipeline_diagNaN _ _ _ _ _ E E') as HDg.
  exists bs. split.
  { unfold computeBalances. fold ids. rewrite E. simpl. rewrite E'. exact Eb. }
  intros ba Hba a D.
  destruct (shapeBalances_lists _ _ _ _ Eb Hba)
    as (Ha & Htot & row & Erow & Eowes & Eowed).
  fold ids in Ha, Eowed. fold a in Ha, Htot, Erow, Eowed.
  split. { rewrite Htot, HT'. now apply HTv. }
  assert (Hcell : forall x y, In x ids -> In y ids -> x <> y ->
            cell (ledger st') x y = Some (Num (Z.max (D x y - D y x) 0))).
  { intros x y Hx Hy Hxy. apply Hmax; auto; apply HC; auto. }
  intros b v Hb. split.
  - rewrite Eowes, filter_In. simpl. split.
    + intros (Hin & Hgt).
      destruct (String.eqb a b) eqn:Eab.
      * apply String.eqb_eq in Eab. subst b.
        rewrite (HDg _ _ _ Erow Hin) in Hgt. discriminate.
      * apply String.eqb_neq in Eab.
        pose proof (in_get_NoDup _ _ _ (HND _ _ Erow) Hin) as Hg.
        pose proof (Hcell a b Ha Hb Eab) as Hc. unfold cell in Hc.
        rewrite Erow, Hg in Hc. inversion Hc. subst v. simpl in Hgt.
        apply Z.ltb_lt in Hgt. split; [f_equal|]; lia.
    + intros (-> & Hpos).
      assert (Eab : a <> b) by (intros ->; lia).
      pose proof (Hcell a b Ha Hb Eab) as Hc. unfold cell in Hc.
      rewrite Erow in Hc. replace (Z.max (D a b - D b a) 0)
        with (D a b - D b a) in Hc by lia.
      split; [now apply get_in|]. simpl. now apply Z.ltb_lt.
  - rewrite Eowed, in_owedByOf. split.
    + intros (_ & -> & Hgt).
      destruct (String.eqb b a) eqn:Eba.
      * apply String.eqb_eq in Eba. subst b.
        assert (Hn : getCell (ledger st') a a = Ok NaN).
        { apply diag_read_NaN; auto. }
        rewrite (getCell_cell _ _ _ (HRows a Ha)) in Hn. inversion Hn as [Hn'].
        rewrite Hn' in Hgt. discriminate.
      * apply String.eqb_neq in Eba.
        rewrite (Hcell b a Hb Ha Eba) in Hgt |- *. simpl in Hgt |- *.
        apply Z.ltb_lt in Hgt. split; [f_equal|]; lia.
    + intros (-> & Hpos).
      assert (Eba : b <> a) by (intros ->; lia).
      rewrite (Hcell b a Hb Ha Eba). simpl.
      replace (Z.max (D b a - D a b) 0) with (D b a - D a b) by lia.
      repeat split; auto. now apply Z.ltb_lt.
Qed.

(* ================================================================== *)
(** ** Keys of the dictionaries on valid inputs *)

Section Frames.

Variable ids : list string.

Lemma in_keys_set {V : Type} (o : obj V) k v x :
  In x (map fst (set o k v)) -> x = k \/ In x (map fst o).
Proof.
  destruct (get o k) eqn:E.
  - rewrite keys_set_in by congruence. auto.
  - rewrite keys_set_new by exact E. intros H. apply in_app_or in H.
    destruct H as [H|[H|[]]]; auto.
Qed.

Lemma keys_in_get {V : Type} (o : obj V) k :
  In k (map fst o) <-> get o k <> None.
Proof.
  pose proof (get_none_keys o k) as H. destruct (get o k).
  - split; [discriminate|]. intros _.
    destruct (in_dec string_dec k (map fst o)); auto.
    apply H in n. discriminate.
  - split; [|congruence]. intros Hin. exfalso. now apply (proj1 H).
Qed.

Lemma initLedger_cols L : initLedger ids = Ok L -> colsWithin ids L.
Proof.
  unfold initLedger.
  apply (forEach_preserve (colsWithin ids));
    [|intros a row b H; discriminate].
  intros a L0 L1 _ HC. cbv zeta.
  apply (forEach_preserve (colsWithin ids)).
  - intros b L2 L3 Hb HC2. destruct (negb (String.eqb a b)).
    + unfold setCell. destruct (get L2 a) as [row|] eqn:E; [|discriminate].
      intros H. inversion H. subst L3. clear H.
      intros c row' k Hrow Hk. rewrite get_set in Hrow.
      destruct (String.eqb c a) eqn:Eca.
      * inversion Hrow. subst row'. apply in_keys_set in Hk.
        destruct Hk as [->|Hk]; auto. eapply HC2; eauto.
      * eapply HC2; eauto.
    + intros E. inversion E. now subst.
  - intros c row k Hrow Hk. rewrite get_set in Hrow.
    destruct (String.eqb c a).
    + inversion Hrow. subst row. destruct Hk.
    + eapply HC; eauto.
Qed.

Lemma initTotals_keys :
  NoDup (map fst (initTotals ids)) /\
  forall k, In k (map fst (initTotals ids)) -> In k ids.
Proof.
  unfold initTotals, fromEntries.
  assert (G : forall l (o : obj number),
    NoDup (map fst o) ->
    (forall k, In k (map fst o) -> In k ids) -> incl l ids ->
    let o' := fold_left (fun o kv => set o (fst kv) (snd kv))
                (map (fun i => (i, Num 0)) l) o in
    NoDup (map fst o') /\ forall k, In k (map fst o') -> In k ids).
  { induction l as [|x l IH]; intros o Hnd Hsub Hincl; simpl; auto.
    apply IH.
    - now apply NoDup_keys_set.
    - intros k Hk. apply in_keys_set in Hk. destruct Hk as [->|Hk]; auto.
      apply Hincl. now left.
    - intros y Hy. apply Hincl. now right. }
  apply (G ids []); simpl; auto using incl_refl.
  - constructor.
  - intros k [].
Qed.

(** *** Assignments that keep the frame *)

Lemma get_skeleton L a :
  get (skeleton L) a = option_map (map fst) (get L a).
Proof.
  induction L as [|[k r] L IH]; simpl; auto.
  destruct (String.eqb a k); simpl; auto.
Qed.

Lemma skeleton_set_same L a row row' :
  get L a = Some row -> map fst row' = map fst row ->
  skeleton (set L a row') = skeleton L.
Proof.
  induction L as [|[k r] L IH]; simpl; [discriminate|].
  destruct (String.eqb a k) eqn:E; simpl.
  - intros H Hk. inversion H. subst r. now rewrite Hk.
  - intros H Hk. now rewrite IH.
Qed.

Lemma setCell_frame L p q v L' :
  setCell L p q v = Ok L' -> p = q \/ cell L p q <> None ->
  skeleton (strip L') = skeleton (strip L).
Proof.
  unfold setCell, cell. destruct (get L p) as [row|] eqn:E; [|discriminate].
  intros H Hc. inversion H. subst L'. clear H.
  rewrite strip_set.
  apply (skeleton_set_same _ _ (offdiag p row)).
  - rewrite get_strip, E. reflexivity.
  - destruct (String.eqb q p) eqn:Eqp.
    + apply String.eqb_eq in Eqp. subst q. now rewrite offdiag_set_diag.
    + apply String.eqb_neq in Eqp.
      rewrite offdiag_set_other by exact Eqp.
      apply keys_set_in. rewrite get_offdiag.
      apply String.eqb_neq in Eqp. rewrite Eqp.
      destruct Hc as [Hc|Hc]; [|exact Hc].
      apply String.eqb_neq in Eqp. congruence.
Qed.

Lemma addTotal_keys T k d :
  get T k <> None -> map fst (addTotal T k d) = map fst T.
Proof. intros H. unfold addTotal. now apply keys_set_in. Qed.

Lemma subTotal_keys T k d :
  get T k <> None -> map fst (subTotal T k d) = map fst T.
Proof. intros H. unfold subTotal. now apply keys_set_in. Qed.

Lemma transfer_keys T p r d :
  numericTotals ids T -> In p ids -> In r ids ->
  map fst (subTotal (addTotal T p d) r d) = map fst T.
Proof.
  intros HT Hp Hr. rewrite subTotal_keys, addTotal_keys; auto.
  - destruct (HT p Hp) as (z & ->). discriminate.
  - unfold addTotal. rewrite get_set.
    destruct (String.eqb r p); [discriminate|].
    destruct (HT r Hr) as (z & ->). discriminate.
Qed.

Lemma numericLedger_cell L a b :
  numericLedger ids L -> In a ids -> In b ids ->
  a = b \/ cell L a b <> None.
Proof.
  intros HN Ha Hb. destruct (String.eqb a b) eqn:E.
  - left. now apply String.eqb_eq.
  - right. apply String.eqb_neq in E.
    destruct (HN a b Ha Hb E) as (z & ->). discriminate.
Qed.

Lemma applySplit_frame st0 payer sp st st' :
  In payer ids -> In (userId sp) ids -> wfState ids st ->
  applySplit payer sp st = Ok st' -> sameFrame st0 st -> sameFrame st0 st'.
Proof.
  intros Hp Hd (HR & HN & HT). unfold applySplit.
  destruct (String.eqb (userId sp) payer || paid sp).
  { intros H. inversion H. now subst. }
  destruct (getCell (ledger st) (userId sp) payer) as [cur|]; simpl;
    [|discriminate].
  destruct (setCell (ledger st) (userId sp) payer (add cur (Num (amount sp))))
    as [L'|] eqn:E; simpl; [|discriminate].
  intros H (F1 & F2). inversion H. subst st'. split; simpl.
  - rewrite transfer_keys; auto.
  - rewrite (setCell_frame _ _ _ _ _ E); auto.
    now apply numericLedger_cell.
Qed.

Lemma applySettlement_frame st0 s st st' :
  validSettlement ids s -> wfState ids st ->
  applySettlement s st = Ok st' -> sameFrame st0 st -> sameFrame st0 st'.
Proof.
  intros (Hp & Hr) (HR & HN & HT). unfold applySettlement.
  destruct (getCell (ledger st) (stl_paidByUserId s) (stl_receivedByUserId s))
    as [cur|]; simpl; [|discriminate].
  destruct (setCell (ledger st) (stl_paidByUserId s) (stl_receivedByUserId s)
              (sub cur (Num (stl_amount s)))) as [L'|] eqn:E; simpl;
    [|discriminate].
  intros H (F1 & F2). inversion H. subst st'. split; simpl.
  - rewrite transfer_keys; auto.
  - rewrite (setCell_frame _ _ _ _ _ E); auto.
    now apply numericLedger_cell.
Qed.

Lemma applyExpenses_frame st0 es st st' :
  (forall e, In e es -> validExpense ids e) -> wfState ids st ->
  applyExpenses es st = Ok st' -> sameFrame st0 st -> sameFrame st0 st'.
Proof.
  intros Hv Hwf E HF.
  enough (wfState ids st' /\ sameFrame st0 st') by tauto.
  revert E.
  apply (forEach_preserve (fun s => wfState ids s /\ sameFrame st0 s)); auto.
  intros e s s' He (W & F) Ee.
  destruct (Hv e He) as (Hp & Hs). revert Ee.
  apply (forEach_preserve (fun s => wfState ids s /\ sameFrame st0 s)); auto.
  intros sp s0 s1 Hsp (W0 & F0) E0. split.
  - destruct (applySplit_wf ids (paidByUserId e) sp s0 Hp (Hs sp Hsp) W0)
      as (s2 & E2 & W2 & _).
    rewrite E0 in E2. inversion E2. now subst.
  - eapply applySplit_frame; eauto.
Qed.

Lemma applySettlements_frame st0 ss st st' :
  (forall s, In s ss -> validSettlement ids s) -> wfState ids st ->
  applySettlements ss st = Ok st' -> sameFrame st0 st -> sameFrame st0 st'.
Proof.
  intros Hv Hwf E HF.
  enough (wfState ids st' /\ sameFrame st0 st') by tauto.
  revert E.
  apply (forEach_preserve (fun s => wfState ids s /\ sameFrame st0 s)); auto.
  intros s s0 s1 Hs (W0 & F0) E0. split.
  - destruct (applySettlement_wf ids s s0 (Hv s Hs) W0) as (s2 & E2 & W2 & _).
    rewrite E0 in E2. inversion E2. now subst.
  - eapply applySettlement_frame; eauto.
Qed.

Lemma netPair_frame st0 a b st st' :
  In a ids -> In b ids -> numericLedger ids (ledger st) ->
  netPair a b st = Ok st' -> sameFrame st0 st -> sameFrame st0 st'.
Proof.
  intros Ha Hb HN. unfold netPair. destruct (geb a b) eqn:G.
  { intros H. inversion H. now subst. }
  apply geb_false_ltb in G. pose proof (ltb_neq _ _ G) as Hne.
  destruct (getCell (ledger st) a b) as [x|]; simpl; [|discriminate].
  destruct (getCell (ledger st) b a) as [y|]; simpl; [|discriminate].
  assert (Hab : cell (ledger st) a b <> None).
  { destruct (HN a b Ha Hb Hne) as (z & ->). discriminate. }
  assert (Hba : cell (ledger st) b a <> None).
  { destruct (HN b a Hb Ha (not_eq_sym Hne)) as (z & ->). discriminate. }
  assert (Hkeep : forall L p q v L1 c d,
    setCell L p q v = Ok L1 -> cell L c d <> None -> cell L1 c d <> None).
  { intros L p q v L1 c d E Hc. destruct (setCell_inv _ _ _ _ _ E) as (_ & C).
    rewrite C. destruct (String.eqb c p && String.eqb d q); [discriminate|].
    exact Hc. }
  destruct (gt0 (sub x y)); [|destruct (lt0 (sub x y))]; intros H (F1 & F2);
    match type of H with
    | bind (setCell ?L0 ?p ?q ?v) _ = _ =>
        destruct (setCell L0 p q v) as [L1|] eqn:E1; simpl in H;
        [|discriminate]
    end;
    match type of H with
    | bind (setCell ?L0 ?p ?q ?v) _ = _ =>
        destruct (setCell L0 p q v) as [L2|] eqn:E2; simpl in H;
        [|discriminate]
    end;
    inversion H; subst st'; split; simpl; auto;
    rewrite (setCell_frame _ _ _ _ _ E2);
    [ rewrite (setCell_frame _ _ _ _ _ E1); auto
    | right; eapply Hkeep; eauto
    | rewrite (setCell_frame _ _ _ _ _ E1); auto
    | right; eapply Hkeep; eauto
    | rewrite (setCell_frame _ _ _ _ _ E1); auto
    | right; eapply Hkeep; eauto ].
Qed.

Lemma netLedger_frame st0 st st' :
  numericLedger ids (ledger st) ->
  netLedger ids st = Ok st' -> sameFrame st0 st -> sameFrame st0 st'.
Proof.
  intros HN E HF.
  enough (numericLedger ids (ledger st') /\ sameFrame st0 st') by tauto.
  revert E.
  apply (forEach_preserve
           (fun s => numericLedger ids (ledger s) /\ sameFrame st0 s)); auto.
  intros a s s' Ha (N & F) Ea. revert Ea.
  apply (forEach_preserve
           (fun s => numericLedger ids (ledger s) /\ sameFrame st0 s)); auto.
  intros b s0 s1 Hb (N0 & F0) E0. split.
  - destruct (netPair_numeric ids a b s0 Ha Hb N0)
      as (s2 & E2 & _ & _ & N2 & _).
    rewrite E0 in E2. inversion E2. now subst.
  - exact (netPair_frame st0 a b s0 s1 Ha Hb N0 E0 F0).
Qed.

End Frames.

(* ================================================================== *)
(** ** The order of the records *)

Section Extensionality.

Lemma obj_ext {V : Type} (o o' : obj V) :
  map fst o = map fst o' -> NoDup (map fst o) ->
  (forall k, In k (map fst o) -> get o k = get o' k) -> o = o'.
Proof.
  revert o'. induction o as [|[k v] o IH]; intros [|[k' v'] o']; simpl;
    try discriminate; auto.
  intros Hk Hnd Hget. inversion Hk as [[Hkk Hrest]]. subst k'.
  inversion Hnd as [|? ? Hnot Hnd']. subst.
  pose proof (Hget k (or_introl eq_refl)) as Hv.
  rewrite String.eqb_refl in Hv. inversion Hv. subst v'.
  f_equal. apply IH; auto.
  intros x Hx. specialize (Hget x (or_intror Hx)).
  destruct (String.eqb x k) eqn:E; [|exact Hget].
  apply String.eqb_eq in E. subst x. contradiction.
Qed.

Lemma keys_skeleton L : map fst (skeleton L) = map fst L.
Proof. unfold skeleton. rewrite map_map. reflexivity. Qed.

Lemma ledger_ext (L L' : Ledger) :
  skeleton L = skeleton L' -> NoDup (map fst L) -> rowsNoDup L ->
  (forall a row row' b, get L a = Some row -> get L' a = Some row' ->
     In b (map fst row) -> get row b = get row' b) ->
  L = L'.
Proof.
  intros Hsk Hnd Hrows Hval.
  apply obj_ext; auto.
  - rewrite <- (keys_skeleton L), <- (keys_skeleton L'). now rewrite Hsk.
  - intros a Ha.
    pose proof (get_skeleton L a) as G. pose proof (get_skeleton L' a) as G'.
    rewrite Hsk in G. rewrite G in G'.
    destruct (get L a) as [row|] eqn:E, (get L' a) as [row'|] eqn:E';
      simpl in G'; try discriminate; auto.
    inversion G' as [Hkeys]. f_equal.
    apply obj_ext; auto.
    + eapply Hrows; eauto.
    + intros b Hb. eapply Hval; eauto.
Qed.

Lemma keys_offdiag a row :
  map fst (offdiag a row) =
  filter (fun k => negb (String.eqb k a)) (map fst row).
Proof.
  induction row as [|[k v] row IH]; simpl; auto.
  destruct (String.eqb k a); simpl; now rewrite IH.
Qed.

Lemma keys_strip L : map fst (strip L) = map fst L.
Proof. unfold strip. rewrite map_map. reflexivity. Qed.

Lemma sumOver_perm {A : Type} (c : A -> Z) l l' :
  Permutation l l' -> sumOver c l = sumOver c l'.
Proof.
  induction 1; simpl; lia.
Qed.

Lemma validInput_perm ids es es' ss ss' :
  Permutation es es' -> Permutation ss ss' ->
  validInput ids es ss -> validInput ids es' ss'.
Proof.
  intros Pe Ps (He & Hs). split.
  - intros e Hin. apply He. eapply Permutation_in; [|exact Hin].
    now apply Permutation_sym.
  - intros s Hin. apply Hs. eapply Permutation_in; [|exact Hin].
    now apply Permutation_sym.
Qed.

(** The frame of a state reached on a valid input is that of the initial
    state. *)
Lemma preNetting_frame ids es ss st :
  validInput ids es ss -> preNetting ids es ss = Ok st ->
  exists st0, initState ids = Ok st0 /\ sameFrame st0 st.
Proof.
  intros (Hes & Hss). unfold preNetting.
  destruct (initState_wf ids) as (st0 & E0 & W0 & _). rewrite E0. simpl.
  destruct (applyExpenses_wf ids es st0 Hes W0) as (st1 & E1 & W1 & _).
  rewrite E1. simpl. intros E.
  exists st0. split; [reflexivity|].
  apply (applySettlements_frame ids st0 ss st1 st Hss W1 E).
  apply (applyExpenses_frame ids st0 es st0 st1 Hes W0 E1).
  split; reflexivity.
Qed.

End Extensionality.

Section OrderIndependence.

Variable ids : list string.

(** Two states reached on valid inputs that record the same debts and the
    same net totals agree on the net totals and off the diagonal. *)
Lemma same_values_sim es ss es' ss' st st' :
  validInput ids es ss -> validInput ids es' ss' ->
  preNetting ids es ss = Ok st -> preNetting ids es' ss' = Ok st' ->
  (forall a b, debt es a b - repaid ss a b = debt es' a b - repaid ss' a b) ->
  (forall a, netOfExpenses es a + netOfSettlements ss a =
             netOfExpenses es' a + netOfSettlements ss' a) ->
  sim st st'.
Proof.
  intros Hv Hv' E E' Hd Hn.
  destruct (preNetting_value ids es ss Hv) as (s1 & E1 & _ & C1 & T1).
  rewrite E in E1. inversion E1. subst s1. clear E1.
  destruct (preNetting_value ids es' ss' Hv') as (s2 & E2 & _ & C2 & T2).
  rewrite E' in E2. inversion E2. subst s2. clear E2.
  destruct (preNetting_frame ids es ss st Hv E) as (st0 & E0 & F1 & F2).
  destruct (preNetting_frame ids es' ss' st' Hv' E') as (st0' & E0' & F1' & F2').
  rewrite E0 in E0'. inversion E0'. subst st0'. clear E0'.
  unfold initState in E0.
  destruct (initLedger_ok ids) as (L0 & EL & _ & _ & _ & HW0).
  pose proof (initLedger_cols ids L0 EL) as HC0.
  rewrite EL in E0. simpl in E0. inversion E0. subst st0. simpl in *.
  clear E0.
  destruct (initTotals_keys ids) as (HndT & HsubT).
  split.
  - apply obj_ext.
    + now rewrite F1, F1'.
    + now rewrite F1.
    + intros k Hk. rewrite F1 in Hk. apply HsubT in Hk.
      rewrite (T1 k Hk), (T2 k Hk). now rewrite Hn.
  - assert (Hout : NoDup (map fst (ledger st))).
    { apply (inv_preNetting (fun L => NoDup (map fst L))) with (1 := NoDup_nil _)
        (4 := E).
      - intros L a HL. now apply NoDup_keys_set.
      - intros L a b v L' HL HS. unfold setCell in HS.
        destruct (get L a); [|discriminate]. inversion HS.
        now apply NoDup_keys_set. }
    assert (Hrows : rowsNoDup (ledger st)).
    { apply (inv_preNetting rowsNoDup) with (4 := E).
      - intros a row H. discriminate.
      - intros L a HN c row Hrow. rewrite get_set in Hrow.
        destruct (String.eqb c a).
        + inversion Hrow. constructor.
        + eapply HN; eauto.
      - apply setCell_rowsNoDup. }
    apply ledger_ext.
    + now rewrite F2, F2'.
    + now rewrite keys_strip.
    + intros a row Hrow. rewrite get_strip in Hrow.
      destruct (get (ledger st) a) as [r|] eqn:Er; [|discriminate].
      inversion Hrow. rewrite keys_offdiag. apply NoDup_filter.
      eapply Hrows; eauto.
    + intros a row row' b Hrow Hrow' Hb.
      (* the row belongs to a member and the key to another member *)
      assert (Ha : In a ids).
      { apply HW0. apply keys_in_get.
        rewrite <- keys_strip, <- keys_skeleton, <- F2, keys_skeleton,
          keys_strip.
        apply keys_in_get. rewrite get_strip in Hrow.
        destruct (get (ledger st) a); [discriminate | discriminate]. }
      assert (Hb' : In b ids /\ b <> a).
      { pose proof (get_skeleton (strip (ledger st)) a) as G.
        rewrite F2, get_skeleton, Hrow, get_strip in G.
        destruct (get L0 a) as [r0|] eqn:Er0; [|discriminate].
        simpl in G. inversion G as [Hk]. rewrite <- Hk in Hb.
        rewrite keys_offdiag in Hb. apply filter_In in Hb.
        destruct Hb as (Hb & Hne). split.
        - eapply HC0; eauto.
        - intros ->. rewrite String.eqb_refl in Hne. discriminate. }
      destruct Hb' as (Hb' & Hne).
      rewrite get_strip in Hrow, Hrow'.
      destruct (get (ledger st) a) as [r|] eqn:Er; [|discriminate].
      destruct (get (ledger st') a) as [r'|] eqn:Er'; [|discriminate].
      inversion Hrow. inversion Hrow'. rewrite !get_offdiag.
      apply String.eqb_neq in Hne. rewrite Hne.
      apply String.eqb_neq in Hne.
      pose proof (C1 a b Ha Hb' (not_eq_sym Hne)) as X1.
      pose proof (C2 a b Ha Hb' (not_eq_sym Hne)) as X2.
      unfold cell in X1, X2. rewrite Er in X1. rewrite Er' in X2.
      rewrite X1, X2. now rewrite Hd.
Qed.

End OrderIndependence.

(** Under exact arithmetic.  The balances do not depend on the order of the
    records: on a valid input, listing the expenses in another order and the
    settlements in another order gives the same outcome, list for list. *)
Lemma exact_record_order_is_irrelevant (memberDetails : list MemberDetail)
  (expenses expenses' : list Expense)
  (settlements settlements' : list Settlement) :
  validInput (map id memberDetails) expenses settlements ->
  Permutation expenses expenses' ->
  Permutation settlements settlements' ->
  computeBalances memberDetails expenses' settlements' =
  computeBalances memberDetails expenses settlements.
Proof.
  intros Hv Pe Ps. set (ids := map id memberDetails) in *.
  pose proof (validInput_perm ids _ _ _ _ Pe Ps Hv) as Hv'.
  destruct (computeBalances_ok memberDetails _ _ Hv)
    as (st & st1 & bs & E & _ & E1 & Eb).
  destruct (computeBalances_ok memberDetails _ _ Hv')
    as (st' & st1' & bs' & E' & _ & E1' & Eb').
  fold ids in E, E1, E', E1'.
  assert (Hsim : sim st st').
  { apply (same_values_sim ids expenses settlements expenses' settlements');
      auto.
    - intros a b. unfold debt, repaid.
      now rewrite (sumOver_perm _ _ _ Pe), (sumOver_perm _ _ _ Ps).
    - intros a. unfold netOfExpenses, netOfSettlements.
      now rewrite (sumOver_perm _ _ _ Pe), (sumOver_perm _ _ _ Ps). }
  pose proof (netLedger_sim ids st st' Hsim) as Hnet.
  rewrite E1, E1' in Hnet. simpl in Hnet.
  pose proof (pipeline_diagNaN _ _ _ _ _ E E1) as HD.
  pose proof (pipeline_diagNaN _ _ _ _ _ E' E1') as HD'.
  rewrite Eb. unfold computeBalances in Eb |- *. fold ids in Eb |- *.
  rewrite E in Eb. rewrite E'. simpl in Eb |- *.
  rewrite E1 in Eb. rewrite E1'. simpl in Eb |- *.
  rewrite <- (shapeBalances_sim memberDetails st1 st1' Hnet HD HD').
  exact Eb.
Qed.

(* ================================================================== *)
(** ** Net total against the two lists *)

Section SumsOverLists.

Lemma sumOver_add {A : Type} (c1 c2 : A -> Z) l :
  sumOver (fun x => c1 x + c2 x) l = sumOver c1 l + sumOver c2 l.
Proof. induction l as [|x l IH]; simpl; auto. rewrite IH. lia. Qed.

Lemma sumOver_ext {A : Type} (c1 c2 : A -> Z) l :
  (forall x, In x l -> c1 x = c2 x) -> sumOver c1 l = sumOver c2 l.
Proof.
  induction l as [|x l IH]; intros H; simpl; auto.
  rewrite (H x (or_introl eq_refl)), IH; auto.
  intros y Hy. apply H. now right.
Qed.

Lemma sumOver_zero {A : Type} (l : list A) : sumOver (fun _ => 0) l = 0.
Proof. induction l as [|x l IH]; simpl; auto. Qed.

Lemma sumOver_all_zero {A : Type} (c : A -> Z) l :
  (forall x, In x l -> c x = 0) -> sumOver c l = 0.
Proof.
  intros H. rewrite (sumOver_ext c (fun _ => 0) l H). apply sumOver_zero.
Qed.

Lemma sumOver_map {A B : Type} (f : A -> B) (c : B -> Z) l :
  sumOver c (map f l) = sumOver (fun x => c (f x)) l.
Proof. induction l as [|x l IH]; simpl; auto. now rewrite IH. Qed.

Lemma sumOver_filter {A : Type} (p : A -> bool) (c : A -> Z) l :
  sumOver c (filter p l) = sumOver (fun x => if p x then c x else 0) l.
Proof.
  induction l as [|x l IH]; simpl; auto.
  destruct (p x); simpl; now rewrite IH.
Qed.

(** One key of a duplicate-free list carries the whole sum. *)
Lemma sumOver_indicator (l : list string) d x :
  NoDup l -> In d l ->
  sumOver (fun b => if String.eqb d b then x else 0) l = x.
Proof.
  induction l as [|k l IH]; simpl; [tauto|].
  intros Hnd Hin. inversion Hnd as [|? ? Hnot Hnd']. subst.
  destruct (String.eqb d k) eqn:E.
  - apply String.eqb_eq in E. subst k.
    rewrite (sumOver_ext _ (fun _ => 0)).
    + rewrite sumOver_zero. lia.
    + intros b Hb. destruct (String.eqb d b) eqn:E'; auto.
      apply String.eqb_eq in E'. subst b. contradiction.
  - destruct Hin as [->|Hin].
    + rewrite String.eqb_refl in E. discriminate.
    + rewrite IH; auto.
Qed.

Lemma sumAmounts_num (l : list (string * number)) :
  (forall e, In e l -> gt0 (snd e) = true) ->
  sumAmounts l = Num (sumOver (fun e => listed (Some (snd e))) l).
Proof.
  unfold sumAmounts. intros H.
  assert (G : forall acc,
    fold_left (fun acc e => add acc (snd e)) l (Num acc) =
    Num (acc + sumOver (fun e => listed (Some (snd e))) l)).
  { induction l as [|[k v] l IH]; intros acc; simpl.
    - f_equal. lia.
    - pose proof (H (k, v) (or_introl eq_refl)) as Hv. simpl in Hv.
      destruct v as [z|]; [|discriminate]. simpl in Hv |- *.
      rewrite Hv. rewrite IH.
      + f_equal. unfold listed. lia.
      + intros e He. apply H. now right. }
  apply (G 0).
Qed.

Lemma listed_filter (row : obj number) :
  sumOver (fun e => listed (Some (snd e)))
    (filter (fun e => gt0 (snd e)) row) =
  sumOver (fun e => listed (Some (snd e))) row.
Proof.
  rewrite sumOver_filter. apply sumOver_ext. intros [k [z|]] _; simpl; auto.
  now destruct (0 <? z).
Qed.

Lemma sumOver_entries_keys (row : obj number) :
  NoDup (map fst row) ->
  sumOver (fun e => listed (Some (snd e))) row =
  sumOver (fun k => listed (get row k)) (map fst row).
Proof.
  intros Hnd. rewrite sumOver_map. apply sumOver_ext.
  intros [k v] Hin. simpl. now rewrite (in_get_NoDup _ _ _ Hnd Hin).
Qed.

End SumsOverLists.

Section SwapSums.

Variable ids : list string.
Hypothesis ids_nodup : NoDup ids.

Lemma split_swap payer sp a :
  In payer ids -> In (userId sp) ids ->
  sumOver (fun b => splitDebt payer sp b a - splitDebt payer sp a b) ids =
  splitNet payer sp a.
Proof.
  intros Hp Hd. unfold splitDebt, splitNet.
  destruct (skipped payer sp).
  { apply sumOver_all_zero. intros; lia. }
  rewrite (sumOver_ext _
    (fun b => (if String.eqb (userId sp) b
               then (if String.eqb payer a then amount sp else 0) else 0)
              + (if String.eqb payer b
                 then - (if String.eqb (userId sp) a then amount sp else 0)
                 else 0))).
  - rewrite sumOver_add, !sumOver_indicator by assumption. lia.
  - intros b _.
    destruct (String.eqb (userId sp) b), (String.eqb payer a),
      (String.eqb (userId sp) a), (String.eqb payer b); simpl; lia.
Qed.

Lemma expenses_swap es a :
  (forall e, In e es -> validExpense ids e) ->
  sumOver (fun b => debt es b a - debt es a b) ids = netOfExpenses es a.
Proof.
  unfold debt, netOfExpenses.
  induction es as [|e es IH]; intros Hv; simpl.
  - apply sumOver_all_zero. intros; lia.
  - rewrite <- IH by (intros x Hx; apply Hv; now right).
    destruct (Hv e (or_introl eq_refl)) as (Hp & Hs).
    assert (G : sumOver (fun b =>
        sumOver (fun sp => splitDebt (paidByUserId e) sp b a) (splits e) -
        sumOver (fun sp => splitDebt (paidByUserId e) sp a b) (splits e)) ids
      = sumOver (fun sp => splitNet (paidByUserId e) sp a) (splits e)).
    { clear IH Hv. induction (splits e) as [|sp sps IHs]; simpl.
      - apply sumOver_all_zero. intros; lia.
      - rewrite <- IHs by (intros x Hx; apply Hs; now right).
        rewrite <- (split_swap (paidByUserId e) sp a Hp)
          by (apply Hs; now left).
        rewrite <- sumOver_add. apply sumOver_ext. intros; lia. }
    rewrite <- G, <- sumOver_add. apply sumOver_ext. intros; lia.
Qed.

Lemma settlement_swap s a :
  validSettlement ids s ->
  sumOver (fun b =>
    (if String.eqb (stl_paidByUserId s) a &&
        String.eqb (stl_receivedByUserId s) b then stl_amount s else 0) -
    (if String.eqb (stl_paidByUserId s) b &&
        String.eqb (stl_receivedByUserId s) a then stl_amount s else 0)) ids
  = settlementNet s a.
Proof.
  intros (Hp & Hr). unfold settlementNet.
  rewrite (sumOver_ext _
    (fun b => (if String.eqb (stl_receivedByUserId s) b
               then (if String.eqb (stl_paidByUserId s) a
                     then stl_amount s else 0) else 0)
              + (if String.eqb (stl_paidByUserId s) b
                 then - (if String.eqb (stl_receivedByUserId s) a
                         then stl_amount s else 0)
                 else 0))).
  - rewrite sumOver_add, !sumOver_indicator by assumption. lia.
  - intros b _.
    destruct (String.eqb (stl_paidByUserId s) a),
      (String.eqb (stl_receivedByUserId s) b),
      (String.eqb (stl_paidByUserId s) b),
      (String.eqb (stl_receivedByUserId s) a); simpl; lia.
Qed.

Lemma settlements_swap ss a :
  (forall s, In s ss -> validSettlement ids s) ->
  sumOver (fun b => repaid ss a b - repaid ss b a) ids = netOfSettlements ss a.
Proof.
  unfold repaid, netOfSettlements.
  induction ss as [|s ss IH]; intros Hv; simpl.
  - apply sumOver_all_zero. intros; lia.
  - rewrite <- IH by (intros x Hx; apply Hv; now right).
    rewrite <- (settlement_swap s a (Hv s (or_introl eq_refl))).
    rewrite <- sumOver_add. apply sumOver_ext. intros; lia.
Qed.

End SwapSums.

Section TotalAgainstLists.

Lemma sumOver_sub {A : Type} (c1 c2 : A -> Z) l :
  sumOver (fun x => c1 x - c2 x) l = sumOver c1 l - sumOver c2 l.
Proof. induction l as [|x l IH]; simpl; auto. rewrite IH. lia. Qed.

Lemma sumOver_filter_zero {A : Type} (p : A -> bool) (c : A -> Z) l :
  (forall x, In x l -> p x = false -> c x = 0) ->
  sumOver c (filter p l) = sumOver c l.
Proof.
  intros H. rewrite sumOver_filter. apply sumOver_ext.
  intros x Hx. destruct (p x) eqn:E; auto. symmetry. now apply H.
Qed.

(** On a valid input the keys of a final row, the member's own apart, are
    roster members. *)
Lemma final_row_keys ids es ss st st' a row k :
  validInput ids es ss -> preNetting ids es ss = Ok st ->
  netLedger ids st = Ok st' -> get (ledger st') a = Some row ->
  In k (map fst row) -> k <> a -> In k ids.
Proof.
  intros Hv E E' Hrow Hk Hne.
  destruct (preNetting_wf ids es ss Hv) as (s1 & E1 & (_ & HN & _) & _).
  rewrite E in E1. inversion E1. subst s1. clear E1.
  destruct (preNetting_frame ids es ss st Hv E) as (st0 & E0 & F).
  pose proof (netLedger_frame ids st0 st st' HN E' F) as (_ & F2).
  unfold initState in E0.
  destruct (initLedger ids) as [L0|] eqn:EL; simpl in E0; [|discriminate].
  inversion E0. subst st0. simpl in F2. clear E0.
  pose proof (initLedger_cols ids L0 EL) as HC0.
  pose proof (get_skeleton (strip (ledger st')) a) as G.
  rewrite F2, get_skeleton, !get_strip, Hrow in G. simpl in G.
  destruct (get L0 a) as [r0|] eqn:Er0; simpl in G; [|discriminate].
  inversion G as [Hkeys].
  assert (Hin : In k (map fst (offdiag a row))).
  { rewrite keys_offdiag. apply filter_In. split; auto.
    apply String.eqb_neq in Hne. now rewrite Hne. }
  rewrite <- Hkeys, keys_offdiag in Hin. apply filter_In in Hin.
  destruct Hin as (Hin & _). eapply HC0; eauto.
Qed.

Lemma listed_diag L a :
  diagNaN L -> listed (cell L a a) = 0.
Proof.
  intros HD. unfold cell. destruct (get L a) as [row|] eqn:E; auto.
  destruct (get row a) as [v|] eqn:Ev; auto.
  apply get_in in Ev. now rewrite (HD _ _ _ E Ev).
Qed.

End TotalAgainstLists.

(** Under exact arithmetic.  A member's net total is what the others owe
    them less what they owe: on a valid input over a roster listing each
    member once, every returned balance has [totalBalance] equal to the sum
    of the amounts in [owedBy] minus the sum of the amounts in [owes]. *)
Lemma exact_total_is_owedBy_minus_owes (memberDetails : list MemberDetail)
  (expenses : list Expense) (settlements : list Settlement) :
  NoDup (map id memberDetails) ->
  validInput (map id memberDetails) expenses settlements ->
  exists balances,
    computeBalances memberDetails expenses settlements = Ok balances /\
    forall ba, In ba balances ->
      totalBalance ba =
      Some (sub (sumAmounts (owedBy ba)) (sumAmounts (owes ba))).
Proof.
  intros Hnd Hv. set (ids := map id memberDetails) in *.
  destruct (preNetting_value ids expenses settlements Hv)
    as (st & E & (HR & HN & HT) & HC & HTv).
  destruct (netLedger_numeric_max ids st HN) as (st' & E' & HT' & HR' & Hmax).
  assert (HRows : hasRows ids (ledger st')).
  { intros a Ha. rewrite (HR' a). now apply HR. }
  destruct (shapeBalances_ok memberDetails st' HRows) as (bs & Eb & _).
  pose proof (pipeline_rowsNoDup _ _ _ _ _ E E') as HND.
  pose proof (pipeline_diagNaN _ _ _ _ _ E E') as HDg.
  exists bs. split.
  { unfold computeBalances. fold ids. rewrite E. simpl. rewrite E'. exact Eb. }
  intros ba Hba.
  destruct (shapeBalances_lists _ _ _ _ Eb Hba)
    as (Ha & Htot & row & Erow & Eowes & Eowed).
  fold ids in Ha, Eowed. set (a := id (member ba)) in *.
  set (D := fun x y => debt expenses x y - repaid settlements x y).
  assert (Hcell : forall x y, In x ids -> In y ids -> x <> y ->
            cell (ledger st') x y = Some (Num (Z.max (D x y - D y x) 0))).
  { intros x y Hx Hy Hxy. apply Hmax; auto; apply HC; auto. }
  (* the amounts listed in owedBy *)
  assert (Howed : sumAmounts (owedBy ba) =
    Num (sumOver (fun b => if String.eqb b a then 0
                           else Z.max (D b a - D a b) 0) ids)).
  { rewrite sumAmounts_num.
    2:{ intros [o v] Hin. rewrite Eowed in Hin. apply in_owedByOf in Hin.
        simpl. tauto. }
    f_equal. rewrite Eowed. unfold owedByOf.
    rewrite sumOver_map, sumOver_filter. apply sumOver_ext.
    intros b Hb. simpl. destruct (String.eqb b a) eqn:Eba.
    - apply String.eqb_eq in Eba. subst b.
      pose proof (listed_diag _ a HDg) as Hl0.
      destruct (cell (ledger st') a a) as [[z|]|]; simpl in *; auto.
      destruct (0 <? z); auto.
    - apply String.eqb_neq in Eba. rewrite (Hcell b a Hb Ha Eba). simpl.
      destruct (0 <? Z.max (D b a - D a b) 0) eqn:X; auto.
      apply Z.ltb_ge in X. lia. }
  (* the amounts listed in owes *)
  assert (Howes : sumAmounts (owes ba) =
    Num (sumOver (fun b => if String.eqb b a then 0
                           else Z.max (D a b - D b a) 0) ids)).
  { rewrite sumAmounts_num.
    2:{ intros e Hin. rewrite Eowes in Hin. apply filter_In in Hin. tauto. }
    f_equal. rewrite Eowes, listed_filter.
    rewrite (sumOver_entries_keys row (HND _ _ Erow)).
    rewrite <- (sumOver_filter_zero (fun k => negb (String.eqb k a))).
    2:{ intros k _ Hk. apply negb_false_iff in Hk. apply String.eqb_eq in Hk.
        subst k. pose proof (listed_diag _ a HDg) as Hl0.
        unfold cell in Hl0. now rewrite Erow in Hl0. }
    rewrite (sumOver_perm _ _ (filter (fun k => negb (String.eqb k a)) ids)).
    2:{ apply NoDup_Permutation.
        - apply NoDup_filter. eapply HND; eauto.
        - now apply NoDup_filter.
        - intros k. rewrite !filter_In. split; intros (Hk & Hne); split; auto.
          + apply (final_row_keys ids expenses settlements st st' a row k);
              auto.
            apply negb_true_iff in Hne. now apply String.eqb_neq.
          + apply keys_in_get.
            apply negb_true_iff in Hne. apply String.eqb_neq in Hne.
            pose proof (Hcell a k Ha Hk (not_eq_sym Hne)) as Hc.
            unfold cell in Hc. rewrite Erow in Hc. congruence. }
    rewrite sumOver_filter. apply sumOver_ext. intros b Hb.
    destruct (String.eqb b a) eqn:Eba; simpl; auto.
    apply String.eqb_neq in Eba.
    pose proof (Hcell a b Ha Hb (not_eq_sym Eba)) as Hc.
    unfold cell in Hc. rewrite Erow in Hc. rewrite Hc. simpl.
    destruct (0 <? Z.max (D a b - D b a) 0) eqn:X; auto.
    apply Z.ltb_ge in X. lia. }
  rewrite Htot, HT', (HTv a Ha), Howed, Howes. simpl. f_equal. f_equal.
  rewrite <- sumOver_sub.
  rewrite <- (expenses_swap ids Hnd expenses a (proj1 Hv)).
  rewrite <- (settlements_swap ids Hnd settlements a (proj2 Hv)).
  rewrite <- sumOver_add. apply sumOver_ext. intros b _. unfold D.
  destruct (String.eqb b a) eqn:Eba; [|lia].
  apply String.eqb_eq in Eba. subst b. lia.
Qed.

Example total_against_lists_scenarioC :
  map (fun b => (totalBalance b, sumAmounts (owedBy b), sumAmounts (owes b)))
    [mkBalance (md "A") (Some (Num 5)) [("B", Num 5)] [("C", Num 10)];
     mkBalance (md "B") (Some (Num 5)) [] [("A", Num 5)];
     mkBalance (md "C") (Some (Num (-10))) [("A", Num 10)] []]
  = [(Some (Num 5), Num 10, Num 5); (Some (Num 5), Num 5, Num 0);
     (Some (Num (-10)), Num 0, Num 10)].
Proof. reflexivity. Qed.

(* ================================================================== *)
(** ** Non-members that do not make the computation fail *)

Section SilentNonMembers.

Variable ids : list string.

Lemma tsum_set_foreign l (T : Totals) r v :
  ~ In r l -> tsum l (set T r v) = tsum l T.
Proof.
  induction l as [|a l IH]; simpl; auto.
  intros H. rewrite IH by tauto. f_equal.
  unfold tval. rewrite get_set.
  destruct (String.eqb a r) eqn:E; auto.
  apply String.eqb_eq in E. subst a. tauto.
Qed.

Lemma setCell_foreign_column L p r v :
  hasRows ids L -> numericLedger ids L -> In p ids -> ~ In r ids ->
  exists L', setCell L p r v = Ok L' /\ hasRows ids L' /\ numericLedger ids L'.
Proof.
  intros HR HN Hp Hr.
  destruct (setCell_ok L p r v (HR p Hp)) as (L' & E).
  destruct (setCell_inv _ _ _ _ _ E) as (R & C).
  exists L'. split; [exact E|]. split.
  - intros a Ha. rewrite (R a). now apply HR.
  - intros a b Ha Hb Hab. rewrite C.
    destruct (String.eqb a p && String.eqb b r) eqn:X; [|now apply HN].
    apply andb_true_iff in X. destruct X as [_ X].
    apply String.eqb_eq in X. subst b. contradiction.
Qed.

(** A settlement from a member to a non-member is applied: the payer's
    net total rises, nothing of the roster compensates. *)
Lemma applySettlement_foreign_receiver g p r amt st :
  wfState ids st -> In p ids -> ~ In r ids ->
  exists st', applySettlement (mkSettlement g p r amt) st = Ok st' /\
    wfState ids st' /\
    (NoDup ids -> tsum ids (totals st') = tsum ids (totals st) + amt).
Proof.
  intros (HR & HN & HT) Hp Hr. unfold applySettlement. simpl.
  rewrite (getCell_cell _ p r (HR p Hp)). simpl.
  destruct (setCell_foreign_column (ledger st) p r
              (sub (toNumber (cell (ledger st) p r)) (Num amt)) HR HN Hp Hr)
    as (L' & E & HR' & HN').
  rewrite E. simpl. eexists. split; [reflexivity|].
  destruct (HT p Hp) as (zp & Ep).
  assert (Hpr : p <> r) by (intros ->; contradiction).
  split; [split; [exact HR'|split; [exact HN'|]]|]; simpl.
  - intros a Ha. unfold subTotal, addTotal. rewrite Ep. simpl.
    rewrite !get_set.
    destruct (String.eqb a r) eqn:Ear.
    { apply String.eqb_eq in Ear. subst a. contradiction. }
    destruct (String.eqb a p); eauto.
  - intros Hnd. unfold subTotal. rewrite tsum_set_foreign by exact Hr.
    unfold addTotal. rewrite Ep. simpl. rewrite tsum_set by assumption.
    rewrite (tval_numeric _ _ _ Ep). lia.
Qed.

(** An unpaid split of a member in an expense paid by a non-member is
    applied: the member's net total falls, nothing of the roster
    compensates. *)
Lemma applySplit_foreign_payer payer sp st :
  wfState ids st -> ~ In payer ids -> In (userId sp) ids ->
  exists st', applySplit payer sp st = Ok st' /\ wfState ids st' /\
    (NoDup ids ->
     tsum ids (totals st') =
     tsum ids (totals st) - (if paid sp then 0 else amount sp)).
Proof.
  intros (HR & HN & HT) Hp Hd. unfold applySplit.
  assert (Hne : userId sp <> payer) by (intros E; rewrite E in Hd; contradiction).
  apply String.eqb_neq in Hne. rewrite Hne. simpl.
  destruct (paid sp).
  { exists st. repeat split; auto. intros; lia. }
  rewrite (getCell_cell _ (userId sp) payer (HR _ Hd)). simpl.
  destruct (setCell_foreign_column (ledger st) (userId sp) payer
              (add (toNumber (cell (ledger st) (userId sp) payer))
                 (Num (amount sp))) HR HN Hd Hp) as (L' & E & HR' & HN').
  rewrite E. simpl. eexists. split; [reflexivity|].
  destruct (HT _ Hd) as (zd & Ed).
  assert (Eg : get (addTotal (totals st) payer (amount sp)) (userId sp)
               = Some (Num zd)).
  { unfold addTotal. rewrite get_set, Hne. exact Ed. }
  split; [split; [exact HR'|split; [exact HN'|]]|]; simpl.
  - intros a Ha. unfold subTotal. rewrite Eg. simpl. rewrite get_set.
    destruct (String.eqb a (userId sp)); eauto.
    unfold addTotal. rewrite get_set.
    destruct (String.eqb a payer) eqn:Eap; [|now apply HT].
    apply String.eqb_eq in Eap. subst a. contradiction.
  - intros Hnd. unfold subTotal. rewrite Eg. simpl.
    rewrite tsum_set by assumption.
    rewrite (tval_numeric _ _ _ Eg).
    unfold addTotal. rewrite tsum_set_foreign by exact Hp. lia.
Qed.

Lemma applyExpense_foreign_payer g payer sps st :
  wfState ids st -> ~ In payer ids ->
  (forall sp, In sp sps -> In (userId sp) ids) ->
  exists st', applyExpense (mkExpense g payer sps) st = Ok st' /\
    wfState ids st' /\
    (NoDup ids ->
     tsum ids (totals st') =
     tsum ids (totals st) -
     sumOver (fun sp => if paid sp then 0 else amount sp) sps).
Proof.
  intros Hwf Hp. unfold applyExpense. simpl. revert st Hwf.
  induction sps as [|sp sps IH]; intros st Hwf Hs; simpl.
  - exists st. repeat split; auto; try apply Hwf. intros; lia.
  - destruct (applySplit_foreign_payer payer sp st Hwf Hp
                (Hs sp (or_introl eq_refl))) as (s1 & E1 & W1 & S1).
    rewrite E1. simpl.
    destruct (IH s1 W1 (fun x Hx => Hs x (or_intror Hx)))
      as (s2 & E2 & W2 & S2).
    exists s2. split; [exact E2|]. split; [exact W2|].
    intros Hnd. rewrite (S2 Hnd), (S1 Hnd). lia.
Qed.

(** From a well-formed state whose net totals sum to [c], the rest of the
    computation returns balances whose [totalBalance] fields sum to [c]. *)
Lemma finish_with_sum memberDetails st c :
  NoDup (map id memberDetails) ->
  wfState (map id memberDetails) st ->
  tsum (map id memberDetails) (totals st) = c ->
  exists bs,
    (s' <- netLedger (map id memberDetails) st ;;
     shapeBalances memberDetails s') = Ok bs /\
    sumNumbers (map totalBalance bs) = Num c.
Proof.
  intros Hnd (HR & HN & HT) Hc.
  destruct (netLedger_numeric _ st HN) as (st' & E' & HT' & HR' & _).
  assert (HRows : hasRows (map id memberDetails) (ledger st')).
  { intros a Ha. rewrite (HR' a). now apply HR. }
  destruct (shapeBalances_ok memberDetails st' HRows) as (bs & Eb & _ & Hb).
  exists bs. rewrite E'. simpl. split; [exact Eb|].
  rewrite Hb, HT', (sumNumbers_tsum (totals st) _ HT). now rewrite Hc.
Qed.

End SilentNonMembers.

(** Under exact arithmetic.  A settlement paid by a member to a non-member
    is accepted silently and breaks conservation: the computation returns,
    and over a roster listing each member once the [totalBalance] fields sum
    to the settlement's amount instead of zero. *)
Lemma exact_settlement_to_non_member_leaks (memberDetails : list MemberDetail)
  (expenses : list Expense) (ss1 ss2 : list Settlement)
  (g p r : string) (amt : Z) :
  NoDup (map id memberDetails) ->
  validInput (map id memberDetails) expenses (ss1 ++ ss2) ->
  In p (map id memberDetails) -> ~ In r (map id memberDetails) ->
  exists balances,
    computeBalances memberDetails expenses
      (ss1 ++ mkSettlement g p r amt :: ss2) = Ok balances /\
    sumNumbers (map totalBalance balances) = Num amt.
Proof.
  intros Hnd (Hes & Hss) Hp Hr. set (ids := map id memberDetails) in *.
  unfold computeBalances, preNetting. fold ids.
  destruct (initState_wf ids) as (s0 & E0 & W0 & S0). rewrite E0. simpl.
  destruct (applyExpenses_wf ids expenses s0 Hes W0) as (s1 & E1 & W1 & S1).
  rewrite E1. simpl.
  unfold applySettlements. rewrite forEach_app.
  destruct (applySettlements_wf ids ss1 s1) as (s2 & E2 & W2 & S2); auto.
  { intros s Hs. apply Hss, in_or_app. now left. }
  unfold applySettlements in E2. rewrite E2. simpl.
  destruct (applySettlement_foreign_receiver ids g p r amt s2 W2 Hp Hr)
    as (s3 & E3 & W3 & S3).
  rewrite E3. simpl.
  destruct (applySettlements_wf ids ss2 s3) as (s4 & E4 & W4 & S4); auto.
  { intros s Hs. apply Hss, in_or_app. now right. }
  unfold applySettlements in E4. rewrite E4. simpl.
  apply (finish_with_sum memberDetails s4 amt Hnd W4).
  fold ids. rewrite (S4 Hnd), (S3 Hnd), (S2 Hnd), (S1 Hnd), S0. lia.
Qed.

(** Under exact arithmetic.  An expense paid by a non-member and split among
    members is accepted silently and breaks conservation: the computation
    returns, and over a roster listing each member once the [totalBalance]
    fields sum to minus the unpaid amounts of that expense instead of zero. *)
Lemma exact_expense_of_non_member_leaks (memberDetails : list MemberDetail)
  (es1 es2 : list Expense) (settlements : list Settlement)
  (g payer : string) (sps : list Split) :
  NoDup (map id memberDetails) ->
  validInput (map id memberDetails) (es1 ++ es2) settlements ->
  ~ In payer (map id memberDetails) ->
  (forall sp, In sp sps -> In (userId sp) (map id memberDetails)) ->
  exists balances,
    computeBalances memberDetails (es1 ++ mkExpense g payer sps :: es2)
      settlements = Ok balances /\
    sumNumbers (map totalBalance balances) =
    Num (- sumOver (fun sp => if paid sp then 0 else amount sp) sps).
Proof.
  intros Hnd (Hes & Hss) Hp Hs. set (ids := map id memberDetails) in *.
  unfold computeBalances, preNetting. fold ids.
  destruct (initState_wf ids) as (s0 & E0 & W0 & S0). rewrite E0. simpl.
  unfold applyExpenses. rewrite forEach_app.
  destruct (applyExpenses_wf ids es1 s0) as (s1 & E1 & W1 & S1); auto.
  { intros e He. apply Hes, in_or_app. now left. }
  unfold applyExpenses in E1. rewrite E1. simpl.
  destruct (applyExpense_foreign_payer ids g payer sps s1 W1 Hp Hs)
    as (s2 & E2 & W2 & S2).
  rewrite E2. simpl.
  destruct (applyExpenses_wf ids es2 s2) as (s3 & E3 & W3 & S3); auto.
  { intros e He. apply Hes, in_or_app. now right. }
  unfold applyExpenses in E3. rewrite E3. simpl.
  destruct (applySettlements_wf ids settlements s3 Hss W3)
    as (s4 & E4 & W4 & S4).
  rewrite E4. simpl.
  apply (finish_with_sum memberDetails s4 _ Hnd W4).
  fold ids. rewrite (S4 Hnd), (S3 Hnd), (S2 Hnd), (S1 Hnd), S0. lia.
Qed.

Example expense_of_non_member_output :
  computeBalances [md "A"; md "B"]
    [mkExpense "g" "X" [mkSplit "A" 4 false; mkSplit "B" 6 true]] []
  = Ok [mkBalance (md "A") (Some (Num (-4))) [] [];
        mkBalance (md "B") (Some (Num 0)) [] []].
Proof. vm_compute. reflexivity. Qed.

(* ================================================================== *)
(** ** Who can appear in the two lists *)

Section ListedNames.

Variable ids : list string.

Lemma colsWithin_strangersNaN L : colsWithin ids L -> strangersNaN ids L.
Proof.
  intros HC a row k v Hrow Hin Hk. exfalso. apply Hk.
  apply (HC a row k Hrow). apply in_map_iff. now exists (k, v).
Qed.

Lemma setCell_strangersNaN L a b v L' :
  setCell L a b v = Ok L' -> (~ In b ids -> v = NaN) ->
  strangersNaN ids L -> strangersNaN ids L'.
Proof.
  unfold setCell. destruct (get L a) as [row|] eqn:E; [|discriminate].
  intros H Hv HS. inversion H. subst L'. clear H.
  intros c row' k w Hrow Hin Hk. rewrite get_set in Hrow.
  destruct (String.eqb c a) eqn:Eca.
  - apply String.eqb_eq in Eca. subst c. inversion Hrow. subst row'.
    apply in_set in Hin. destruct Hin as [[-> ->]|Hin]; auto.
    eapply HS; eauto.
  - eapply HS; eauto.
Qed.

(** What is read in the column of a non-member is never an amount. *)
Lemma stranger_read_NaN L a b cur :
  strangersNaN ids L -> getCell L a b = Ok cur -> ~ In b ids -> cur = NaN.
Proof.
  intros HS. unfold getCell. destruct (get L a) as [row|] eqn:E;
    [|discriminate].
  intros H Hb. inversion H as [Hcur]. clear H.
  destruct (get row b) as [w|] eqn:Ew; simpl; auto.
  eapply HS; eauto. now apply get_in.
Qed.

Lemma applySplit_strangersNaN payer sp st st' :
  applySplit payer sp st = Ok st' ->
  strangersNaN ids (ledger st) -> strangersNaN ids (ledger st').
Proof.
  unfold applySplit. destruct (String.eqb (userId sp) payer || paid sp).
  { intros H. inversion H. now subst. }
  destruct (getCell (ledger st) (userId sp) payer) as [cur|] eqn:Ec; simpl;
    [|discriminate].
  destruct (setCell (ledger st) (userId sp) payer (add cur (Num (amount sp))))
    as [L'|] eqn:E; simpl; [|discriminate].
  intros H HS. inversion H. subst st'. simpl.
  apply (setCell_strangersNaN _ _ _ _ _ E); auto.
  intros Hp. now rewrite (stranger_read_NaN _ _ _ _ HS Ec Hp).
Qed.

Lemma applyExpenses_strangersNaN es st st' :
  applyExpenses es st = Ok st' ->
  strangersNaN ids (ledger st) -> strangersNaN ids (ledger st').
Proof.
  intros E H. revert E.
  apply (forEach_preserve (fun s => strangersNaN ids (ledger s))); auto.
  intros e s s' _ Hs Ee. revert Ee.
  apply (forEach_preserve (fun s => strangersNaN ids (ledger s))); auto.
  intros sp s0 s1 _ H0 E0. eapply applySplit_strangersNaN; eauto.
Qed.

Lemma applySettlements_strangersNaN ss st st' :
  applySettlements ss st = Ok st' ->
  strangersNaN ids (ledger st) -> strangersNaN ids (ledger st').
Proof.
  intros E H. revert E.
  apply (forEach_preserve (fun s => strangersNaN ids (ledger s))); auto.
  intros s s0 s1 _ HS. unfold applySettlement.
  destruct (getCell (ledger s0) (stl_paidByUserId s) (stl_receivedByUserId s))
    as [cur|] eqn:Ec; simpl; [|discriminate].
  destruct (setCell (ledger s0) (stl_paidByUserId s) (stl_receivedByUserId s)
              (sub cur (Num (stl_amount s)))) as [L'|] eqn:E;
    simpl; [|discriminate].
  intros Hs1. inversion Hs1. subst s1. simpl.
  apply (setCell_strangersNaN _ _ _ _ _ E); auto.
  intros Hp. now rewrite (stranger_read_NaN _ _ _ _ HS Ec Hp).
Qed.

Lemma netPair_strangersNaN a b st st' :
  In a ids -> In b ids -> netPair a b st = Ok st' ->
  strangersNaN ids (ledger st) -> strangersNaN ids (ledger st').
Proof.
  intros Ha Hb. unfold netPair. destruct (geb a b).
  { intros H. inversion H. now subst. }
  destruct (getCell (ledger st) a b) as [x|]; simpl; [|discriminate].
  destruct (getCell (ledger st) b a) as [y|]; simpl; [|discriminate].
  destruct (gt0 (sub x y)); [|destruct (lt0 (sub x y))]; intros H HS;
    match type of H with
    | bind (setCell ?L0 ?p ?q ?v) _ = _ =>
        destruct (setCell L0 p q v) as [L1|] eqn:E1; simpl in H;
        [|discriminate]
    end;
    match type of H with
    | bind (setCell ?L0 ?p ?q ?v) _ = _ =>
        destruct (setCell L0 p q v) as [L2|] eqn:E2; simpl in H;
        [|discriminate]
    end;
    inversion H; subst st'; simpl;
    (apply (setCell_strangersNaN _ _ _ _ _ E2); [tauto|]);
    (apply (setCell_strangersNaN _ _ _ _ _ E1); [tauto|exact HS]).
Qed.

Lemma netLedger_strangersNaN st st' :
  netLedger ids st = Ok st' ->
  strangersNaN ids (ledger st) -> strangersNaN ids (ledger st').
Proof.
  intros E H. revert E.
  apply (forEach_preserve (fun s => strangersNaN ids (ledger s))); auto.
  intros a s s' Ha Hs Ea. revert Ea.
  apply (forEach_preserve (fun s => strangersNaN ids (ledger s))); auto.
  intros b s0 s1 Hb H0 E0. exact (netPair_strangersNaN a b s0 s1 Ha Hb E0 H0).
Qed.

Lemma pipeline_strangersNaN es ss st st' :
  preNetting ids es ss = Ok st -> netLedger ids st = Ok st' ->
  strangersNaN ids (ledger st').
Proof.
  unfold preNetting, initState. intros E E'.
  destruct (initLedger ids) as [L0|] eqn:E0; simpl in E; [|discriminate].
  destruct (applyExpenses es (mkState (initTotals ids) L0)) as [s1|] eqn:E1;
    simpl in E; [|discriminate].
  apply (netLedger_strangersNaN _ _ E').
  apply (applySettlements_strangersNaN _ _ _ E).
  apply (applyExpenses_strangersNaN _ _ _ E1).
  simpl. apply colsWithin_strangersNaN. now apply initLedger_cols.
Qed.

End ListedNames.

Lemma NoDup_keys_filter {V : Type} (p : string * V -> bool) (row : obj V) :
  NoDup (map fst row) -> NoDup (map fst (filter p row)).
Proof.
  induction row as [|[k v] row IH]; simpl; auto.
  intros H. inversion H as [|? ? Hk Hn]. subst.
  destruct (p (k, v)); simpl; auto.
  constructor; auto.
  intros Hin. apply Hk. apply in_map_iff in Hin.
  destruct Hin as (x & Ex & Hx). apply filter_In in Hx.
  apply in_map_iff. exists x. tauto.
Qed.

Lemma keys_owedByOf ids L m :
  map fst (owedByOf ids L m) =
  filter (fun other => gt0 (toNumber (cell L other m))) ids.
Proof.
  unfold owedByOf. rewrite map_map. simpl. apply map_id.
Qed.

(** The two lists name other members only.  Whenever the computation
    returns, whatever the records mention, every name in a member's [owes]
    or [owedBy] is the id of a roster member other than that member; no
    name occurs twice in [owes], and none occurs twice in [owedBy] when the
    roster lists each member once. *)
Theorem lists_name_other_members (memberDetails : list MemberDetail)
  (expenses : list Expense) (settlements : list Settlement)
  (balances : list Balance) :
  computeBalances memberDetails expenses settlements = Ok balances ->
  forall ba, In ba balances ->
    (forall k v, In (k, v) (owes ba) \/ In (k, v) (owedBy ba) ->
       In k (map id memberDetails) /\ k <> id (member ba)) /\
    NoDup (map fst (owes ba)) /\
    (NoDup (map id memberDetails) -> NoDup (map fst (owedBy ba))).
Proof.
  unfold computeBalances. intros H ba Hba.
  destruct (preNetting _ expenses settlements) as [st|] eqn:E;
    simpl in H; [|discriminate].
  destruct (netLedger _ st) as [st'|] eqn:E'; simpl in H; [|discriminate].
  pose proof (pipeline_rowsNoDup _ _ _ _ _ E E') as HN.
  pose proof (pipeline_diagNaN _ _ _ _ _ E E') as HD.
  pose proof (pipeline_strangersNaN _ _ _ _ _ E E') as HS.
  destruct (shapeBalances_lists _ _ _ _ H Hba)
    as (_ & _ & row & Erow & Eowes & Eowed).
  rewrite Eowes, Eowed. split; [|split].
  - intros k v [Hin|Hin].
    + apply filter_In in Hin. destruct Hin as (Hin & Hgt). simpl in Hgt.
      split.
      * destruct (in_dec string_dec k (map id memberDetails)) as [|Hk]; auto.
        rewrite (HS _ _ _ _ Erow Hin Hk) in Hgt. discriminate.
      * intros ->. rewrite (HD _ _ _ Erow Hin) in Hgt. discriminate.
    + apply in_owedByOf in Hin. destruct Hin as (Hk & Ev & Hgt).
      split; [exact Hk|]. intros ->. subst v.
      unfold cell in Hgt. rewrite Erow in Hgt.
      destruct (get row (id (member ba))) as [w|] eqn:Ew;
        simpl in Hgt; [|discriminate].
      apply get_in in Ew. rewrite (HD _ _ _ Erow Ew) in Hgt. discriminate.
  - apply NoDup_keys_filter. exact (HN _ _ Erow).
  - intros Hnd. rewrite keys_owedByOf. now apply NoDup_filter.
Qed.

Lemma lists_name_other_members_witness :
  computeBalances [md "A"; md "B"]
    [mkExpense "g" "A" [mkSplit "B" 10 false]]
    [mkSettlement "g" "B" "X" 5; mkSettlement "g" "A" "A" 3] =
  Ok [mkBalance (md "A") (Some (Num 10)) [] [("B"%string, Num 10)];
      mkBalance (md "B") (Some (Num (-5))) [("A"%string, Num 10)] []] /\
  forall ba,
    In ba [mkBalance (md "A") (Some (Num 10)) [] [("B"%string, Num 10)];
           mkBalance (md "B") (Some (Num (-5))) [("A"%string, Num 10)] []] ->
    (forall k v, In (k, v) (owes ba) \/ In (k, v) (owedBy ba) ->
       In k (map id [md "A"; md "B"]) /\ k <> id (member ba)) /\
    NoDup (map fst (owes ba)) /\
    (NoDup (map id [md "A"; md "B"]) -> NoDup (map fst (owedBy ba))).
Proof.
  split; [vm_compute; reflexivity|].
  apply (lists_name_other_members [md "A"; md "B"]
           [mkExpense "g" "A" [mkSplit "B" 10 false]]
           [mkSettlement "g" "B" "X" 5; mkSettlement "g" "A" "A" 3]).
  vm_compute. reflexivity.
Defined.

(* ================================================================== *)
(** ** Names, images and roles are carried, not read *)

Lemma shapeBalance_withMember ids st m m' :
  id m' = id m ->
  shapeBalance ids st m' =
  match shapeBalance ids st m with
  | Ok b => Ok (withMember m' b)
  | Throw e => Throw e
  end.
Proof.
  intros H. unfold shapeBalance. rewrite H.
  destruct (get (ledger st) (id m)) as [row|]; auto.
  destruct (filterM _ ids) as [ds|]; simpl; auto.
  destruct (mapM _ ds) as [ob|]; simpl; auto.
Qed.

Lemma mapM_shapeBalance_relabel ids st mds : forall mds',
  map id mds' = map id mds ->
  mapM (shapeBalance ids st) mds' =
  match mapM (shapeBalance ids st) mds with
  | Ok bs => Ok (relabel mds' bs)
  | Throw e => Throw e
  end.
Proof.
  induction mds as [|m mds IH]; intros [|m' mds'] H; simpl in H;
    try discriminate; auto.
  inversion H as [[Hm Hr]]. simpl.
  rewrite (shapeBalance_withMember ids st m m' Hm), (IH mds' Hr).
  destruct (shapeBalance ids st m) as [b|]; simpl; auto.
  destruct (mapM (shapeBalance ids st) mds) as [bs|]; simpl; auto.
Qed.

(** Names, images and roles of the members play no part in the amounts:
    for two rosters with the same ids in the same order, the computation
    fails alike with the same error or returns alike, balance for balance
    with the same [totalBalance], [owes] and [owedBy], each carrying the
    record of its own roster. *)
Theorem member_fields_are_carried_only (memberDetails memberDetails' :
  list MemberDetail) (expenses : list Expense) (settlements : list Settlement) :
  map id memberDetails' = map id memberDetails ->
  computeBalances memberDetails' expenses settlements =
  match computeBalances memberDetails expenses settlements with
  | Ok balances => Ok (relabel memberDetails' balances)
  | Throw e => Throw e
  end.
Proof.
  intros H. unfold computeBalances, shapeBalances. rewrite H.
  destruct (preNetting _ expenses settlements) as [st|]; simpl; auto.
  destruct (netLedger _ st) as [st'|]; simpl; auto.
  now apply mapM_shapeBalance_relabel.
Qed.

Lemma member_fields_are_carried_only_witness :
  computeBalances [mkMemberDetail "A" "Ann" "a.png" "admin";
                   mkMemberDetail "B" "Bob" "" "member"]
    [mkExpense "g" "A" [mkSplit "B" 10 false]] [] =
  Ok [mkBalance (mkMemberDetail "A" "Ann" "a.png" "admin")
        (Some (Num 10)) [] [("B"%string, Num 10)];
      mkBalance (mkMemberDetail "B" "Bob" "" "member")
        (Some (Num (-10))) [("A"%string, Num 10)] []].
Proof.
  rewrite (member_fields_are_carried_only [md "A"; md "B"]
             [mkMemberDetail "A" "Ann" "a.png" "admin";
              mkMemberDetail "B" "Bob" "" "member"]
             [mkExpense "g" "A" [mkSplit "B" 10 false]] [] eq_refl).
  vm_compute. reflexivity.
Defined.

(* ================================================================== *)
(** ** Only net positions matter *)

Section NetPositions.

Variable ids : list string.

(** After netting, two states reached on valid inputs that record the same
    net position for each pair of members and the same net totals agree on
    the net totals and off the diagonal. *)
Lemma same_net_sim es ss es' ss' st st' st1 st1' :
  validInput ids es ss -> validInput ids es' ss' ->
  preNetting ids es ss = Ok st -> preNetting ids es' ss' = Ok st' ->
  netLedger ids st = Ok st1 -> netLedger ids st' = Ok st1' ->
  (forall a b, In a ids -> In b ids -> a <> b ->
     (debt es a b - repaid ss a b) - (debt es b a - repaid ss b a) =
     (debt es' a b - repaid ss' a b) - (debt es' b a - repaid ss' b a)) ->
  (forall a, In a ids ->
     netOfExpenses es a + netOfSettlements ss a =
     netOfExpenses es' a + netOfSettlements ss' a) ->
  sim st1 st1'.
Proof.
  intros Hv Hv' E E' N N' Hd Hn.
  destruct (preNetting_value ids es ss Hv) as (s1 & E1 & (_ & HN1 & _) & C1 & T1).
  rewrite E in E1. inversion E1. subst s1. clear E1.
  destruct (preNetting_value ids es' ss' Hv')
    as (s2 & E2 & (_ & HN2 & _) & C2 & T2).
  rewrite E' in E2. inversion E2. subst s2. clear E2.
  destruct (netLedger_numeric_max ids st HN1) as (s1 & E1 & HT1 & _ & M1).
  rewrite N in E1. inversion E1. subst s1. clear E1.
  destruct (netLedger_numeric_max ids st' HN2) as (s2 & E2 & HT2 & _ & M2).
  rewrite N' in E2. inversion E2. subst s2. clear E2.
  destruct (preNetting_frame ids es ss st Hv E) as (st0 & E0 & F).
  destruct (preNetting_frame ids es' ss' st' Hv' E') as (st0' & E0' & F').
  rewrite E0 in E0'. inversion E0'. subst st0'. clear E0'.
  destruct (netLedger_frame ids st0 st st1 HN1 N F) as (F1 & F2).
  destruct (netLedger_frame ids st0 st' st1' HN2 N' F') as (F1' & F2').
  unfold initState in E0.
  destruct (initLedger_ok ids) as (L0 & EL & _ & _ & _ & HW0).
  pose proof (initLedger_cols ids L0 EL) as HC0.
  rewrite EL in E0. simpl in E0. inversion E0. subst st0. simpl in *.
  clear E0.
  destruct (initTotals_keys ids) as (HndT & HsubT).
  split.
  - apply obj_ext.
    + now rewrite F1, F1'.
    + now rewrite F1.
    + intros k Hk. rewrite F1 in Hk. apply HsubT in Hk.
      rewrite HT1, HT2, (T1 k Hk), (T2 k Hk). now rewrite (Hn k Hk).
  - assert (Hout : NoDup (map fst (ledger st1))).
    { rewrite <- keys_strip, <- keys_skeleton, F2, keys_skeleton, keys_strip.
      apply (inv_initLedger (fun L => NoDup (map fst L))) with (4 := EL).
      - constructor.
      - intros L a HL. now apply NoDup_keys_set.
      - intros L a b v L' HL HS. unfold setCell in HS.
        destruct (get L a); [|discriminate]. inversion HS.
        now apply NoDup_keys_set. }
    pose proof (pipeline_rowsNoDup _ _ _ _ _ E N) as Hrows.
    apply ledger_ext.
    + now rewrite F2, F2'.
    + now rewrite keys_strip.
    + intros a row Hrow. rewrite get_strip in Hrow.
      destruct (get (ledger st1) a) as [r|] eqn:Er; [|discriminate].
      inversion Hrow. rewrite keys_offdiag. apply NoDup_filter.
      eapply Hrows; eauto.
    + intros a row row' b Hrow Hrow' Hb.
      assert (Ha : In a ids).
      { apply HW0. apply keys_in_get.
        rewrite <- keys_strip, <- keys_skeleton, <- F2, keys_skeleton.
        apply keys_in_get. congruence. }
      assert (Hb' : In b ids /\ b <> a).
      { pose proof (get_skeleton (strip (ledger st1)) a) as G.
        rewrite F2, get_skeleton, Hrow, get_strip in G.
        destruct (get L0 a) as [r0|] eqn:Er0; [|discriminate].
        simpl in G. inversion G as [Hk]. rewrite <- Hk in Hb.
        rewrite keys_offdiag in Hb. apply filter_In in Hb.
        destruct Hb as (Hb & Hne). split.
        - eapply HC0; eauto.
        - intros ->. rewrite String.eqb_refl in Hne. discriminate. }
      destruct Hb' as (Hb' & Hne).
      rewrite get_strip in Hrow, Hrow'.
      destruct (get (ledger st1) a) as [r|] eqn:Er; [|discriminate].
      destruct (get (ledger st1') a) as [r'|] eqn:Er'; [|discriminate].
      inversion Hrow. inversion Hrow'. rewrite !get_offdiag.
      apply String.eqb_neq in Hne. rewrite Hne.
      apply String.eqb_neq in Hne.
      assert (Hab : a <> b) by congruence.
      pose proof (M1 a b _ _ Ha Hb' Hab (C1 a b Ha Hb' Hab)
                    (C1 b a Hb' Ha Hne)) as X1.
      pose proof (M2 a b _ _ Ha Hb' Hab (C2 a b Ha Hb' Hab)
                    (C2 b a Hb' Ha Hne)) as X2.
      unfold cell in X1, X2. rewrite Er in X1. rewrite Er' in X2.
      rewrite X1, X2. now rewrite (Hd a b Ha Hb' Hab).
Qed.

(** On a roster listing each member once, the net total of a member is
    the sum of the member's net positions against the others. *)
Lemma net_total_of_positions es ss a :
  NoDup ids -> validInput ids es ss ->
  netOfExpenses es a + netOfSettlements ss a =
  sumOver (fun b => (debt es b a - repaid ss b a) -
                    (debt es a b - repaid ss a b)) ids.
Proof.
  intros Hnd (He & Hs).
  rewrite <- (expenses_swap ids Hnd es a He).
  rewrite <- (settlements_swap ids Hnd ss a Hs).
  rewrite <- sumOver_add. apply sumOver_ext. intros; lia.
Qed.

End NetPositions.

(** Under exact arithmetic.  Only net positions matter.  Over a roster
    listing each member once, two valid inputs that record the same net
    position for every pair of distinct members (what the first owes the
    second, less what the second owes the first, settlements deducted) give
    the same balances, list for list. *)
Lemma exact_balances_depend_on_net_positions (memberDetails : list MemberDetail)
  (expenses expenses' : list Expense)
  (settlements settlements' : list Settlement) :
  NoDup (map id memberDetails) ->
  validInput (map id memberDetails) expenses settlements ->
  validInput (map id memberDetails) expenses' settlements' ->
  (forall a b, In a (map id memberDetails) -> In b (map id memberDetails) ->
     a <> b ->
     (debt expenses a b - repaid settlements a b) -
     (debt expenses b a - repaid settlements b a) =
     (debt expenses' a b - repaid settlements' a b) -
     (debt expenses' b a - repaid settlements' b a)) ->
  computeBalances memberDetails expenses' settlements' =
  computeBalances memberDetails expenses settlements.
Proof.
  intros Hnd Hv Hv' Hd. set (ids := map id memberDetails) in *.
  destruct (computeBalances_ok memberDetails _ _ Hv)
    as (st & st1 & bs & E & _ & E1 & Eb).
  destruct (computeBalances_ok memberDetails _ _ Hv')
    as (st' & st1' & bs' & E' & _ & E1' & Eb').
  fold ids in E, E1, E', E1'.
  assert (Hsim : sim st1 st1').
  { apply (same_net_sim ids expenses settlements expenses' settlements'
             st st'); auto.
    intros a Ha.
    rewrite (net_total_of_positions ids expenses settlements a Hnd Hv).
    rewrite (net_total_of_positions ids expenses' settlements' a Hnd Hv').
    apply sumOver_ext. intros b Hb.
    destruct (string_dec a b) as [->|Hab]; [lia|].
    pose proof (Hd a b Ha Hb Hab). lia. }
  pose proof (pipeline_diagNaN _ _ _ _ _ E E1) as HD.
  pose proof (pipeline_diagNaN _ _ _ _ _ E' E1') as HD'.
  rewrite Eb. unfold computeBalances in Eb |- *. fold ids in Eb |- *.
  rewrite E in Eb. rewrite E'. simpl in Eb |- *.
  rewrite E1 in Eb. rewrite E1'. simpl in Eb |- *.
  rewrite <- (shapeBalances_sim memberDetails st1 st1' Hsim HD HD').
  exact Eb.
Qed.

(* ================================================================== *)
(** ** When double arithmetic is exact *)

Section Rounding.

Variable j : Z.
Hypothesis j_range : 0 <= j <= 2044.

Lemma roundAbs_exact a :
  0 <= a -> (2 ^ j | a) -> a <= 2 ^ (53 + j) -> Double.roundAbs a = a.
Proof.
  intros Ha Hd Hle. unfold Double.roundAbs.
  destruct (Z.log2 a - 52 <=? 0) eqn:Es; [reflexivity|].
  apply Z.leb_gt in Es. set (s := Z.log2 a - 52) in *.
  assert (Hpos : 0 < a).
  { destruct (Z.eq_dec a 0) as [->|]; [|lia]. simpl in s. lia. }
  assert (Hlog : Z.log2 a <= 53 + j).
  { rewrite <- (Z.log2_pow2 (53 + j)) by lia. now apply Z.log2_le_mono. }
  assert (Hdiv : (2 ^ s | a)).
  { destruct (Z_le_gt_dec s j) as [Hsj|Hsj].
    - apply Z.divide_trans with (2 ^ j); auto.
      exists (2 ^ (j - s)). rewrite <- Z.pow_add_r by lia. f_equal. lia.
    - assert (Hs : s = j + 1) by lia.
      assert (Hl : Z.log2 a = 53 + j) by lia.
      pose proof (Z.log2_spec a Hpos) as (Hlo & _). rewrite Hl in Hlo.
      assert (Ea : a = 2 ^ (53 + j)) by lia.
      rewrite Ea, Hs. exists (2 ^ 52).
      rewrite <- Z.pow_add_r by lia. f_equal. lia. }
  assert (Hs0 : 0 < 2 ^ s) by (apply Z.pow_pos_nonneg; lia).
  assert (Hh : 0 < 2 ^ (s - 1)) by (apply Z.pow_pos_nonneg; lia).
  assert (Hr : a mod 2 ^ s = 0) by (apply Z.mod_divide; auto; lia).
  rewrite Hr.
  replace (2 ^ (s - 1) <? 0) with false by (symmetry; apply Z.ltb_ge; lia).
  replace (0 =? 2 ^ (s - 1)) with false by (symmetry; apply Z.eqb_neq; lia).
  simpl. destruct Hdiv as (q & Eq). rewrite Eq at 1.
  rewrite Z.div_mul by lia. now symmetry.
Qed.

(** A multiple of [2^j] of magnitude at most [2^53] such multiples is a
    double. *)
Lemma round_exact z :
  (2 ^ j | z) -> Z.abs z <= 2 ^ (53 + j) -> Double.round z = Double.Fin z.
Proof.
  intros Hd Hle. unfold Double.round.
  rewrite roundAbs_exact; auto; [|lia|now apply Z.divide_abs_r].
  assert (Hlt : 2 ^ (53 + j) < 2 ^ 2098) by (apply Z.pow_lt_mono_r; lia).
  replace (2 ^ 2098 <=? Z.abs z) with false by (symmetry; apply Z.leb_gt; lia).
  f_equal. rewrite Z.mul_comm. apply Z.abs_sgn.
Qed.

Lemma add_exact c c' x y :
  small j c x -> small j c' y -> c + c' <= 2 ^ (53 + j) ->
  Double.add (dNum x) (dNum y) = dNum (add x y) /\ small j (c + c') (add x y).
Proof.
  destruct x as [a|], y as [b|]; cbn [small dNum add Double.add]; auto.
  intros (Da & Ha) (Db & Hb) Hc.
  assert (Dab : (2 ^ j | a + b)) by now apply Z.divide_add_r.
  split; [|split; [exact Dab | lia]].
  apply round_exact; auto. lia.
Qed.

Lemma sub_exact c c' x y :
  small j c x -> small j c' y -> c + c' <= 2 ^ (53 + j) ->
  Double.sub (dNum x) (dNum y) = dNum (sub x y) /\ small j (c + c') (sub x y).
Proof.
  destruct x as [a|], y as [b|]; cbn [small dNum sub Double.sub]; auto.
  intros (Da & Ha) (Db & Hb) Hc.
  assert (Dab : (2 ^ j | a - b)) by now apply Z.divide_sub_r.
  split; [|split; [exact Dab | lia]].
  apply round_exact; auto. lia.
Qed.

Lemma small_mono c c' x : c <= c' -> small j c x -> small j c' x.
Proof.
  destruct x; cbn [small]; auto. intros H (D & L). split; auto. lia.
Qed.

Lemma small_zero c : 0 <= c -> small j c (Num 0).
Proof. intros H. cbn [small]. split; [apply Z.divide_0_r | lia]. Qed.

Lemma small_neg c x : small j c x -> small j c (neg x).
Proof.
  destruct x as [a|]; cbn [small neg]; auto. intros (D & L). split.
  - now apply Z.divide_opp_r.
  - lia.
Qed.

End Rounding.

Lemma gt0_dNum x : Double.gt0 (dNum x) = gt0 x.
Proof. now destruct x. Qed.

Lemma lt0_dNum x : Double.lt0 (dNum x) = lt0 x.
Proof. now destruct x. Qed.

Lemma neg_dNum x : Double.neg (dNum x) = dNum (neg x).
Proof. now destruct x. Qed.

Lemma toNumber_dNum v :
  Double.toNumber (option_map dNum v) = dNum (toNumber v).
Proof. now destruct v. Qed.

(* ================================================================== *)
(** ** The exact steps and the steps on doubles, side by side *)

Section ValueMaps.

Context {V W : Type}.
Variable f : V -> W.

Lemma get_mapValues (o : obj V) k :
  get (mapValues f o) k = option_map f (get o k).
Proof.
  induction o as [|[k0 v0] o IH]; simpl; auto.
  destruct (String.eqb k k0); auto.
Qed.

Lemma set_mapValues (o : obj V) k v :
  set (mapValues f o) k (f v) = mapValues f (set o k v).
Proof.
  induction o as [|[k0 v0] o IH]; simpl; auto.
  destruct (String.eqb k k0); simpl; auto.
  f_equal. exact IH.
Qed.

End ValueMaps.

Section SideBySide.

Context {A A' S S' : Type}.
Variable d : S -> S'.
Variable da : A -> A'.

(** Two loops whose bodies agree on every state that meets an invariant
    agree, and keep the invariant. *)
Lemma forEach_transfer (I : S -> Prop) (l : list A)
  (g : A -> S -> result S) (g' : A' -> S' -> result S') :
  (forall x s, In x l -> I s ->
     g' (da x) (d s) = dResult d (g x s) /\
     forall s', g x s = Ok s' -> I s') ->
  forall s, I s ->
    forEach (map da l) g' (d s) = dResult d (forEach l g s) /\
    forall s', forEach l g s = Ok s' -> I s'.
Proof.
  induction l as [|x l IH]; intros Hstep s Hs; simpl.
  - split; auto. intros s' E. inversion E. now subst.
  - destruct (Hstep x s (or_introl eq_refl) Hs) as (E1 & I1).
    rewrite E1. destruct (g x s) as [s1|e]; simpl.
    + apply IH; [intros y s0 Hy; apply Hstep; now right | now apply I1].
    + split; [reflexivity | discriminate].
Qed.

End SideBySide.

Lemma dResult_bind {A B A' B' : Type} (fa : A -> A') (fb : B -> B')
  (r : result A) (k : A -> result B) (k' : A' -> result B') :
  (forall a, r = Ok a -> k' (fa a) = dResult fb (k a)) ->
  bind (dResult fa r) k' = dResult fb (bind r k).
Proof.
  destruct r as [a|e]; simpl; auto.
Qed.

Section ObjectsSideBySide.

Lemma get_dObj o k : get (dObj o) k = option_map dNum (get o k).
Proof. apply get_mapValues. Qed.

Lemma set_dObj o k v : set (dObj o) k (dNum v) = dObj (set o k v).
Proof. apply (set_mapValues dNum). Qed.

Lemma get_dLedger L a : get (dLedger L) a = option_map dObj (get L a).
Proof. apply get_mapValues. Qed.

Lemma set_dLedger L a row :
  set (dLedger L) a (dObj row) = dLedger (set L a row).
Proof. apply (set_mapValues dObj). Qed.

Lemma getCell_double L a b :
  Double.getCell (dLedger L) a b = dResult dNum (getCell L a b).
Proof.
  unfold Double.getCell, getCell. rewrite get_dLedger.
  destruct (get L a) as [row|]; simpl; auto.
  now rewrite get_dObj, toNumber_dNum.
Qed.

Lemma setCell_double L a b v :
  Double.setCell (dLedger L) a b (dNum v) = dResult dLedger (setCell L a b v).
Proof.
  unfold Double.setCell, setCell. rewrite get_dLedger.
  destruct (get L a) as [row|]; simpl; auto.
  now rewrite set_dObj, set_dLedger.
Qed.

Lemma initTotals_double ids : Double.initTotals ids = dObj (initTotals ids).
Proof.
  unfold Double.initTotals, initTotals, fromEntries.
  change (@nil (string * Double.number)) with (dObj []).
  generalize (@nil (string * number)) as o.
  induction ids as [|i ids IH]; intros o; simpl; auto.
  change (Double.Fin 0) with (dNum (Num 0)). rewrite set_dObj. apply IH.
Qed.

Lemma initLedger_double ids :
  Double.initLedger ids = dResult dLedger (initLedger ids).
Proof.
  unfold Double.initLedger, initLedger.
  rewrite <- (map_id ids) at 1.
  refine (proj1 (forEach_transfer dLedger (fun x => x) (fun _ => True) ids
                   _ _ _ [] I)).
  intros a L _ _. split; auto. cbv zeta.
  change (set (dLedger L) a []) with (set (dLedger L) a (dObj [])).
  rewrite set_dLedger. rewrite <- (map_id ids) at 1.
  refine (proj1 (forEach_transfer dLedger (fun x => x) (fun _ => True) ids
                   _ _ _ _ I)).
  intros b L2 _ _. split; auto.
  destruct (negb (String.eqb a b)); auto.
  change (Double.Fin 0) with (dNum (Num 0)). apply setCell_double.
Qed.

Lemma initState_double ids :
  Double.initState ids = dResult dState (initState ids).
Proof.
  unfold Double.initState, initState. rewrite initLedger_double.
  destruct (initLedger ids) as [L|]; simpl; auto.
  now rewrite initTotals_double.
Qed.

End ObjectsSideBySide.

Section StepsSideBySide.

Variable j : Z.
Hypothesis j_range : 0 <= j <= 2044.

Local Opaque Z.pow Z.add Z.abs Z.sub.

Lemma pow_52_53 : 2 ^ (53 + j) = 2 * 2 ^ (52 + j).
Proof.
  replace (53 + j) with (Z.succ (52 + j)) by lia. apply Z.pow_succ_r. lia.
Qed.

Lemma pow_52_pos : 0 < 2 ^ (52 + j).
Proof. apply Z.pow_pos_nonneg; lia. Qed.

Lemma smallObj_set c (o : obj number) k v :
  smallObj j c o -> small j c v -> smallObj j c (set o k v).
Proof.
  intros Ho Hv k' v' Hin. apply in_set in Hin.
  destruct Hin as [[-> ->]|Hin]; auto. now apply (Ho k').
Qed.

Lemma smallObj_read c (o : obj number) k :
  smallObj j c o -> small j c (toNumber (get o k)).
Proof.
  intros Ho. destruct (get o k) as [v|] eqn:E; [|exact I].
  apply (Ho k). now apply get_in.
Qed.

Lemma smallObj_mono c c' (o : obj number) :
  c <= c' -> smallObj j c o -> smallObj j c' o.
Proof.
  intros Hc Ho k v Hin. apply (small_mono j j_range c c'); auto.
  now apply (Ho k).
Qed.

Lemma smallState_mono c c' st :
  c <= c' -> smallState j c st -> smallState j c' st.
Proof.
  intros Hc (HT & HL). split.
  - now apply (smallObj_mono c c').
  - intros a row Hin. apply (smallObj_mono c c'); auto. now apply (HL a).
Qed.

Lemma small_amount amt : (2 ^ j | amt) -> small j (Z.abs amt) (Num amt).
Proof. intros H. split; [exact H | lia]. Qed.

(** [totals[p] += amt; totals[r] -= amt], on both sides. *)
Lemma totals_side_by_side c T p r amt :
  smallObj j c T -> (2 ^ j | amt) -> 0 <= c ->
  c + Z.abs amt <= 2 ^ (52 + j) ->
  Double.subTotal (Double.addTotal (dObj T) p (Double.Fin amt)) r
    (Double.Fin amt) = dObj (subTotal (addTotal T p amt) r amt) /\
  smallObj j (c + Z.abs amt) (subTotal (addTotal T p amt) r amt).
Proof.
  intros HT Hd Hc Hb.
  pose proof pow_52_53 as P. pose proof pow_52_pos as P0.
  pose proof (small_amount amt Hd) as Ha.
  pose proof (smallObj_read c T p HT) as Hx.
  destruct (add_exact j j_range c (Z.abs amt) _ _ Hx Ha) as (E1 & S1);
    [lia|].
  unfold Double.addTotal, addTotal.
  rewrite get_dObj, toNumber_dNum.
  change (Double.Fin amt) with (dNum (Num amt)). rewrite E1, set_dObj.
  set (T1 := set T p (add (toNumber (get T p)) (Num amt))).
  assert (HT1 : smallObj j (c + Z.abs amt) T1).
  { apply smallObj_set; auto. apply (smallObj_mono c); auto. lia. }
  pose proof (smallObj_read _ T1 r HT1) as Hy.
  destruct (sub_exact j j_range (c + Z.abs amt) (Z.abs amt) _ _ Hy Ha)
    as (E2 & _); [lia|].
  unfold Double.subTotal, subTotal.
  rewrite get_dObj, toNumber_dNum, E2, set_dObj. split; [reflexivity|].
  apply smallObj_set; auto.
  unfold T1. rewrite get_set. destruct (String.eqb r p).
  - cbn [toNumber]. destruct (toNumber (get T p)) as [z|]; cbn [add sub small];
      auto.
    destruct Hx as (Dz & Lz).
    replace (z + amt - amt) with z by lia. split; auto. lia.
  - pose proof (smallObj_read c T r HT) as Hr.
    destruct (sub_exact j j_range c (Z.abs amt) _ _ Hr Ha) as (_ & S2);
      [lia | exact S2].
Qed.

Lemma getCell_small c L a b cur :
  smallRows j c L -> getCell L a b = Ok cur -> small j c cur.
Proof.
  intros HL. unfold getCell. destruct (get L a) as [row|] eqn:E;
    [|discriminate].
  intros H. inversion H. apply smallObj_read. apply (HL a). now apply get_in.
Qed.

Lemma setCell_small c L a b v L' :
  smallRows j c L -> small j c v -> setCell L a b v = Ok L' -> smallRows j c L'.
Proof.
  intros HL Hv. unfold setCell. destruct (get L a) as [row|] eqn:E;
    [|discriminate].
  intros H. inversion H. subst L'. intros a' row' Hin.
  apply in_set in Hin. destruct Hin as [[-> ->]|Hin].
  - apply smallObj_set; auto. apply (HL a). now apply get_in.
  - now apply (HL a').
Qed.

Lemma smallRows_mono c c' L : c <= c' -> smallRows j c L -> smallRows j c' L.
Proof.
  intros Hc HL a row Hin. apply (smallObj_mono c c'); auto. now apply (HL a).
Qed.

Lemma applySplit_side_by_side c payer sp st :
  smallState j c st -> (2 ^ j | amount sp) -> 0 <= c ->
  c + Z.abs (amount sp) <= 2 ^ (52 + j) ->
  Double.applySplit payer (dSplit sp) (dState st) =
    dResult dState (applySplit payer sp st) /\
  forall st', applySplit payer sp st = Ok st' ->
    smallState j (c + Z.abs (amount sp)) st'.
Proof.
  intros (HT & HL) Hd Hc Hb.
  pose proof pow_52_53 as P. pose proof pow_52_pos as P0.
  unfold Double.applySplit, applySplit.
  cbn [dSplit Double.userId Double.paid Double.amount].
  destruct (String.eqb (userId sp) payer || paid sp).
  { split; [reflexivity|]. intros st' E. inversion E. subst st'.
    apply (smallState_mono c); [lia | now split]. }
  cbv zeta. cbn [dState Double.totals Double.ledger].
  destruct (totals_side_by_side c (totals st) payer (userId sp) (amount sp)
              HT Hd Hc Hb) as (ET & ST).
  rewrite ET, getCell_double.
  destruct (getCell (ledger st) (userId sp) payer) as [cur|] eqn:Ec;
    cbn [dResult bind]; [|split; [reflexivity | discriminate]].
  pose proof (getCell_small c _ _ _ _ HL Ec) as Hcur.
  destruct (add_exact j j_range c (Z.abs (amount sp)) cur (Num (amount sp))
              Hcur (small_amount _ Hd)) as (E1 & S1); [lia|].
  change (Double.Fin (amount sp)) with (dNum (Num (amount sp))).
  rewrite E1, setCell_double.
  destruct (setCell (ledger st) (userId sp) payer (add cur (Num (amount sp))))
    as [L'|] eqn:EL; cbn [dResult bind]; [|split; [reflexivity | discriminate]].
  split; [reflexivity|]. intros st' E. inversion E. subst st'.
  split; [exact ST|]. cbn [ledger].
  assert (HL' : smallRows j (c + Z.abs (amount sp)) (ledger st))
    by (apply (smallRows_mono c); [lia | exact HL]).
  exact (setCell_small _ _ _ _ _ _ HL' S1 EL).
Qed.

Lemma applySettlement_side_by_side c s st :
  smallState j c st -> (2 ^ j | stl_amount s) -> 0 <= c ->
  c + Z.abs (stl_amount s) <= 2 ^ (52 + j) ->
  Double.applySettlement (dSettlement s) (dState st) =
    dResult dState (applySettlement s st) /\
  forall st', applySettlement s st = Ok st' ->
    smallState j (c + Z.abs (stl_amount s)) st'.
Proof.
  intros (HT & HL) Hd Hc Hb.
  pose proof pow_52_53 as P. pose proof pow_52_pos as P0.
  unfold Double.applySettlement, applySettlement.
  cbn [dSettlement Double.stl_paidByUserId Double.stl_receivedByUserId
       Double.stl_amount].
  cbv zeta. cbn [dState Double.totals Double.ledger].
  destruct (totals_side_by_side c (totals st) (stl_paidByUserId s)
              (stl_receivedByUserId s) (stl_amount s) HT Hd Hc Hb)
    as (ET & ST).
  rewrite ET, getCell_double.
  destruct (getCell (ledger st) (stl_paidByUserId s) (stl_receivedByUserId s))
    as [cur|] eqn:Ec; cbn [dResult bind];
    [|split; [reflexivity | discriminate]].
  pose proof (getCell_small c _ _ _ _ HL Ec) as Hcur.
  destruct (sub_exact j j_range c (Z.abs (stl_amount s)) cur
              (Num (stl_amount s)) Hcur (small_amount _ Hd)) as (E1 & S1);
    [lia|].
  change (Double.Fin (stl_amount s)) with (dNum (Num (stl_amount s))).
  rewrite E1, setCell_double.
  destruct (setCell (ledger st) (stl_paidByUserId s) (stl_receivedByUserId s)
              (sub cur (Num (stl_amount s)))) as [L'|] eqn:EL;
    cbn [dResult bind]; [|split; [reflexivity | discriminate]].
  split; [reflexivity|]. intros st' E. inversion E. subst st'.
  split; [exact ST|]. cbn [ledger].
  assert (HL' : smallRows j (c + Z.abs (stl_amount s)) (ledger st))
    by (apply (smallRows_mono c); [lia | exact HL]).
  exact (setCell_small _ _ _ _ _ _ HL' S1 EL).
Qed.

Lemma sumOver_cons {A : Type} (w : A -> Z) x l :
  sumOver w (x :: l) = w x + sumOver w l.
Proof. reflexivity. Qed.

Lemma sumOver_app {A : Type} (w : A -> Z) l l' :
  sumOver w (l ++ l') = sumOver w l + sumOver w l'.
Proof.
  induction l as [|x l IH]; [cbn [app]; rewrite (sumOver_cons w) || idtac|].
  - change (sumOver w []) with 0. lia.
  - cbn [app]. rewrite !sumOver_cons, IH. lia.
Qed.

Lemma sumOver_abs_nonneg l : 0 <= sumOver Z.abs l.
Proof.
  induction l as [|x l IH]; [change (sumOver Z.abs []) with 0; lia|].
  rewrite sumOver_cons. lia.
Qed.

(** A run of steps, each with its own cost, within a budget. *)
Lemma budget_side_by_side {R R' : Type} (dr : R -> R') (cost : R -> Z)
  (ok : R -> Prop) (g : R -> State -> result State)
  (g' : R' -> Double.State -> result Double.State) :
  (forall x, 0 <= cost x) ->
  (forall x c st, smallState j c st -> ok x -> 0 <= c ->
     c + cost x <= 2 ^ (52 + j) ->
     g' (dr x) (dState st) = dResult dState (g x st) /\
     forall st', g x st = Ok st' -> smallState j (c + cost x) st') ->
  forall l c st, smallState j c st -> (forall x, In x l -> ok x) -> 0 <= c ->
    c + sumOver cost l <= 2 ^ (52 + j) ->
    forEach (map dr l) g' (dState st) = dResult dState (forEach l g st) /\
    forall st', forEach l g st = Ok st' ->
      smallState j (c + sumOver cost l) st'.
Proof.
  intros Hcost Hstep. induction l as [|x l IH]; intros c st Hst Hd Hc Hb.
  - cbn [map forEach dResult]. split; [reflexivity|].
    intros st' E. inversion E. subst st'.
    change (sumOver cost []) with 0. apply (smallState_mono c); [lia|auto].
  - rewrite sumOver_cons in Hb |- *.
    assert (Hn : 0 <= sumOver cost l).
    { clear -Hcost. induction l as [|y l IHl];
        [change (sumOver cost []) with 0; lia|].
      rewrite sumOver_cons. pose proof (Hcost y). lia. }
    pose proof (Hcost x) as Hx.
    destruct (Hstep x c st Hst (Hd x (or_introl eq_refl)) Hc ltac:(lia))
      as (E1 & S1).
    cbn [map forEach]. rewrite E1.
    destruct (g x st) as [s1|e]; cbn [dResult bind];
      [|split; [reflexivity | discriminate]].
    destruct (IH (c + cost x) s1 (S1 s1 eq_refl)
                (fun y Hy => Hd y (or_intror Hy)) ltac:(lia) ltac:(lia))
      as (E2 & S2).
    split; [exact E2|]. intros st' E.
    replace (c + (cost x + sumOver cost l))
      with (c + cost x + sumOver cost l) by lia.
    now apply S2.
Qed.

Lemma applyExpense_side_by_side c e st :
  smallState j c st ->
  (forall sp, In sp (splits e) -> (2 ^ j | amount sp)) -> 0 <= c ->
  c + sumOver (fun sp => Z.abs (amount sp)) (splits e) <= 2 ^ (52 + j) ->
  Double.applyExpense (dExpense e) (dState st) =
    dResult dState (applyExpense e st) /\
  forall st', applyExpense e st = Ok st' ->
    smallState j (c + sumOver (fun sp => Z.abs (amount sp)) (splits e)) st'.
Proof.
  intros Hst Hd Hc Hb.
  unfold Double.applyExpense, applyExpense.
  cbn [dExpense Double.paidByUserId Double.splits].
  apply (budget_side_by_side dSplit (fun sp => Z.abs (amount sp))
           (fun sp => (2 ^ j | amount sp))); auto.
  - intros; lia.
  - intros sp c0 st0 H0 H1 H2 H3.
    now apply applySplit_side_by_side.
Qed.

Lemma sumOver_abs_flat_map es :
  sumOver Z.abs (expenseAmounts es) =
  sumOver (fun e => sumOver (fun sp => Z.abs (amount sp)) (splits e)) es.
Proof.
  unfold expenseAmounts. induction es as [|e es IH]; [reflexivity|].
  cbn [flat_map]. rewrite sumOver_app, sumOver_cons, IH, sumOver_map.
  reflexivity.
Qed.

Lemma sumOver_nonneg {A : Type} (w : A -> Z) l :
  (forall x, 0 <= w x) -> 0 <= sumOver w l.
Proof.
  intros H. induction l as [|x l IH]; [change (sumOver w []) with 0; lia|].
  rewrite sumOver_cons. pose proof (H x). lia.
Qed.

Lemma initState_small ids st : initState ids = Ok st -> smallState j 0 st.
Proof.
  unfold initState.
  destruct (initLedger ids) as [L|] eqn:EL; cbn [bind]; [|discriminate].
  intros H. inversion H. subst st. clear H. split; cbn [totals ledger].
  - unfold initTotals, fromEntries.
    assert (G : forall l (o : obj number), smallObj j 0 o ->
              smallObj j 0
                (fold_left (fun o kv => set o (fst kv) (snd kv))
                   (map (fun i => (i, Num 0)) l) o)).
    { induction l as [|i l IH]; intros o Ho; cbn [map fold_left]; auto.
      apply IH. cbn [fst snd]. apply smallObj_set; auto.
      apply (small_zero j). lia. }
    apply G. intros k v [].
  - revert EL. unfold initLedger.
    apply (forEach_preserve (smallRows j 0)); [|intros a row []].
    intros a L0 L1 _ H0. cbv zeta.
    apply (forEach_preserve (smallRows j 0)).
    + intros b L2 L3 _ H2. destruct (negb (String.eqb a b)).
      * intros E.
        apply (setCell_small 0 _ _ _ _ _ H2 (small_zero j 0 ltac:(lia)) E).
      * intros E. inversion E. now subst.
    + intros a' row' Hin. apply in_set in Hin.
      destruct Hin as [[-> ->]|Hin]; [intros k v [] | now apply (H0 a')].
Qed.

(** Steps 2 to 4 on amounts that keep the arithmetic exact: the doubles
    hold the exact values. *)
Lemma preNetting_side_by_side ids es ss :
  (forall z, In z (amountsOf es ss) -> (2 ^ j | z)) ->
  sumOver Z.abs (amountsOf es ss) <= 2 ^ (52 + j) ->
  Double.preNetting ids (map dExpense es) (map dSettlement ss) =
    dResult dState (preNetting ids es ss) /\
  forall st, preNetting ids es ss = Ok st -> smallState j (2 ^ (52 + j)) st.
Proof.
  intros Hd Hb. unfold amountsOf in Hb. rewrite sumOver_app in Hb.
  rewrite sumOver_abs_flat_map in Hb.
  unfold settlementAmounts in Hb. rewrite sumOver_map in Hb.
  set (ce := sumOver (fun e => sumOver (fun sp => Z.abs (amount sp)) (splits e))
               es) in *.
  set (cs := sumOver (fun s => Z.abs (stl_amount s)) ss) in *.
  assert (Hce : 0 <= ce).
  { apply sumOver_nonneg. intros e. apply sumOver_nonneg. intros; lia. }
  assert (Hcs : 0 <= cs) by (apply sumOver_nonneg; intros; lia).
  unfold Double.preNetting, preNetting. rewrite initState_double.
  destruct (initState ids) as [s0|] eqn:E0; cbn [dResult bind];
    [|split; [reflexivity | discriminate]].
  pose proof (initState_small ids s0 E0) as S0.
  destruct (budget_side_by_side dExpense
              (fun e => sumOver (fun sp => Z.abs (amount sp)) (splits e))
              (fun e => forall sp, In sp (splits e) -> (2 ^ j | amount sp))
              applyExpense Double.applyExpense
              (fun e => sumOver_nonneg _ _ (fun sp => Z.abs_nonneg _))
              (fun e c st => applyExpense_side_by_side c e st)
              es 0 s0 S0) as (E1 & S1).
  { intros e He sp Hsp. apply Hd. unfold amountsOf, expenseAmounts.
    apply in_or_app. left. apply in_flat_map. exists e. split; auto.
    now apply in_map. }
  { lia. }
  { fold ce. lia. }
  unfold Double.applyExpenses, applyExpenses. rewrite E1.
  destruct (forEach es applyExpense s0) as [s1|] eqn:Es1; cbn [dResult bind];
    [|split; [reflexivity | discriminate]].
  fold ce in S1. pose proof (S1 s1 eq_refl) as Hs1.
  destruct (budget_side_by_side dSettlement
              (fun s => Z.abs (stl_amount s))
              (fun s => (2 ^ j | stl_amount s))
              applySettlement Double.applySettlement
              (fun s => Z.abs_nonneg _)
              (fun s c st => applySettlement_side_by_side c s st)
              ss (0 + ce) s1 Hs1) as (E2 & S2).
  { intros s Hs. apply Hd. unfold amountsOf, settlementAmounts.
    apply in_or_app. right. now apply in_map. }
  { lia. }
  { fold cs. lia. }
  unfold Double.applySettlements, applySettlements.
  split; [exact E2|]. intros st Est. fold cs in S2.
  apply (smallState_mono (0 + ce + cs)); [lia | now apply S2].
Qed.

End StepsSideBySide.

Section NettingSideBySide.

Variable j : Z.
Hypothesis j_range : 0 <= j <= 2044.

Local Opaque Z.pow Z.add Z.abs Z.sub.

Lemma getCell_Num L a b z :
  getCell L a b = Ok (Num z) -> cell L a b = Some (Num z).
Proof.
  unfold getCell, cell. destruct (get L a) as [row|]; [|discriminate].
  destruct (get row b) as [v|]; cbn [toNumber]; [|discriminate].
  intros H. inversion H. reflexivity.
Qed.

Lemma smallPairs_rows c L : smallPairs j c L -> smallRows j c L.
Proof. intros (H & _) a row Hin k v Hk. now apply (H a row k v). Qed.

(** The difference of the two directions of a pair is exact. *)
Lemma diff_exact L a b x y :
  smallPairs j (2 ^ (53 + j)) L ->
  getCell L a b = Ok x -> getCell L b a = Ok y ->
  Double.sub (dNum x) (dNum y) = dNum (sub x y) /\
  small j (2 ^ (53 + j)) (sub x y) /\
  forall z, sub x y = Num z ->
    exists p q, cell L a b = Some (Num p) /\ cell L b a = Some (Num q) /\
                z = p - q.
Proof.
  intros HP Ex Ey. pose proof (smallPairs_rows _ _ HP) as HR.
  pose proof (getCell_small j _ _ _ _ _ HR Ex) as Hx.
  pose proof (getCell_small j _ _ _ _ _ HR Ey) as Hy.
  destruct x as [p|], y as [q|]; cbn [dNum sub Double.sub small];
    try (split; [reflexivity | split; [exact I | discriminate]]).
  pose proof (proj2 HP a b p q (getCell_Num _ _ _ _ Ex)
                (getCell_Num _ _ _ _ Ey)) as Hpq.
  destruct Hx as (Dp & _), Hy as (Dq & _).
  assert (Dpq : (2 ^ j | p - q)) by now apply Z.divide_sub_r.
  split; [|split; [split; [exact Dpq | lia]|]].
  - apply (round_exact j j_range); auto. lia.
  - intros z Hz. inversion Hz. exists p, q.
    repeat split; auto using getCell_Num.
Qed.

(** Writing the netted pair keeps every pair within the bound. *)
Lemma write_pair_small c L a b u v L1 L2 :
  a <> b -> smallPairs j c L -> small j c u -> small j c v ->
  (forall p q, u = Num p -> v = Num q -> Z.abs p + Z.abs q <= c) ->
  setCell L a b u = Ok L1 -> setCell L1 b a v = Ok L2 ->
  smallPairs j c L2.
Proof.
  intros Hab HP Hu Hv Huv E1 E2.
  pose proof (smallPairs_rows _ _ HP) as HR.
  pose proof (setCell_small j _ _ _ _ _ _ HR Hu E1) as HR1.
  pose proof (setCell_small j _ _ _ _ _ _ HR1 Hv E2) as HR2.
  destruct (setCell_inv _ _ _ _ _ E1) as (_ & C1).
  destruct (setCell_inv _ _ _ _ _ E2) as (_ & C2).
  split; [intros a0 row k w Hin Hk; exact (HR2 a0 row Hin k w Hk)|].
  intros c0 d0 x y. rewrite !C2, !C1.
  destruct (String.eqb c0 b) eqn:Ecb, (String.eqb d0 a) eqn:Eda,
           (String.eqb c0 a) eqn:Eca, (String.eqb d0 b) eqn:Edb;
    cbn [andb];
    repeat match goal with
           | H : String.eqb _ _ = true |- _ => apply String.eqb_eq in H
           | H : String.eqb _ _ = false |- _ => apply String.eqb_neq in H
           end; subst; try congruence;
    try (intros Hx Hy; inversion Hx; inversion Hy; subst;
         first [ pose proof (Huv _ _ eq_refl eq_refl); lia
               | exact (proj2 HP _ _ _ _ Hx Hy) ]).
  all: try (intros Hx Hy; exact (proj2 HP _ _ _ _ Hx Hy)).
Qed.

Lemma netPair_side_by_side a b st :
  smallPairs j (2 ^ (53 + j)) (ledger st) ->
  Double.netPair a b (dState st) = dResult dState (netPair a b st) /\
  forall st', netPair a b st = Ok st' ->
    smallPairs j (2 ^ (53 + j)) (ledger st').
Proof.
  intros HP. unfold Double.netPair, netPair.
  destruct (geb a b) eqn:G.
  { split; [reflexivity|]. intros st' E. inversion E. now subst. }
  apply geb_false_ltb in G. pose proof (ltb_neq _ _ G) as Hab.
  assert (H0 : 0 <= 2 ^ (53 + j)) by (apply Z.pow_nonneg; lia).
  cbn [dState Double.ledger Double.totals].
  rewrite getCell_double.
  destruct (getCell (ledger st) a b) as [x|] eqn:Ex; cbn [dResult bind];
    [|split; [reflexivity | discriminate]].
  rewrite getCell_double.
  destruct (getCell (ledger st) b a) as [y|] eqn:Ey; cbn [dResult bind];
    [|split; [reflexivity | discriminate]].
  destruct (diff_exact _ _ _ _ _ HP Ex Ey) as (Ed & Sd & _).
  cbv zeta. rewrite Ed, gt0_dNum, lt0_dNum, neg_dNum.
  change (Double.Fin 0) with (dNum (Num 0)).
  pose proof (small_zero j _ H0) as Sz.
  destruct (gt0 (sub x y)); [|destruct (lt0 (sub x y))];
    rewrite setCell_double;
    match goal with
    | |- context [dResult dLedger (setCell ?L ?p ?q ?v)] =>
        destruct (setCell L p q v) as [L1|] eqn:E1; cbn [dResult bind];
        [|split; [reflexivity | discriminate]]
    end;
    rewrite setCell_double;
    match goal with
    | |- context [dResult dLedger (setCell ?L ?p ?q ?v)] =>
        destruct (setCell L p q v) as [L2|] eqn:E2; cbn [dResult bind];
        [|split; [reflexivity | discriminate]]
    end;
    (split; [reflexivity|]); intros st' E; inversion E; subst st';
    cbn [ledger].
  - refine (write_pair_small _ _ a b _ _ _ _ Hab HP Sd Sz _ E1 E2).
    intros p q Hp Hq. inversion Hq. subst q. rewrite Hp in Sd.
    destruct Sd as (_ & Sd). lia.
  - refine (write_pair_small _ _ b a _ _ _ _ (not_eq_sym Hab) HP
              (small_neg j j_range _ _ Sd) Sz _ E1 E2).
    intros p q Hp Hq. inversion Hq. subst q.
    pose proof (small_neg j j_range _ _ Sd) as Sn. rewrite Hp in Sn.
    destruct Sn as (_ & Sn). lia.
  - refine (write_pair_small _ _ b a _ _ _ _ (not_eq_sym Hab) HP Sz Sz _
              E1 E2).
    intros p q Hp Hq. inversion Hp. inversion Hq. subst. lia.
Qed.

Lemma netLedger_side_by_side ids st :
  smallPairs j (2 ^ (53 + j)) (ledger st) ->
  Double.netLedger ids (dState st) = dResult dState (netLedger ids st).
Proof.
  intros HP. unfold Double.netLedger, netLedger.
  rewrite <- (map_id ids) at 1.
  refine (proj1 (forEach_transfer dState (fun x => x)
                   (fun s => smallPairs j (2 ^ (53 + j)) (ledger s)) ids
                   _ _ _ st HP)).
  intros a s _ Hs. rewrite <- (map_id ids) at 1.
  apply (forEach_transfer dState (fun x => x)
           (fun s => smallPairs j (2 ^ (53 + j)) (ledger s))); auto.
  intros b s0 _ Hs0. now apply netPair_side_by_side.
Qed.

(** After steps 2 to 4 within the budget, every pair is within twice the
    budget. *)
Lemma smallState_pairs st :
  smallState j (2 ^ (52 + j)) st -> smallPairs j (2 ^ (53 + j)) (ledger st).
Proof.
  intros (_ & HR). pose proof (pow_52_53 j j_range) as P.
  pose proof (pow_52_pos j j_range) as P0. split.
  - intros a row k v Hin Hk.
    apply (small_mono j j_range (2 ^ (52 + j))); [lia|].
    exact (HR a row Hin k v Hk).
  - intros a b x y Hx Hy. unfold cell in Hx, Hy.
    destruct (get (ledger st) a) as [ra|] eqn:Ea; [|discriminate].
    destruct (get (ledger st) b) as [rb|] eqn:Eb; [|discriminate].
    pose proof (HR a ra (get_in _ _ _ Ea) b _ (get_in _ _ _ Hx)) as (_ & Sx).
    pose proof (HR b rb (get_in _ _ _ Eb) a _ (get_in _ _ _ Hy)) as (_ & Sy).
    lia.
Qed.

End NettingSideBySide.

Section ShapingSideBySide.

Lemma filter_dObj (row : obj number) :
  filter (fun e => Double.gt0 (snd e)) (dObj row) =
  dObj (filter (fun e => gt0 (snd e)) row).
Proof.
  induction row as [|[k v] row IH]; [reflexivity|].
  cbn [dObj mapValues map filter fst snd]. rewrite gt0_dNum.
  destruct (gt0 v); cbn [map fst snd]; [f_equal|]; exact IH.
Qed.

Lemma shapeBalance_side_by_side ids st m :
  Double.shapeBalance ids (dState st) m =
  dResult dBalance (shapeBalance ids st m).
Proof.
  unfold Double.shapeBalance, shapeBalance.
  cbn [dState Double.totals Double.ledger]. rewrite get_dLedger.
  destruct (get (ledger st) (id m)) as [row|]; cbn [option_map dResult];
    [|reflexivity].
  rewrite (filterM_ext _
             (fun other => v <- getCell (ledger st) other (id m) ;;
                           Ok (gt0 v)) ids).
  2:{ intros other _. rewrite getCell_double.
      destruct (getCell (ledger st) other (id m)); cbn [dResult bind]; auto.
      now rewrite gt0_dNum. }
  destruct (filterM _ ids) as [debtors|]; cbn [bind dResult]; [|reflexivity].
  assert (G : forall l,
    mapM (fun other => v <- Double.getCell (dLedger (ledger st)) other (id m) ;;
                       Ok (other, v)) l =
    dResult dObj
      (mapM (fun other => v <- getCell (ledger st) other (id m) ;;
                          Ok (other, v)) l)).
  { induction l as [|o l IH]; [reflexivity|].
    cbn [mapM]. rewrite getCell_double, IH.
    clear IH.
    destruct (getCell (ledger st) o (id m)); cbn [dResult bind]; auto.
    destruct (mapM _ l); reflexivity. }
  rewrite G. destruct (mapM _ debtors) as [ob|]; cbn [dResult bind];
    [|reflexivity].
  unfold dBalance. cbn [member totalBalance owes owedBy].
  unfold entries. now rewrite filter_dObj, get_dObj.
Qed.

Lemma shapeBalances_side_by_side mds st :
  Double.shapeBalances mds (dState st) =
  dResult (map dBalance) (shapeBalances mds st).
Proof.
  unfold Double.shapeBalances, shapeBalances. cbv zeta.
  generalize (map id mds) as ids. intros ids.
  induction mds as [|m mds IH]; [reflexivity|].
  cbn [mapM]. rewrite shapeBalance_side_by_side, IH. clear IH.
  destruct (shapeBalance ids st m); cbn [dResult bind]; auto.
  destruct (mapM _ mds); reflexivity.
Qed.

End ShapingSideBySide.

(** On amounts that keep the arithmetic exact the handler's doubles are
    the exact values: the computation on doubles fails where the exact one
    fails and returns the same balances where it returns. *)
Lemma computeBalances_side_by_side j mds es ss :
  exactAmounts j es ss ->
  Double.computeBalances mds (map dExpense es) (map dSettlement ss) =
  dResult (map dBalance) (computeBalances mds es ss).
Proof.
  intros (Hj & Hd & Hb).
  unfold Double.computeBalances, computeBalances. cbv zeta.
  destruct (preNetting_side_by_side j Hj (map id mds) es ss Hd Hb)
    as (E1 & S1).
  rewrite E1.
  destruct (preNetting (map id mds) es ss) as [st|]; cbn [dResult bind];
    [|reflexivity].
  rewrite (netLedger_side_by_side j Hj _ st
             (smallState_pairs j Hj st (S1 st eq_refl))).
  destruct (netLedger (map id mds) st) as [st'|]; cbn [dResult bind];
    [|reflexivity].
  apply shapeBalances_side_by_side.
Qed.

(* ================================================================== *)
(** ** Where rounding shows, and where it cannot *)

Section ExactAmounts.

Lemma sumNumbers_NaN l :
  fold_left (fun acc v => add acc (toNumber v)) l NaN = NaN.
Proof. induction l as [|v l IH]; [reflexivity | exact IH]. Qed.

Lemma sumValues_acc l : forall a z,
  fold_left (fun acc v => add acc (toNumber v)) l (Num a) = Num z ->
  Double.sumValues (map (option_map dNum) l) = Some (z - a).
Proof.
  induction l as [|v l IH]; intros a z H.
  - inversion H. cbn [map Double.sumValues]. f_equal. lia.
  - cbn [fold_left] in H. destruct v as [[b|]|]; cbn [toNumber add] in H;
      try (rewrite sumNumbers_NaN in H; discriminate).
    cbn [map option_map dNum Double.sumValues].
    rewrite (IH _ _ H). cbn [option_map]. f_equal. lia.
Qed.

(** Exact values that sum to [z] are doubles whose values sum to [z]. *)
Lemma sumValues_dNum l z :
  sumNumbers l = Num z ->
  Double.sumValues (map (option_map dNum) l) = Some z.
Proof.
  intros H. rewrite (sumValues_acc l 0 z H). f_equal. lia.
Qed.

Lemma totalBalance_dBalance bs :
  map Double.totalBalance (map dBalance bs) =
  map (option_map dNum) (map totalBalance bs).
Proof. rewrite !map_map. reflexivity. Qed.

Lemma exactAmounts_without j es ss1 s ss2 :
  exactAmounts j es (ss1 ++ s :: ss2) -> exactAmounts j es (ss1 ++ ss2).
Proof.
  intros (Hj & Hd & Hb). split; [exact Hj|]. split.
  - intros z Hz. apply Hd. unfold amountsOf, settlementAmounts in *.
    rewrite map_app in *. cbn [map].
    apply in_app_or in Hz. destruct Hz as [Hz|Hz];
      [apply in_or_app; now left|].
    apply in_app_or in Hz. apply in_or_app. right. apply in_or_app.
    destruct Hz; [now left | right; now right].
  - unfold amountsOf, settlementAmounts in *.
    rewrite map_app, !sumOver_app in *. cbn [map] in Hb.
    rewrite sumOver_cons in Hb. lia.
Qed.

Lemma exactAmounts_perm j es es' ss ss' :
  Permutation es es' -> Permutation ss ss' ->
  exactAmounts j es ss -> exactAmounts j es' ss'.
Proof.
  intros Pe Ps (Hj & Hd & Hb).
  assert (P : Permutation (amountsOf es ss) (amountsOf es' ss')).
  { unfold amountsOf, expenseAmounts, settlementAmounts.
    apply Permutation_app.
    - now apply Permutation_flat_map.
    - now apply Permutation_map. }
  split; [exact Hj|]. split.
  - intros z Hz. apply Hd. eapply Permutation_in; [|exact Hz].
    now apply Permutation_sym.
  - now rewrite <- (sumOver_perm _ _ _ P).
Qed.

End ExactAmounts.

(** C1 (conservation), as the doubles allow it.  For expenses and
    settlements that mention roster members only and whose amounts keep
    the arithmetic exact (whole multiples of one power of two, magnitudes
    summing to at most [2^52] of them), steps 2 to 4 on doubles return a
    state whose net totals, summed over the distinct members, give zero;
    the whole computation returns one balance per roster entry whose
    [totalBalance] is that member's net total, so that over a roster
    listing each member once the [totalBalance] fields of the output sum
    to zero. *)
Theorem conservation_when_exact (j : Z) (memberDetails : list MemberDetail)
  (expenses : list Expense) (settlements : list Settlement) :
  validInput (map id memberDetails) expenses settlements ->
  exactAmounts j expenses settlements ->
  exists st balances,
    Double.preNetting (map id memberDetails) (map dExpense expenses)
      (map dSettlement settlements) = Ok st /\
    Double.sumValues (map (get (Double.totals st))
                        (nodup string_dec (map id memberDetails))) = Some 0 /\
    Double.computeBalances memberDetails (map dExpense expenses)
      (map dSettlement settlements) = Ok balances /\
    map Double.totalBalance balances =
      map (get (Double.totals st)) (map id memberDetails) /\
    (NoDup (map id memberDetails) ->
     Double.sumValues (map Double.totalBalance balances) = Some 0).
Proof.
  intros Hv Hx.
  destruct (exact_conservation memberDetails expenses settlements Hv)
    as (st & bs & E & Hsum & Eb & Hmap & Hnd).
  pose proof (computeBalances_side_by_side j memberDetails _ _ Hx) as Tb.
  destruct Hx as (Hj & Hd & Hb).
  destruct (preNetting_side_by_side j Hj (map id memberDetails) _ _ Hd Hb)
    as (Tp & _).
  rewrite E in Tp. rewrite Eb in Tb.
  exists (dState st), (map dBalance bs).
  assert (Hget : forall l, map (get (Double.totals (dState st))) l =
                           map (option_map dNum) (map (get (totals st)) l)).
  { intros l. rewrite map_map. apply map_ext. intros k. apply get_dObj. }
  split; [exact Tp|]. split.
  { rewrite Hget. now apply sumValues_dNum. }
  split; [exact Tb|]. split.
  { rewrite totalBalance_dBalance, Hmap, Hget. reflexivity. }
  intros N. rewrite totalBalance_dBalance. apply sumValues_dNum. now apply Hnd.
Qed.

Lemma conservation_when_exact_witness :
  exists st balances,
    Double.preNetting (map id rounding_roster) (map dExpense whole_expenses)
      (map dSettlement whole_settlements) = Ok st /\
    Double.sumValues (map (get (Double.totals st))
                        (nodup string_dec (map id rounding_roster))) = Some 0 /\
    Double.computeBalances rounding_roster (map dExpense whole_expenses)
      (map dSettlement whole_settlements) = Ok balances /\
    map Double.totalBalance balances =
      map (get (Double.totals st)) (map id rounding_roster) /\
    (NoDup (map id rounding_roster) ->
     Double.sumValues (map Double.totalBalance balances) = Some 0).
Proof.
  apply (conservation_when_exact 1074 rounding_roster whole_expenses
           whole_settlements).
  - split.
    + intros e [<-|[]]. split; simpl; [tauto|].
      intros sp [<-|[<-|[<-|[]]]]; simpl; tauto.
    + intros s [<-|[]]; split; simpl; tauto.
  - split; [lia|]. split.
    + intros z [<-|[<-|[<-|[<-|[]]]]];
        [exists 10 | exists 10 | exists 10 | exists 15]; reflexivity.
    + vm_compute. discriminate.
Defined.

(** The claim fails on doubles: A pays [2^53] for B and [1] for C, all ids
    in the roster; [totals[A]] becomes [2^53 + 1], which rounds to [2^53],
    and the net totals sum to [-1], before netting and in the output. *)
Lemma conservation_fails_by_rounding :
  validInput (map id rounding_roster) rounding_expenses [] /\
  NoDup (map id rounding_roster) /\
  exists st balances,
    Double.preNetting (map id rounding_roster)
      (map dExpense rounding_expenses) [] = Ok st /\
    map (get (Double.totals st)) (map id rounding_roster) =
      [Some (Double.Fin (Double.whole (2 ^ 53)));
       Some (Double.Fin (Double.whole (- 2 ^ 53)));
       Some (Double.Fin (Double.whole (-1)))] /\
    Double.computeBalances rounding_roster (map dExpense rounding_expenses)
      [] = Ok balances /\
    map Double.totalBalance balances =
      map (get (Double.totals st)) (map id rounding_roster) /\
    Double.sumValues (map Double.totalBalance balances)
      = Some (Double.whole (-1)) /\
    Double.sumNumbers (map Double.totalBalance balances)
      = Double.Fin (Double.whole (-1)) /\
    Double.sumValues (map Double.totalBalance balances) <> Some 0.
Proof.
  split; [|split].
  - split.
    + intros e [<-|[]]. split; simpl; [tauto|].
      intros sp [<-|[<-|[]]]; simpl; tauto.
    + intros s [].
  - simpl. repeat constructor; simpl; intuition discriminate.
  - eexists. eexists.
    split; [vm_compute; reflexivity|].
    split; [vm_compute; reflexivity|].
    split; [vm_compute; reflexivity|].
    split; [vm_compute; reflexivity|].
    split; [vm_compute; reflexivity|].
    split; [vm_compute; reflexivity|].
    vm_compute. discriminate.
Qed.

(** The claim fails on doubles: A has paid [1] for B and then settles
    [2^53] with themselves; [totals[A]] goes from [1] to [1 + 2^53], which
    rounds to [2^53], and back to [0].  The two lists are the same. *)
Lemma self_settlement_visible_by_rounding :
  validInput (map id [md "A"; md "B"]) unit_expenses [large_self_settlement]
  /\
  exists balances balances',
    Double.computeBalances [md "A"; md "B"] (map dExpense unit_expenses) []
      = Ok balances /\
    Double.computeBalances [md "A"; md "B"] (map dExpense unit_expenses)
      (map dSettlement [large_self_settlement]) = Ok balances' /\
    map Double.totalBalance balances =
      [Some (Double.Fin (Double.whole 1));
       Some (Double.Fin (Double.whole (-1)))] /\
    map Double.totalBalance balances' =
      [Some (Double.Fin 0); Some (Double.Fin (Double.whole (-1)))] /\
    map Double.owes balances' = map Double.owes balances /\
    map Double.owedBy balances' = map Double.owedBy balances /\
    balances' <> balances.
Proof.
  split.
  - split.
    + intros e [<-|[]]. split; simpl; [tauto|].
      intros sp [<-|[]]; simpl; tauto.
    + intros s [<-|[]]; split; simpl; tauto.
  - eexists. eexists.
    split; [vm_compute; reflexivity|].
    split; [vm_compute; reflexivity|].
    split; [vm_compute; reflexivity|].
    split; [vm_compute; reflexivity|].
    split; [vm_compute; reflexivity|].
    split; [vm_compute; reflexivity|].
    vm_compute. discriminate.
Qed.

(* ================================================================== *)
(** ** The closed forms, the order of the records and the leaks, on doubles *)

Section OnDoubles.

Lemma cell_dLedger L a b :
  Double.cell (dLedger L) a b = option_map dNum (cell L a b).
Proof.
  unfold Double.cell, cell. rewrite get_dLedger.
  destruct (get L a) as [row|]; [apply get_dObj | reflexivity].
Qed.

Lemma dNum_inj x y : dNum x = dNum y -> x = y.
Proof. destruct x, y; simpl; congruence. Qed.

Lemma in_dObj (o : obj number) k v :
  In (k, v) (dObj o) <-> exists v', v = dNum v' /\ In (k, v') o.
Proof.
  unfold dObj, mapValues. rewrite in_map_iff. split.
  - intros ([k' v'] & E & Hin). inversion E. subst. eauto.
  - intros (v' & -> & Hin). exists (k, v'). auto.
Qed.

Lemma in_map_dBalance bs ba :
  In ba (map dBalance bs) -> exists b, ba = dBalance b /\ In b bs.
Proof.
  intros H. apply in_map_iff in H. destruct H as (b & <- & Hb). eauto.
Qed.

Lemma sumAmounts_sumNumbers l :
  sumAmounts l = sumNumbers (map (fun e => Some (snd e)) l).
Proof.
  unfold sumAmounts, sumNumbers. generalize (Num 0).
  induction l as [|e l IH]; intros acc; [reflexivity|].
  cbn [map fold_left toNumber]. apply IH.
Qed.

Lemma amounts_dObj l :
  Double.amounts (dObj l) =
  map (option_map dNum) (map (fun e => Some (snd e)) l).
Proof.
  unfold Double.amounts, dObj, mapValues. rewrite !map_map. reflexivity.
Qed.

End OnDoubles.

(** Steps 3 and 4 on doubles in closed form.  On a valid input whose
    amounts keep the arithmetic exact they return a state in which, for
    two distinct members, [ledger[a][b]] is the sum of the unpaid splits of
    [a] in the expenses paid by [b], less the settlements paid by [a] to
    [b]; and [totals[a]] is what [a] paid for others, less what others paid
    for [a], plus the settlements [a] paid, less the settlements [a]
    received. *)
Theorem steps_3_4_closed_form_when_exact (j : Z) (ids : list string)
  (expenses : list Expense) (settlements : list Settlement) :
  validInput ids expenses settlements ->
  exactAmounts j expenses settlements ->
  exists st,
    Double.preNetting ids (map dExpense expenses)
      (map dSettlement settlements) = Ok st /\
    (forall a b, In a ids -> In b ids -> a <> b ->
       Double.cell (Double.ledger st) a b =
       Some (Double.Fin (debt expenses a b - repaid settlements a b))) /\
    (forall a, In a ids ->
       get (Double.totals st) a =
       Some (Double.Fin (netOfExpenses expenses a +
                         netOfSettlements settlements a))).
Proof.
  intros Hv (Hj & Hd & Hb).
  destruct (exact_steps_3_4_closed_form ids expenses settlements Hv)
    as (st & E & HC & HT).
  destruct (preNetting_side_by_side j Hj ids _ _ Hd Hb) as (Tp & _).
  rewrite E in Tp. exists (dState st). split; [exact Tp|]. split.
  - intros a b Ha Hb' Hab. cbn [dState Double.ledger].
    now rewrite cell_dLedger, (HC a b Ha Hb' Hab).
  - intros a Ha. cbn [dState Double.totals].
    now rewrite get_dObj, (HT a Ha).
Qed.

Lemma steps_3_4_closed_form_when_exact_witness :
  exists st,
    Double.preNetting (map id rounding_roster) (map dExpense whole_expenses)
      (map dSettlement whole_settlements) = Ok st /\
    (forall a b, In a (map id rounding_roster) ->
       In b (map id rounding_roster) -> a <> b ->
       Double.cell (Double.ledger st) a b =
       Some (Double.Fin (debt whole_expenses a b -
                         repaid whole_settlements a b))) /\
    (forall a, In a (map id rounding_roster) ->
       get (Double.totals st) a =
       Some (Double.Fin (netOfExpenses whole_expenses a +
                         netOfSettlements whole_settlements a))).
Proof.
  apply (steps_3_4_closed_form_when_exact 1074 (map id rounding_roster)
           whole_expenses whole_settlements).
  - split.
    + intros e [<-|[]]. split; simpl; [tauto|].
      intros sp [<-|[<-|[<-|[]]]]; simpl; tauto.
    + intros s [<-|[]]; split; simpl; tauto.
  - split; [lia|]. split.
    + intros z [<-|[<-|[<-|[<-|[]]]]];
        [exists 10 | exists 10 | exists 10 | exists 15]; reflexivity.
    + vm_compute. discriminate.
Defined.

(** The output on doubles in closed form.  Write [D a b] for the debt of
    [a] towards [b] recorded by the input: unpaid splits of [a] in expenses
    paid by [b], less settlements paid by [a] to [b].  On a valid input
    whose amounts keep the arithmetic exact the computation returns, and in
    the balance of member [a]: [totalBalance] is the closed-form net total;
    [b] appears in [owes] exactly with the amount [D a b - D b a] when that
    is positive; and [b] appears in [owedBy] exactly with the amount
    [D b a - D a b] when that is positive. *)
Theorem balances_closed_form_when_exact (j : Z)
  (memberDetails : list MemberDetail) (expenses : list Expense)
  (settlements : list Settlement) :
  validInput (map id memberDetails) expenses settlements ->
  exactAmounts j expenses settlements ->
  exists balances,
    Double.computeBalances memberDetails (map dExpense expenses)
      (map dSettlement settlements) = Ok balances /\
    forall ba, In ba balances ->
      let a := id (Double.member ba) in
      let D x y := debt expenses x y - repaid settlements x y in
      Double.totalBalance ba =
        Some (Double.Fin (netOfExpenses expenses a +
                          netOfSettlements settlements a))
      /\
      forall b v, In b (map id memberDetails) ->
        (In (b, v) (Double.owes ba) <->
         v = Double.Fin (D a b - D b a) /\ 0 < D a b - D b a) /\
        (In (b, v) (Double.owedBy ba) <->
         v = Double.Fin (D b a - D a b) /\ 0 < D b a - D a b).
Proof.
  intros Hv Hx.
  destruct (exact_balances_closed_form memberDetails expenses settlements Hv)
    as (bs & E & Hbs).
  exists (map dBalance bs). split.
  { rewrite (computeBalances_side_by_side j _ _ _ Hx), E. reflexivity. }
  intros ba Hba. apply in_map_dBalance in Hba.
  destruct Hba as (b0 & -> & Hb0).
  destruct (Hbs b0 Hb0) as (Ht & Hl). cbv zeta in Ht, Hl |- *.
  cbn [dBalance Double.member Double.totalBalance Double.owes Double.owedBy].
  split; [now rewrite Ht|].
  intros b v Hb. split; rewrite in_dObj.
  - split.
    + intros (v' & -> & Hin). apply (Hl b v' Hb) in Hin.
      destruct Hin as (-> & Hpos). auto.
    + intros (-> & Hpos). eexists (Num _). split; [reflexivity|].
      apply (Hl b _ Hb). auto.
  - split.
    + intros (v' & -> & Hin). apply (Hl b v' Hb) in Hin.
      destruct Hin as (-> & Hpos). auto.
    + intros (-> & Hpos). eexists (Num _). split; [reflexivity|].
      apply (Hl b _ Hb). auto.
Qed.

Lemma balances_closed_form_when_exact_witness :
  exists balances,
    Double.computeBalances rounding_roster (map dExpense whole_expenses)
      (map dSettlement whole_settlements) = Ok balances /\
    forall ba, In ba balances ->
      let a := id (Double.member ba) in
      let D x y := debt whole_expenses x y - repaid whole_settlements x y in
      Double.totalBalance ba =
        Some (Double.Fin (netOfExpenses whole_expenses a +
                          netOfSettlements whole_settlements a))
      /\
      forall b v, In b (map id rounding_roster) ->
        (In (b, v) (Double.owes ba) <->
         v = Double.Fin (D a b - D b a) /\ 0 < D a b - D b a) /\
        (In (b, v) (Double.owedBy ba) <->
         v = Double.Fin (D b a - D a b) /\ 0 < D b a - D a b).
Proof.
  apply (balances_closed_form_when_exact 1074 rounding_roster whole_expenses
           whole_settlements).
  - split.
    + intros e [<-|[]]. split; simpl; [tauto|].
      intros sp [<-|[<-|[<-|[]]]]; simpl; tauto.
    + intros s [<-|[]]; split; simpl; tauto.
  - split; [lia|]. split.
    + intros z [<-|[<-|[<-|[<-|[]]]]];
        [exists 10 | exists 10 | exists 10 | exists 15]; reflexivity.
    + vm_compute. discriminate.
Defined.

(** On doubles the order of the records matters only through rounding: on
    a valid input whose amounts keep the arithmetic exact, listing the
    expenses in another order and the settlements in another order gives
    the same outcome, list for list. *)
Theorem record_order_irrelevant_when_exact (j : Z)
  (memberDetails : list MemberDetail)
  (expenses expenses' : list Expense)
  (settlements settlements' : list Settlement) :
  validInput (map id memberDetails) expenses settlements ->
  exactAmounts j expenses settlements ->
  Permutation expenses expenses' ->
  Permutation settlements settlements' ->
  Double.computeBalances memberDetails (map dExpense expenses')
    (map dSettlement settlements') =
  Double.computeBalances memberDetails (map dExpense expenses)
    (map dSettlement settlements).
Proof.
  intros Hv Hx Pe Ps.
  rewrite (computeBalances_side_by_side j _ _ _ Hx).
  rewrite (computeBalances_side_by_side j _ _ _
             (exactAmounts_perm _ _ _ _ _ Pe Ps Hx)).
  f_equal. now apply exact_record_order_is_irrelevant.
Qed.

Lemma record_order_irrelevant_when_exact_witness :
  Double.computeBalances rounding_roster
    (map dExpense
       [mkExpense "g" "B" [mkSplit "C" (Double.whole 4) false];
        mkExpense "g" "A" [mkSplit "B" (Double.whole 10) false]])
    (map dSettlement whole_settlements) =
  Double.computeBalances rounding_roster
    (map dExpense
       [mkExpense "g" "A" [mkSplit "B" (Double.whole 10) false];
        mkExpense "g" "B" [mkSplit "C" (Double.whole 4) false]])
    (map dSettlement whole_settlements).
Proof.
  apply (record_order_irrelevant_when_exact 1074 rounding_roster).
  - split.
    + intros e [<-|[<-|[]]]; (split; simpl; [tauto|]);
        intros sp [<-|[]]; simpl; tauto.
    + intros s [<-|[]]; split; simpl; tauto.
  - split; [lia|]. split.
    + intros z [<-|[<-|[<-|[]]]];
        [exists 10 | exists 4 | exists 15]; reflexivity.
    + vm_compute. discriminate.
  - apply perm_swap.
  - apply Permutation_refl.
Defined.

(** Without that condition the order shows: B owes A the doubles [0.1],
    [0.2] and [0.3]; recorded in this order they add up to
    [0.6000000000000001], in the reverse order to [0.6]. *)
Example record_order_shows_by_rounding :
  Double.computeBalances [md "A"; md "B"]
    (map dExpense [mkExpense "g" "A" [mkSplit "B" tenth false;
                                      mkSplit "B" fifth false;
                                      mkSplit "B" three_tenths false]]) []
  <>
  Double.computeBalances [md "A"; md "B"]
    (map dExpense [mkExpense "g" "A" [mkSplit "B" three_tenths false;
                                      mkSplit "B" fifth false;
                                      mkSplit "B" tenth false]]) [].
Proof. vm_compute. discriminate. Qed.

(** A member's net total on doubles is what the others owe them less what
    they owe the others: on a valid input whose amounts keep the arithmetic
    exact, over a roster listing each member once, every returned balance
    has a finite [totalBalance] equal to the sum of the amounts of its
    [owedBy] list less the sum of the amounts of its [owes] list. *)
Theorem total_is_owedBy_minus_owes_when_exact (j : Z)
  (memberDetails : list MemberDetail) (expenses : list Expense)
  (settlements : list Settlement) :
  NoDup (map id memberDetails) ->
  validInput (map id memberDetails) expenses settlements ->
  exactAmounts j expenses settlements ->
  exists balances,
    Double.computeBalances memberDetails (map dExpense expenses)
      (map dSettlement settlements) = Ok balances /\
    forall ba, In ba balances ->
      exists t x y,
        Double.totalBalance ba = Some (Double.Fin t) /\
        Double.sumValues (Double.amounts (Double.owedBy ba)) = Some x /\
        Double.sumValues (Double.amounts (Double.owes ba)) = Some y /\
        t = x - y.
Proof.
  intros Hnd Hv Hx.
  destruct (exact_total_is_owedBy_minus_owes memberDetails expenses
              settlements Hnd Hv) as (bs & E & Hbs).
  destruct (exact_balances_closed_form memberDetails expenses settlements Hv)
    as (bs' & E' & Hbs').
  rewrite E in E'. inversion E'. subst bs'. clear E'.
  exists (map dBalance bs). split.
  { rewrite (computeBalances_side_by_side j _ _ _ Hx), E. reflexivity. }
  intros ba Hba. apply in_map_dBalance in Hba.
  destruct Hba as (b0 & -> & Hb0).
  pose proof (Hbs b0 Hb0) as Ht. destruct (Hbs' b0 Hb0) as (Ht' & _).
  cbv zeta in Ht'. rewrite Ht' in Ht. inversion Ht as [Hsub].
  cbn [dBalance Double.totalBalance Double.owes Double.owedBy].
  rewrite !amounts_dObj.
  destruct (sumAmounts (owedBy b0)) as [x|] eqn:Ex;
    destruct (sumAmounts (owes b0)) as [y|] eqn:Ey; try discriminate.
  cbn [sub] in Hsub. inversion Hsub as [Hval].
  rewrite sumAmounts_sumNumbers in Ex, Ey.
  exists (x - y), x, y. rewrite Ht'. cbn [option_map dNum].
  rewrite (sumValues_dNum _ _ Ex), (sumValues_dNum _ _ Ey), Hval. auto.
Qed.

Lemma total_is_owedBy_minus_owes_when_exact_witness :
  exists balances,
    Double.computeBalances rounding_roster (map dExpense whole_expenses)
      (map dSettlement whole_settlements) = Ok balances /\
    forall ba, In ba balances ->
      exists t x y,
        Double.totalBalance ba = Some (Double.Fin t) /\
        Double.sumValues (Double.amounts (Double.owedBy ba)) = Some x /\
        Double.sumValues (Double.amounts (Double.owes ba)) = Some y /\
        t = x - y.
Proof.
  apply (total_is_owedBy_minus_owes_when_exact 1074 rounding_roster
           whole_expenses whole_settlements).
  - simpl. repeat constructor; simpl; intuition discriminate.
  - split.
    + intros e [<-|[]]. split; simpl; [tauto|].
      intros sp [<-|[<-|[<-|[]]]]; simpl; tauto.
    + intros s [<-|[]]; split; simpl; tauto.
  - split; [lia|]. split.
    + intros z [<-|[<-|[<-|[<-|[]]]]];
        [exists 10 | exists 10 | exists 10 | exists 15]; reflexivity.
    + vm_compute. discriminate.
Defined.

(** Without that condition the net total and the lists part: A pays
    [2^53] for B, [2^53] for C, [2] for B and [2] for C; [totals[A]] stops
    at [2^54] while the two entries of [owedBy] are [2^53 + 2] each. *)
Example total_and_lists_part_by_rounding :
  exists ba rest,
    Double.computeBalances rounding_roster
      (map dExpense
         [mkExpense "g" "A" [mkSplit "B" (Double.whole (2 ^ 53)) false;
                             mkSplit "C" (Double.whole (2 ^ 53)) false;
                             mkSplit "B" (Double.whole 2) false;
                             mkSplit "C" (Double.whole 2) false]]) []
      = Ok (ba :: rest) /\
    Double.totalBalance ba = Some (Double.Fin (Double.whole (2 ^ 54))) /\
    Double.sumValues (Double.amounts (Double.owedBy ba))
      = Some (Double.whole (2 ^ 54 + 4)) /\
    Double.owes ba = [].
Proof.
  eexists. eexists. split; [vm_compute; reflexivity|].
  repeat split; vm_compute; reflexivity.
Qed.

(** A settlement paid by a member to a non-member is accepted silently and
    breaks conservation on doubles as well: with amounts that keep the
    arithmetic exact the computation returns, and over a roster listing
    each member once the [totalBalance] fields sum to the settlement's
    amount instead of zero. *)
Theorem settlement_to_non_member_leaks_when_exact (j : Z)
  (memberDetails : list MemberDetail)
  (expenses : list Expense) (ss1 ss2 : list Settlement)
  (g p r : string) (amt : Z) :
  NoDup (map id memberDetails) ->
  validInput (map id memberDetails) expenses (ss1 ++ ss2) ->
  In p (map id memberDetails) -> ~ In r (map id memberDetails) ->
  exactAmounts j expenses (ss1 ++ mkSettlement g p r amt :: ss2) ->
  exists balances,
    Double.computeBalances memberDetails (map dExpense expenses)
      (map dSettlement (ss1 ++ mkSettlement g p r amt :: ss2))
      = Ok balances /\
    Double.sumValues (map Double.totalBalance balances) = Some amt.
Proof.
  intros Hnd Hv Hp Hr Hx.
  destruct (exact_settlement_to_non_member_leaks memberDetails expenses
              ss1 ss2 g p r amt Hnd Hv Hp Hr) as (bs & E & Hsum).
  exists (map dBalance bs). split.
  - rewrite (computeBalances_side_by_side j _ _ _ Hx), E. reflexivity.
  - rewrite totalBalance_dBalance. now apply sumValues_dNum.
Qed.

Lemma settlement_to_non_member_leaks_when_exact_witness :
  exists balances,
    Double.computeBalances [md "A"; md "B"]
      (map dExpense [mkExpense "g" "A" [mkSplit "B" (Double.whole 10) false]])
      (map dSettlement
         ([] ++ mkSettlement "g" "B" "X" (Double.whole 10) :: []))
      = Ok balances /\
    Double.sumValues (map Double.totalBalance balances)
      = Some (Double.whole 10).
Proof.
  apply (settlement_to_non_member_leaks_when_exact 1074 [md "A"; md "B"]
           [mkExpense "g" "A" [mkSplit "B" (Double.whole 10) false]] [] []
           "g" "B" "X" (Double.whole 10)).
  - simpl. repeat constructor; simpl; intuition discriminate.
  - split.
    + intros e [<-|[]]. split; simpl; [tauto|].
      intros sp [<-|[]]; simpl; tauto.
    + intros s [].
  - simpl. tauto.
  - simpl. intros [H|[H|[]]]; discriminate.
  - split; [lia|]. split.
    + intros z [<-|[<-|[]]]; exists 10; reflexivity.
    + vm_compute. discriminate.
Defined.

(** An expense paid by a non-member and split among members is accepted
    silently and breaks conservation on doubles as well: with amounts that
    keep the arithmetic exact the computation returns, and over a roster
    listing each member once the [totalBalance] fields sum to minus the
    unpaid amounts of that expense instead of zero. *)
Theorem expense_of_non_member_leaks_when_exact (j : Z)
  (memberDetails : list MemberDetail)
  (es1 es2 : list Expense) (settlements : list Settlement)
  (g payer : string) (sps : list Split) :
  NoDup (map id memberDetails) ->
  validInput (map id memberDetails) (es1 ++ es2) settlements ->
  ~ In payer (map id memberDetails) ->
  (forall sp, In sp sps -> In (userId sp) (map id memberDetails)) ->
  exactAmounts j (es1 ++ mkExpense g payer sps :: es2) settlements ->
  exists balances,
    Double.computeBalances memberDetails
      (map dExpense (es1 ++ mkExpense g payer sps :: es2))
      (map dSettlement settlements) = Ok balances /\
    Double.sumValues (map Double.totalBalance balances) =
    Some (- sumOver (fun sp => if paid sp then 0 else amount sp) sps).
Proof.
  intros Hnd Hv Hp Hs Hx.
  destruct (exact_expense_of_non_member_leaks memberDetails es1 es2
              settlements g payer sps Hnd Hv Hp Hs) as (bs & E & Hsum).
  exists (map dBalance bs). split.
  - rewrite (computeBalances_side_by_side j _ _ _ Hx), E. reflexivity.
  - rewrite totalBalance_dBalance. now apply sumValues_dNum.
Qed.

Lemma expense_of_non_member_leaks_when_exact_witness :
  exists balances,
    Double.computeBalances [md "A"; md "B"]
      (map dExpense
         ([] ++ mkExpense "g" "X" [mkSplit "A" (Double.whole 4) false;
                                   mkSplit "B" (Double.whole 6) true] :: []))
      (map dSettlement []) = Ok balances /\
    Double.sumValues (map Double.totalBalance balances) =
    Some (- sumOver (fun sp => if paid sp then 0 else amount sp)
              [mkSplit "A" (Double.whole 4) false;
               mkSplit "B" (Double.whole 6) true]).
Proof.
  apply (expense_of_non_member_leaks_when_exact 1074 [md "A"; md "B"] [] []
           [] "g" "X" [mkSplit "A" (Double.whole 4) false;
                       mkSplit "B" (Double.whole 6) true]).
  - simpl. repeat constructor; simpl; intuition discriminate.
  - split; intros x [].
  - simpl. intros [H|[H|[]]]; discriminate.
  - intros sp [<-|[<-|[]]]; simpl; tauto.
  - split; [lia|]. split.
    + intros z [<-|[<-|[]]]; [exists 4 | exists 6]; reflexivity.
    + vm_compute. discriminate.
Defined.

(** Only net positions matter on doubles when nothing rounds.  Over a
    roster listing each member once, two valid inputs whose amounts keep
    the arithmetic exact and which record the same net position for every
    pair of distinct members (what the first owes the second, less what
    the second owes the first, settlements deducted) give the same
    balances, list for list. *)
Theorem net_positions_decide_when_exact (j j' : Z)
  (memberDetails : list MemberDetail)
  (expenses expenses' : list Expense)
  (settlements settlements' : list Settlement) :
  NoDup (map id memberDetails) ->
  validInput (map id memberDetails) expenses settlements ->
  validInput (map id memberDetails) expenses' settlements' ->
  exactAmounts j expenses settlements ->
  exactAmounts j' expenses' settlements' ->
  (forall a b, In a (map id memberDetails) -> In b (map id memberDetails) ->
     a <> b ->
     (debt expenses a b - repaid settlements a b) -
     (debt expenses b a - repaid settlements b a) =
     (debt expenses' a b - repaid settlements' a b) -
     (debt expenses' b a - repaid settlements' b a)) ->
  Double.computeBalances memberDetails (map dExpense expenses')
    (map dSettlement settlements') =
  Double.computeBalances memberDetails (map dExpense expenses)
    (map dSettlement settlements).
Proof.
  intros Hnd Hv Hv' Hx Hx' Hd.
  rewrite (computeBalances_side_by_side j _ _ _ Hx).
  rewrite (computeBalances_side_by_side j' _ _ _ Hx').
  f_equal. now apply exact_balances_depend_on_net_positions.
Qed.

(** A settlement followed by its refund, against one partial repayment. *)
Lemma net_positions_decide_when_exact_witness :
  Double.computeBalances rounding_roster
    (map dExpense
       [mkExpense "g" "A" [mkSplit "B" (Double.whole 30) false;
                           mkSplit "C" (Double.whole 30) false]])
    (map dSettlement
       [mkSettlement "g" "B" "A" (Double.whole 10);
        mkSettlement "g" "A" "B" (Double.whole 10)]) =
  Double.computeBalances rounding_roster
    (map dExpense
       [mkExpense "g" "A" [mkSplit "B" (Double.whole 50) false;
                           mkSplit "C" (Double.whole 30) false]])
    (map dSettlement [mkSettlement "g" "B" "A" (Double.whole 20)]).
Proof.
  apply (net_positions_decide_when_exact 1074 1074 rounding_roster).
  - simpl. repeat constructor; simpl; intuition discriminate.
  - split.
    + intros e [<-|[]]. split; simpl; [tauto|].
      intros sp [<-|[<-|[]]]; simpl; tauto.
    + intros s [<-|[]]; split; simpl; tauto.
  - split.
    + intros e [<-|[]]. split; simpl; [tauto|].
      intros sp [<-|[<-|[]]]; simpl; tauto.
    + intros s [<-|[<-|[]]]; split; simpl; tauto.
  - split; [lia|]. split.
    + intros z [<-|[<-|[<-|[]]]];
        [exists 50 | exists 30 | exists 20]; reflexivity.
    + vm_compute. discriminate.
  - split; [lia|]. split.
    + intros z [<-|[<-|[<-|[<-|[]]]]];
        [exists 30 | exists 30 | exists 10 | exists 10]; reflexivity.
    + vm_compute. discriminate.
  - simpl. intros a b [<-|[<-|[<-|[]]]] [<-|[<-|[<-|[]]]] _;
      vm_compute; reflexivity.
Defined.

(** Without that condition a settlement and its refund leave a trace: B
    owes A the double [0.1] and pays A [0.2], which A refunds. *)
Example refund_shows_by_rounding :
  Double.computeBalances [md "A"; md "B"]
    (map dExpense [mkExpense "g" "A" [mkSplit "B" tenth false]])
    (map dSettlement [mkSettlement "g" "A" "B" fifth;
                      mkSettlement "g" "B" "A" fifth])
  <>
  Double.computeBalances [md "A"; md "B"]
    (map dExpense [mkExpense "g" "A" [mkSplit "B" tenth false]]) [].
Proof. vm_compute. discriminate. Qed.

(** The doubles of the handler are the exact values whenever the amounts
    keep the arithmetic exact: steps 2 to 4 on doubles fail where the exact
    steps fail and reach the same state where they return, and so does the
    whole computation with its balances, whatever ids the records
    mention. *)
Theorem doubles_are_exact_on_exact_amounts (j : Z)
  (memberDetails : list MemberDetail) (expenses : list Expense)
  (settlements : list Settlement) :
  exactAmounts j expenses settlements ->
  Double.preNetting (map id memberDetails) (map dExpense expenses)
    (map dSettlement settlements) =
    dResult dState (preNetting (map id memberDetails) expenses settlements) /\
  Double.computeBalances memberDetails (map dExpense expenses)
    (map dSettlement settlements) =
    dResult (map dBalance)
      (computeBalances memberDetails expenses settlements).
Proof.
  intros Hx. split.
  - destruct Hx as (Hj & Hd & Hb).
    exact (proj1 (preNetting_side_by_side j Hj _ _ _ Hd Hb)).
  - now apply (computeBalances_side_by_side j).
Qed.

Lemma doubles_are_exact_on_exact_amounts_witness :
  Double.preNetting (map id rounding_roster) (map dExpense whole_expenses)
    (map dSettlement whole_settlements) =
    dResult dState
      (preNetting (map id rounding_roster) whole_expenses whole_settlements)
  /\
  Double.computeBalances rounding_roster (map dExpense whole_expenses)
    (map dSettlement whole_settlements) =
    dResult (map dBalance)
      (computeBalances rounding_roster whole_expenses whole_settlements).
Proof.
  apply (doubles_are_exact_on_exact_amounts 1074).
  split; [lia|]. split.
  - intros z [<-|[<-|[<-|[<-|[]]]]];
      [exists 10 | exists 10 | exists 10 | exists 15]; reflexivity.
  - vm_compute. discriminate.
Defined.

(* ================================================================== *)
(** ** Doubles: rows, diagonal and ledgers that agree off the diagonal *)

Section DoubleRows.

Lemma double_getCell_ok L a b :
  get L a <> None ->
  Double.getCell L a b = Ok (Double.toNumber (Double.cell L a b)).
Proof.
  unfold Double.getCell, Double.cell.
  destruct (get L a); [reflexivity | congruence].
Qed.

Lemma double_setCell_ok L a b v :
  get L a <> None ->
  exists L', Double.setCell L a b v = Ok L' /\
             forall c, get L' c = None <-> get L c = None.
Proof.
  unfold Double.setCell. destruct (get L a) as [row|] eqn:E; [|congruence].
  intros _. eexists. split; [reflexivity|].
  intros c. rewrite get_set. eqb_cases c a; [|tauto].
  rewrite E. split; discriminate.
Qed.

Lemma double_setCell_rows L a b v L' :
  Double.setCell L a b v = Ok L' ->
  forall c, get L' c = None <-> get L c = None.
Proof.
  unfold Double.setCell. destruct (get L a) as [row|] eqn:E; [|discriminate].
  intros H. inversion H. subst L'. intros c. rewrite get_set.
  eqb_cases c a; [|tauto]. rewrite E. split; discriminate.
Qed.

Lemma double_hasRows_kept ids L L' :
  (forall c, get L' c = None <-> get L c = None) ->
  Double.hasRows ids L -> Double.hasRows ids L'.
Proof. intros H HR a Ha E. apply (HR a Ha). now apply H. Qed.

Lemma double_initLedger_ok ids :
  exists L, Double.initLedger ids = Ok L /\ Double.hasRows ids L /\
            forall a, Double.cell L a a = None.
Proof.
  destruct (initLedger_ok ids) as (L0 & E0 & HR0 & _ & Hd0 & _).
  exists (dLedger L0). rewrite initLedger_double, E0.
  split; [reflexivity|]. split.
  - intros a Ha. rewrite get_dLedger. specialize (HR0 a Ha).
    destruct (get L0 a); [discriminate | congruence].
  - intros a. now rewrite cell_dLedger, Hd0.
Qed.

Lemma double_applySplit_returns ids payer sp st :
  Double.hasRows ids (Double.ledger st) -> In (Double.userId sp) ids ->
  exists st', Double.applySplit payer sp st = Ok st' /\
              Double.hasRows ids (Double.ledger st').
Proof.
  intros HR Hd. unfold Double.applySplit.
  destruct (String.eqb (Double.userId sp) payer || Double.paid sp);
    [eauto|].
  cbv zeta. rewrite (double_getCell_ok _ _ _ (HR _ Hd)). cbn [bind].
  destruct (double_setCell_ok (Double.ledger st) (Double.userId sp) payer
              (Double.add
                 (Double.toNumber
                    (Double.cell (Double.ledger st) (Double.userId sp) payer))
                 (Double.amount sp)) (HR _ Hd)) as (L' & E & Hrows).
  rewrite E. cbn [bind]. eexists. split; [reflexivity|].
  cbn [Double.ledger]. now apply (double_hasRows_kept ids _ _ Hrows).
Qed.

Lemma double_applyExpenses_returns ids es st :
  (forall e, In e es -> Double.validExpense ids e) ->
  Double.hasRows ids (Double.ledger st) ->
  exists st', Double.applyExpenses es st = Ok st' /\
              Double.hasRows ids (Double.ledger st').
Proof.
  intros Hv. unfold Double.applyExpenses.
  apply (forEach_inv (fun s => Double.hasRows ids (Double.ledger s))).
  intros e s He Hs. unfold Double.applyExpense.
  apply (forEach_inv (fun s => Double.hasRows ids (Double.ledger s))); auto.
  intros sp s0 Hsp Hs0. apply double_applySplit_returns; auto.
  now apply (proj2 (Hv e He)).
Qed.

Lemma double_applySettlement_returns ids s st :
  Double.hasRows ids (Double.ledger st) ->
  In (Double.stl_paidByUserId s) ids ->
  exists st', Double.applySettlement s st = Ok st' /\
              Double.hasRows ids (Double.ledger st').
Proof.
  intros HR Hp. unfold Double.applySettlement. cbv zeta.
  rewrite (double_getCell_ok _ _ _ (HR _ Hp)). cbn [bind].
  destruct (double_setCell_ok (Double.ledger st) (Double.stl_paidByUserId s)
              (Double.stl_receivedByUserId s)
              (Double.sub
                 (Double.toNumber
                    (Double.cell (Double.ledger st)
                       (Double.stl_paidByUserId s)
                       (Double.stl_receivedByUserId s)))
                 (Double.stl_amount s)) (HR _ Hp)) as (L' & E & Hrows).
  rewrite E. cbn [bind]. eexists. split; [reflexivity|].
  cbn [Double.ledger]. now apply (double_hasRows_kept ids _ _ Hrows).
Qed.

Lemma double_applySettlements_returns ids ss st :
  (forall s, In s ss -> In (Double.stl_paidByUserId s) ids) ->
  Double.hasRows ids (Double.ledger st) ->
  exists st', Double.applySettlements ss st = Ok st' /\
              Double.hasRows ids (Double.ledger st').
Proof.
  intros Hv. unfold Double.applySettlements.
  apply (forEach_inv (fun s => Double.hasRows ids (Double.ledger s))).
  intros s s0 Hs Hs0. apply double_applySettlement_returns; auto.
Qed.

Lemma double_netPair_returns ids a b st :
  Double.hasRows ids (Double.ledger st) -> In a ids -> In b ids ->
  exists st', Double.netPair a b st = Ok st' /\
              Double.hasRows ids (Double.ledger st').
Proof.
  intros HR Ha Hb. unfold Double.netPair.
  destruct (geb a b); [eauto|].
  rewrite (double_getCell_ok _ a b (HR _ Ha)). cbn [bind].
  rewrite (double_getCell_ok _ b a (HR _ Hb)). cbn [bind]. cbv zeta.
  destruct (Double.gt0 _); [|destruct (Double.lt0 _)];
    match goal with
    | |- context [Double.setCell ?L ?p ?q ?v] =>
        destruct (double_setCell_ok L p q v (HR p ltac:(assumption)))
          as (L1 & E1 & R1);
        rewrite E1; cbn [bind];
        pose proof (double_hasRows_kept ids _ _ R1 HR) as HR1
    end;
    match goal with
    | |- context [Double.setCell ?L ?p ?q ?v] =>
        destruct (double_setCell_ok L p q v (HR1 p ltac:(assumption)))
          as (L2 & E2 & R2);
        rewrite E2; cbn [bind]
    end;
    (eexists; split; [reflexivity|]); cbn [Double.ledger];
    exact (double_hasRows_kept ids _ _ R2 HR1).
Qed.

Lemma double_netLedger_returns ids st :
  Double.hasRows ids (Double.ledger st) ->
  exists st', Double.netLedger ids st = Ok st' /\
              Double.hasRows ids (Double.ledger st').
Proof.
  unfold Double.netLedger.
  apply (forEach_inv (fun s => Double.hasRows ids (Double.ledger s))).
  intros a s Ha Hs.
  apply (forEach_inv (fun s => Double.hasRows ids (Double.ledger s))); auto.
  intros b s0 Hb Hs0. now apply double_netPair_returns.
Qed.

Lemma double_shapeBalances_returns mds st :
  Double.hasRows (map id mds) (Double.ledger st) ->
  exists bs, Double.shapeBalances mds st = Ok bs.
Proof.
  intros HR. unfold Double.shapeBalances. cbv zeta.
  set (ids := map id mds) in *.
  assert (G : forall l, incl l mds ->
            exists bs, mapM (Double.shapeBalance ids st) l = Ok bs).
  { induction l as [|m l IH]; intros Hl; [cbn [mapM]; eauto|].
    destruct IH as (bs & Ebs); [intros x Hx; apply Hl; now right|].
    cbn [mapM]. rewrite Ebs.
    assert (Hm : In (id m) ids).
    { apply in_map. apply Hl. now left. }
    unfold Double.shapeBalance.
    destruct (get (Double.ledger st) (id m)) as [row|] eqn:Er;
      [|exfalso; now apply (HR _ Hm)].
    rewrite (filterM_pure _
               (fun other => Double.gt0
                  (Double.toNumber (Double.cell (Double.ledger st) other
                                      (id m)))) ids).
    2:{ intros o Ho. now rewrite (double_getCell_ok _ _ _ (HR _ Ho)). }
    cbn [bind].
    rewrite (mapM_pure _
               (fun other => (other, Double.toNumber
                  (Double.cell (Double.ledger st) other (id m))))).
    2:{ intros o Ho. apply filter_In in Ho. destruct Ho as (Ho & _).
        now rewrite (double_getCell_ok _ _ _ (HR _ Ho)). }
    cbn [bind]. eauto. }
  apply G. apply incl_refl.
Qed.

(** On records that mention roster members only the computation on
    doubles returns, whatever the amounts are. *)
Lemma double_computeBalances_returns mds es ss :
  Double.validInput (map id mds) es ss ->
  exists bs, Double.computeBalances mds es ss = Ok bs.
Proof.
  intros (He & Hs). unfold Double.computeBalances, Double.preNetting.
  cbv zeta. unfold Double.initState.
  destruct (double_initLedger_ok (map id mds)) as (L0 & E0 & HR0 & _).
  rewrite E0. cbn [bind].
  destruct (double_applyExpenses_returns (map id mds) es
              (Double.mkState (Double.initTotals (map id mds)) L0) He HR0)
    as (s1 & E1 & HR1).
  rewrite E1. cbn [bind].
  destruct (double_applySettlements_returns (map id mds) ss s1
              (fun s H => proj1 (Hs s H)) HR1) as (s2 & E2 & HR2).
  rewrite E2. cbn [bind].
  destruct (double_netLedger_returns (map id mds) s2 HR2) as (s3 & E3 & HR3).
  rewrite E3. cbn [bind].
  now apply double_shapeBalances_returns.
Qed.

Lemma validInput_double ids es ss :
  validInput ids es ss ->
  Double.validInput ids (map dExpense es) (map dSettlement ss).
Proof.
  intros (He & Hs). split.
  - intros e Hin. apply in_map_iff in Hin. destruct Hin as (e0 & <- & H0).
    destruct (He e0 H0) as (Hp & Hsp). split; [exact Hp|].
    intros sp Hin. cbn [dExpense Double.splits] in Hin.
    apply in_map_iff in Hin. destruct Hin as (sp0 & <- & H1).
    now apply Hsp.
  - intros s Hin. apply in_map_iff in Hin. destruct Hin as (s0 & <- & H0).
    exact (Hs s0 H0).
Qed.

End DoubleRows.

Section DoubleStrip.

Lemma double_get_strip L a :
  get (Double.strip L) a = option_map (Double.offdiag a) (get L a).
Proof.
  induction L as [|[k r] L IH]; simpl; auto.
  eqb_cases a k; simpl; auto.
Qed.

Lemma double_get_offdiag a row b :
  get (Double.offdiag a row) b = if String.eqb b a then None else get row b.
Proof.
  induction row as [|[k v] row IH]; simpl.
  - now destruct (String.eqb b a).
  - destruct (String.eqb k a) eqn:Eka; simpl.
    + apply String.eqb_eq in Eka. subst k. rewrite IH.
      now destruct (String.eqb b a).
    + rewrite IH. apply String.eqb_neq in Eka.
      eqb_cases b k; auto.
      apply String.eqb_neq in Eka. now rewrite Eka.
Qed.

Lemma double_strip_set L a row :
  Double.strip (set L a row) = set (Double.strip L) a (Double.offdiag a row).
Proof.
  induction L as [|[k r] L IH]; simpl; auto.
  eqb_cases a k; simpl; auto. now rewrite IH.
Qed.

Lemma double_offdiag_set_diag a row v :
  Double.offdiag a (set row a v) = Double.offdiag a row.
Proof.
  induction row as [|[k w] row IH]; simpl.
  - now rewrite String.eqb_refl.
  - destruct (String.eqb a k) eqn:Eak; simpl.
    + rewrite String.eqb_sym in Eak. now rewrite Eak.
    + now rewrite IH.
Qed.

Lemma double_offdiag_set_other a row b v :
  b <> a -> Double.offdiag a (set row b v) = set (Double.offdiag a row) b v.
Proof.
  intros Hne. apply String.eqb_neq in Hne.
  induction row as [|[k w] row IH]; simpl.
  - now rewrite Hne.
  - destruct (String.eqb b k) eqn:Ebk; simpl.
    + apply String.eqb_eq in Ebk. subst k. rewrite Hne. simpl.
      now rewrite String.eqb_refl.
    + destruct (String.eqb k a); simpl; auto.
      rewrite Ebk. now rewrite IH.
Qed.

Lemma double_strip_rows L L' a :
  Double.strip L = Double.strip L' ->
  match get L a, get L' a with
  | Some row, Some row' => Double.offdiag a row = Double.offdiag a row'
  | None, None => True
  | _, _ => False
  end.
Proof.
  intros H. pose proof (double_get_strip L a) as H1.
  pose proof (double_get_strip L' a) as H2. rewrite H in H1. rewrite H1 in H2.
  destruct (get L a), (get L' a); simpl in H2;
    first [exact I | congruence].
Qed.

(** Entries between distinct members read the same. *)
Lemma double_getCell_strip L L' a b :
  Double.strip L = Double.strip L' -> a <> b ->
  Double.getCell L a b = Double.getCell L' a b.
Proof.
  intros H Hne. pose proof (double_strip_rows L L' a H) as Hr.
  unfold Double.getCell.
  destruct (get L a) as [row|], (get L' a) as [row'|]; try tauto.
  pose proof (double_get_offdiag a row b) as G1.
  pose proof (double_get_offdiag a row' b) as G2.
  assert (Eb : String.eqb b a = false)
    by (apply String.eqb_neq; congruence).
  rewrite Eb in G1, G2. rewrite Hr in G1. congruence.
Qed.

(** Writing the same value off the diagonal, or anything on it, keeps
    two ledgers in agreement. *)
Lemma double_setCell_strip L L' a b v v' :
  Double.strip L = Double.strip L' -> (a <> b -> v = v') ->
  rel_result (fun L1 L1' => Double.strip L1 = Double.strip L1')
    (Double.setCell L a b v) (Double.setCell L' a b v').
Proof.
  intros H Hv. pose proof (double_strip_rows L L' a H) as Hr.
  unfold Double.setCell.
  destruct (get L a) as [row|], (get L' a) as [row'|]; simpl; try tauto.
  rewrite !double_strip_set, H. f_equal.
  destruct (String.eqb b a) eqn:Eba.
  - apply String.eqb_eq in Eba. subst b.
    now rewrite !double_offdiag_set_diag.
  - apply String.eqb_neq in Eba.
    rewrite !double_offdiag_set_other by assumption.
    rewrite Hr, Hv; congruence.
Qed.

Lemma double_filter_offdiag a row :
  (forall v, In (a, v) row -> v = Double.NaN) ->
  filter (fun e => Double.gt0 (snd e)) row =
  filter (fun e => Double.gt0 (snd e)) (Double.offdiag a row).
Proof.
  induction row as [|[k v] row IH]; intros H; simpl; auto.
  destruct (String.eqb k a) eqn:Eka; simpl.
  - apply String.eqb_eq in Eka. subst k.
    rewrite (H v (or_introl eq_refl)). simpl.
    apply IH. intros w Hw. apply H. now right.
  - rewrite IH; auto. intros w Hw. apply H. now right.
Qed.

Lemma double_getCell_rel L L' a b :
  Double.strip L = Double.strip L' ->
  rel_result (fun v v' => a <> b -> v = v')
    (Double.getCell L a b) (Double.getCell L' a b).
Proof.
  intros H. destruct (String.eqb a b) eqn:Eab.
  - apply String.eqb_eq in Eab. subst b.
    pose proof (double_strip_rows L L' a H) as Hr. unfold Double.getCell.
    destruct (get L a), (get L' a); simpl; tauto.
  - apply String.eqb_neq in Eab.
    rewrite (double_getCell_strip L L' a b H Eab).
    destruct (Double.getCell L' a b); simpl; auto.
Qed.

End DoubleStrip.

Section DoubleDiagonal.

Lemma double_setCell_diagNaN L a b v L' :
  Double.setCell L a b v = Ok L' -> (a = b -> v = Double.NaN) ->
  Double.diagNaN L -> Double.diagNaN L'.
Proof.
  unfold Double.setCell. destruct (get L a) as [row|] eqn:E; [|discriminate].
  intros H Hv HD. inversion H. subst L'. clear H.
  intros c row' w Hrow Hin. rewrite get_set in Hrow.
  destruct (String.eqb c a) eqn:Eca.
  - apply String.eqb_eq in Eca. subst c. inversion Hrow. subst row'.
    apply in_set in Hin. destruct Hin as [[-> ->]|Hin]; auto.
    eapply HD; eauto.
  - eapply HD; eauto.
Qed.

(** The diagonal read by a self-directed update is never an amount. *)
Lemma double_diag_read_NaN L a cur :
  Double.diagNaN L -> Double.getCell L a a = Ok cur -> cur = Double.NaN.
Proof.
  intros HD. unfold Double.getCell.
  destruct (get L a) as [row|] eqn:E; [|discriminate].
  intros H. inversion H.
  destruct (get row a) as [v|] eqn:Ev; simpl; auto.
  eapply HD; eauto. now apply get_in.
Qed.

Lemma double_diag_absent_diagNaN L :
  (forall a, Double.cell L a a = None) -> Double.diagNaN L.
Proof.
  intros H a row v Hrow Hin. exfalso.
  specialize (H a). unfold Double.cell in H. rewrite Hrow in H.
  destruct (get row a) eqn:E; [discriminate|].
  apply get_none_keys in E. apply E. apply in_map_iff. now exists (a, v).
Qed.

Lemma double_applySplit_diagNaN payer sp st st' :
  Double.applySplit payer sp st = Ok st' ->
  Double.diagNaN (Double.ledger st) -> Double.diagNaN (Double.ledger st').
Proof.
  unfold Double.applySplit.
  destruct (String.eqb (Double.userId sp) payer) eqn:Eq; simpl.
  { intros H. inversion H. now subst. }
  destruct (Double.paid sp); simpl.
  { intros H. inversion H. now subst. }
  destruct (Double.getCell (Double.ledger st) (Double.userId sp) payer)
    as [cur|]; simpl; [|discriminate].
  destruct (Double.setCell (Double.ledger st) (Double.userId sp) payer
              (Double.add cur (Double.amount sp)))
    as [L'|] eqn:E; simpl; [|discriminate].
  intros H HD. inversion H. subst st'. simpl.
  apply (double_setCell_diagNaN _ _ _ _ _ E); auto.
  apply String.eqb_neq in Eq. congruence.
Qed.

Lemma double_applyExpenses_diagNaN es st st' :
  Double.applyExpenses es st = Ok st' ->
  Double.diagNaN (Double.ledger st) -> Double.diagNaN (Double.ledger st').
Proof.
  intros E H. revert E.
  apply (forEach_preserve (fun s => Double.diagNaN (Double.ledger s))); auto.
  intros e s s' _ Hs Ee. revert Ee.
  apply (forEach_preserve (fun s => Double.diagNaN (Double.ledger s))); auto.
  intros sp s0 s1 _ H0 E0. eapply double_applySplit_diagNaN; eauto.
Qed.

Lemma double_applySettlement_diagNaN s st st' :
  Double.applySettlement s st = Ok st' ->
  Double.diagNaN (Double.ledger st) -> Double.diagNaN (Double.ledger st').
Proof.
  unfold Double.applySettlement. intros H HD.
  destruct (Double.getCell (Double.ledger st) (Double.stl_paidByUserId s)
              (Double.stl_receivedByUserId s)) as [cur|] eqn:Ec;
    simpl in H; [|discriminate].
  destruct (Double.setCell (Double.ledger st) (Double.stl_paidByUserId s)
              (Double.stl_receivedByUserId s)
              (Double.sub cur (Double.stl_amount s))) as [L'|] eqn:E;
    simpl in H; [|discriminate].
  inversion H. subst st'. simpl.
  apply (double_setCell_diagNaN _ _ _ _ _ E); auto.
  intros Heq. rewrite <- Heq in Ec.
  now rewrite (double_diag_read_NaN _ _ _ HD Ec).
Qed.

Lemma double_netPair_diagNaN a b st st' :
  Double.netPair a b st = Ok st' ->
  Double.diagNaN (Double.ledger st) -> Double.diagNaN (Double.ledger st').
Proof.
  unfold Double.netPair. destruct (geb a b) eqn:G.
  { intros H. inversion H. now subst. }
  apply geb_false_ltb in G. pose proof (ltb_neq _ _ G) as Hne.
  destruct (Double.getCell (Double.ledger st) a b) as [x|]; simpl;
    [|discriminate].
  destruct (Double.getCell (Double.ledger st) b a) as [y|]; simpl;
    [|discriminate].
  destruct (Double.gt0 (Double.sub x y));
    [|destruct (Double.lt0 (Double.sub x y))]; intros H HD;
    match type of H with
    | bind (Double.setCell ?L0 ?p ?q ?v) _ = _ =>
        destruct (Double.setCell L0 p q v) as [L1|] eqn:E1; simpl in H;
        [|discriminate]
    end;
    match type of H with
    | bind (Double.setCell ?L0 ?p ?q ?v) _ = _ =>
        destruct (Double.setCell L0 p q v) as [L2|] eqn:E2; simpl in H;
        [|discriminate]
    end;
    inversion H; subst st'; simpl;
    (apply (double_setCell_diagNaN _ _ _ _ _ E2); [congruence|]);
    (apply (double_setCell_diagNaN _ _ _ _ _ E1); [congruence|exact HD]).
Qed.

End DoubleDiagonal.

Section DoubleSelfSettlement.

Variable p : string.

Lemma rel_result_and {A : Type} (R : A -> A -> Prop) (P P' : A -> Prop)
  (r r' : result A) :
  rel_result R r r' ->
  (forall a, r = Ok a -> P a) -> (forall a, r' = Ok a -> P' a) ->
  rel_result (fun a a' => R a a' /\ P a /\ P' a') r r'.
Proof.
  destruct r, r'; simpl; auto.
Qed.

Lemma rel_result_weaken {A : Type} (R R' : A -> A -> Prop) (r r' : result A) :
  (forall a a', R a a' -> R' a a') -> rel_result R r r' -> rel_result R' r r'.
Proof.
  destruct r, r'; simpl; auto.
Qed.

Lemma double_addTotal_agree T T' q a :
  (forall k, k <> p -> get T k = get T' k) ->
  forall k, k <> p ->
    get (Double.addTotal T q a) k = get (Double.addTotal T' q a) k.
Proof.
  intros H k Hk. unfold Double.addTotal. rewrite !get_set.
  eqb_cases k q; [|now apply H]. now rewrite (H _ Hk).
Qed.

Lemma double_subTotal_agree T T' q a :
  (forall k, k <> p -> get T k = get T' k) ->
  forall k, k <> p ->
    get (Double.subTotal T q a) k = get (Double.subTotal T' q a) k.
Proof.
  intros H k Hk. unfold Double.subTotal. rewrite !get_set.
  eqb_cases k q; [|now apply H]. now rewrite (H _ Hk).
Qed.

Lemma double_applySettlement_sim s st st' :
  Double.simExcept p st st' ->
  rel_result (Double.simExcept p)
    (Double.applySettlement s st) (Double.applySettlement s st').
Proof.
  intros (HT & HL & HD & HD').
  apply (rel_result_weaken
           (fun a a' =>
              ((forall k, k <> p ->
                  get (Double.totals a) k = get (Double.totals a') k) /\
               Double.strip (Double.ledger a) = Double.strip (Double.ledger a'))
              /\ Double.diagNaN (Double.ledger a)
              /\ Double.diagNaN (Double.ledger a'))).
  { intros a a' ((H1 & H2) & H3 & H4). repeat split; auto. }
  apply rel_result_and.
  - unfold Double.applySettlement. cbv zeta.
    eapply rel_bind; [apply double_getCell_rel, HL|].
    intros cur cur' Hcur.
    eapply rel_bind.
    + apply double_setCell_strip; [exact HL|].
      intros Hne. now rewrite (Hcur Hne).
    + intros L1 L1' H1. simpl. split; [|exact H1].
      now apply double_subTotal_agree, double_addTotal_agree.
  - intros a E. exact (double_applySettlement_diagNaN _ _ _ E HD).
  - intros a E. exact (double_applySettlement_diagNaN _ _ _ E HD').
Qed.

Lemma double_netPair_sim a b st st' :
  Double.simExcept p st st' ->
  rel_result (Double.simExcept p)
    (Double.netPair a b st) (Double.netPair a b st').
Proof.
  intros (HT & HL & HD & HD').
  apply (rel_result_weaken
           (fun a a' =>
              ((forall k, k <> p ->
                  get (Double.totals a) k = get (Double.totals a') k) /\
               Double.strip (Double.ledger a) = Double.strip (Double.ledger a'))
              /\ Double.diagNaN (Double.ledger a)
              /\ Double.diagNaN (Double.ledger a'))).
  { intros s s' ((H1 & H2) & H3 & H4). repeat split; auto. }
  apply rel_result_and.
  - unfold Double.netPair.
    destruct (geb a b) eqn:G; [simpl; split; auto|].
    apply geb_false_ltb in G. pose proof (ltb_neq _ _ G) as Hne.
    rewrite (double_getCell_strip _ _ a b HL Hne).
    rewrite (double_getCell_strip _ _ b a HL (not_eq_sym Hne)).
    destruct (Double.getCell (Double.ledger st') a b) as [x|]; simpl;
      [|reflexivity].
    destruct (Double.getCell (Double.ledger st') b a) as [y|]; simpl;
      [|reflexivity].
    destruct (Double.gt0 (Double.sub x y));
      [|destruct (Double.lt0 (Double.sub x y))];
      (eapply rel_bind;
       [apply double_setCell_strip; [exact HL|reflexivity]|];
       intros L1 L1' H1;
       eapply rel_bind;
       [apply double_setCell_strip; [exact H1|reflexivity]|];
       intros L2 L2' H2; simpl; split; auto).
  - intros s E. exact (double_netPair_diagNaN _ _ _ _ E HD).
  - intros s E. exact (double_netPair_diagNaN _ _ _ _ E HD').
Qed.

Lemma double_netLedger_sim ids st st' :
  Double.simExcept p st st' ->
  rel_result (Double.simExcept p)
    (Double.netLedger ids st) (Double.netLedger ids st').
Proof.
  apply forEach_rel. intros a s s' _.
  apply forEach_rel. intros b s0 s0' _. apply double_netPair_sim.
Qed.

(** Step 6 tells two such states apart by the net total of [p] only. *)
Lemma double_shapeBalance_sim ids st st' m :
  Double.simExcept p st st' ->
  rel_result (Double.sameButTotalOf p)
    (Double.shapeBalance ids st m) (Double.shapeBalance ids st' m).
Proof.
  intros (HT & HL & HD & HD'). unfold Double.shapeBalance, entries.
  pose proof (double_strip_rows _ _ (id m) HL) as Hr.
  destruct (get (Double.ledger st) (id m)) as [row|] eqn:E,
           (get (Double.ledger st') (id m)) as [row'|] eqn:E';
    try tauto; [|reflexivity].
  assert (Hcell : forall other,
    Double.getCell (Double.ledger st) other (id m) =
    Double.getCell (Double.ledger st') other (id m)).
  { intros other. destruct (String.eqb other (id m)) eqn:Eo.
    - apply String.eqb_eq in Eo. subst other.
      unfold Double.getCell. rewrite E, E'. f_equal.
      destruct (get row (id m)) as [v|] eqn:Ev,
               (get row' (id m)) as [v'|] eqn:Ev'; simpl; auto.
      + rewrite (HD _ _ _ E (get_in _ _ _ Ev)).
        now rewrite (HD' _ _ _ E' (get_in _ _ _ Ev')).
      + exact (HD _ _ _ E (get_in _ _ _ Ev)).
      + symmetry. exact (HD' _ _ _ E' (get_in _ _ _ Ev')).
    - apply String.eqb_neq in Eo. now apply double_getCell_strip. }
  rewrite (double_filter_offdiag (id m) row)
    by (intros v Hv; eapply HD; eauto).
  rewrite (double_filter_offdiag (id m) row')
    by (intros v Hv; eapply HD'; eauto).
  rewrite Hr.
  rewrite (filterM_ext _
    (fun other => v <- Double.getCell (Double.ledger st') other (id m) ;;
                  Ok (Double.gt0 v)))
    by (intros x _; now rewrite Hcell).
  destruct (filterM _ ids) as [ds|]; simpl; auto.
  rewrite (mapM_ext _
    (fun other => v <- Double.getCell (Double.ledger st') other (id m) ;;
                  Ok (other, v)))
    by (intros x _; now rewrite Hcell).
  destruct (mapM _ ds) as [ob|]; simpl; auto.
  repeat split; auto. simpl. intros Hm. now apply HT.
Qed.

Lemma mapM_rel {A B : Type} (R : B -> B -> Prop) (f g : A -> result B) l :
  (forall x, In x l -> rel_result R (f x) (g x)) ->
  rel_result (Forall2 R) (mapM f l) (mapM g l).
Proof.
  induction l as [|x l IH]; intros H; simpl; [constructor|].
  pose proof (H x (or_introl eq_refl)) as Hx.
  destruct (f x) as [y|e], (g x) as [y'|e']; simpl in Hx |- *; try tauto.
  assert (Hl : rel_result (Forall2 R) (mapM f l) (mapM g l))
    by (apply IH; intros z Hz; apply H; now right).
  destruct (mapM f l), (mapM g l); simpl in Hl |- *; try tauto.
  now constructor.
Qed.

Lemma double_shapeBalances_sim mds st st' :
  Double.simExcept p st st' ->
  rel_result (Forall2 (Double.sameButTotalOf p))
    (Double.shapeBalances mds st) (Double.shapeBalances mds st').
Proof.
  intros H. unfold Double.shapeBalances. apply mapM_rel.
  intros m _. now apply double_shapeBalance_sim.
Qed.

(** A settlement of [p] to themselves, where [ledger[p]] exists, changes
    the net total of [p] at most and nothing off the diagonal. *)
Lemma double_self_settlement_sim g amt st :
  get (Double.ledger st) p <> None ->
  Double.diagNaN (Double.ledger st) ->
  exists st', Double.applySettlement (Double.mkSettlement g p p amt) st
              = Ok st' /\ Double.simExcept p st st'.
Proof.
  intros Hrow HD.
  destruct (Double.applySettlement (Double.mkSettlement g p p amt) st)
    as [st'|e] eqn:E.
  2:{ exfalso. revert E. unfold Double.applySettlement. cbv zeta.
      cbn [Double.stl_paidByUserId Double.stl_receivedByUserId
           Double.stl_amount].
      rewrite (double_getCell_ok _ p p Hrow). cbn [bind].
      destruct (double_setCell_ok (Double.ledger st) p p
                  (Double.sub
                     (Double.toNumber (Double.cell (Double.ledger st) p p))
                     amt) Hrow) as (L' & EL & _).
      rewrite EL. discriminate. }
  exists st'. split; [reflexivity|].
  pose proof (double_applySettlement_diagNaN _ _ _ E HD) as HD'.
  revert E. unfold Double.applySettlement. cbv zeta.
  cbn [Double.stl_paidByUserId Double.stl_receivedByUserId Double.stl_amount].
  rewrite (double_getCell_ok _ p p Hrow). cbn [bind].
  unfold Double.setCell.
  destruct (get (Double.ledger st) p) as [row|] eqn:Erow; [|congruence].
  cbn [bind]. intros E. inversion E. subst st'. clear E.
  cbn [Double.totals Double.ledger] in *.
  split; [|split; [|split; [exact HD | exact HD']]].
  - intros k Hk. simpl. unfold Double.subTotal, Double.addTotal.
    rewrite (get_set_other _ p k _ Hk), (get_set_other _ p k _ Hk).
    reflexivity.
  - simpl. rewrite double_strip_set, double_offdiag_set_diag. symmetry.
    apply set_get_id. rewrite double_get_strip, Erow. reflexivity.
Qed.

(** Adding a settlement of a roster member to themselves never changes a
    list: the two computations on doubles fail alike or return balances
    with the same [owes] and [owedBy], and the same [totalBalance] for
    every other member, whatever the records and the amounts are. *)
Lemma double_self_settlement_lists mds es ss1 ss2 g amt :
  In p (map id mds) ->
  rel_result (Forall2 (Double.sameButTotalOf p))
    (Double.computeBalances mds es (ss1 ++ ss2))
    (Double.computeBalances mds es
       (ss1 ++ Double.mkSettlement g p p amt :: ss2)).
Proof.
  intros Hp. unfold Double.computeBalances, Double.preNetting. cbv zeta.
  unfold Double.initState.
  destruct (double_initLedger_ok (map id mds)) as (L0 & E0 & HR0 & Hd0).
  rewrite E0. cbn [bind].
  set (s0 := Double.mkState (Double.initTotals (map id mds)) L0).
  assert (HP0 : get (Double.ledger s0) p <> None
                /\ Double.diagNaN (Double.ledger s0)).
  { split; [now apply HR0 | now apply double_diag_absent_diagNaN]. }
  destruct (Double.applyExpenses es s0) as [s1|e1] eqn:E1; cbn [bind];
    [|reflexivity].
  assert (HP1 : get (Double.ledger s1) p <> None
                /\ Double.diagNaN (Double.ledger s1)).
  { split; [|exact (double_applyExpenses_diagNaN _ _ _ E1 (proj2 HP0))].
    revert E1. unfold Double.applyExpenses.
    apply (forEach_preserve (fun s => get (Double.ledger s) p <> None));
      [|exact (proj1 HP0)].
    intros e s s' _ Hs. unfold Double.applyExpense.
    apply (forEach_preserve (fun s => get (Double.ledger s) p <> None));
      [|exact Hs].
    intros sp t t' _ Ht. unfold Double.applySplit.
    destruct (_ || _); [intros X; inversion X; now subst|].
    cbv zeta. destruct (Double.getCell _ _ _); cbn [bind]; [|discriminate].
    destruct (Double.setCell _ _ _ _) as [L'|] eqn:EL; cbn [bind];
      [|discriminate].
    intros X. inversion X. subst t'. cbn [Double.ledger].
    intros Y. apply (double_setCell_rows _ _ _ _ _ EL) in Y. contradiction. }
  unfold Double.applySettlements. rewrite !forEach_app.
  destruct (forEach ss1 Double.applySettlement s1) as [s2|e2] eqn:E2;
    cbn [bind]; [|reflexivity].
  assert (HP2 : get (Double.ledger s2) p <> None
                /\ Double.diagNaN (Double.ledger s2)).
  { split.
    - revert E2.
      apply (forEach_preserve (fun s => get (Double.ledger s) p <> None));
        [|exact (proj1 HP1)].
      intros s t t' _ Ht. unfold Double.applySettlement. cbv zeta.
      destruct (Double.getCell _ _ _); cbn [bind]; [|discriminate].
      destruct (Double.setCell _ _ _ _) as [L'|] eqn:EL; cbn [bind];
        [|discriminate].
      intros X. inversion X. subst t'. cbn [Double.ledger].
      intros Y. apply (double_setCell_rows _ _ _ _ _ EL) in Y. contradiction.
    - revert E2.
      apply (forEach_preserve (fun s => Double.diagNaN (Double.ledger s)));
        [|exact (proj2 HP1)].
      intros s t t' _ Ht Et.
      exact (double_applySettlement_diagNaN _ _ _ Et Ht). }
  destruct (double_self_settlement_sim g amt s2 (proj1 HP2) (proj2 HP2))
    as (s2' & Es & Hsim).
  cbn [forEach]. rewrite Es. cbn [bind].
  eapply rel_bind.
  - apply (forEach_rel (Double.simExcept p)); [|exact Hsim].
    intros s t t' _. apply double_applySettlement_sim.
  - intros t t' Ht. eapply rel_bind.
    + apply double_netLedger_sim. exact Ht.
    + intros u u' Hu. now apply double_shapeBalances_sim.
Qed.

End DoubleSelfSettlement.

(** C8 (self-settlement is output-invisible), as the doubles allow it.  On
    a valid input, inserting anywhere among the settlements one whose payer
    and receiver are the same roster member [p] adds no entry to any list:
    both computations on doubles return, balance for balance with the same
    [owes] and [owedBy] and, for every member other than [p], the same
    [totalBalance].  When the amounts, that of the added settlement
    included, keep the arithmetic exact, the [totalBalance] of [p] is the
    same too: the balances are identical. *)
Theorem self_settlement_on_doubles (j : Z)
  (memberDetails : list MemberDetail) (expenses : list Expense)
  (ss1 ss2 : list Settlement) (g p : string) (amt : Z) :
  validInput (map id memberDetails) expenses (ss1 ++ ss2) ->
  In p (map id memberDetails) ->
  exists balances balances',
    Double.computeBalances memberDetails (map dExpense expenses)
      (map dSettlement (ss1 ++ ss2)) = Ok balances /\
    Double.computeBalances memberDetails (map dExpense expenses)
      (map dSettlement (ss1 ++ mkSettlement g p p amt :: ss2))
      = Ok balances' /\
    Forall2 (Double.sameButTotalOf p) balances balances' /\
    (exactAmounts j expenses (ss1 ++ mkSettlement g p p amt :: ss2) ->
     balances' = balances).
Proof.
  intros Hv Hp.
  destruct (double_computeBalances_returns memberDetails _ _
              (validInput_double _ _ _ Hv)) as (bs & Eb).
  pose proof (double_self_settlement_lists p memberDetails
                (map dExpense expenses) (map dSettlement ss1)
                (map dSettlement ss2) g (Double.Fin amt) Hp) as Hrel.
  rewrite <- map_app in Hrel.
  change (map dSettlement ss1 ++
          Double.mkSettlement g p p (Double.Fin amt) :: map dSettlement ss2)
    with (map dSettlement ss1 ++
          map dSettlement (mkSettlement g p p amt :: ss2)) in Hrel.
  rewrite <- map_app in Hrel. rewrite Eb in Hrel.
  destruct (Double.computeBalances memberDetails (map dExpense expenses)
              (map dSettlement (ss1 ++ mkSettlement g p p amt :: ss2)))
    as [bs'|e] eqn:Eb'; cbn [rel_result] in Hrel; [|contradiction].
  exists bs, bs'. split; [exact Eb|]. split; [reflexivity|].
  split; [exact Hrel|].
  intros Hx.
  destruct (exact_self_settlement_invisible memberDetails expenses ss1 ss2
              g p amt Hv Hp) as (bs0 & E0 & E0').
  rewrite (computeBalances_side_by_side j _ _ _
             (exactAmounts_without _ _ _ _ _ Hx)), E0 in Eb.
  rewrite (computeBalances_side_by_side j _ _ _ Hx), E0' in Eb'.
  cbn [dResult] in Eb, Eb'. congruence.
Qed.

Lemma self_settlement_on_doubles_witness :
  exists balances balances',
    Double.computeBalances rounding_roster (map dExpense whole_expenses)
      (map dSettlement ([] ++ whole_settlements)) = Ok balances /\
    Double.computeBalances rounding_roster (map dExpense whole_expenses)
      (map dSettlement
         ([] ++ mkSettlement "g" "C" "C" (Double.whole 7)
             :: whole_settlements)) = Ok balances' /\
    Forall2 (Double.sameButTotalOf "C") balances balances' /\
    (exactAmounts 1074 whole_expenses
       ([] ++ mkSettlement "g" "C" "C" (Double.whole 7) :: whole_settlements)
     -> balances' = balances).
Proof.
  apply (self_settlement_on_doubles 1074 rounding_roster whole_expenses []
           whole_settlements "g" "C" (Double.whole 7)).
  - split.
    + intros e [<-|[]]. split; simpl; [tauto|].
      intros sp [<-|[<-|[<-|[]]]]; simpl; tauto.
    + intros s [<-|[]]; split; simpl; tauto.
  - simpl. tauto.
Defined.

(** The amounts of that example keep the arithmetic exact. *)
Example self_settlement_amounts_exact :
  exactAmounts 1074 whole_expenses
    ([] ++ mkSettlement "g" "C" "C" (Double.whole 7) :: whole_settlements).
Proof.
  split; [lia|]. split.
  - intros z [<-|[<-|[<-|[<-|[<-|[]]]]]];
      [exists 10 | exists 10 | exists 10 | exists 7 | exists 15];
      reflexivity.
  - vm_compute. discriminate.
Qed.

(* ================================================================== *)
(** ** The arithmetic of [Double] on known sums *)

(** [2^53 + 1] is a tie between [2^53] and [2^53 + 2] and goes to the even
    one. *)
Example double_tie_to_even :
  Double.add (Double.Fin (Double.whole (2 ^ 53))) (Double.Fin (Double.whole 1))
  = Double.Fin (Double.whole (2 ^ 53)) /\
  Double.add (Double.Fin (Double.whole (2 ^ 53 + 2)))
    (Double.Fin (Double.whole 1))
  = Double.Fin (Double.whole (2 ^ 53 + 4)).
Proof. split; vm_compute; reflexivity. Qed.

(** [0.1 + 0.2] is [0.30000000000000004], the double after [0.3]. *)
Example double_tenth_plus_fifth :
  Double.add (Double.Fin tenth) (Double.Fin fifth)
  = Double.Fin (Double.dyadic 5404319552844596 (-54)) /\
  Double.sub (Double.add (Double.Fin tenth) (Double.Fin fifth))
    (Double.Fin three_tenths)
  = Double.Fin (Double.dyadic 1 (-54)).
Proof. split; vm_compute; reflexivity. Qed.

(** The largest double plus itself overflows; infinities of opposite signs
    add up to [NaN]; the smallest doubles add without rounding. *)
Example double_overflow_and_subnormals :
  let largest := Double.dyadic (2 ^ 53 - 1) 971 in
  Double.add (Double.Fin largest) (Double.Fin largest) = Double.Inf false /\
  Double.sub (Double.Fin (- largest)) (Double.Fin largest) = Double.Inf true /\
  Double.add (Double.Fin largest) (Double.Fin (Double.dyadic 1 970))
    = Double.Inf false /\
  Double.add (Double.Fin largest) (Double.Fin (Double.dyadic 1 969))
    = Double.Fin largest /\
  Double.sub (Double.Inf false) (Double.Inf false) = Double.NaN /\
  Double.add (Double.Fin 1) (Double.Fin 2) = Double.Fin 3.
Proof. repeat split; vm_compute; reflexivity. Qed.
